(** * Out of Space: the game server's coordination core

    A shallow embedding of the Go backend (package [core] and the
    [click_race] minigame): messages and their wire encoding, function
    timers, lobbies and teams, the lobby activity, the ship activity with
    its flags, and the single-player click race.

    Conventions of the embedding.
    - A Go pointer is an identifier ([nat] or the flag's map key); the
      objects live in finite maps of the state record.
    - A Go [error] is [option error]: [None] is [nil].
    - A Go map that the code ranges over is kept as a list when the
      iteration order can influence the result (flags, team members);
      every statement below holds for whatever order the list has.
    - A panic ([Logger.Panic], a nil dereference, an index out of range)
      and a send on a channel that nobody will ever receive from are
      outcomes of their own, next to a normal return.
    - Strings stand for valid UTF-8 text (json.Marshal replaces invalid
      byte sequences, which the embedding leaves out). *)

From Stdlib Require Import ZArith Floats Lia Ascii String.
From stdpp Require Import base option list gmap strings fin_maps.

Set Warnings "-register-all".

Open Scope string_scope.
Open Scope list_scope.
Open Scope stdpp_scope.
Open Scope Z_scope.

(** ** Go values that travel in message payloads *)

(** The dynamic value of an [interface{}].  The first six constructors
    are what json.Unmarshal produces when it decodes into an
    [interface{}] ([VSlice] is a [[]interface{}] that is not nil, [VMap]
    a [map[string]interface{}] that is not nil).  The next three are the
    statically typed values the server itself puts into messages: [VInt]
    for [int] and [uint8], [VTypedSlice] for slices (not nil) and arrays
    of a fixed element type ([[]string], [[2]int]), [VTypedMap] for maps
    (not nil) of a fixed value type ([map[string]float64],
    [map[string]map[string]float64]); [elemTy] names the element type.
    The last two are the nil slice and the nil map of an element type
    ([interface {}] included), which are not the nil interface value
    [VNil]. *)
Inductive GoVal :=
| VNil
| VBool (b : bool)
| VFloat64 (f : float)
| VString (s : string)
| VSlice (l : list GoVal)
| VMap (m : gmap string GoVal)
| VInt (z : Z)
| VTypedSlice (elemTy : string) (l : list GoVal)
| VTypedMap (elemTy : string) (m : gmap string GoVal)
| VNilSlice (elemTy : string)
| VNilMap (elemTy : string).

(** A JSON number as it is written on the wire: the shortest decimal
    text that reads back as the float (strconv's 'g' format with
    precision -1), or a decimal integer. *)
Inductive JNumber :=
| NumFloat (f : float)
| NumInt (z : Z).

(** The abstract syntax of one JSON text, i.e. of one network frame. *)
Inductive JSON :=
| JNull
| JBool (b : bool)
| JNum (n : JNumber)
| JStr (s : string)
| JArr (l : list JSON)
| JObj (m : gmap string JSON).

(** ** Errors *)

Inductive error :=
| ErrFoundType (existing : GoVal)
| ErrJSONUnsupported
| ErrKeyMissing (key : string)
| ErrNotString (key : string) (v : GoVal)
| ErrNotFloat (key : string) (v : GoVal)
| ErrNotInteger (f : float)
| ErrPMUnknown (typ : string)
| ErrJoin (errs : list error).

(** errors.Join: nil when every argument is nil. *)
Definition Join (errs : list (option error)) : option error :=
  match omap id errs with
  | [] => None
  | es => Some (ErrJoin es)
  end.

Inductive Result (A : Type) :=
| Ok (a : A)
| Err (e : error).
Arguments Ok {A} a.
Arguments Err {A} e.

(** ** encoding/json on these values *)

(** json.Marshal refuses NaN and the infinities. *)
Fixpoint marshalable (v : GoVal) : bool :=
  match v with
  | VNil | VBool _ | VString _ | VInt _ | VNilSlice _ | VNilMap _ => true
  | VFloat64 f => PrimFloat.is_finite f
  | VSlice l | VTypedSlice _ l => forallb marshalable l
  | VMap m | VTypedMap _ m =>
      map_fold (λ _ x acc, marshalable x && acc) true m
  end.

(** A nil slice and a nil map are written as [null]. *)
Fixpoint toJSON (v : GoVal) : JSON :=
  match v with
  | VNil | VNilSlice _ | VNilMap _ => JNull
  | VBool b => JBool b
  | VFloat64 f => JNum (NumFloat f)
  | VString s => JStr s
  | VSlice l | VTypedSlice _ l => JArr (map toJSON l)
  | VMap m | VTypedMap _ m => JObj (toJSON <$> m)
  | VInt z => JNum (NumInt z)
  end.

Definition Marshal (v : GoVal) : Result JSON :=
  if marshalable v then Ok (toJSON v) else Err ErrJSONUnsupported.

(** The float64 nearest to an integer, ties to even, and an infinity
    beyond the range of float64: Go's conversion [float64(i)] of an
    [int], and strconv.ParseFloat on an integer literal. *)
Definition float_of_Z (z : Z) : float :=
  SF2Prim (binary_normalize prec emax z 0 false).

Definition parseNumber (n : JNumber) : float :=
  match n with
  | NumFloat f => f
  | NumInt z => float_of_Z z
  end.

(** The numbers of a JSON text all fit float64.  json.Unmarshal into an
    [interface{}] reads a number with strconv.ParseFloat and returns an
    error, once it has gone through the text, when one is out of range.
    (A [NumFloat] that is not finite stands for no text at all.) *)
Fixpoint finiteJSON (j : JSON) : bool :=
  match j with
  | JNull | JBool _ | JStr _ => true
  | JNum n => PrimFloat.is_finite (parseNumber n)
  | JArr l => forallb finiteJSON l
  | JObj m => map_fold (λ _ x acc, finiteJSON x && acc) true m
  end.

(** json.Unmarshal into an [interface{}]: numbers become float64, arrays
    [[]interface{}], objects [map[string]interface{}]. *)
Fixpoint fromJSON (j : JSON) : GoVal :=
  match j with
  | JNull => VNil
  | JBool b => VBool b
  | JNum n => VFloat64 (parseNumber n)
  | JStr s => VString s
  | JArr l => VSlice (map fromJSON l)
  | JObj m => VMap (fromJSON <$> m)
  end.

(** json.Unmarshal into a [map[string]interface{}] variable that starts
    nil: an object fills it, [null] leaves it nil (an empty map to every
    read), anything else is an error, and so is a number that does not
    fit float64 anywhere in the object. *)
Definition UnmarshalMap (data : JSON) : option (gmap string GoVal) :=
  match data with
  | JObj m => if finiteJSON data then Some (fromJSON <$> m) else None
  | JNull => Some ∅
  | _ => None
  end.

(** ** Message (message.go) *)

Record Message := mkMessage {
  Typ : string;
  payload : gmap string GoVal
}.

Definition NewMessage (typ : string) : Message :=
  {| Typ := typ; payload := ∅ |}.

Definition Add (key : string) (value : GoVal) (msg : Message) : Message :=
  {| Typ := Typ msg; payload := <[key := value]> (payload msg) |}.

Definition ParseMessage (data : JSON) : option Message :=
  match UnmarshalMap data with
  | None => None
  | Some parsed =>
      match parsed !! "type" with
      | None => None
      | Some (VString typeStr) =>
          Some {| Typ := typeStr; payload := delete "type" parsed |}
      | Some _ => None
      end
  end.

(** The copy loop [for k, v := range msg.payload { copied[k] = v }] over
    the map that starts as [{"type": msg.Type}] is the union in which the
    payload's entries win. *)
Definition Encode (msg : Message) : Result JSON :=
  match payload msg !! "type" with
  | Some existingType => Err (ErrFoundType existingType)
  | None =>
      let copied := payload msg ∪ {[ "type" := VString (Typ msg) ]} in
      Marshal (VMap copied)
  end.

Definition TryGet (key : string) (msg : Message) : option GoVal :=
  payload msg !! key.

Definition GetString (key : string) (msg : Message) : Result string :=
  match TryGet key msg with
  | None => Err (ErrKeyMissing key)
  | Some (VString s) => Ok s
  | Some v => Err (ErrNotString key v)
  end.

Definition GetNumber (key : string) (msg : Message) : Result float :=
  match TryGet key msg with
  | None => Err (ErrKeyMissing key)
  | Some (VFloat64 f) => Ok f
  | Some v => Err (ErrNotFloat key v)
  end.

(** JSON-native values: exactly what json.Unmarshal can produce for an
    [interface{}], with finite floats; its slices and maps are never
    nil. *)
Fixpoint native (v : GoVal) : bool :=
  match v with
  | VNil | VBool _ | VString _ => true
  | VFloat64 f => PrimFloat.is_finite f
  | VSlice l => forallb native l
  | VMap m => map_fold (λ _ x acc, native x && acc) true m
  | VInt _ | VTypedSlice _ _ | VTypedMap _ _ | VNilSlice _ | VNilMap _ => false
  end.

Definition native_payload (msg : Message) : Prop :=
  map_Forall (λ _ v, native v = true) (payload msg).

(** A measure for recursion through the nested containers. *)
Fixpoint vsize (v : GoVal) : nat :=
  match v with
  | VSlice l => S (list_sum (map vsize l))
  | VMap m => S (map_fold (λ _ x acc, (vsize x + acc)%nat) 0%nat m)
  | _ => 1%nat
  end.


(** ** Positions (movement.go) *)

Record Position := mkPosition { X : float; Y : float }.

Definition zeroPosition : Position := {| X := 0; Y := 0 |}.

Definition DistSq (p q : Position) : float :=
  let dx := (X p - X q)%float in
  let dy := (Y p - Y q)%float in
  (dx * dx + dy * dy)%float.

Definition ToMap (p : Position) : GoVal :=
  VTypedMap "float64" {[ "x" := VFloat64 (X p); "y" := VFloat64 (Y p) ]}.

(** ** Pointers and objects *)

Definition PlayerPtr := nat.
Definition ClientPtr := nat.
Definition LobbyPtr := nat.
Definition ShipPtr := nat.
Definition CtxPtr := nat.
Definition StorePtr := nat.
Definition Chan := nat.

(** A lobby owns exactly two teams; a [*Team] is the lobby together with
    the slot of [Lobby.Teams] it sits in. *)
Inductive TeamIndex := Team0 | Team1.

Record TeamPtr := mkTeamPtr { teamLobby : LobbyPtr; teamSlot : TeamIndex }.

Global Instance TeamIndex_eq_dec : EqDecision TeamIndex.
Proof. solve_decision. Defined.
Global Instance TeamPtr_eq_dec : EqDecision TeamPtr.
Proof. solve_decision. Defined.

(** The dynamic type and pointer behind a player's [Activity]. *)
Inductive ActivityPtr :=
| ActLobby (l : LobbyPtr)
| ActShip (s : ShipPtr)
| ActMinigame (c : CtxPtr).

Global Instance ActivityPtr_eq_dec : EqDecision ActivityPtr.
Proof. solve_decision. Defined.

(** player.go *)
Record Player := mkPlayer {
  Team : option TeamPtr;
  Client : option ClientPtr;
  Activity : option ActivityPtr;
  Name : string
}.

(** client.go; the connection and the shared out channel are in [State]. *)
Record ClientObj := mkClient {
  ClientPlayer : option PlayerPtr
}.

(** lobby.go and lobby_act.go.  A [Lobby] and the [LobbyActivity] built
    for it are allocated together and point at each other for life, so
    one record holds both: [Players0] and [Players1] are
    [Teams[0].Players] and [Teams[1].Players] (sets, kept as
    duplicate-free lists in the order a [range] visits them),
    [readyPlayers] is the activity's set. *)
Record Lobby := mkLobby {
  Players0 : list PlayerPtr;
  Players1 : list PlayerPtr;
  ID : string;
  readyPlayers : list PlayerPtr
}.

Definition TeamPlayers (l : Lobby) (i : TeamIndex) : list PlayerPtr :=
  match i with Team0 => Players0 l | Team1 => Players1 l end.

(** Insertion into and deletion from a Go set [map[*T]struct{}]. *)
Definition set_add (p : nat) (l : list nat) : list nat :=
  if decide (p ∈ l) then l else l ++ [p].

Definition set_del (p : nat) (l : list nat) : list nat :=
  filter (λ q, q ≠ p) l.

(** ** Function timers (hub.go) *)

(** The closures the server hands to the scheduler. *)
Inductive Callback :=
| CbShipTick (ship : ShipPtr)
| CbShipCountdownOver (ship : ShipPtr)
| CbCooldownTick (ship : ShipPtr) (flagID : string)
| CbCooldownEnd (ship : ShipPtr) (flagID : string)
| CbClickRaceTimeout (ctx : CtxPtr).

(** [End_] is the field [End]; [quit] is the channel, [None] for nil. *)
Record FunctionTimer := mkTimer {
  End_ : Z;
  quit : option Chan
}.

(** The goroutine that a timer constructor starts and that receives from
    the timer's quit channel: for [TickingTimer] the ticker loop (which
    schedules [onTick] every interval), for [SingleTimer] the one
    [select].  [listening] holds from the constructor until the
    goroutine has received from quit or, for [SingleTimer], until the
    timer fired; after that nobody ever receives from the channel. *)
Record TimerProc := mkTimerProc {
  onTick : option Callback;
  onNormalEnd : Callback;
  firesAt : Z;
  listening : bool
}.

(** ** Minigame prototypes and contexts (minigame.go) *)

(** A [ScoreStore] is an [interface{}]; the only store in the code base
    is the click race's [*int], so a store is nil or a pointer to an
    integer cell. *)
Definition ScoreStore := option StorePtr.

(** [StoreCtor] is nil or allocates a cell with the given initial value.
    [Constructor] always wraps the prototype, the store and the ship in a
    new context around a fresh implementation object.  What the
    implementation's [Start] does is given by [implStart]: from the
    participants and the value in the store, the messages it sends to
    each participant (the implementations placed on flags send their
    welcome messages and start timers of their own). *)
Record MinigamePrototype := mkProto {
  ProtoName : string;
  PlayerCount : Z;
  Worth : Z;
  Cooldown : Z;
  StoreCtor : option Z;
  implStart : list PlayerPtr → option Z → PlayerPtr → list Message
}.

Definition zeroProto : MinigamePrototype :=
  {| ProtoName := ""; PlayerCount := 0; Worth := 0; Cooldown := 0;
     StoreCtor := None; implStart := λ _ _ _, [] |}.

(** Go's integer division truncates. *)
Definition TeamSize (p : MinigamePrototype) : Z := PlayerCount p ÷ 2.

Definition IndividualWorth (p : MinigamePrototype) : float :=
  if decide (PlayerCount p = 1) then float_of_Z (Worth p)
  else (float_of_Z (Worth p) / float_of_Z (TeamSize p))%float.

Record MinigameResult := mkResult {
  winningTeam : option TeamPtr;
  disconnected : option PlayerPtr
}.

(** [invalidate] sets all four fields to nil; [ctxImpl] records whether
    [impl] is non-nil. *)
Record MinigameContext := mkCtx {
  ctxShip : option ShipPtr;
  ctxStore : ScoreStore;
  ctxProto : option MinigamePrototype;
  ctxImpl : bool
}.

(** ** The ship and its flags (ship.go) *)

Record Activation := mkActivation {
  startTime : Z;
  lockedPlayers : list PlayerPtr
}.

Record flag := mkFlag {
  pos : Position;
  minigameProto : MinigamePrototype;
  minigame : option CtxPtr;
  store : ScoreStore;
  owner : option TeamPtr;
  cooldown : FunctionTimer;
  activation : option Activation
}.

(** [fm.flags] is ranged over by code whose result depends on the order
    of the visit, so it is an association list: a [*flag] is the key of
    its entry. *)
Record Ship := mkShip {
  lobby : LobbyPtr;
  flags : list (string * flag);
  pmMap : gmap PlayerPtr Position;
  individualScores : gmap PlayerPtr float;
  timer : FunctionTimer;
  isEndgame : bool
}.

(** ** The state of the server *)

(** What the code takes from outside the sources at hand: the names in
    usernames.txt, the duration [gameDuration()] settles on,
    math.Sincos.  The server is taken to run without [--record], so
    [Ship.Recorder] stays nil. *)
Record Env := mkEnv {
  usernames : list string;
  gameDuration : Z;
  Sincos : float → float * float
}.

Record ClientMessageOut := mkOut { C : ClientPtr; M : JSON }.

(** [rng] holds the values math/rand returns next.  [now] is the clock;
    a handler runs at one instant.  [out] and [event] are the hub's
    channels of the same names, as unbounded queues. *)
Record State := mkState {
  env : Env;
  players : gmap PlayerPtr Player;
  clients : gmap ClientPtr ClientObj;
  lobbies : gmap LobbyPtr Lobby;
  activities : gmap string LobbyPtr;
  minigames : gmap string MinigamePrototype;
  ships : gmap ShipPtr Ship;
  contexts : gmap CtxPtr MinigameContext;
  stores : gmap StorePtr Z;
  timers : gmap Chan TimerProc;
  event : list Callback;
  out : list ClientMessageOut;
  now : Z;
  rng : list Z
}.

(** ** Field updates *)

Definition set_players (v : _) (r : State) : State :=
  mkState (env r) (v) (clients r) (lobbies r) (activities r) (minigames r) (ships r) (contexts r) (stores r) (timers r) (event r) (out r) (now r) (rng r).

Definition set_clients (v : _) (r : State) : State :=
  mkState (env r) (players r) (v) (lobbies r) (activities r) (minigames r) (ships r) (contexts r) (stores r) (timers r) (event r) (out r) (now r) (rng r).

Definition set_lobbies (v : _) (r : State) : State :=
  mkState (env r) (players r) (clients r) (v) (activities r) (minigames r) (ships r) (contexts r) (stores r) (timers r) (event r) (out r) (now r) (rng r).

Definition set_activities (v : _) (r : State) : State :=
  mkState (env r) (players r) (clients r) (lobbies r) (v) (minigames r) (ships r) (contexts r) (stores r) (timers r) (event r) (out r) (now r) (rng r).

Definition set_ships (v : _) (r : State) : State :=
  mkState (env r) (players r) (clients r) (lobbies r) (activities r) (minigames r) (v) (contexts r) (stores r) (timers r) (event r) (out r) (now r) (rng r).

Definition set_contexts (v : _) (r : State) : State :=
  mkState (env r) (players r) (clients r) (lobbies r) (activities r) (minigames r) (ships r) (v) (stores r) (timers r) (event r) (out r) (now r) (rng r).

Definition set_stores (v : _) (r : State) : State :=
  mkState (env r) (players r) (clients r) (lobbies r) (activities r) (minigames r) (ships r) (contexts r) (v) (timers r) (event r) (out r) (now r) (rng r).

Definition set_timers (v : _) (r : State) : State :=
  mkState (env r) (players r) (clients r) (lobbies r) (activities r) (minigames r) (ships r) (contexts r) (stores r) (v) (event r) (out r) (now r) (rng r).

Definition set_event (v : _) (r : State) : State :=
  mkState (env r) (players r) (clients r) (lobbies r) (activities r) (minigames r) (ships r) (contexts r) (stores r) (timers r) (v) (out r) (now r) (rng r).

Definition set_out (v : _) (r : State) : State :=
  mkState (env r) (players r) (clients r) (lobbies r) (activities r) (minigames r) (ships r) (contexts r) (stores r) (timers r) (event r) (v) (now r) (rng r).

Definition set_now (v : _) (r : State) : State :=
  mkState (env r) (players r) (clients r) (lobbies r) (activities r) (minigames r) (ships r) (contexts r) (stores r) (timers r) (event r) (out r) (v) (rng r).

Definition set_rng (v : _) (r : State) : State :=
  mkState (env r) (players r) (clients r) (lobbies r) (activities r) (minigames r) (ships r) (contexts r) (stores r) (timers r) (event r) (out r) (now r) (v).

Definition set_flags (v : _) (r : Ship) : Ship :=
  mkShip (lobby r) (v) (pmMap r) (individualScores r) (timer r) (isEndgame r).

Definition set_pmMap (v : _) (r : Ship) : Ship :=
  mkShip (lobby r) (flags r) (v) (individualScores r) (timer r) (isEndgame r).

Definition set_individualScores (v : _) (r : Ship) : Ship :=
  mkShip (lobby r) (flags r) (pmMap r) (v) (timer r) (isEndgame r).

Definition set_timer (v : _) (r : Ship) : Ship :=
  mkShip (lobby r) (flags r) (pmMap r) (individualScores r) (v) (isEndgame r).

Definition set_isEndgame (v : _) (r : Ship) : Ship :=
  mkShip (lobby r) (flags r) (pmMap r) (individualScores r) (timer r) (v).

Definition set_minigame (v : _) (r : flag) : flag :=
  mkFlag (pos r) (minigameProto r) (v) (store r) (owner r) (cooldown r) (activation r).

Definition set_owner (v : _) (r : flag) : flag :=
  mkFlag (pos r) (minigameProto r) (minigame r) (store r) (v) (cooldown r) (activation r).

Definition set_cooldown (v : _) (r : flag) : flag :=
  mkFlag (pos r) (minigameProto r) (minigame r) (store r) (owner r) (v) (activation r).

Definition set_activation (v : _) (r : flag) : flag :=
  mkFlag (pos r) (minigameProto r) (minigame r) (store r) (owner r) (cooldown r) (v).

Definition set_Team (v : _) (r : Player) : Player :=
  mkPlayer (v) (Client r) (Activity r) (Name r).

Definition set_Client (v : _) (r : Player) : Player :=
  mkPlayer (Team r) (v) (Activity r) (Name r).

Definition set_Activity (v : _) (r : Player) : Player :=
  mkPlayer (Team r) (Client r) (v) (Name r).

Definition set_Players0 (v : _) (r : Lobby) : Lobby :=
  mkLobby (v) (Players1 r) (ID r) (readyPlayers r).

Definition set_Players1 (v : _) (r : Lobby) : Lobby :=
  mkLobby (Players0 r) (v) (ID r) (readyPlayers r).

Definition set_readyPlayers (v : _) (r : Lobby) : Lobby :=
  mkLobby (Players0 r) (Players1 r) (ID r) (v).

(** ** Calls and their outcomes *)

(** A call returns, panics, blocks for ever on a channel, or needs a
    random number beyond the ones [rng] holds. *)
Inductive Outcome (A : Type) :=
| Returns (a : A) (s : State)
| Panics (why : string)
| Blocks
| Starves.
Arguments Returns {A} a s.
Arguments Panics {A} why.
Arguments Blocks {A}.
Arguments Starves {A}.

Definition Op (A : Type) : Type := State → Outcome A.

Global Instance Op_ret : MRet Op := λ A a s, Returns a s.

Global Instance Op_bind : MBind Op := λ A B f m s,
  match m s with
  | Returns a s' => f a s'
  | Panics why => Panics why
  | Blocks => Blocks
  | Starves => Starves
  end.

Definition gets {A} (f : State → A) : Op A := λ s, Returns (f s) s.
Definition modify (f : State → State) : Op unit := λ s, Returns tt (f s).
Definition panic {A} (why : string) : Op A := λ _, Panics why.
Definition block {A} : Op A := λ _, Blocks.

Definition when (b : bool) (body : Op unit) : Op unit :=
  if b then body else mret tt.

(** Dereferencing: a field that holds nil panics; a pointer that is not
    nil always has its object. *)
Definition deref {A} (what : string) (o : option A) : Op A :=
  match o with
  | Some a => mret a
  | None => panic ("nil pointer dereference: " +:+ what)
  end.

Definition getPlayer (p : PlayerPtr) : Op Player :=
  s ← gets players; deref "player" (s !! p).
Definition getLobby (l : LobbyPtr) : Op Lobby :=
  s ← gets lobbies; deref "lobby" (s !! l).
Definition getShip (ship : ShipPtr) : Op Ship :=
  s ← gets ships; deref "ship" (s !! ship).
Definition getCtx (ctx : CtxPtr) : Op MinigameContext :=
  s ← gets contexts; deref "minigame context" (s !! ctx).

Definition updPlayer (p : PlayerPtr) (f : Player → Player) : Op unit :=
  modify (λ s, set_players (alter f p (players s)) s).
Definition updLobby (l : LobbyPtr) (f : Lobby → Lobby) : Op unit :=
  modify (λ s, set_lobbies (alter f l (lobbies s)) s).
Definition updShip (ship : ShipPtr) (f : Ship → Ship) : Op unit :=
  modify (λ s, set_ships (alter f ship (ships s)) s).

(** Allocation: a new object gets an address no object has yet. *)
Definition allocPlayer (pl : Player) : Op PlayerPtr := λ s,
  let p := fresh (dom (players s)) in
  Returns p (set_players (<[p := pl]> (players s)) s).
Definition allocLobby (lb : Lobby) : Op LobbyPtr := λ s,
  let l := fresh (dom (lobbies s)) in
  Returns l (set_lobbies (<[l := lb]> (lobbies s)) s).
Definition allocShip (sh : Ship) : Op ShipPtr := λ s,
  let ship := fresh (dom (ships s)) in
  Returns ship (set_ships (<[ship := sh]> (ships s)) s).
Definition allocCtx (c : MinigameContext) : Op CtxPtr := λ s,
  let ctx := fresh (dom (contexts s)) in
  Returns ctx (set_contexts (<[ctx := c]> (contexts s)) s).
Definition allocCell (v : Z) : Op StorePtr := λ s,
  let a := fresh (dom (stores s)) in
  Returns a (set_stores (<[a := v]> (stores s)) s).

(** The next value of math/rand. *)
Definition draw : Op Z := λ s,
  match rng s with
  | [] => Starves
  | z :: rest => Returns z (set_rng rest s)
  end.

(** A loop over a slice (or over a snapshot of a set) that collects the
    error of every iteration. *)
Fixpoint forEach {A} (l : list A) (fn : A → Op (option error))
  : Op (list (option error)) :=
  match l with
  | [] => mret []
  | x :: rest =>
      e ← fn x;
      es ← forEach rest fn;
      mret (e :: es)
  end.

(** A loop that computes one value per element, and the Go map that
    the assignments [m[k] = v] build, taken in order. *)
Fixpoint mapOp {A B} (l : list A) (fn : A → Op B) : Op (list B) :=
  match l with
  | [] => mret []
  | x :: rest =>
      y ← fn x;
      ys ← mapOp rest fn;
      mret (y :: ys)
  end.

Definition assignAll {V} (kvs : list (string * V)) : gmap string V :=
  fold_left (λ m kv, <[kv.1 := kv.2]> m) kvs ∅.

(** ** Scheduler and function timers (hub.go) *)

(** [Scheduler.Add]: the callback joins the hub's event queue. *)
Definition SchedulerAdd (fn : Callback) : Op unit :=
  modify (λ s, set_event (event s ++ [fn]) s).

Definition ExpiredTimer : Op FunctionTimer :=
  t ← gets now; mret {| End_ := t; quit := None |}.

Definition startTimerProc (proc : TimerProc) : Op Chan := λ s,
  let c := fresh (dom (timers s)) in
  Returns c (set_timers (<[c := proc]> (timers s)) s).

Definition TickingTimer (end_ : Z) (fn : Callback) (onNormalEnd : Callback)
  : Op FunctionTimer :=
  c ← startTimerProc {| onTick := Some fn; onNormalEnd := onNormalEnd;
                        firesAt := end_; listening := true |};
  mret {| End_ := end_; quit := Some c |}.

Definition SingleTimer (end_ : Z) (fn : Callback) : Op FunctionTimer :=
  c ← startTimerProc {| onTick := None; onNormalEnd := fn;
                        firesAt := end_; listening := true |};
  mret {| End_ := end_; quit := Some c |}.

Definition HasEnded (timer : FunctionTimer) : Op bool :=
  t ← gets now;
  mret (bool_decide (quit timer = None) || bool_decide (End_ timer < t)).

Definition WasStopped (timer : FunctionTimer) : bool :=
  bool_decide (quit timer = None).

Definition TimeLeft (timer : FunctionTimer) : Op Z :=
  match quit timer with
  | None => mret 0
  | Some _ =>
      t ← gets now;
      if bool_decide (End_ timer < t) then mret 0 else mret (End_ timer - t)
  end.

(** Sending [fn] on the unbuffered quit channel: the goroutine that
    still listens takes it, schedules [fn] if it is not nil and returns;
    with no such goroutine the sender waits for ever. *)
Definition sendQuit (c : Chan) (fn : option Callback) : Op unit :=
  ts ← gets timers;
  match ts !! c with
  | Some proc =>
      if listening proc then
        modify (λ s, set_timers
          (<[c := {| onTick := onTick proc; onNormalEnd := onNormalEnd proc;
                     firesAt := firesAt proc; listening := false |}]>
             (timers s)) s);;
        match fn with
        | Some f => SchedulerAdd f
        | None => mret tt
        end
      else block
  | None => block
  end.

(** [StopWith] has a value receiver: the assignment [timer.quit = nil]
    changes the method's own copy of the timer and is lost on return, so
    the call yields no new timer value.  (A send on a nil channel would
    block; [HasEnded] returns first in that case.) *)
Definition StopWith (timer : FunctionTimer) (fn : option Callback) : Op unit :=
  ended ← HasEnded timer;
  if (ended : bool) then mret tt
  else
    match quit timer with
    | Some c => sendQuit c fn
    | None => block
    end.

Definition Stop (timer : FunctionTimer) : Op unit := StopWith timer None.

(** ** Clients (client.go) *)

Definition getClient (c : ClientPtr) : Op ClientObj :=
  s ← gets clients; deref "client" (s !! c).

Definition setClientPlayer (c : ClientPtr) (p : option PlayerPtr) : Op unit :=
  modify (λ s, set_clients (<[c := {| ClientPlayer := p |}]> (clients s)) s).

(** [Client.Send]: the encoded frame joins the outbound queue. *)
Definition Send (c : ClientPtr) (m : Message) : Op (option error) :=
  match Encode m with
  | Err e => mret (Some e)
  | Ok data =>
      modify (λ s, set_out (out s ++ [{| C := c; M := data |}]) s);;
      mret None
  end.

(** [p.Client.Send(m)] *)
Definition SendTo (p : PlayerPtr) (m : Message) : Op (option error) :=
  pl ← getPlayer p;
  c ← deref "Player.Client" (Client pl);
  Send c m.

(** ** Teams (team.go) *)

Definition getTeamPlayers (team : TeamPtr) : Op (list PlayerPtr) :=
  l ← getLobby (teamLobby team); mret (TeamPlayers l (teamSlot team)).

Definition updTeamPlayers (team : TeamPtr)
    (f : list PlayerPtr → list PlayerPtr) : Op unit :=
  updLobby (teamLobby team) (λ l,
    match teamSlot team with
    | Team0 => set_Players0 (f (Players0 l)) l
    | Team1 => set_Players1 (f (Players1 l)) l
    end).

Definition Team_AddPlayer (team : TeamPtr) (player : PlayerPtr) : Op unit :=
  pl ← getPlayer player;
  match Team pl with
  | Some _ => panic "player is already in a team"
  | None =>
      updTeamPlayers team (set_add player);;
      updPlayer player (set_Team (Some team))
  end.

Definition Team_RemovePlayer (team : TeamPtr) (player : PlayerPtr) : Op unit :=
  pl ← getPlayer player;
  if decide (Team pl = Some team) then
    updTeamPlayers team (set_del player);;
    updPlayer player (set_Team None)
  else panic "cannot remove a player from a team they are not a member of".

Definition OpposingTeam (team : TeamPtr) : TeamPtr :=
  match teamSlot team with
  | Team0 => {| teamLobby := teamLobby team; teamSlot := Team1 |}
  | Team1 => {| teamLobby := teamLobby team; teamSlot := Team0 |}
  end.

Definition Index (team : TeamPtr) : Z :=
  match teamSlot team with Team0 => 0 | Team1 => 1 end.

Definition ForAllMembers (team : TeamPtr) (fn : PlayerPtr → Op (option error))
  : Op (option error) :=
  members ← getTeamPlayers team;
  errs ← forEach members fn;
  mret (Join errs).

(** ** Lobbies (lobby.go) *)

Definition team0 (l : LobbyPtr) : TeamPtr := {| teamLobby := l; teamSlot := Team0 |}.
Definition team1 (l : LobbyPtr) : TeamPtr := {| teamLobby := l; teamSlot := Team1 |}.

Definition ForAllPlayers (l : LobbyPtr) (fn : PlayerPtr → Op (option error))
  : Op (option error) :=
  e0 ← ForAllMembers (team0 l) fn;
  e1 ← ForAllMembers (team1 l) fn;
  mret (Join [e0; e1]).

Definition PlayerCountOf (l : Lobby) : Z :=
  Z.of_nat (length (Players0 l)) + Z.of_nat (length (Players1 l)).

Definition PlayerCount_ (l : LobbyPtr) : Op Z :=
  lb ← getLobby l; mret (PlayerCountOf lb).

Definition AllowSmallerLobbies : bool := true.

Definition IsReady (l : LobbyPtr) : Op bool :=
  lb ← getLobby l;
  let n0 := Z.of_nat (length (Players0 lb)) in
  let n1 := Z.of_nat (length (Players1 lb)) in
  if AllowSmallerLobbies then mret (bool_decide (n0 > 0) && bool_decide (n0 = n1))
  else mret (bool_decide (n0 = 3) && bool_decide (n1 = 3)).

(** The names of the players in the lobby. *)
Definition buildPlayerNameSet (l : LobbyPtr) : Op (list string) :=
  lb ← getLobby l;
  ps ← gets players;
  mret (omap (λ p, Name <$> ps !! p) (Players0 lb ++ Players1 lb)).

(** id.go *)
Definition randomDigit : Op ascii :=
  z ← draw;
  mret (ascii_of_nat (48 + Z.to_nat ((z `mod` 2 ^ 32) `mod` 10))).

Definition randomLobbyCode : Op string :=
  d1 ← randomDigit; d2 ← randomDigit; d3 ← randomDigit; d4 ← randomDigit;
  mret (String d1 (String d2 (String d3 (String d4 EmptyString)))).

Definition randomUsername : Op string :=
  names ← gets (λ s, usernames (env s));
  z ← draw;
  if decide (names = []) then panic "integer divide by zero"
  else deref "usernames[i]"
         (names !! Z.to_nat ((z `mod` 2 ^ 32) `mod` Z.of_nat (length names))).

(** The loop of [generatePlayerName]; every turn takes one random
    number, so [fuel] beyond the length of [rng] is never used up. *)
Fixpoint generatePlayerName_loop (fuel : nat) (taken : list string) : Op string :=
  match fuel with
  | O => λ _, Starves
  | S n =>
      name ← randomUsername;
      if decide (name ∈ taken) then generatePlayerName_loop n taken
      else mret name
  end.

Definition generatePlayerName (l : LobbyPtr) : Op string :=
  taken ← buildPlayerNameSet l;
  fuel ← gets (λ s, S (length (rng s)));
  generatePlayerName_loop fuel taken.

(** The player object gets a fresh address. *)
Definition AddClient (l : LobbyPtr) (client : ClientPtr) : Op unit :=
  cl ← getClient client;
  match ClientPlayer cl with
  | Some _ => panic "client already has a player"
  | None =>
      name ← generatePlayerName l;
      p ← allocPlayer {| Team := None; Client := Some client;
                         Activity := None; Name := name |};
      setClientPlayer client (Some p);;
      lb ← getLobby l;
      if bool_decide (length (Players0 lb) ≤ length (Players1 lb))%nat
      then Team_AddPlayer (team0 l) p
      else Team_AddPlayer (team1 l) p
  end.

(** lobby_act.go: [LobbyManager.forget] *)
Definition forget (l : LobbyPtr) : Op unit :=
  lb ← getLobby l;
  modify (λ s, set_activities (delete (ID lb) (activities s)) s).

(** [player.Lobby()] *)
Definition PlayerLobby (player : PlayerPtr) : Op LobbyPtr :=
  pl ← getPlayer player;
  t ← deref "Player.Team" (Team pl);
  mret (teamLobby t).

Definition Lobby_RemovePlayer (l : LobbyPtr) (player : PlayerPtr) : Op unit :=
  pl_lobby ← PlayerLobby player;
  if decide (pl_lobby = l) then
    pl ← getPlayer player;
    t ← deref "Player.Team" (Team pl);
    Team_RemovePlayer t player;;
    c ← deref "Player.Client" (Client pl);
    setClientPlayer c None;;
    updPlayer player (set_Client None);;
    n ← PlayerCount_ l;
    when (bool_decide (n = 0)) (forget l)
  else panic "player was not in this lobby".

(** ** Players (player.go) *)

Definition InLobbyActivity (pl : Player) : bool :=
  match Activity pl with Some (ActLobby _) => true | _ => false end.

Definition InShipActivity (pl : Player) : bool :=
  match Activity pl with Some (ActShip _) => true | _ => false end.

Definition SwitchTeam (player : PlayerPtr) (team : TeamPtr) : Op unit :=
  pl ← getPlayer player;
  if InLobbyActivity pl then
    t ← deref "Player.Team" (Team pl);
    Team_RemovePlayer t player;;
    Team_AddPlayer team player
  else panic "can't change team when not in lobby activity".

Definition ForAllLobbyPeers (player : PlayerPtr)
    (fn : PlayerPtr → Op (option error)) : Op (option error) :=
  l ← PlayerLobby player;
  ForAllPlayers l (λ p, if decide (p = player) then mret None else fn p).

Definition ForAllActivityPeers (player : PlayerPtr)
    (fn : PlayerPtr → Op (option error)) : Op (option error) :=
  ForAllLobbyPeers player (λ lobbyPeer,
    peer ← getPlayer lobbyPeer;
    pl ← getPlayer player;
    if decide (Activity peer = Activity pl) then fn lobbyPeer else mret None).

Definition ForAllShipPeers (player : PlayerPtr)
    (fn : PlayerPtr → Op (option error)) : Op (option error) :=
  pl ← getPlayer player;
  if InShipActivity pl then ForAllActivityPeers player fn
  else panic "player is not in ship".

(** ** The lobby manager (lobby_act.go) *)

Definition generateLobbyID : Op string := randomLobbyCode.

Definition createLobby : Op LobbyPtr :=
  id ← generateLobbyID;
  l ← allocLobby {| Players0 := []; Players1 := []; ID := id;
                    readyPlayers := [] |};
  modify (λ s, set_activities (<[id := l]> (activities s)) s);;
  mret l.

Definition GetActivity (id : string) : Op (option LobbyPtr) :=
  acts ← gets activities; mret (acts !! id).

(** ** Joining a lobby (lobby_act.go) *)

(** [player.Team.Index()] *)
Definition PlayerTeamIndex (player : PlayerPtr) : Op Z :=
  pl ← getPlayer player;
  t ← deref "Player.Team" (Team pl);
  mret (Index t).

Definition PlayerName (player : PlayerPtr) : Op string :=
  pl ← getPlayer player; mret (Name pl).

Definition notifyJoineePeers (player : PlayerPtr) : Op (option error) :=
  name ← PlayerName player;
  idx ← PlayerTeamIndex player;
  let msg := Add "their_team" (VInt idx)
               (Add "their_name" (VString name) (NewMessage "lobby_peer_joined")) in
  ForAllLobbyPeers player (λ peer, SendTo peer msg).

(** The lobby's players other than [player], in the order
    [ForAllLobbyPeers] visits them. *)
Definition lobbyPeers (player : PlayerPtr) : Op (list PlayerPtr) :=
  l ← PlayerLobby player;
  lb ← getLobby l;
  mret (filter (λ p, p ≠ player) (Players0 lb ++ Players1 lb)).

Definition notifyJoinee (act : LobbyPtr) (player : PlayerPtr) : Op (option error) :=
  name ← PlayerName player;
  idx ← PlayerTeamIndex player;
  lb ← getLobby act;
  peers ← lobbyPeers player;
  entries ← mapOp peers (λ peer,
    n ← PlayerName peer;
    i ← PlayerTeamIndex peer;
    mret (n, VInt i));
  let peerTeamMap := assignAll entries in
  let msg := Add "peer_teams" (VTypedMap "uint8" peerTeamMap)
               (Add "lobby_id" (VString (ID lb))
                 (Add "your_team" (VInt idx)
                   (Add "your_name" (VString name) (NewMessage "lobby_welcome")))) in
  SendTo player msg.

Definition notifyPlayerJoin (act : LobbyPtr) (player : PlayerPtr) : Op (option error) :=
  e1 ← notifyJoinee act player;
  e2 ← notifyJoineePeers player;
  mret (Join [e1; e2]).

Definition HandleJoinRequest (act : LobbyPtr) (client : ClientPtr) : Op (option error) :=
  cl ← getClient client;
  match ClientPlayer cl with
  | Some _ => Send client (NewMessage "client_already_in_lobby_error")
  | None =>
      n ← PlayerCount_ act;
      if bool_decide (n > 5) then Send client (NewMessage "lobby_full")
      else
        AddClient act client;;
        cl' ← getClient client;
        p ← deref "Client.Player" (ClientPlayer cl');
        updPlayer p (set_Activity (Some (ActLobby act)));;
        notifyPlayerJoin act p
  end.

Definition HandleLobbyCreate (client : ClientPtr) : Op (option error) :=
  act ← createLobby;
  HandleJoinRequest act client.

(** client.go *)
Definition doLobbyCreate (c : ClientPtr) : Op (option error) :=
  HandleLobbyCreate c.

Definition doLobbyJoin (c : ClientPtr) (message : Message) : Op (option error) :=
  match GetString "lobby_id" message with
  | Err e => mret (Some e)
  | Ok id =>
      act ← GetActivity id;
      match act with
      | None => Send c (NewMessage "lobby_not_found")
      | Some a => HandleJoinRequest a c
      end
  end.

(** [Client.Receive]; the call through the [Activity] interface is the
    parameter [HandleMessage]. *)
Definition Receive
    (HandleMessage : ActivityPtr → PlayerPtr → Message → Op (option error))
    (c : ClientPtr) (m : Message) : Op (option error) :=
  if decide (Typ m = "lobby_create") then doLobbyCreate c
  else if decide (Typ m = "lobby_join") then doLobbyJoin c m
  else
    cl ← getClient c;
    match ClientPlayer cl with
    | Some p =>
        pl ← getPlayer p;
        act ← deref "Player.Activity" (Activity pl);
        HandleMessage act p m
    | None => Send c (NewMessage "client_unknown_non_lobby_message")
    end.

(** ** The ship activity (ship.go) *)

(** Durations and instants are in nanoseconds. *)
Definition Second : Z := 1000000000.
Definition Minute : Z := 60 * Second.

Definition playerFlagReach : float := 50%float.
Definition flagReachSq : float := 2500%float.
Definition fullGameDuration : Z := 10 * Minute.
Definition shipTickInterval : Z := 5 * Second.
Definition cooldownTickInterval : Z := 1 * Second.

(** [time.Duration.Seconds] *)
Definition Seconds (d : Z) : float :=
  (float_of_Z (d ÷ Second) + float_of_Z (Z.rem d Second) / 1000000000)%float.

(** [t.After(u)] *)
Definition After (t u : Z) : bool := bool_decide (u < t).

(** *** Flags *)

Fixpoint lookupFlag (id : string) (fl : list (string * flag)) : option flag :=
  match fl with
  | [] => None
  | (k, f) :: rest => if decide (k = id) then Some f else lookupFlag id rest
  end.

Fixpoint updateFlag (id : string) (g : flag → flag) (fl : list (string * flag))
  : list (string * flag) :=
  match fl with
  | [] => []
  | (k, f) :: rest =>
      if decide (k = id) then (k, g f) :: rest
      else (k, f) :: updateFlag id g rest
  end.

Definition getFlag (ship : ShipPtr) (id : string) : Op flag :=
  sh ← getShip ship; deref "flag" (lookupFlag id (flags sh)).

Definition updFlag (ship : ShipPtr) (id : string) (g : flag → flag) : Op unit :=
  updShip ship (λ sh, set_flags (updateFlag id g (flags sh)) sh).

Definition isActivated (f : flag) : bool :=
  match activation f with Some _ => true | None => false end.

(** [pl.Team], nil included. *)
Definition teamOf (ps : gmap PlayerPtr Player) (p : PlayerPtr) : option TeamPtr :=
  ps !! p ≫= Team.

(** The count [realN] of locked players on the team of [p]. *)
Definition sameTeamCount (ps : gmap PlayerPtr Player) (p : PlayerPtr)
    (locked : list PlayerPtr) : Z :=
  Z.of_nat (length (filter (λ pl, teamOf ps pl = teamOf ps p) locked)).

Definition needsPlayer (f : flag) (p : PlayerPtr) : Op bool :=
  match activation f with
  | None => panic "needsPlayer makes no sense for a flag that has not been activated"
  | Some a =>
      ps ← gets players;
      mret (bool_decide (sameTeamCount ps p (lockedPlayers a)
                         < TeamSize (minigameProto f)))
  end.

Definition hasAllPlayers (f : flag) : Op bool :=
  a ← deref "flag.activation" (activation f);
  mret (bool_decide (Z.of_nat (length (lockedPlayers a))
                     = PlayerCount (minigameProto f))).

(** *** The flag manager *)

Definition allocStore (ctor : option Z) : Op ScoreStore :=
  match ctor with
  | None => mret None
  | Some init => a ← allocCell init; mret (Some a)
  end.

Definition addMinigameFlag (ship : ShipPtr) (id : string)
    (proto : MinigamePrototype) (pos : Position) : Op unit :=
  sh ← getShip ship;
  match lookupFlag id (flags sh) with
  | Some _ => panic "flag ID is taken"
  | None =>
      st ← allocStore (StoreCtor proto);
      cd ← ExpiredTimer;
      updShip ship (λ sh, set_flags
        (flags sh ++ [(id, {| pos := pos; minigameProto := proto;
                              minigame := None; store := st; owner := None;
                              cooldown := cd; activation := None |})]) sh)
  end.

Definition isLockedTo (p : PlayerPtr) (f : flag) : bool :=
  match activation f with
  | Some a => bool_decide (p ∈ lockedPlayers a)
  | None => false
  end.

Fixpoint flagForPlayerIn (fl : list (string * flag)) (p : PlayerPtr)
  : option string :=
  match fl with
  | [] => None
  | (id, f) :: rest =>
      if isLockedTo p f then Some id else flagForPlayerIn rest p
  end.

Definition flagForPlayer (ship : ShipPtr) (p : PlayerPtr) : Op (option string) :=
  sh ← getShip ship; mret (flagForPlayerIn (flags sh) p).

(** The loop of [oldestFlagNeedingPlayer]; [oldest] carries the flag
    found so far with the start time of its activation. *)
Fixpoint oldestLoop (fl : list (string * flag)) (p : PlayerPtr)
    (oldest : option (string * Z)) : Op (option (string * Z)) :=
  match fl with
  | [] => mret oldest
  | (id, f) :: rest =>
      match activation f with
      | None => oldestLoop rest p oldest
      | Some a =>
          if match oldest with
             | None => true
             | Some (_, t) => After t (startTime a)
             end
          then
            n ← needsPlayer f p;
            if (n : bool) then oldestLoop rest p (Some (id, startTime a))
            else oldestLoop rest p oldest
          else oldestLoop rest p oldest
      end
  end.

Definition oldestFlagNeedingPlayer (ship : ShipPtr) (p : PlayerPtr)
  : Op (option string) :=
  sh ← getShip ship;
  r ← oldestLoop (flags sh) p None;
  mret (fst <$> r).

Definition idForFlag (ship : ShipPtr) (f : string) : Op string :=
  sh ← getShip ship;
  match lookupFlag f (flags sh) with
  | Some _ => mret f
  | None => panic "no such flag"
  end.

Fixpoint flagForMinigameIn (fl : list (string * flag)) (ctx : CtxPtr)
  : option string :=
  match fl with
  | [] => None
  | (id, f) :: rest =>
      if decide (minigame f = Some ctx) then Some id
      else flagForMinigameIn rest ctx
  end.

Definition flagForMinigame (ship : ShipPtr) (ctx : CtxPtr) : Op string :=
  sh ← getShip ship;
  match flagForMinigameIn (flags sh) ctx with
  | Some id => mret id
  | None => panic "no flag for given minigame"
  end.

Definition clearForEndgame (ship : ShipPtr) : Op unit :=
  sh ← getShip ship;
  mapOp (flags sh) (λ '(id, _),
    updFlag ship id (set_activation None);;
    f ← getFlag ship id;
    Stop (cooldown f));;
  mret tt.

Definition areAnyMinigamesOngoingIn (fl : list (string * flag)) : bool :=
  existsb (λ '(_, f), bool_decide (minigame f ≠ None)) fl.

Definition areAnyMinigamesOngoing (ship : ShipPtr) : Op bool :=
  sh ← getShip ship; mret (areAnyMinigamesOngoingIn (flags sh)).

Fixpoint teamScoresIn (fl : list (string * flag)) : Z * Z :=
  match fl with
  | [] => (0, 0)
  | (_, f) :: rest =>
      let '(s0, s1) := teamScoresIn rest in
      match owner f with
      | None => (s0, s1)
      | Some t =>
          if decide (Index t = 0) then (s0 + Worth (minigameProto f), s1)
          else (s0, s1 + Worth (minigameProto f))
      end
  end.

Definition teamScores (ship : ShipPtr) : Op (Z * Z) :=
  sh ← getShip ship; mret (teamScoresIn (flags sh)).

(** *** Entering the ship *)

Definition NewShip (l : LobbyPtr) : Op ShipPtr :=
  t ← ExpiredTimer;
  allocShip {| lobby := l; flags := []; pmMap := ∅; individualScores := ∅;
               timer := t; isEndgame := false |}.

Definition ForAllShipPlayers (ship : ShipPtr)
    (fn : PlayerPtr → Op (option error)) : Op (option error) :=
  sh ← getShip ship;
  ForAllPlayers (lobby sh) (λ p,
    pl ← getPlayer p;
    if decide (Activity pl = Some (ActShip ship)) then fn p else mret None).

Definition createInitialScores (ship : ShipPtr) : Op unit :=
  sh ← getShip ship;
  ForAllPlayers (lobby sh) (λ player,
    updShip ship (λ sh,
      set_individualScores (<[player := 0%float]> (individualScores sh)) sh);;
    mret None);;
  mret tt.

(** [protos[name]]: a missing key reads as the zero prototype. *)
Definition protoNamed (name : string) : Op MinigamePrototype :=
  ms ← gets minigames; mret (default zeroProto (ms !! name)).

Definition createFlags (ship : ShipPtr) : Op unit :=
  p ← protoNamed "shooter_3v3";
  addMinigameFlag ship "flag0" p {| X := 0; Y := 0 |};;
  p ← protoNamed "race_2v2";
  addMinigameFlag ship "flag1" p {| X := -192; Y := 208 |};;
  p ← protoNamed "card_match_sp";
  addMinigameFlag ship "flag2" p {| X := 192; Y := 208 |};;
  p ← protoNamed "fb_sp";
  addMinigameFlag ship "shush" p {| X := 192; Y := 0 |};;
  p ← protoNamed "whack_a_mole";
  addMinigameFlag ship "wam" p {| X := -192; Y := 0 |};;
  p ← protoNamed "rps_1v1";
  addMinigameFlag ship "blah" p {| X := 0; Y := 256 |};;
  p ← protoNamed "shooter_1v1";
  addMinigameFlag ship "dmspt" p {| X := 0; Y := -256 |};;
  p ← protoNamed "cps_race_sp";
  addMinigameFlag ship "idfk" p {| X := 192; Y := -208 |};;
  p ← protoNamed "cps_race_1v1";
  addMinigameFlag ship "idfk_" p {| X := -192; Y := -208 |}.

(** [rand.Shuffle]: for [i] from [n-1] down to 1, swap [i] with a random
    index in [0, i]. *)
Definition swap {A} (l : list A) (i j : nat) : list A :=
  match l !! i, l !! j with
  | Some a, Some b => <[i := b]> (<[j := a]> l)
  | _, _ => l
  end.

Fixpoint shuffleFrom {A} (i : nat) (l : list A) : Op (list A) :=
  match i with
  | O => mret l
  | S i' =>
      z ← draw;
      shuffleFrom i' (swap l i (Z.to_nat (z `mod` Z.of_nat (S i))))
  end.

Definition Shuffle {A} (l : list A) : Op (list A) :=
  shuffleFrom (length l - 1) l.

Definition randomisedMembers (team : TeamPtr) : Op (list PlayerPtr) :=
  members ← getTeamPlayers team;
  Shuffle members.

Definition setPos (ship : ShipPtr) (p : PlayerPtr) (at_ : Position) : Op unit :=
  updShip ship (λ sh, set_pmMap (<[p := at_]> (pmMap sh)) sh).

Definition index {A} (l : list A) (i : nat) : Op A :=
  match l !! i with
  | Some a => mret a
  | None => panic "index out of range"
  end.

Definition spawnTeam (ship : ShipPtr) (slot : TeamIndex)
    (left middle right : Position) : Op unit :=
  sh ← getShip ship;
  members ← randomisedMembers {| teamLobby := lobby sh; teamSlot := slot |};
  if decide (length members = 1%nat) then
    m0 ← index members 0; setPos ship m0 middle
  else
    m0 ← index members 0; setPos ship m0 left;;
    m1 ← index members 1; setPos ship m1 right;;
    if decide (length members = 3%nat) then
      m2 ← index members 2; setPos ship m2 middle
    else mret tt.

Definition setInitialPositions (ship : ShipPtr) : Op unit :=
  spawnTeam ship Team0 {| X := -32; Y := 416 |} {| X := 0; Y := 416 |}
                       {| X := 32; Y := 416 |};;
  spawnTeam ship Team1 {| X := -32; Y := -400 |} {| X := 0; Y := -400 |}
                       {| X := 32; Y := -400 |}.

(** [ship.pm.Map[p]]: a missing key reads as the zero position. *)
Definition posOf (sh : Ship) (p : PlayerPtr) : Position :=
  default zeroPosition (pmMap sh !! p).

(** The lobby's players in the ship other than [p], in the order
    [ForAllShipPeers] visits them. *)
Definition shipPeers (p : PlayerPtr) : Op (list PlayerPtr) :=
  pl ← getPlayer p;
  if InShipActivity pl then
    peers ← lobbyPeers p;
    ps ← gets players;
    mret (filter (λ q, (ps !! q ≫= Activity) = Activity pl) peers)
  else panic "player is not in ship".

Definition peerPositions (ship : ShipPtr) (p : PlayerPtr) : Op GoVal :=
  peers ← shipPeers p;
  sh ← getShip ship;
  entries ← mapOp peers (λ peer,
    n ← PlayerName peer; mret (n, ToMap (posOf sh peer)));
  mret (VTypedMap "map[string]float64" (assignAll entries)).

Definition flagInfo (f : flag) : GoVal :=
  VMap {[ "pos" := ToMap (pos f);
          "minigame" := VString (ProtoName (minigameProto f));
          "worth" := VInt (Worth (minigameProto f));
          "player_count" := VInt (PlayerCount (minigameProto f));
          "cooldown" := VFloat64 (Seconds (Cooldown (minigameProto f))) ]}.

Definition welcomePlayer (ship : ShipPtr) (p : PlayerPtr) : Op (option error) :=
  d ← gets (λ s, gameDuration (env s));
  sh ← getShip ship;
  peerSpawns ← peerPositions ship p;
  let flagInfos := assignAll (map (λ '(id, f), (id, flagInfo f)) (flags sh)) in
  let msg := Add "flags" (VTypedMap "map[string]interface {}" flagInfos)
               (Add "peer_spawns" peerSpawns
                 (Add "your_spawn" (ToMap (posOf sh p))
                   (Add "game_duration" (VFloat64 (Seconds d))
                     (NewMessage "ship_welcome")))) in
  SendTo p msg.

Definition welcomeAll (ship : ShipPtr) : Op (option error) :=
  sh ← getShip ship;
  ForAllPlayers (lobby sh) (λ p,
    updPlayer p (set_Activity (Some (ActShip ship)));; mret None);;
  ForAllPlayers (lobby sh) (λ p, welcomePlayer ship p).

Definition tick (ship : ShipPtr) : Op (option error) :=
  sh ← getShip ship;
  ended ← HasEnded (timer sh);
  if (ended : bool) then mret None
  else
    left ← TimeLeft (timer sh);
    let msg := Add "seconds_left" (VFloat64 (Seconds left)) (NewMessage "ship_tick") in
    ForAllShipPlayers ship (λ p, SendTo p msg).

Definition startTimer (ship : ShipPtr) : Op unit :=
  d ← gets (λ s, gameDuration (env s));
  t ← gets now;
  tm ← TickingTimer (t + d) (CbShipTick ship) (CbShipCountdownOver ship);
  updShip ship (set_timer tm).

Definition Ship_Start (ship : ShipPtr) : Op (option error) :=
  createInitialScores ship;;
  createFlags ship;;
  setInitialPositions ship;;
  welcomeErr ← welcomeAll ship;
  startTimer ship;;
  mret welcomeErr.

(** [ctx.ForAllPlayers]'s players: the lobby's players whose activity is
    the context. *)
Definition ensureValid (ctx : CtxPtr) : Op unit :=
  c ← getCtx ctx;
  if bool_decide (ctxProto c = None) || negb (ctxImpl c)
     || bool_decide (ctxShip c = None)
  then panic "minigame context method called on invalid context"
  else mret tt.

Definition ctxShipLobby (ctx : CtxPtr) : Op LobbyPtr :=
  c ← getCtx ctx;
  ship ← deref "ctx.Ship" (ctxShip c);
  sh ← getShip ship;
  mret (lobby sh).

Definition Ctx_ForAllPlayers (ctx : CtxPtr)
    (fn : PlayerPtr → Op (option error)) : Op (option error) :=
  ensureValid ctx;;
  l ← ctxShipLobby ctx;
  ForAllPlayers l (λ p,
    pl ← getPlayer p;
    if decide (Activity pl = Some (ActMinigame ctx)) then fn p else mret None).

Definition ctxPlayers (ctx : CtxPtr) : Op (list PlayerPtr) :=
  ensureValid ctx;;
  l ← ctxShipLobby ctx;
  lb ← getLobby l;
  ps ← gets players;
  mret (filter (λ p, (ps !! p ≫= Activity) = Some (ActMinigame ctx))
          (Players0 lb ++ Players1 lb)).

Definition namesOf (l : list PlayerPtr) : Op GoVal :=
  names ← mapOp l PlayerName;
  mret (VTypedSlice "string" (map VString names)).

(** The entry of [flagStates] for one flag, nil when there is nothing
    to report. *)
Definition flagState (f : flag) : Op (option GoVal) :=
  let info0 : gmap string GoVal :=
    match owner f with
    | Some t => {[ "capture_team" := VInt (Index t) ]}
    | None => ∅
    end in
  ended ← HasEnded (cooldown f);
  left ← TimeLeft (cooldown f);
  let info1 := if (ended : bool) then info0
               else <["cooldown_left" := VFloat64 (Seconds left)]> info0 in
  info2 ← match activation f with
          | Some a =>
              names ← namesOf (lockedPlayers a);
              mret (<["locked_players" := names]> info1)
          | None => mret info1
          end;
  info3 ← match minigame f with
          | Some ctx =>
              ps ← ctxPlayers ctx;
              names ← namesOf ps;
              mret (<["ongoing_players" := names]> info2)
          | None => mret info2
          end;
  if decide (size info3 = 0%nat) then mret None else mret (Some (VMap info3)).

Definition welcomePlayerBack (ship : ShipPtr) (p : PlayerPtr) : Op (option error) :=
  sh ← getShip ship;
  left ← TimeLeft (timer sh);
  let spawnObject := ToMap (posOf sh p) in
  peers ← peerPositions ship p;
  states ← mapOp (flags sh) (λ '(id, f),
    st ← flagState f; mret ((λ v, (id, v)) <$> st));
  let flagStates := assignAll (omap id states) in
  name ← PlayerName p;
  let msg := Add "flag_states" (VTypedMap "map[string]interface {}" flagStates)
               (Add "peer_positions" peers
                 (Add "your_spawn" spawnObject
                   (Add "seconds_left" (VFloat64 (Seconds left))
                     (NewMessage "ship_welcome_back")))) in
  selfErr ← SendTo p msg;
  let otherMsg := Add "spawn" spawnObject
                    (Add "their_name" (VString name)
                      (NewMessage "ship_welcome_back_peer")) in
  peerErr ← ForAllShipPeers p (λ peer, SendTo peer otherMsg);
  mret (Join [selfErr; peerErr]).

(** *** Locking players to flags and starting minigames *)

Definition addPlayerToFlag (ship : ShipPtr) (f : string) (p : PlayerPtr)
  : Op (option error) :=
  fl ← getFlag ship f;
  match activation fl with
  | None => panic "cannot add player to inactive flag"
  | Some a =>
      updFlag ship f (set_activation
        (Some {| startTime := startTime a;
                 lockedPlayers := set_add p (lockedPlayers a) |}));;
      id ← idForFlag ship f;
      let selfMsg := Add "flag_id" (VString id) (NewMessage "ship_player_lock_set") in
      selfErr ← SendTo p selfMsg;
      name ← PlayerName p;
      let peerMsg := Add "flag_id" (VString id)
                       (Add "their_name" (VString name)
                         (NewMessage "ship_peer_lock_set")) in
      peerErr ← ForAllShipPeers p (λ peer, SendTo peer peerMsg);
      mret (Join [selfErr; peerErr])
  end.

(** The lobby's players whose activity is the ship, in the order
    [ForAllShipPlayers] visits them. *)
Definition shipPlayers (ship : ShipPtr) : Op (list PlayerPtr) :=
  sh ← getShip ship;
  lb ← getLobby (lobby sh);
  ps ← gets players;
  mret (filter (λ p, (ps !! p ≫= Activity) = Some (ActShip ship))
          (Players0 lb ++ Players1 lb)).

(** [flagsAndEligiblePlayers[f] = append(flagsAndEligiblePlayers[f], p)]
    on the map kept as an association list. *)
Fixpoint addEligible (f : string) (p : PlayerPtr)
    (m : list (string * list PlayerPtr)) : list (string * list PlayerPtr) :=
  match m with
  | [] => [(f, [p])]
  | (k, l) :: rest =>
      if decide (k = f) then (k, l ++ [p]) :: rest
      else (k, l) :: addEligible f p rest
  end.

(** The flag a free player is put under, nil for a player who is locked
    already or whom no flag needs. *)
Definition eligibleFlagFor (ship : ShipPtr) (p : PlayerPtr) : Op (option string) :=
  locked ← flagForPlayer ship p;
  match locked with
  | Some _ => mret None
  | None => oldestFlagNeedingPlayer ship p
  end.

Definition findEligiblePlayersForFlags (ship : ShipPtr)
  : Op (list (string * list PlayerPtr)) :=
  ps ← shipPlayers ship;
  found ← mapOp ps (λ p,
    f ← eligibleFlagFor ship p; mret ((λ id, (id, p)) <$> f));
  mret (fold_left (λ m fp, addEligible fp.1 fp.2 m) (omap id found) []).

Definition notifyMinigameStart (ship : ShipPtr) (f : string) : Op (option error) :=
  flagID ← idForFlag ship f;
  fl ← getFlag ship f;
  a ← deref "flag.activation" (activation fl);
  joinErrs ← forEach (lockedPlayers a) (λ p,
    peerNames ← namesOf (filter (λ peer, peer ≠ p) (lockedPlayers a));
    let msgForPlayer := Add "peers" peerNames
                          (Add "flag_id" (VString flagID)
                            (NewMessage "ship_minigame_join")) in
    SendTo p msgForPlayer);
  shipErr ← ForAllShipPlayers ship (λ shipPlayer,
    if decide (shipPlayer ∈ lockedPlayers a) then mret None
    else
      errs ← forEach (lockedPlayers a) (λ minigamePlayer,
        name ← PlayerName minigamePlayer;
        let msg := Add "their_name" (VString name)
                     (Add "flag_id" (VString flagID)
                       (NewMessage "ship_peer_minigame_join")) in
        SendTo shipPlayer msg);
      mret (Join errs));
  mret (Join [Join joinErrs; shipErr]).

(** [NewMinigameContext] at a fresh address. *)
Definition NewMinigameContext (proto : MinigamePrototype) (st : ScoreStore)
    (ship : ShipPtr) : Op CtxPtr :=
  allocCtx {| ctxShip := Some ship; ctxStore := st;
              ctxProto := Some proto; ctxImpl := true |}.

Definition storeValue (st : ScoreStore) : Op (option Z) :=
  match st with
  | None => mret None
  | Some a => cells ← gets stores; mret (cells !! a)
  end.

(** [MinigameContext.Start]: the implementation's [Start] sends every
    participant what the prototype's [implStart] lists for them.  The
    timer that an implementation starts for itself is kept in its own
    object ([click_race.Start] is the click race's). *)
Definition Ctx_Start (ctx : CtxPtr) : Op (option error) :=
  ensureValid ctx;;
  c ← getCtx ctx;
  proto ← deref "ctx.proto" (ctxProto c);
  participants ← ctxPlayers ctx;
  v ← storeValue (ctxStore c);
  errs ← forEach participants (λ p,
    es ← forEach (implStart proto participants v p) (SendTo p);
    mret (Join es));
  mret (Join errs).

Definition startMinigameForFlag (ship : ShipPtr) (f : string) : Op (option error) :=
  notifyErr ← notifyMinigameStart ship f;
  fl ← getFlag ship f;
  ctx ← NewMinigameContext (minigameProto fl) (store fl) ship;
  updFlag ship f (set_minigame (Some ctx));;
  a ← deref "flag.activation" (activation fl);
  mapOp (lockedPlayers a) (λ p,
    updPlayer p (set_Activity (Some (ActMinigame ctx))));;
  updFlag ship f (set_activation None);;
  startErr ← Ctx_Start ctx;
  mret (Join [notifyErr; startErr]).

(** [slices.DeleteFunc(players, func(pl) bool { return pl == p ||
    !f.needsPlayer(pl) })] *)
Fixpoint dropUnneeded (ship : ShipPtr) (f : string) (p : PlayerPtr)
    (l : list PlayerPtr) : Op (list PlayerPtr) :=
  match l with
  | [] => mret []
  | pl :: rest =>
      del ← (if decide (pl = p) then mret true
             else fl ← getFlag ship f; n ← needsPlayer fl pl; mret (negb n));
      rest' ← dropUnneeded ship f p rest;
      mret (if (del : bool) then rest' else pl :: rest')
  end.

(** The loop [for len(players) > 0]; every turn deletes at least the
    player it added, so [fuel] beyond the length of the slice is never
    used up. *)
Fixpoint fillFlag (fuel : nat) (ship : ShipPtr) (f : string)
    (l : list PlayerPtr) : Op (list (option error)) :=
  match fuel with
  | O => mret []
  | S n =>
      if decide (l = []) then mret []
      else
        z ← draw;
        p ← index l (Z.to_nat ((z `mod` 2 ^ 63) `mod` Z.of_nat (length l)));
        e ← addPlayerToFlag ship f p;
        l' ← dropUnneeded ship f p l;
        es ← fillFlag n ship f l';
        mret (e :: es)
  end.

(** One turn of the loop of [addPlayersToFlags] over the flags: lock
    players to [f] while it needs them, then start its minigame if it
    has all its players. *)
Definition fillAndStart (ship : ShipPtr)
  : string * list PlayerPtr → Op (list (option error)) :=
  λ '(f, l),
    es ← fillFlag (length l) ship f l;
    fl ← getFlag ship f;
    full ← hasAllPlayers fl;
    if (full : bool) then
      e ← startMinigameForFlag ship f;
      mret (es ++ [e])
    else mret es.

Definition addPlayersToFlags (ship : ShipPtr) : Op (option error) :=
  sh ← getShip ship;
  if isEndgame sh then mret None
  else
    flagsAndEligiblePlayers ← findEligiblePlayersForFlags ship;
    errs ← mapOp flagsAndEligiblePlayers (fillAndStart ship);
    mret (Join (concat errs)).

(** *** Cooldowns and results *)

Definition sendCooldownTick (p : PlayerPtr) (id : string) (left : float)
  : Op (option error) :=
  SendTo p (Add "time_left" (VFloat64 left)
              (Add "flag_id" (VString id) (NewMessage "ship_flag_cooldown_tick"))).

Definition notifyCooldownTick (ship : ShipPtr) (f : string) : Op (option error) :=
  ForAllShipPlayers ship (λ p,
    fl ← getFlag ship f;
    left ← TimeLeft (cooldown fl);
    id ← idForFlag ship f;
    sendCooldownTick p id (Seconds left)).

Definition notifyCooldownEnd (ship : ShipPtr) (f : string) : Op (option error) :=
  ForAllShipPlayers ship (λ p,
    id ← idForFlag ship f;
    sendCooldownTick p id 0%float).

Definition startCooldown (ship : ShipPtr) (f : string) : Op unit :=
  idForFlag ship f;;
  fl ← getFlag ship f;
  t ← gets now;
  tm ← TickingTimer (t + Cooldown (minigameProto fl))
         (CbCooldownTick ship f) (CbCooldownEnd ship f);
  updFlag ship f (set_cooldown tm).

Definition notifyMinigameResult (ship : ShipPtr) (flagID : string)
    (result : MinigameResult) : Op (option error) :=
  let msg0 := Add "flag_id" (VString flagID) (NewMessage "ship_minigame_finished") in
  let msg := match winningTeam result with
             | Some t => Add "winning_team" (VInt (Index t)) msg0
             | None => msg0
             end in
  ForAllShipPlayers ship (λ p, SendTo p msg).

Definition notifyPeerLeft (ship : ShipPtr) (name : string) : Op (option error) :=
  sh ← getShip ship;
  let msg := Add "their_name" (VString name) (NewMessage "ship_peer_left") in
  ForAllPlayers (lobby sh) (λ p, SendTo p msg).

Definition namedIndividualScores (ship : ShipPtr) : Op GoVal :=
  sh ← getShip ship;
  entries ← mapOp (map_to_list (individualScores sh)) (λ '(p, sc),
    n ← PlayerName p; mret (n, VFloat64 sc));
  mret (VTypedMap "float64" (assignAll entries)).

(** *** The end of the game *)

Definition end_ (ship : ShipPtr) : Op (option error) :=
  sh ← getShip ship;
  n ← PlayerCount_ (lobby sh);
  if bool_decide (n = 0) then mret None
  else
    scores ← namedIndividualScores ship;
    '(s0, s1) ← teamScores ship;
    let endMsg := Add "team_scores" (VTypedSlice "int" [VInt s0; VInt s1])
                    (Add "individual_scores" scores
                      (NewMessage "ship_game_end")) in
    lb ← getLobby (lobby sh);
    lobbyAct ← GetActivity (ID lb);
    match lobbyAct with
    | None => panic "missing activity for non-empty lobby"
    | Some act =>
        ForAllPlayers (lobby sh) (λ p,
          updPlayer p (set_Activity (Some (ActLobby act)));;
          SendTo p endMsg)
    end.

Definition tryEnd (ship : ShipPtr) : Op (option error) :=
  ongoing ← areAnyMinigamesOngoing ship;
  if (ongoing : bool) then mret None
  else
    sh ← getShip ship;
    ForAllPlayers (lobby sh) (λ p,
      pl ← getPlayer p;
      if decide (Activity pl = Some (ActShip ship)) then mret None
      else panic "found a player outside of the ship, but there are no minigames ongoing");;
    end_ ship.

Definition enterEndgame (ship : ShipPtr) : Op (option error) :=
  updShip ship (set_isEndgame true);;
  sh ← getShip ship;
  Stop (timer sh);;
  clearForEndgame ship;;
  let msg := NewMessage "ship_endgame" in
  notifyErr ← ForAllPlayers (lobby sh) (λ p, SendTo p msg);
  endErr ← tryEnd ship;
  mret (Join [notifyErr; endErr]).

Definition tryEnterEndgame (ship : ShipPtr) : Op (option error) :=
  sh ← getShip ship;
  if isEndgame sh then tryEnd ship else enterEndgame ship.

Definition triggerEndgame (ship : ShipPtr) (nameOfLeaver : option string)
  : Op (option error) :=
  leaveErr ← match nameOfLeaver with
             | Some name => notifyPeerLeft ship name
             | None => mret None
             end;
  endgameErr ← tryEnterEndgame ship;
  mret (Join [leaveErr; endgameErr]).

Definition removePlayer (ship : ShipPtr) (player : PlayerPtr) : Op (option error) :=
  pl ← getPlayer player;
  if decide (Activity pl = Some (ActShip ship)) then
    updShip ship (λ sh, set_pmMap (delete player (pmMap sh)) sh);;
    updShip ship (λ sh,
      set_individualScores (delete player (individualScores sh)) sh);;
    updPlayer player (set_Activity None);;
    sh ← getShip ship;
    Lobby_RemovePlayer (lobby sh) player;;
    triggerEndgame ship (Some (Name pl))
  else panic "players can only be removed from the ship activity".

(** *** Coming back from a minigame *)

Definition RotateAboutOrigin (sincos : float → float * float)
    (p : Position) (angle : float) : Position :=
  let '(s, c) := sincos angle in
  {| X := (X p * c - Y p * s)%float; Y := (X p * s + Y p * c)%float |}.

(** The constants [0.55 * math.Pi] and [2 * math.Pi], rounded once. *)
Definition startAngle : float := 0x1.ba5614317cb34p+0%float.
Definition twoPi : float := 0x1.921fb54442d18p+2%float.

Fixpoint spreadFrom (ship : ShipPtr) (around : Position) (offset : Position)
    (angleSpacing : float) (i : Z) (l : list PlayerPtr) : Op unit :=
  match l with
  | [] => mret tt
  | p :: rest =>
      sc ← gets (λ s, Sincos (env s));
      let angle := (startAngle + float_of_Z i * angleSpacing)%float in
      let rotOffset := RotateAboutOrigin sc offset angle in
      setPos ship p {| X := (X around + X rotOffset)%float;
                       Y := (Y around + Y rotOffset)%float |};;
      spreadFrom ship around offset angleSpacing (i + 1) rest
  end.

Definition spreadPlayers (ship : ShipPtr) (around : Position) (dist : float)
    (l : list PlayerPtr) : Op unit :=
  match l with
  | [] => mret tt
  | [p] => setPos ship p {| X := X around; Y := (Y around + dist)%float |}
  | _ =>
      let endAngle := (twoPi - startAngle)%float in
      let offset := {| X := 0; Y := (- dist)%float |} in
      let angleSpacing :=
        ((endAngle - startAngle) / float_of_Z (Z.of_nat (length l) - 1))%float in
      spreadFrom ship around offset angleSpacing 0 l
  end.

Definition invalidate (ctx : CtxPtr) : Op unit :=
  modify (λ s, set_contexts
    (<[ctx := {| ctxShip := None; ctxStore := None;
                 ctxProto := None; ctxImpl := false |}]> (contexts s)) s).

(** [ship.individualScores[p] += individualWorth] *)
Definition addScore (ship : ShipPtr) (p : PlayerPtr) (w : float) : Op unit :=
  updShip ship (λ sh, set_individualScores
    (<[p := (default 0%float (individualScores sh !! p) + w)%float]>
       (individualScores sh)) sh).

Definition endMinigame (ship : ShipPtr) (ctx : CtxPtr) (result : MinigameResult)
  : Op (option error) :=
  f ← flagForMinigame ship ctx;
  flagID ← idForFlag ship f;
  sh ← getShip ship;
  when (negb (isEndgame sh)) (startCooldown ship f);;
  match winningTeam result with
  | Some t => updFlag ship f (set_owner (Some t))
  | None => mret tt
  end;;
  resultErr ← notifyMinigameResult ship flagID result;
  updFlag ship f (set_minigame None);;
  fl ← getFlag ship f;
  let individualWorth := IndividualWorth (minigameProto fl) in
  participants ← ctxPlayers ctx;
  let connected := filter (λ p, Some p ≠ disconnected result) participants in
  mapOp connected (λ p,
    pl ← getPlayer p;
    when (bool_decide (Team pl = winningTeam result))
         (addScore ship p individualWorth));;
  connectedParticipants ← Shuffle connected;
  spreadPlayers ship (pos fl) 20%float connectedParticipants;;
  wbErrs ← forEach connectedParticipants (λ p,
    updPlayer p (set_Activity (Some (ActShip ship)));;
    welcomePlayerBack ship p);
  let wbErr := fold_left (λ acc e, Join [acc; e]) wbErrs None in
  invalidate ctx;;
  sh ← getShip ship;
  ended ← HasEnded (timer sh);
  endErr ← (if (ended : bool) then triggerEndgame ship None else mret None);
  match disconnected result with
  | Some d =>
      updPlayer d (set_Activity (Some (ActShip ship)));;
      rmErr ← removePlayer ship d;
      mret (Join [resultErr; wbErr; endErr; rmErr])
  | None =>
      gameErr ← addPlayersToFlags ship;
      mret (Join [resultErr; wbErr; endErr; gameErr])
  end.

(** *** Activating a flag *)

(** The loop of [findNearestFlag]; [nearest] carries the flag found so
    far with its squared distance. *)
Fixpoint nearestLoop (from : Position) (fl : list (string * flag))
    (nearest : option (string * float)) : option (string * float) :=
  match fl with
  | [] => nearest
  | (id, f) :: rest =>
      let distSq := DistSq from (pos f) in
      if (flagReachSq <? distSq)%float then nearestLoop from rest nearest
      else
        if match nearest with
           | None => true
           | Some (_, nearestDistSq) => (distSq <? nearestDistSq)%float
           end
        then nearestLoop from rest (Some (id, distSq))
        else nearestLoop from rest nearest
  end.

Definition findNearestFlagIn (sh : Ship) (player : PlayerPtr) : option string :=
  fst <$> nearestLoop (posOf sh player) (flags sh) None.

Definition findNearestFlag (ship : ShipPtr) (player : PlayerPtr)
  : Op (option string) :=
  sh ← getShip ship; mret (findNearestFlagIn sh player).

Definition activateFlag (ship : ShipPtr) (player : PlayerPtr) (f : string)
  : Op (option error) :=
  idForFlag ship f;;
  PlayerName player;;
  fl ← getFlag ship f;
  t ← gets now;
  if decide (PlayerCount (minigameProto fl) = 1) then
    updFlag ship f (set_activation
      (Some {| startTime := t; lockedPlayers := [player] |}));;
    startMinigameForFlag ship f
  else
    updFlag ship f (set_activation
      (Some {| startTime := t; lockedPlayers := [] |}));;
    lockErr ← addPlayerToFlag ship f player;
    addErr ← addPlayersToFlags ship;
    mret (Join [lockErr; addErr]).

Definition reply (player : PlayerPtr) (typ : string) (f : option string)
  : Op (option error) :=
  match f with
  | Some id => SendTo player (Add "flag_id" (VString id) (NewMessage typ))
  | None => SendTo player (NewMessage typ)
  end.

Definition tryActivateFlag (ship : ShipPtr) (player : PlayerPtr)
  : Op (option error) :=
  sh ← getShip ship;
  if isEndgame sh then reply player "ship_no_flags_in_endgame" None
  else
    nearest ← findNearestFlag ship player;
    match nearest with
    | None => reply player "ship_no_flags_in_reach" None
    | Some f =>
        locked ← flagForPlayer ship player;
        match locked with
        | Some _ => reply player "ship_player_locked" None
        | None =>
            id ← idForFlag ship f;
            fl ← getFlag ship f;
            pl ← getPlayer player;
            if decide (owner fl = Team pl) then
              reply player "ship_flag_already_captured" (Some id)
            else if bool_decide (minigame fl ≠ None) then
              reply player "ship_flag_in_use" (Some id)
            else
              ended ← HasEnded (cooldown fl);
              if negb ended then
                reply player "ship_flag_cooling_down" (Some id)
              else if isActivated fl then
                reply player "ship_flag_already_activated" (Some id)
              else activateFlag ship player f
        end
    end.

(** *** The position manager (movement.go) *)

Fixpoint stripPrefix (prefix s : string) : option string :=
  match prefix with
  | EmptyString => Some s
  | String c prefix' =>
      match s with
      | String d s' => if decide (c = d) then stripPrefix prefix' s' else None
      | EmptyString => None
      end
  end.

(** [strings.TrimPrefix] *)
Definition TrimPrefix (s prefix : string) : string :=
  default s (stripPrefix prefix s).

Definition shipMsgPrefix : string := "ship_mov_".

Definition notifyNewPosition (ship : ShipPtr) (player : PlayerPtr)
  : Op (option error) :=
  sh ← getShip ship;
  name ← PlayerName player;
  let at_ := posOf sh player in
  let msg := Add "y" (VFloat64 (Y at_))
               (Add "x" (VFloat64 (X at_))
                 (Add "their_name" (VString name)
                   (NewMessage (shipMsgPrefix +:+ "peer_position_update")))) in
  ForAllActivityPeers player (λ peer, SendTo peer msg).

Definition doSetPosition (ship : ShipPtr) (player : PlayerPtr) (at_ : Position)
  : Op (option error) :=
  setPos ship player at_;;
  notifyNewPosition ship player.

Definition doPositionUpdate (ship : ShipPtr) (player : PlayerPtr)
    (message : Message) : Op (option error) :=
  match GetNumber "x" message with
  | Err _ =>
      SendTo player (NewMessage (shipMsgPrefix +:+ "position_update_bad_x_error"))
  | Ok x =>
      match GetNumber "y" message with
      | Err _ =>
          SendTo player (NewMessage (shipMsgPrefix +:+ "position_update_bad_y_error"))
      | Ok y => doSetPosition ship player {| X := x; Y := y |}
      end
  end.

Definition PM_HandleMessage (ship : ShipPtr) (player : PlayerPtr)
    (message : Message) : Op (bool * option error) :=
  let typ := TrimPrefix (Typ message) shipMsgPrefix in
  if decide (typ = Typ message) then mret (false, None)
  else if decide (typ ≠ "position_update") then
    mret (true, Some (ErrPMUnknown typ))
  else
    e ← doPositionUpdate ship player message;
    mret (true, e).

Definition Ship_HandleMessage (ship : ShipPtr) (player : PlayerPtr)
    (message : Message) : Op (option error) :=
  if decide (Typ message = "ship_flag_activate") then tryActivateFlag ship player
  else if decide (Typ message = "lobby_bye") then removePlayer ship player
  else
    '(handled, err) ← PM_HandleMessage ship player message;
    if (handled : bool) then mret err
    else SendTo player (NewMessage "ship_unknown_message_type_error").

(** ** Minigame contexts and results (minigame.go) *)

Definition SinglePlayerDisconnection (player : PlayerPtr) : MinigameResult :=
  {| winningTeam := None; disconnected := Some player |}.

Definition MultiplayerDisconnection (player : PlayerPtr) : Op MinigameResult :=
  pl ← getPlayer player;
  t ← deref "Player.Team" (Team pl);
  mret {| winningTeam := Some (OpposingTeam t); disconnected := Some player |}.

Definition SinglePlayerWin (player : PlayerPtr) : Op MinigameResult :=
  pl ← getPlayer player;
  mret {| winningTeam := Team pl; disconnected := None |}.

Definition SinglePlayerLoss : MinigameResult :=
  {| winningTeam := None; disconnected := None |}.

Definition MultiplayerResult (winner : option TeamPtr) : MinigameResult :=
  {| winningTeam := winner; disconnected := None |}.

Definition Ctx_End (ctx : CtxPtr) (result : MinigameResult) : Op (option error) :=
  ensureValid ctx;;
  c ← getCtx ctx;
  ship ← deref "ctx.Ship" (ctxShip c);
  endMinigame ship ctx result.

Definition Ctx_PlayerCount (ctx : CtxPtr) : Op Z :=
  c ← getCtx ctx;
  proto ← deref "ctx.proto" (ctxProto c);
  mret (PlayerCount proto).

Definition ExactlyOnePlayer (ctx : CtxPtr) : Op PlayerPtr :=
  ensureValid ctx;;
  ps ← ctxPlayers ctx;
  match ps with
  | [] => panic "did not find a player"
  | [p] => mret p
  | _ => panic "found a second player"
  end.

Definition GetTeam (ctx : CtxPtr) (slot : TeamIndex) : Op TeamPtr :=
  l ← ctxShipLobby ctx;
  mret {| teamLobby := l; teamSlot := slot |}.

(** ** The lobby activity (lobby_act.go) *)

(** [math.Trunc(f) == f]: the float is an integer or an infinity.  The
    second component is [int(f)]; outside the range of [int] the
    conversion gives the smallest [int] (amd64). *)
Definition minInt : Z := - 2 ^ 63.

Definition intOfFloat (f : float) : bool * Z :=
  match Prim2SF f with
  | S754_zero _ => (true, 0)
  | S754_infinity _ => (true, minInt)
  | S754_nan => (false, minInt)
  | S754_finite sign m e =>
      let mag :=
        if (0 <=? e)%Z then Some (Z.pos m * 2 ^ e)
        else if (Z.pos m `mod` 2 ^ (- e) =? 0)%Z then Some (Z.pos m / 2 ^ (- e))
        else None in
      match mag with
      | None => (false, minInt)
      | Some v =>
          let z := if sign then - v else v in
          (true, if bool_decide (minInt ≤ z < 2 ^ 63) then z else minInt)
      end
  end.

Definition GetInt (key : string) (msg : Message) : Result Z :=
  match GetNumber key msg with
  | Err e => Err e
  | Ok f =>
      let '(whole, z) := intOfFloat f in
      if whole then Ok z else Err (ErrNotInteger f)
  end.

Definition setReady (act : LobbyPtr) (f : list PlayerPtr → list PlayerPtr)
  : Op unit :=
  updLobby act (λ l, set_readyPlayers (f (readyPlayers l)) l).

Definition notifyTeamChange (player : PlayerPtr) (teamInt : Z) : Op (option error) :=
  name ← PlayerName player;
  let msg := Add "team" (VInt teamInt)
               (Add "their_name" (VString name)
                 (NewMessage "lobby_peer_team_change")) in
  ForAllLobbyPeers player (λ peer, SendTo peer msg).

Definition doTeamChange (act : LobbyPtr) (player : PlayerPtr) (message : Message)
  : Op (option error) :=
  match GetInt "team" message with
  | Err _ => SendTo player (NewMessage "lobby_team_change_format_error")
  | Ok teamInt =>
      if bool_decide (teamInt ≠ 0) && bool_decide (teamInt ≠ 1) then
        SendTo player (NewMessage "lobby_team_change_format_error")
      else
        SwitchTeam player
          {| teamLobby := act;
             teamSlot := if decide (teamInt = 0) then Team0 else Team1 |};;
        setReady act (λ _, []);;
        notifyTeamChange player teamInt
  end.

Definition notifyBye (act : LobbyPtr) (player : PlayerPtr) : Op (option error) :=
  name ← PlayerName player;
  let msg := Add "their_name" (VString name) (NewMessage "lobby_peer_left") in
  ForAllPlayers act (λ p, SendTo p msg).

Definition doBye (act : LobbyPtr) (player : PlayerPtr) : Op (option error) :=
  Lobby_RemovePlayer act player;;
  setReady act (set_del player);;
  notifyBye act player.

Definition notifyReadyChange (player : PlayerPtr) (ready : bool) : Op (option error) :=
  name ← PlayerName player;
  let msg := Add "ready" (VBool ready)
               (Add "their_name" (VString name)
                 (NewMessage "lobby_peer_ready_change")) in
  ForAllLobbyPeers player (λ peer, SendTo peer msg).

Definition doStartGame (act : LobbyPtr) : Op (option error) :=
  setReady act (λ _, []);;
  ship ← NewShip act;
  Ship_Start ship.

Definition doReadyUp (act : LobbyPtr) (player : PlayerPtr) : Op (option error) :=
  ready ← IsReady act;
  if negb ready then
    SendTo player (NewMessage "lobby_ready_change_teams_not_ready_error")
  else
    setReady act (set_add player);;
    peerErr ← notifyReadyChange player true;
    lb ← getLobby act;
    let readyCount := Z.of_nat (length (readyPlayers lb)) in
    if bool_decide (readyCount = 6)
       || (AllowSmallerLobbies && bool_decide (readyCount = PlayerCountOf lb))
    then
      startErr ← doStartGame act;
      mret (Join [peerErr; startErr])
    else mret peerErr.

Definition doUnready (act : LobbyPtr) (player : PlayerPtr) : Op (option error) :=
  setReady act (set_del player);;
  notifyReadyChange player false.

Definition doReadySet (act : LobbyPtr) (player : PlayerPtr) (ready : bool)
  : Op (option error) :=
  if ready then doReadyUp act player else doUnready act player.

Definition doReadyChange (act : LobbyPtr) (player : PlayerPtr) (message : Message)
  : Op (option error) :=
  match TryGet "ready" message with
  | Some (VBool ready) => doReadySet act player ready
  | Some _ => SendTo player (NewMessage "lobby_ready_change_format_error")
  | None => SendTo player (NewMessage "lobby_ready_change_format_error")
  end.

Definition LobbyActivity_HandleMessage (act : LobbyPtr) (player : PlayerPtr)
    (message : Message) : Op (option error) :=
  if decide (Typ message = "lobby_team_change") then doTeamChange act player message
  else if decide (Typ message = "lobby_ready_change") then
    doReadyChange act player message
  else if decide (Typ message = "lobby_bye") then doBye act player
  else
    SendTo player (Add "bad_type" (VString (Typ message))
                     (NewMessage "lobby_unrecognised_message_type")).

(** ** The click race minigame (click_race) *)

Module click_race.

Definition duration : Z := 5 * Second.

Definition welcomeMsg (playerCount : Z) (storeValue : option Z) : Message :=
  let msg := Add "duration" (VFloat64 (Seconds duration)) (NewMessage "cps_welcome") in
  if decide (playerCount = 1) then
    Add "score_to_beat" (VInt (default 0 storeValue)) msg
  else msg.

(** The store starts at zero: one must click at least once to win. *)
Definition ProtoSp : MinigamePrototype :=
  {| ProtoName := "cps_race_sp";
     PlayerCount := 1;
     Worth := 1;
     Cooldown := 5 * Second;
     StoreCtor := Some 0;
     implStart := λ _ v _, [welcomeMsg 1 v] |}.

Definition Proto1v1 : MinigamePrototype :=
  {| ProtoName := "cps_race_1v1";
     PlayerCount := 2;
     Worth := 1;
     Cooldown := 10 * Second;
     StoreCtor := None;
     implStart := λ _ v _, [welcomeMsg 2 v] |}.

(** The implementation object; it is passed to and returned from the
    methods that change it. *)
Record state := mkClickState {
  reportedScores : gmap PlayerPtr Z;
  timer : FunctionTimer
}.

Definition newState : Op state :=
  t ← ExpiredTimer;
  mret {| reportedScores := ∅; timer := t |}.

Definition onTimeout (ctx : CtxPtr) : Op (option error) :=
  Ctx_ForAllPlayers ctx (λ p, SendTo p (NewMessage "cps_timeout")).

(** The type assertion of [ctx.Store] to a pointer to [int] panics on
    a nil store. *)
Definition thresholdOf (ctx : CtxPtr) : Op StorePtr :=
  c ← getCtx ctx;
  deref "ctx.Store" (ctxStore c).

Definition readStore (a : StorePtr) : Op Z :=
  cells ← gets stores; deref "store" (cells !! a).

(** [Start] welcomes the participants and starts the timer of the game,
    whose callback is [onTimeout]; the single-player welcome carries the
    score in the store. *)
Definition Start (s : state) (ctx : CtxPtr) : Op (state * option error) :=
  let msg := Add "duration" (VFloat64 (Seconds duration)) (NewMessage "cps_welcome") in
  n ← Ctx_PlayerCount ctx;
  msg ← (if decide (n = 1) then
           threshold ← thresholdOf ctx;
           v ← readStore threshold;
           mret (Add "score_to_beat" (VInt v) msg)
         else mret msg);
  welcomeErr ← Ctx_ForAllPlayers ctx (λ p, SendTo p msg);
  t ← gets now;
  tm ← SingleTimer (t + duration) (CbClickRaceTimeout ctx);
  mret ({| reportedScores := reportedScores s; timer := tm |}, welcomeErr).

Definition writeStore (a : StorePtr) (v : Z) : Op unit :=
  modify (λ s, set_stores (<[a := v]> (stores s)) s).

Definition endSp (s : state) (ctx : CtxPtr) : Op (option error) :=
  player ← ExactlyOnePlayer ctx;
  let score := default 0 (reportedScores s !! player) in
  threshold ← thresholdOf ctx;
  t ← readStore threshold;
  if bool_decide (score > t) then
    writeStore threshold score;;
    result ← SinglePlayerWin player;
    Ctx_End ctx result
  else Ctx_End ctx SinglePlayerLoss.

(** Addition of Go's 64-bit [int]. *)
Definition wrap64 (z : Z) : Z := (z + 2 ^ 63) `mod` 2 ^ 64 - 2 ^ 63.

Definition endMp (s : state) (ctx : CtxPtr) : Op (option error) :=
  c ← getCtx ctx;
  match ctxStore c with
  | Some _ => panic "multiplayer CPS game should have nil store"
  | None =>
      ps ← ctxPlayers ctx;
      slots ← mapOp ps (λ p,
        pl ← getPlayer p;
        t ← deref "Player.Team" (Team pl);
        mret (teamSlot t, default 0 (reportedScores s !! p)));
      let total slot :=
        fold_left (λ acc e, if decide (e.1 = slot) then wrap64 (acc + e.2) else acc)
                  slots 0 in
      if decide (total Team0 = total Team1) then Ctx_End ctx (MultiplayerResult None)
      else if bool_decide (total Team0 > total Team1) then
        t ← GetTeam ctx Team0; Ctx_End ctx (MultiplayerResult (Some t))
      else
        t ← GetTeam ctx Team1; Ctx_End ctx (MultiplayerResult (Some t))
  end.

Definition tryEnd (s : state) (ctx : CtxPtr) : Op (option error) :=
  n ← Ctx_PlayerCount ctx;
  if bool_decide (Z.of_nat (size (reportedScores s)) < n) then mret None
  else if decide (n = 1) then endSp s ctx
  else endMp s ctx.

Definition Handle (s : state) (ctx : CtxPtr) (player : PlayerPtr)
    (message : Message) : Op (state * option error) :=
  if decide (Typ message ≠ "cps_report") then
    e ← SendTo player (NewMessage "cps_unknown_message_type_error");
    mret (s, e)
  else
    ended ← HasEnded (timer s);
    if negb ended then
      e ← SendTo player (NewMessage "cps_game_not_over_error");
      mret (s, e)
    else if bool_decide (is_Some (reportedScores s !! player)) then
      e ← SendTo player (NewMessage "cps_report_player_has_score_error");
      mret (s, e)
    else
      match GetInt "clicks" message with
      | Err _ =>
          e ← SendTo player (NewMessage "cps_report_bad_clicks_value_error");
          mret (s, e)
      | Ok score =>
          let s' := {| reportedScores := <[player := score]> (reportedScores s);
                       timer := timer s |} in
          e ← tryEnd s' ctx;
          mret (s', e)
      end.

Definition HandleDisconnection (s : state) (ctx : CtxPtr) (player : PlayerPtr)
  : Op (option error) :=
  Stop (timer s);;
  n ← Ctx_PlayerCount ctx;
  if decide (n = 1) then Ctx_End ctx (SinglePlayerDisconnection player)
  else
    r ← MultiplayerDisconnection player;
    Ctx_End ctx r.

End click_race.

(** ** Calls through interfaces, and the hub's main loop (hub.go) *)

(** [MinigameImpl]: the three methods of a minigame implementation.
    The implementation's object is passed to and returned from the
    methods that change it. *)
Record MinigameImpl (St : Type) := mkImpl {
  implStart_ : St → CtxPtr → Op (St * option error);
  implHandle : St → CtxPtr → PlayerPtr → Message → Op (St * option error);
  implHandleDisconnection : St → CtxPtr → PlayerPtr → Op (option error)
}.
Arguments implStart_ {St} _ _ _.
Arguments implHandle {St} _ _ _ _ _.
Arguments implHandleDisconnection {St} _ _ _ _.

Definition clickRaceImpl : MinigameImpl click_race.state :=
  {| implStart_ := click_race.Start;
     implHandle := click_race.Handle;
     implHandleDisconnection := click_race.HandleDisconnection |}.

(** [MinigameContext.HandleMessage] *)
Definition Ctx_HandleMessage {St} (impl : MinigameImpl St) (st : St)
    (ctx : CtxPtr) (player : PlayerPtr) (message : Message)
  : Op (St * option error) :=
  ensureValid ctx;;
  if decide (Typ message = "lobby_bye") then
    e ← implHandleDisconnection impl st ctx player;
    mret (st, e)
  else if bool_decide (Typ message = "ship_flag_activate")
          || bool_decide (Typ message = "ship_mov_position_update") then
    mret (st, None)
  else implHandle impl st ctx player message.

(** [Activity.HandleMessage] on the three kinds of activity; [st] is
    the object of the minigame the message goes to. *)
Definition Activity_HandleMessage {St} (impl : MinigameImpl St) (st : St)
    (act : ActivityPtr) (player : PlayerPtr) (message : Message)
  : Op (option error) :=
  match act with
  | ActLobby l => LobbyActivity_HandleMessage l player message
  | ActShip ship => Ship_HandleMessage ship player message
  | ActMinigame ctx =>
      r ← Ctx_HandleMessage impl st ctx player message;
      mret r.2
  end.

(** [AddConnection]: a new client, without a player. *)
Definition AddConnection : Op ClientPtr := λ s,
  let c := fresh (dom (clients s)) in
  Returns c (set_clients (<[c := {| ClientPlayer := None |}]> (clients s)) s).

(** One turn of the loop of [clientListen] for a text frame; [body] is
    [None] for a text that is not JSON.  A frame that does not parse is
    answered and dropped; a message goes to the hub's inbound queue. *)
Definition clientListen (client : ClientPtr) (body : option JSON)
  : Op (option Message) :=
  match body ≫= ParseMessage with
  | Some msg => mret (Some msg)
  | None => Send client (NewMessage "ws_json_format_error");; mret None
  end.

(** [handleIncoming]: the error, if any, is logged. *)
Definition handleIncoming
    (HandleMessage : ActivityPtr → PlayerPtr → Message → Op (option error))
    (c : ClientPtr) (m : Message) : Op unit :=
  Receive HandleMessage c m;;
  mret tt.

(** [killClient]; closing the connection is outside the state. *)
Definition killClient
    (HandleMessage : ActivityPtr → PlayerPtr → Message → Op (option error))
    (client : ClientPtr) : Op unit :=
  cl ← getClient client;
  match ClientPlayer cl with
  | None => mret tt
  | Some _ =>
      Receive HandleMessage client (NewMessage "lobby_bye");;
      cl' ← getClient client;
      match ClientPlayer cl' with
      | Some _ => panic "lobby_bye did not remove player pointer"
      | None => mret tt
      end
  end.

(** The closures behind the callbacks: [ship.tick] and
    [ship.triggerEndgame(nil)] from [startTimer], the two notifications
    from [startCooldown], and the click race's [onTimeout]. *)
Definition runCallback (fn : Callback) : Op (option error) :=
  match fn with
  | CbShipTick ship => tick ship
  | CbShipCountdownOver ship => triggerEndgame ship None
  | CbCooldownTick ship f => notifyCooldownTick ship f
  | CbCooldownEnd ship f => notifyCooldownEnd ship f
  | CbClickRaceTimeout ctx => click_race.onTimeout ctx
  end.

(** [handleEvent] on the event the main loop takes from the queue; with
    no event queued this case of the [select] is not ready. *)
Definition handleEvent : Op unit :=
  evs ← gets event;
  match evs with
  | [] => block
  | fn :: rest =>
      modify (set_event rest);;
      runCallback fn;;
      mret tt
  end.

(** *** The goroutines of a timer *)

(** The ticker of a [TickingTimer] fires: the goroutine that still
    listens schedules [fn]. *)
Definition tickerFires (c : Chan) : Op unit :=
  ts ← gets timers;
  match ts !! c with
  | Some proc =>
      match onTick proc with
      | Some fn => if listening proc then SchedulerAdd fn else block
      | None => block
      end
  | None => block
  end.

(** The end of a timer is reached.  For a [SingleTimer] the goroutine
    that still listens schedules [fn] and returns; for a [TickingTimer]
    the second goroutine wakes up and sends [onNormalEnd] on the quit
    channel, which the ticker goroutine, if it still listens, schedules
    before it returns.  Before the end, and once the listening
    goroutine has gone, nothing happens for good. *)
Definition timerExpires (c : Chan) : Op unit :=
  ts ← gets timers;
  t ← gets now;
  match ts !! c with
  | Some proc =>
      if bool_decide (t < firesAt proc) then block
      else sendQuit c (Some (onNormalEnd proc))
  | None => block
  end.

(** Time passes. *)
Definition sleep (d : Z) : Op unit :=
  modify (λ s, set_now (now s + d) s).

(** One turn of [runMainGameLoop], one step of a goroutine of a timer
    or of a connection, or the passing of time.  The minigames are
    those of [impl]. *)
Inductive serverStep {St} (impl : MinigameImpl St) : State → State → Prop :=
| step_incoming (st : St) (c : ClientPtr) (m : Message) (s s' : State) :
    handleIncoming (Activity_HandleMessage impl st) c m s = Returns tt s' →
    serverStep impl s s'
| step_event (s s' : State) :
    handleEvent s = Returns tt s' → serverStep impl s s'
| step_kill (st : St) (c : ClientPtr) (s s' : State) :
    killClient (Activity_HandleMessage impl st) c s = Returns tt s' →
    serverStep impl s s'
| step_ticker (c : Chan) (s s' : State) :
    tickerFires c s = Returns tt s' → serverStep impl s s'
| step_expiry (c : Chan) (s s' : State) :
    timerExpires c s = Returns tt s' → serverStep impl s s'
| step_connect (c : ClientPtr) (s s' : State) :
    AddConnection s = Returns c s' → serverStep impl s s'
| step_listen (c : ClientPtr) (body : option JSON) (r : option Message)
    (s s' : State) :
    clientListen c body s = Returns r s' → serverStep impl s s'
| step_sleep (d : Z) (s s' : State) :
    0 ≤ d → sleep d s = Returns tt s' → serverStep impl s s'.

(** ** Notions used in the statements *)

(** A call [preserves] a relation between the state before and the state
    after when every return satisfies it. *)
Definition preserves {A} (R : relation State) (m : Op A) : Prop :=
  ∀ s a s', m s = Returns a s' → R s s'.

(** The kinds of state change the code makes, each as a property of a
    relation that tolerates it. *)
Class AllowOut (R : relation State) :=
  allow_out : ∀ s v, R s (set_out v s).
Class AllowRng (R : relation State) :=
  allow_rng : ∀ s v, R s (set_rng v s).
Class AllowEvent (R : relation State) :=
  allow_event : ∀ s v, R s (set_event v s).
Class AllowTimers (R : relation State) :=
  allow_timers : ∀ s v, R s (set_timers v s).
Class AllowContexts (R : relation State) :=
  allow_contexts : ∀ s v, R s (set_contexts v s).
Class AllowNewCtx (R : relation State) :=
  allow_new_ctx : ∀ s c,
    R s (set_contexts (<[fresh (dom (contexts s)) := c]> (contexts s)) s).
Class AllowInvalidate (R : relation State) :=
  allow_invalidate : ∀ s ctx,
    R s (set_contexts
           (<[ctx := {| ctxShip := None; ctxStore := None;
                        ctxProto := None; ctxImpl := false |}]> (contexts s)) s).
Class AllowNow (R : relation State) :=
  allow_now : ∀ s v, R s (set_now v s).
Class AllowStores (R : relation State) :=
  allow_stores : ∀ s v, R s (set_stores v s).
Class AllowClients (R : relation State) :=
  allow_clients : ∀ s v, R s (set_clients v s).
Class AllowActivities (R : relation State) :=
  allow_activities : ∀ s v, R s (set_activities v s).
Class AllowActivity (R : relation State) :=
  allow_activity : ∀ s p v,
    R s (set_players (alter (set_Activity v) p (players s)) s).
Class AllowClient (R : relation State) :=
  allow_client : ∀ s p v,
    R s (set_players (alter (set_Client v) p (players s)) s).
Class AllowTeam (R : relation State) :=
  allow_team : ∀ s p v,
    R s (set_players (alter (set_Team v) p (players s)) s).
Class AllowNewPlayer (R : relation State) :=
  allow_new_player : ∀ s pl,
    R s (set_players (<[fresh (dom (players s)) := pl]> (players s)) s).
Class AllowTeamPlayers (R : relation State) :=
  allow_team_players : ∀ s team f,
    R s (set_lobbies
           (alter (λ l, match teamSlot team with
                        | Team0 => set_Players0 (f (Players0 l)) l
                        | Team1 => set_Players1 (f (Players1 l)) l
                        end) (teamLobby team) (lobbies s)) s).
Class AllowNewLobby (R : relation State) :=
  allow_new_lobby : ∀ s lb,
    R s (set_lobbies (<[fresh (dom (lobbies s)) := lb]> (lobbies s)) s).
Class AllowReady (R : relation State) :=
  allow_ready : ∀ s l f,
    R s (set_lobbies
           (alter (λ lb, set_readyPlayers (f (readyPlayers lb)) lb) l (lobbies s)) s).
Class AllowFlagUpd (R : relation State) :=
  allow_flag_upd : ∀ s ship id g,
    (∀ f, pos (g f) = pos f ∧ minigameProto (g f) = minigameProto f
          ∧ store (g f) = store f) →
    R s (set_ships
           (alter (λ sh, set_flags (updateFlag id g (flags sh)) sh) ship (ships s)) s).
Class AllowShipUpd (R : relation State) :=
  allow_ship_upd : ∀ s ship g,
    (∀ sh, flags (g sh) = flags sh ∧ lobby (g sh) = lobby sh) →
    R s (set_ships (alter g ship (ships s)) s).
Class AllowNewFlag (R : relation State) :=
  allow_new_flag : ∀ s ship id f,
    R s (set_ships
           (alter (λ sh, set_flags (flags sh ++ [(id, f)]) sh) ship (ships s)) s).
Class AllowNewShip (R : relation State) :=
  allow_new_ship : ∀ s sh,
    R s (set_ships (<[fresh (dom (ships s)) := sh]> (ships s)) s).

(** The store pointer of a flag of a ship. *)
Definition flagStore (s : State) (ship : ShipPtr) (id : string)
  : option ScoreStore :=
  sh ← ships s !! ship; f ← lookupFlag id (flags sh); Some (store f).

(** Every store cell holds what it held, and every flag still points at
    the store it pointed at. *)
Definition keeps_stores (s s' : State) : Prop :=
  stores s = stores s' ∧
  ∀ ship id st, flagStore s ship id = Some st → flagStore s' ship id = Some st.


(** *** Recruiting flags *)

(** An activated flag has room for [p] when fewer players of [p]'s
    team are locked to it than a team of its minigame has. *)
Definition hasRoomFor (ps : gmap PlayerPtr Player) (f : flag) (p : PlayerPtr)
  : bool :=
  match activation f with
  | Some a => bool_decide (sameTeamCount ps p (lockedPlayers a)
                           < TeamSize (minigameProto f))
  | None => false
  end.

(** Flag [id] was activated at [t] and still needs [p]. *)
Definition recruits (fl : list (string * flag)) (ps : gmap PlayerPtr Player)
    (p : PlayerPtr) (id : string) (t : Z) : Prop :=
  ∃ f a, (id, f) ∈ fl ∧ activation f = Some a ∧ startTime a = t
         ∧ hasRoomFor ps f p = true.

(** Flag [id] needs [p], and no flag that needs [p] was activated
    before it. *)
Definition earliestRecruiting (fl : list (string * flag))
    (ps : gmap PlayerPtr Player) (p : PlayerPtr) (id : string) : Prop :=
  ∃ t, recruits fl ps p id t ∧ ∀ id' t', recruits fl ps p id' t' → t ≤ t'.

(** What the loop of [oldestFlagNeedingPlayer] knows after the flags
    [done]. *)
Definition oldestInv (done : list (string * flag)) (ps : gmap PlayerPtr Player)
    (p : PlayerPtr) (o : option (string * Z)) : Prop :=
  match o with
  | None => ∀ id t, ¬ recruits done ps p id t
  | Some (id, t) =>
      recruits done ps p id t ∧ ∀ id' t', recruits done ps p id' t' → t ≤ t'
  end.

(** *** Calls that only send *)

(** A call sends frames and changes nothing else. *)
Definition sends {A} (m : Op A) (s : State) : Prop :=
  ∃ a o, m s = Returns a (set_out o s).

(** *** Well-formed ships *)

(** The members of a lobby all have a player object with a client and
    a team of that lobby. *)
Definition membersOk (l : LobbyPtr) (lb : Lobby) (s : State) : Prop :=
  lobbies s !! l = Some lb ∧
  ∀ p, p ∈ Players0 lb ++ Players1 lb →
    ∃ pl c t, players s !! p = Some pl ∧ Client pl = Some c
              ∧ Team pl = Some t ∧ teamLobby t = l.

(** The ship exists, its lobby's members are in order, flag ids are
    distinct, and only members are locked to flags. *)
Definition shipOk (ship : ShipPtr) (sh : Ship) (lb : Lobby) (s : State) : Prop :=
  ships s !! ship = Some sh ∧
  membersOk (lobby sh) lb s ∧
  NoDup (map fst (flags sh)) ∧
  ∀ id f a, lookupFlag id (flags sh) = Some f → activation f = Some a →
    ∀ p, p ∈ lockedPlayers a → p ∈ Players0 lb ++ Players1 lb.

(** The same as a test on the ship, its lobby and the players. *)
Definition shipOkb (sh : Ship) (lb : Lobby) (ps : gmap PlayerPtr Player) : bool :=
  forallb (λ p, match ps !! p with
                | Some pl =>
                    bool_decide (Client pl ≠ None)
                    && bool_decide (teamLobby <$> Team pl = Some (lobby sh))
                | None => false
                end) (Players0 lb ++ Players1 lb)
  && bool_decide (NoDup (map fst (flags sh)))
  && forallb (λ '(_, f),
       match activation f with
       | Some a => forallb (λ p, bool_decide (p ∈ Players0 lb ++ Players1 lb))
                     (lockedPlayers a)
       | None => true
       end) (flags sh).

(** *** The states that locking and starting leave *)

(** The activation with [p] locked as well. *)
Definition lockTo (p : PlayerPtr) (a : Activation) : Activation :=
  {| startTime := startTime a; lockedPlayers := set_add p (lockedPlayers a) |}.

(** The ship with the players [locked'] locked to flag [g]. *)
Definition relock (g : string) (a : Activation) (locked' : list PlayerPtr)
    (sh : Ship) : Ship :=
  set_flags (updateFlag g
    (set_activation (Some {| startTime := startTime a;
                             lockedPlayers := locked' |})) (flags sh)) sh.

(** The players of a list moved into an activity. *)
Definition moveAll (act : ActivityPtr) (l : list PlayerPtr)
    (ps : gmap PlayerPtr Player) : gmap PlayerPtr Player :=
  foldl (λ m p, alter (set_Activity (Some act)) p m) ps l.

(** The state [startMinigameForFlag] leaves, frames apart: a new
    context, the flag running it and no longer activated, and the
    locked players in the minigame. *)
Definition started (ship : ShipPtr) (sh : Ship) (f : string) (fl : flag)
    (a : Activation) (s : State) : State :=
  let ctx := fresh (dom (contexts s)) in
  set_ships
    (<[ship := set_flags
         (updateFlag f (λ x, set_activation None (set_minigame (Some ctx) x))
            (flags sh)) sh]> (ships s))
    (set_players (moveAll (ActMinigame ctx) (lockedPlayers a) (players s))
      (set_contexts
        (<[ctx := {| ctxShip := Some ship; ctxStore := store fl;
                     ctxProto := Some (minigameProto fl); ctxImpl := true |}]>
           (contexts s)) s)).

(** No flag holds a lock on [q]. *)
Definition unlocked (sh : Ship) (q : PlayerPtr) : Prop :=
  ∀ id f a, lookupFlag id (flags sh) = Some f → activation f = Some a →
            q ∉ lockedPlayers a.

(** What the loop of [addPlayersToFlags] relies on for the entries it
    has yet to visit: their flags are activated, their players are free
    members in the ship, no player is under two flags, and there are
    random numbers for every pick. *)
Definition eligibleOk (ship : ShipPtr) (sh : Ship) (lb : Lobby)
    (rest : list (string * list PlayerPtr)) (s : State) : Prop :=
  shipOk ship sh lb s ∧
  NoDup rest.*1 ∧
  (length (concat rest.*2) ≤ length (rng s))%nat ∧
  ∀ g l, (g, l) ∈ rest →
    (∃ fl a, lookupFlag g (flags sh) = Some fl ∧ activation fl = Some a) ∧
    ∀ q, q ∈ l →
      q ∈ Players0 lb ++ Players1 lb ∧
      (players s !! q ≫= Activity) = Some (ActShip ship) ∧
      unlocked sh q ∧
      ∀ g' l', (g', l') ∈ rest → q ∈ l' → g' = g.

(** *** Activating a flag *)

(** The flag is activated or its minigame is running. *)
Definition flagLive (ship : ShipPtr) (f : string) (s : State) : Prop :=
  ∃ sh fl, ships s !! ship = Some sh ∧ lookupFlag f (flags sh) = Some fl ∧
           (activation fl ≠ None ∨ minigame fl ≠ None).

(** The flag's minigame is running and [player] is in it. *)
Definition flagRunsFor (ship : ShipPtr) (f : string) (player : PlayerPtr)
    (s : State) : Prop :=
  ∃ sh fl ctx, ships s !! ship = Some sh ∧ lookupFlag f (flags sh) = Some fl ∧
               minigame fl = Some ctx ∧ activation fl = None ∧
               (players s !! player ≫= Activity) = Some (ActMinigame ctx).

(** The flag's cooldown timer has not ended at time [t]. *)
Definition coolingDown (f : flag) (t : Z) : bool :=
  negb (bool_decide (quit (cooldown f) = None)
        || bool_decide (End_ (cooldown f) < t)).

(** The flag is within reach of [from]: the squared distance is not
    above the squared reach. *)
Definition inReach (from : Position) (f : flag) : bool :=
  negb (flagReachSq <? DistSq from (pos f))%float.

(** The conditions under which a request to activate is accepted, with
    the flag [f] it activates: the ship is not in endgame, [f] is the
    nearest flag within reach, the player is locked to no flag, and [f]
    is not owned by the player's team, not running, not cooling down
    and not activated. *)
Definition mayActivate (sh : Ship) (pl : Player) (player : PlayerPtr) (t : Z)
    (f : string) : Prop :=
  isEndgame sh = false ∧
  findNearestFlagIn sh player = Some f ∧
  flagForPlayerIn (flags sh) player = None ∧
  ∃ fl, lookupFlag f (flags sh) = Some fl ∧
        owner fl ≠ Team pl ∧ minigame fl = None ∧
        coolingDown fl t = false ∧ activation fl = None.

(** The replies that reject a request to activate. *)
Definition replyMsg (typ : string) (f : option string) : Message :=
  match f with
  | Some id => Add "flag_id" (VString id) (NewMessage typ)
  | None => NewMessage typ
  end.

Definition rejections : list string :=
  ["ship_no_flags_in_endgame"; "ship_no_flags_in_reach"; "ship_player_locked";
   "ship_flag_already_captured"; "ship_flag_in_use"; "ship_flag_cooling_down";
   "ship_flag_already_activated"].

(** What the loop of [findNearestFlag] knows after the flags [done]. *)
Definition nearestInv (from : Position) (done : list (string * flag))
    (o : option (string * float)) : Prop :=
  match o with
  | None => ∀ id f, (id, f) ∈ done → inReach from f = false
  | Some (id, d) =>
      (∃ f, (id, f) ∈ done ∧ inReach from f = true ∧ d = DistSq from (pos f)) ∧
      ∀ id' f', (id', f') ∈ done → inReach from f' = true →
                (DistSq from (pos f') <? d)%float = false
  end.

(** *** Lobbies *)

(** Everything but the random numbers is as it was. *)
Definition only_rng (s s' : State) : Prop := s' = set_rng (rng s') s.

(** The lobby without [player] on team [t]. *)
Definition without (t : TeamPtr) (player : PlayerPtr) (lb : Lobby) : Lobby :=
  match teamSlot t with
  | Team0 => set_Players0 (set_del player (Players0 lb)) lb
  | Team1 => set_Players1 (set_del player (Players1 lb)) lb
  end.

(** ** More vocabulary for the statements *)

(** A measure for recursion through a JSON text. *)
Fixpoint jsize (j : JSON) : nat :=
  match j with
  | JArr l => S (list_sum (map jsize l))
  | JObj m => S (map_fold (λ _ x acc, (jsize x + acc)%nat) 0%nat m)
  | _ => 1%nat
  end.

(** The callbacks a stop hands to the scheduler. *)
Definition scheduled (f : option Callback) : list Callback :=
  match f with Some g => [g] | None => [] end.

(** The timer process [proc] once it has taken a value from its quit
    channel. *)
Definition heard (proc : TimerProc) : TimerProc :=
  {| onTick := onTick proc; onNormalEnd := onNormalEnd proc;
     firesAt := firesAt proc; listening := false |}.

(** The clients of the players in [l] that have one. *)
Definition clientsOf (s : State) (l : list PlayerPtr) : list ClientPtr :=
  omap (λ p, players s !! p ≫= Client) l.

(** One frame for each of the clients. *)
Definition frames (cs : list ClientPtr) (data : JSON) : list ClientMessageOut :=
  map (λ c, {| C := c; M := data |}) cs.

(** Every player in [l] exists and has a client. *)
Definition connected (s : State) (l : list PlayerPtr) : Prop :=
  ∀ p, p ∈ l → ∃ pl c, players s !! p = Some pl ∧ Client pl = Some c.

(** [connected] as a test. *)
Definition connectedb (s : State) (l : list PlayerPtr) : bool :=
  forallb (λ p, bool_decide (is_Some (players s !! p ≫= Client))) l.

(** The frame [Encode] makes of a message it accepts. *)
Definition wire (m : Message) : JSON :=
  JObj (toJSON <$> (payload m ∪ {[ "type" := VString (Typ m) ]})).

(** A message [Encode] accepts: no "type" in the payload, and only
    values that json.Marshal takes. *)
Definition sendable (m : Message) : Prop :=
  payload m !! "type" = None ∧
  map_Forall (λ _ v, marshalable v = true) (payload m).

(** The call answers client [c] with a message of type [typ] that has
    no fields, returns nil and changes nothing else. *)
Definition refusedWith (c : ClientPtr) (typ : string) (s : State)
  : Outcome (option error) :=
  Returns None (set_out (out s ++ [{| C := c; M := wire (NewMessage typ) |}]) s).

(** [Lobby.IsReady] on the lobby's record. *)
Definition teamsReady (lb : Lobby) : bool :=
  bool_decide (0 < length (Players0 lb))%nat
  && bool_decide (length (Players0 lb) = length (Players1 lb)).

(** The lobby with [player] put on team [t]. *)
Definition joined (t : TeamPtr) (player : PlayerPtr) (lb : Lobby) : Lobby :=
  match teamSlot t with
  | Team0 => set_Players0 (set_add player (Players0 lb)) lb
  | Team1 => set_Players1 (set_add player (Players1 lb)) lb
  end.

Definition membersOf (lb : Lobby) : list PlayerPtr := Players0 lb ++ Players1 lb.

(** The name [randomUsername] picks for the random number [z]. *)
Definition pickName (s : State) (z : Z) : option string :=
  usernames (env s)
    !! Z.to_nat ((z `mod` 2 ^ 32) `mod` Z.of_nat (length (usernames (env s)))).

(** The names of the members of a lobby. *)
Definition namesIn (s : State) (lb : Lobby) : list string :=
  omap (λ p, Name <$> players s !! p) (membersOf lb).

(** The digit [randomDigit] makes of the random number [z]. *)
Definition digitOf (z : Z) : ascii :=
  ascii_of_nat (48 + Z.to_nat ((z `mod` 2 ^ 32) `mod` 10)).

Definition isDigit (a : ascii) : bool :=
  (48 <=? nat_of_ascii a)%nat && (nat_of_ascii a <=? 57)%nat.

(** The positions [spawnTeam] gives the members in the order [l]. *)
Definition placed (l : list PlayerPtr) (left middle right : Position)
    (pm : gmap PlayerPtr Position) : gmap PlayerPtr Position :=
  match l with
  | [] => pm
  | [a] => <[a := middle]> pm
  | a :: b :: rest =>
      match rest with
      | [c] => <[c := middle]> (<[b := right]> (<[a := left]> pm))
      | _ => <[b := right]> (<[a := left]> pm)
      end
  end.

(** Every player that exists still exists, under the same name. *)
Definition namesKept (s s' : State) : Prop :=
  ∀ p pl, players s !! p = Some pl →
    ∃ pl', players s' !! p = Some pl' ∧ Name pl' = Name pl.

(** Where the flags of a ship are, and what they are for. *)
Definition placement (fl : list (string * flag))
  : list (string * Position * MinigamePrototype * ScoreStore) :=
  map (λ '(id, f), (id, pos f, minigameProto f, store f)) fl.

(** Every ship still belongs to its lobby and still has the flags it
    had, in their places; flags may have been added after them. *)
Definition layoutKept (s s' : State) : Prop :=
  ∀ ship sh, ships s !! ship = Some sh →
    ∃ sh', ships s' !! ship = Some sh' ∧ lobby sh' = lobby sh ∧
           placement (flags sh) `prefix_of` placement (flags sh').

Definition invalidCtx : MinigameContext :=
  {| ctxShip := None; ctxStore := None; ctxProto := None; ctxImpl := false |}.

(** Every context is as it was, or has been invalidated. *)
Definition ctxMono (s s' : State) : Prop :=
  ∀ ctx c, contexts s !! ctx = Some c →
    ∃ c', contexts s' !! ctx = Some c' ∧ (c' = c ∨ c' = invalidCtx).

Definition invalidContextPanic : string :=
  "minigame context method called on invalid context".

(** The activity of a player, nil for a player that does not exist. *)
Definition activityOf (s : State) (p : PlayerPtr) : option ActivityPtr :=
  players s !! p ≫= Activity.

(** The members of the lobby that are in the ship. *)
Definition aboard (s : State) (ship : ShipPtr) (lb : Lobby) : list PlayerPtr :=
  filter (λ p, activityOf s p = Some (ActShip ship)) (membersOf lb).

(** The other members of the lobby that are in the activity [act]. *)
Definition activityPeers (s : State) (p : PlayerPtr) (act : option ActivityPtr)
    (lb : Lobby) : list PlayerPtr :=
  filter (λ q, q ≠ p ∧ activityOf s q = act) (membersOf lb).

(** The call answers client [c] with a message of type [typ] without
    fields and leaves the object [cs] of the minigame as it is. *)
Definition refusedKeeping {St} (cs : St) (c : ClientPtr) (typ : string)
    (s : State) : Outcome (St * option error) :=
  Returns (cs, None)
    (set_out (out s ++ [{| C := c; M := wire (NewMessage typ) |}]) s).


(** ** A concrete server, for running the embedding *)

Module demo.

Definition env0 : Env :=
  {| usernames := ["Ann"; "Bob"; "Cy"; "Dee"; "Eve"; "Fay"; "Gus"];
     gameDuration := fullGameDuration;
     Sincos := λ _, (0%float, 1%float) |}.

Definition registry : gmap string MinigamePrototype :=
  {[ "cps_race_sp" := click_race.ProtoSp;
     "cps_race_1v1" := click_race.Proto1v1 ]}.

(** The hub right after [NewHub], with two connections accepted. *)
Definition hub0 : State :=
  {| env := env0;
     players := ∅;
     clients := {[ 0%nat := mkClient None;
                   1%nat := mkClient None ]};
     lobbies := ∅; activities := ∅; minigames := registry;
     ships := ∅; contexts := ∅; stores := ∅; timers := ∅;
     event := []; out := []; now := 1000;
     rng := [3; 1; 4; 1; 5; 9; 2; 6; 5; 3; 5; 8; 9; 7; 9; 3] |}.

(** The state a call leaves behind; the state it started from when it
    did not return. *)
Definition after {A} (m : Op A) (s : State) : State :=
  match m s with
  | Returns _ s' => s'
  | _ => s
  end.

Definition returns {A} (m : Op A) (s : State) : bool :=
  match m s with
  | Returns _ _ => true
  | _ => false
  end.

(** A cooldown timer as [startCooldown] makes it for flag "idfk". *)
Definition cooldownTimer : Op FunctionTimer :=
  TickingTimer (now hub0 + 5 * Second)
    (CbCooldownTick 0%nat "idfk") (CbCooldownEnd 0%nat "idfk").

(** The hub with that timer started, and the timer value the flag
    holds. *)
Definition ticking : State := Eval vm_compute in after cooldownTimer hub0.

Definition theTimer : FunctionTimer :=
  {| End_ := now hub0 + 5 * Second; quit := Some 0%nat |}.

(** Client 0 creates a lobby (its code comes out as 3141) and client 1
    joins it; the two players are called Fay (player 0, team 0) and Cy
    (player 1, team 1). *)
Definition joinMsg : Message :=
  Add "lobby_id" (VString "3141") (NewMessage "lobby_join").

Definition dispatch (act : ActivityPtr) (p : PlayerPtr) (m : Message)
  : Op (option error) :=
  match act with
  | ActLobby l => LobbyActivity_HandleMessage l p m
  | ActShip ship => Ship_HandleMessage ship p m
  | ActMinigame _ => mret None
  end.

Definition oneIn : State := Eval vm_compute in
  after (Receive dispatch 0%nat (NewMessage "lobby_create")) hub0.

Definition inLobby : State := Eval vm_compute in
  after (Receive dispatch 1%nat joinMsg) oneIn.

(** Both ready up: the lobby starts ship 0. *)
Definition readyMsg : Message :=
  Add "ready" (VBool true) (NewMessage "lobby_ready_change").

Definition inShip : State := Eval vm_compute in
  after (Receive dispatch 1%nat readyMsg)
    (after (Receive dispatch 0%nat readyMsg) inLobby).

(** Fay walks to flag "idfk" (the single-player click race) and
    activates it: she is now in minigame context 0, whose store is
    cell 0. *)
Definition moveTo (x y : float) : Message :=
  Add "y" (VFloat64 y) (Add "x" (VFloat64 x)
    (NewMessage "ship_mov_position_update")).

Definition atClickRace : State := Eval vm_compute in
  after (Receive dispatch 0%nat (moveTo 192 (-208))) inShip.

Definition inMinigame : State := Eval vm_compute in
  after (Receive dispatch 0%nat (NewMessage "ship_flag_activate")) atClickRace.

(** The click race's state once Fay has reported seven clicks. *)
Definition sevenClicks : click_race.state :=
  {| click_race.reportedScores := {[ 0%nat := 7 ]};
     click_race.timer := {| End_ := 0; quit := None |} |}.

(** While Fay plays, Cy leaves: the ship enters endgame and waits for
    the minigame. *)
Definition endgameWaiting : State := Eval vm_compute in
  after (Receive dispatch 1%nat (NewMessage "lobby_bye")) inMinigame.

(** Fay's click race ends with her seven clicks. *)
Definition afterMinigame : State := Eval vm_compute in
  after (click_race.endSp sevenClicks 0%nat) endgameWaiting.

(** The click race flag as [createFlags] makes it. *)
Definition clickFlag : flag :=
  {| pos := {| X := 192; Y := -208 |}; minigameProto := click_race.ProtoSp;
     minigame := None; store := Some 0%nat; owner := None;
     cooldown := {| End_ := 1000; quit := None |}; activation := None |}.

(** The types of the frames sent between two states. *)
Definition sentSince (s s' : State) : list (option string) :=
  map (λ o, Typ <$> ParseMessage (M o)) (drop (length (out s)) (out s')).

(** The members of a lobby. *)
Definition members (s : State) (l : LobbyPtr) : option (list PlayerPtr) :=
  (λ lb, Players0 lb ++ Players1 lb) <$> lobbies s !! l.

(** Client 0, already in lobby 3141, asks for a new lobby. *)
Definition createdTwice : State := Eval vm_compute in
  after (Receive dispatch 0%nat (NewMessage "lobby_create")) inLobby.

(** A hub with eight connections in which the random lobby code comes
    out as 1234 twice. *)
Definition hub8 : State :=
  {| env := env0;
     players := ∅;
     clients := list_to_map (map (λ c, (c, mkClient None)) (seq 0 8));
     lobbies := ∅; activities := ∅; minigames := registry;
     ships := ∅; contexts := ∅; stores := ∅; timers := ∅;
     event := []; out := []; now := 1000;
     rng := [1; 2; 3; 4; 0; 1;
             1; 2; 3; 4; 0; 1; 2; 3; 4; 5] |}.

Definition join1234 : Message :=
  Add "lobby_id" (VString "1234") (NewMessage "lobby_join").

Fixpoint receiveAll (l : list (ClientPtr * Message)) (s : State) : State :=
  match l with
  | [] => s
  | (c, m) :: rest => receiveAll rest (after (Receive dispatch c m) s)
  end.

(** Clients 0 and 1 form lobby 0 (code 1234) and start its ship; client
    2 creates lobby 1, which gets code 1234 as well, and clients 3 to 7
    join it: six players.  Then client 1 leaves the ship, which ends the
    game of lobby 0. *)
Definition collision : State := Eval vm_compute in
  receiveAll
    [ (0%nat, NewMessage "lobby_create"); (1%nat, join1234);
      (0%nat, readyMsg); (1%nat, readyMsg);
      (2%nat, NewMessage "lobby_create");
      (3%nat, join1234); (4%nat, join1234); (5%nat, join1234);
      (6%nat, join1234); (7%nat, join1234);
      (1%nat, NewMessage "lobby_bye") ]
    hub8.

Definition toTeam0 : Message :=
  Add "team" (VFloat64 0) (NewMessage "lobby_team_change").

(** A test hub with four connections whose registry also serves the
    click race under the names fb_sp and rps_1v1, so that the ship has
    two single-player flags (idfk, shush) and two 1v1 flags (idfk_,
    blah). *)
Definition registry4 : gmap string MinigamePrototype :=
  {[ "cps_race_sp" := click_race.ProtoSp;
     "cps_race_1v1" := click_race.Proto1v1;
     "fb_sp" := click_race.ProtoSp;
     "rps_1v1" := click_race.Proto1v1 ]}.

Definition hub4 : State :=
  {| env := env0;
     players := ∅;
     clients := list_to_map (map (λ c, (c, mkClient None)) (seq 0 4));
     lobbies := ∅; activities := ∅; minigames := registry4;
     ships := ∅; contexts := ∅; stores := ∅; timers := ∅;
     event := []; out := []; now := 1000;
     rng := [3; 1; 4; 1; 0; 1; 2; 3; 5; 9; 2; 6; 5; 3; 5; 8; 9; 7; 9; 3;
             2; 3; 8; 4] |}.

(** Ann (player 0) and Cy (2) are team 0, Bob (1) and Dee (3) team 1.
    Bob and Dee each start a single-player click race; then Ann
    activates the 1v1 flag idfk_ at time 1000 and, at time 2000, Cy
    activates the 1v1 flag blah.  Both flags wait for a player of
    team 1.  The frames sent so far have gone out. *)
Definition twoRecruiting : State := Eval vm_compute in
  set_out [] (receiveAll
    [ (2%nat, moveTo 0 256); (2%nat, NewMessage "ship_flag_activate") ]
    (set_now 2000
      (receiveAll
        [ (0%nat, NewMessage "lobby_create"); (1%nat, joinMsg);
          (2%nat, joinMsg); (3%nat, joinMsg);
          (0%nat, readyMsg); (1%nat, readyMsg);
          (2%nat, readyMsg); (3%nat, readyMsg);
          (1%nat, moveTo 192 (-208)); (1%nat, NewMessage "ship_flag_activate");
          (3%nat, moveTo 192 0); (3%nat, NewMessage "ship_flag_activate");
          (0%nat, moveTo (-192) (-208));
          (0%nat, NewMessage "ship_flag_activate") ]
        hub4))).

(** The same with Dee back in the ship, as [endMinigame] has it when it
    calls [addPlayersToFlags]. *)
Definition deeBack : State := Eval vm_compute in
  after (updPlayer 3%nat (set_Activity (Some (ActShip 0%nat)))) twoRecruiting.

(** Dee's click race (context 1) ends with her seven clicks. *)
Definition deeClicks : click_race.state :=
  {| click_race.reportedScores := {[ 3%nat := 7 ]};
     click_race.timer := {| End_ := 0; quit := None |} |}.

Definition afterDee : State := Eval vm_compute in
  after (click_race.endSp deeClicks 1%nat) twoRecruiting.

(** The frames sent between two states: receiver, type and flag. *)
Definition framesSince (s s' : State)
  : list (ClientPtr * option string * option GoVal) :=
  map (λ o, (C o, Typ <$> ParseMessage (M o),
             ParseMessage (M o) ≫= TryGet "flag_id"))
      (drop (length (out s)) (out s')).

(** Each flag of a ship with its activation and its minigame. *)
Definition flagStates (s : State) (ship : ShipPtr)
  : option (list (string * option Activation * option CtxPtr)) :=
  (λ sh, map (λ '(id, f), (id, activation f, minigame f)) (flags sh))
    <$> ships s !! ship.

(** *** More states and messages *)

(** A frame as a client sends it. *)
Definition readyFrame : JSON :=
  JObj {[ "type" := JStr "lobby_ready_change"; "ready" := JBool true;
          "seq" := JNum (NumInt 7) ]}.

(** Fay, alone in lobby 3141, taken off her team: the state between the
    two halves of [SwitchTeam]. *)
Definition offTeam : State := Eval vm_compute in
  after (Team_RemovePlayer (team0 0%nat) 0%nat) oneIn.

(** The click race of context 0 as [NewSingleplayer] makes it. *)
Definition newRace : click_race.state :=
  {| click_race.reportedScores := ∅;
     click_race.timer := {| End_ := 0; quit := None |} |}.

(** Fay's click race has started its timer (channel 1), the five seconds
    have passed and the timer's goroutine has scheduled the timeout. *)
Definition raceTimedOut : State := Eval vm_compute in
  after (timerExpires 1%nat)
    (after (sleep click_race.duration)
       (after (click_race.Start newRace 0%nat) inMinigame)).

(** The race ends (as lost) before the main loop gets to the
    timeout. *)
Definition raceEnded : State := Eval vm_compute in
  after (Ctx_End 0%nat SinglePlayerLoss) raceTimedOut.

Definition toTeam1 : Message :=
  Add "team" (VFloat64 1) (NewMessage "lobby_team_change").

End demo.

(** * Theorems *)

(** ** Messages and their wire encoding *)

Lemma vsize_slice_elem (l : list GoVal) (x : GoVal) :
  x ∈ l → (vsize x < vsize (VSlice l))%nat.
Proof.
  simpl. induction 1 as [x l|x y l _ IH]; simpl; lia.
Qed.

Lemma vsize_map_elem (m : gmap string GoVal) (k : string) (x : GoVal) :
  m !! k = Some x → (vsize x < vsize (VMap m))%nat.
Proof.
  intros Hk. simpl.
  rewrite (map_fold_delete_L _ _ k x m); [lia | | done].
  intros. lia.
Qed.

Lemma map_fold_andb_true {A} (P : A → bool) (m : gmap string A) :
  map_fold (λ _ x acc, P x && acc) true m = true ↔
  map_Forall (λ _ x, P x = true) m.
Proof.
  induction m as [|k x m Hk Hfold IH] using map_first_key_ind.
  - rewrite map_fold_empty. split; [intros _; apply map_Forall_empty | done].
  - rewrite map_fold_insert_first_key by done.
    rewrite andb_true_iff, IH, map_Forall_insert by done. tauto.
Qed.

Lemma native_marshal_roundtrip (v : GoVal) :
  native v = true → marshalable v = true ∧ fromJSON (toJSON v) = v.
Proof.
  remember (vsize v) as n eqn:Hn. revert v Hn.
  induction n as [n IH] using lt_wf_ind. intros v -> Hnat.
  destruct v as [| b | f | s | l | m | z | ty l | ty m | ty | ty];
    simpl in *; try done.
  - assert (Hall : ∀ x, x ∈ l → marshalable x = true ∧ fromJSON (toJSON x) = x).
    { intros x Hx. eapply IH; [| reflexivity |].
      - by apply vsize_slice_elem.
      - rewrite forallb_forall in Hnat. apply Hnat. by apply list_elem_of_In. }
    split.
    + apply forallb_forall. intros x Hx. apply Hall. by apply list_elem_of_In.
    + f_equal. rewrite map_map. rewrite <- (map_id l) at 2.
      apply map_ext_in. intros x Hx. apply Hall. by apply list_elem_of_In.
  - rewrite map_fold_andb_true in Hnat.
    assert (Hall : ∀ k x, m !! k = Some x →
                          marshalable x = true ∧ fromJSON (toJSON x) = x).
    { intros k x Hk. eapply IH; [| reflexivity |].
      - by eapply vsize_map_elem.
      - by apply (Hnat k). }
    split.
    + apply map_fold_andb_true. intros k x Hk. by apply (Hall k).
    + f_equal. apply map_eq. intros k. rewrite !lookup_fmap.
      destruct (m !! k) as [x|] eqn:Hk; simpl; [|done].
      f_equal. by apply (Hall k).
Qed.

(** What Marshal writes for a JSON-native value has its numbers in the
    range of float64. *)
Lemma native_finite (v : GoVal) :
  native v = true → finiteJSON (toJSON v) = true.
Proof.
  remember (vsize v) as n eqn:Hn. revert v Hn.
  induction n as [n IH] using lt_wf_ind. intros v -> Hnat.
  destruct v as [| b | f | s | l | m | z | ty l | ty m | ty | ty];
    simpl in *; try done.
  - apply forallb_forall. intros j (x & <- & Hx)%in_map_iff.
    eapply IH; [| reflexivity |].
    + apply vsize_slice_elem. by apply list_elem_of_In.
    + rewrite forallb_forall in Hnat. by apply Hnat.
  - rewrite map_fold_andb_true in Hnat.
    apply map_fold_andb_true. apply map_Forall_fmap.
    intros k x Hk. eapply IH; [| reflexivity |].
    + by eapply vsize_map_elem.
    + by apply (Hnat k).
Qed.


Lemma Encode_native (m : Message) :
  payload m !! "type" = None → native_payload m →
  Encode m =
    Ok (JObj (toJSON <$> (payload m ∪ {[ "type" := VString (Typ m) ]}))).
Proof.
  intros Hty Hnat. unfold Encode, Marshal. rewrite Hty. cbn [marshalable toJSON].
  replace (map_fold _ _ _) with true; [done|].
  symmetry. apply map_fold_andb_true. intros k x Hk.
  apply lookup_union_Some_raw in Hk as [Hk | [_ Hk]].
  - by apply (native_marshal_roundtrip x), (Hnat k).
  - apply lookup_singleton_Some in Hk as [_ <-]. done.
Qed.

Lemma Encode_Parse_native (m : Message) :
  payload m !! "type" = None → native_payload m →
  ∃ data, Encode m = Ok data ∧ ParseMessage data = Some m.
Proof.
  intros Hty Hnat. eexists. split; [by apply Encode_native|].
  unfold ParseMessage, UnmarshalMap.
  assert (Hfin : finiteJSON (JObj (toJSON <$>
            (payload m ∪ {[ "type" := VString (Typ m) ]}))) = true).
  { cbn [finiteJSON]. apply map_fold_andb_true, map_Forall_fmap.
    intros k x Hk. apply native_finite.
    apply lookup_union_Some_raw in Hk as [Hk | [_ Hk]].
    - by apply (Hnat k).
    - apply lookup_singleton_Some in Hk as [_ <-]. done. }
  rewrite Hfin.
  assert (Hrt : fromJSON <$> (toJSON <$>
            (payload m ∪ {[ "type" := VString (Typ m) ]})) =
          payload m ∪ {[ "type" := VString (Typ m) ]}).
  { apply map_eq. intros k. rewrite !lookup_fmap.
    destruct ((payload m ∪ _) !! k) as [x|] eqn:Hk; simpl; [|done].
    f_equal. apply native_marshal_roundtrip.
    apply lookup_union_Some_raw in Hk as [Hk | [_ Hk]].
    - by apply (Hnat k).
    - apply lookup_singleton_Some in Hk as [_ <-]. done. }
  rewrite Hrt.
  rewrite lookup_union_r, lookup_singleton_eq by done.
  destruct m as [ty pl]; simpl in *. do 2 f_equal.
  rewrite delete_union, delete_singleton_eq, (right_id_L ∅ (∪)).
  by apply delete_id.
Qed.

Lemma native_payload_NewMessage (typ : string) : native_payload (NewMessage typ).
Proof. intros k v. unfold NewMessage; simpl. by rewrite lookup_empty. Qed.

Lemma native_payload_Add (key : string) (v : GoVal) (m : Message) :
  native v = true → native_payload m → native_payload (Add key v m).
Proof.
  intros Hv Hm k x. unfold Add; simpl.
  intros [[_ <-] | [_ Hk]]%lookup_insert_Some; [done | by apply (Hm k)].
Qed.




(** Nor does a nil slice come back: it is written as null and read as
    the nil interface value, which is why the slices and maps of the
    amended statement are not nil. *)
Lemma roundtrip_changes_nil_slice :
  let m := Add "names" (VNilSlice "interface {}") (NewMessage "lobby_welcome") in
  payload m !! "type" = None ∧
  ∃ data, Encode m = Ok data ∧
          (ParseMessage data ≫= TryGet "names") = Some VNil ∧
          ParseMessage data ≠ Some m.
Proof.
  split; [reflexivity|].
  eexists. split; [reflexivity|]. split; [vm_compute; reflexivity|].
  intros Heq.
  apply (f_equal (λ o, o ≫= TryGet "names")) in Heq.
  vm_compute in Heq. discriminate Heq.
Qed.

(** ** Reasoning about calls *)

Lemma bind_Returns {A B} (m : Op A) (k : A → Op B) (s s' : State) (b : B) :
  (m ≫= k) s = Returns b s' ↔
  ∃ a s1, m s = Returns a s1 ∧ k a s1 = Returns b s'.
Proof.
  unfold mbind, Op_bind. split.
  - destruct (m s) as [a s1| | |] eqn:Hm; try discriminate. eauto.
  - intros (a & s1 & -> & Hk). done.
Qed.

Lemma bind_eq {A B} (m : Op A) (k : A → Op B) (s s1 : State) (a : A) :
  m s = Returns a s1 → (m ≫= k) s = k a s1.
Proof. unfold mbind, Op_bind. by intros ->. Qed.

(** A relation that tolerates every change of the contexts tolerates
    the two changes the code makes. *)
Global Instance allow_contexts_new (R : relation State) `{!AllowContexts R} :
  AllowNewCtx R.
Proof. intros s c. apply allow_contexts. Qed.
Global Instance allow_contexts_invalidate (R : relation State)
  `{!AllowContexts R} : AllowInvalidate R.
Proof. intros s ctx. apply allow_contexts. Qed.

Section preserves.
Context (R : relation State) `{!PreOrder R}.

Lemma pres_ret {A} (a : A) : preserves R (mret a).
Proof. intros s a' s' [= _ <-]. reflexivity. Qed.

Lemma pres_bind {A B} (m : Op A) (k : A → Op B) :
  preserves R m → (∀ a, preserves R (k a)) → preserves R (m ≫= k).
Proof.
  intros Hm Hk s b s' (a & s1 & H1 & H2)%bind_Returns.
  etrans; [by eapply Hm | by eapply Hk].
Qed.

Lemma pres_gets {A} (f : State → A) : preserves R (gets f).
Proof. intros s a s' [= _ <-]. reflexivity. Qed.

Lemma pres_panic {A} (why : string) : preserves R (panic (A:=A) why).
Proof. intros s a s' [=]. Qed.

Lemma pres_block {A} : preserves R (block (A:=A)).
Proof. intros s a s' [=]. Qed.

Lemma pres_starves {A} : preserves R (λ _ : State, Starves (A:=A)).
Proof. intros s a s' [=]. Qed.

Lemma pres_deref {A} (what : string) (o : option A) : preserves R (deref what o).
Proof. destruct o; [apply pres_ret | apply pres_panic]. Qed.

Lemma pres_modify (f : State → State) :
  (∀ s, R s (f s)) → preserves R (modify f).
Proof. intros Hf s a s' [= _ <-]. apply Hf. Qed.

Lemma pres_when (b : bool) (body : Op unit) :
  preserves R body → preserves R (when b body).
Proof. destruct b; [done | intros _; apply pres_ret]. Qed.

Lemma pres_forEach {A} (l : list A) (fn : A → Op (option error)) :
  (∀ x, preserves R (fn x)) → preserves R (forEach l fn).
Proof.
  intros Hfn. induction l as [|x l IH]; simpl.
  - apply pres_ret.
  - apply pres_bind; [done|]. intros e.
    apply pres_bind; [done|]. intros es. apply pres_ret.
Qed.

Lemma pres_mapOp {A B} (l : list A) (fn : A → Op B) :
  (∀ x, preserves R (fn x)) → preserves R (mapOp l fn).
Proof.
  intros Hfn. induction l as [|x l IH]; simpl.
  - apply pres_ret.
  - apply pres_bind; [done|]. intros e.
    apply pres_bind; [done|]. intros es. apply pres_ret.
Qed.

Lemma pres_draw : (∀ s v, R s (set_rng v s)) → preserves R draw.
Proof.
  intros H s a s'. unfold draw. destruct (rng s); [done|].
  intros [= _ <-]. apply H.
Qed.
End preserves.

(** One step of a frame proof: split a bind, close a primitive, or case
    on the scrutinee of a conditional. *)
Ltac pres_step :=
  lazymatch goal with
  | |- preserves ?R (mbind _ _) => apply (pres_bind R); [| intros ?]
  | |- preserves ?R (mret _) => apply (pres_ret R)
  | |- preserves ?R (gets _) => apply (pres_gets R)
  | |- preserves ?R (panic _) => apply (pres_panic R)
  | |- preserves ?R block => apply (pres_block R)
  | |- preserves ?R (deref _ _) => apply (pres_deref R)
  | |- preserves ?R (when _ _) => apply (pres_when R)
  | |- preserves ?R (forEach _ _) => apply (pres_forEach R); intros ?
  | |- preserves ?R (mapOp _ _) => apply (pres_mapOp R); intros ?
  | |- preserves ?R (modify _) => apply (pres_modify R); intros ?
  | |- preserves _ (if ?b then _ else _) => destruct b
  | |- preserves _ (match ?x with _ => _ end) => destruct x
  | |- preserves _ (let '(_, _) := ?x in _) => destruct x
  end.

(** Running a call on a given state, one step at a time. *)
Lemma run_assoc {A B D} (m : Op A) (f : A → Op B) (g : B → Op D) (s : State) :
  ((m ≫= f) ≫= g) s = (m ≫= λ a, f a ≫= g) s.
Proof. unfold mbind, Op_bind. by destruct (m s). Qed.

Lemma run_ret {A B} (a : A) (k : A → Op B) (s : State) :
  (mret (M:=Op) a ≫= k) s = k a s.
Proof. reflexivity. Qed.

Lemma run_gets {A B} (f : State → A) (k : A → Op B) (s : State) :
  (gets f ≫= k) s = k (f s) s.
Proof. reflexivity. Qed.

Lemma run_modify {B} (f : State → State) (k : unit → Op B) (s : State) :
  (modify f ≫= k) s = k tt (f s).
Proof. reflexivity. Qed.

Lemma run_deref {A B} (what : string) (a : A) (k : A → Op B) (s : State) :
  (deref what (Some a) ≫= k) s = k a s.
Proof. reflexivity. Qed.

Lemma run_panic {A B} (why : string) (k : A → Op B) (s : State) :
  (panic why ≫= k) s = Panics why.
Proof. reflexivity. Qed.

Lemma run_gets0 {A} (f : State → A) (s : State) : gets f s = Returns (f s) s.
Proof. reflexivity. Qed.

Lemma run_ret0 {A} (a : A) (s : State) : mret (M:=Op) a s = Returns a s.
Proof. reflexivity. Qed.

Lemma run_modify0 (f : State → State) (s : State) :
  modify f s = Returns tt (f s).
Proof. reflexivity. Qed.

Lemma run_deref0 {A} (what : string) (a : A) (s : State) :
  deref what (Some a) s = Returns a s.
Proof. reflexivity. Qed.

Ltac run1 :=
  first
    [ rewrite run_assoc | rewrite run_ret | rewrite run_gets
    | rewrite run_modify | rewrite run_deref | rewrite run_panic
    | rewrite run_gets0 | rewrite run_ret0 | rewrite run_modify0
    | rewrite run_deref0 ].

(** Projections of updated states. *)
Ltac fields :=
  cbn [env players clients lobbies activities minigames ships contexts
       stores timers event out now rng
       set_players set_clients set_lobbies set_activities set_ships
       set_contexts set_stores set_timers set_event set_out set_rng].

Ltac run := repeat (run1; fields).

Lemma after_returns {A} (m : Op A) (s : State) :
  demo.returns m s = true → ∃ a, m s = Returns a (demo.after m s).
Proof.
  unfold demo.returns, demo.after. destruct (m s); try done. eauto.
Qed.

Lemma returns_to {A} (m : Op A) (s s' : State) :
  demo.returns m s = true → demo.after m s = s' → ∃ a, m s = Returns a s'.
Proof. intros H <-. by apply after_returns. Qed.


(** ** Function timers *)

Lemma HasEnded_eq (tm : FunctionTimer) (s : State) :
  HasEnded tm s =
    Returns (bool_decide (quit tm = None) || bool_decide (End_ tm < now s)) s.
Proof. reflexivity. Qed.

(** X1: stopping a timer whose end time has passed, or one that was
    made by [ExpiredTimer], returns at once and changes nothing. *)
Lemma Stop_after_expiry (tm : FunctionTimer) (s : State) :
  End_ tm < now s ∨ quit tm = None → Stop tm s = Returns tt s.
Proof.
  intros H. unfold Stop, StopWith. rewrite (bind_eq _ _ _ _ _ (HasEnded_eq tm s)).
  destruct H as [H | H].
  - rewrite (bool_decide_eq_true_2 (End_ tm < now s)) by done.
    by rewrite orb_true_r.
  - by rewrite (bool_decide_eq_true_2 (quit tm = None)) by done.
Qed.

(** The first stop of a timer that has not expired hands nil to the
    listening goroutine, which returns; the timer value is the same as
    before. *)
Lemma Stop_first (tm : FunctionTimer) (c : Chan) (proc : TimerProc) (s : State) :
  quit tm = Some c → now s ≤ End_ tm →
  timers s !! c = Some proc → listening proc = true →
  Stop tm s =
    Returns tt (set_timers
      (<[c := {| onTick := onTick proc; onNormalEnd := onNormalEnd proc;
                 firesAt := firesAt proc; listening := false |}]> (timers s)) s).
Proof.
  intros Hq Hnow Hc Hl. unfold Stop, StopWith.
  rewrite (bind_eq _ _ _ _ _ (HasEnded_eq tm s)).
  rewrite Hq, bool_decide_eq_false_2 by done.
  rewrite bool_decide_eq_false_2 by lia. simpl.
  unfold sendQuit. unfold mbind at 1, Op_bind. simpl.
  by rewrite Hc, Hl.
Qed.

(** A second stop of the same timer before its end time finds nobody
    listening on the quit channel: the caller is blocked for ever. *)
Lemma Stop_twice_blocks (tm : FunctionTimer) (c : Chan) (proc : TimerProc)
    (s : State) :
  quit tm = Some c → now s ≤ End_ tm →
  timers s !! c = Some proc → listening proc = true →
  (Stop tm;; Stop tm) s = Blocks.
Proof.
  intros Hq Hnow Hc Hl.
  rewrite (bind_eq _ _ _ _ _ (Stop_first tm c proc s Hq Hnow Hc Hl)).
  unfold Stop, StopWith.
  rewrite (bind_eq _ _ _ _ _ (HasEnded_eq tm _)).
  rewrite Hq, bool_decide_eq_false_2 by done.
  rewrite bool_decide_eq_false_2 by (simpl; lia). simpl.
  unfold sendQuit. unfold mbind at 1, Op_bind. simpl.
  by rewrite lookup_insert_eq.
Qed.

(** C2 (the code at the failing inputs): a timer whose goroutine
    listens on the quit channel and whose end time has not passed is
    stopped twice.  The first [Stop] returns, and since [StopWith] has a
    value receiver the timer is as it was, so [HasEnded] still answers
    false; the second [Stop] then sends on the quit channel again, which
    nobody reads any more, and blocks the caller for ever, where the
    claim promises a no-op. *)
Theorem second_Stop_blocks (tm : FunctionTimer) (c : Chan) (proc : TimerProc)
    (s : State) :
  quit tm = Some c → now s ≤ End_ tm →
  timers s !! c = Some proc → listening proc = true →
  (∃ s1, Stop tm s = Returns tt s1 ∧ HasEnded tm s1 = Returns false s1) ∧
  (Stop tm;; Stop tm) s = Blocks.
Proof.
  intros Hq Hnow Hc Hl. split.
  - eexists. split; [by apply (Stop_first tm c proc)|].
    rewrite HasEnded_eq. simpl.
    by rewrite Hq, !bool_decide_eq_false_2 by (done || lia).
  - by apply (Stop_twice_blocks tm c proc).
Qed.

Lemma second_Stop_blocks_witness :
  (quit demo.theTimer = Some 0%nat ∧
   now demo.ticking ≤ End_ demo.theTimer ∧
   timers demo.ticking !! 0%nat
     = Some {| onTick := Some (CbCooldownTick 0%nat "idfk");
               onNormalEnd := CbCooldownEnd 0%nat "idfk";
               firesAt := 5000001000; listening := true |} ∧
   true = true) ∧
  (∃ s1, Stop demo.theTimer demo.ticking = Returns tt s1 ∧
         HasEnded demo.theTimer s1 = Returns false s1) ∧
  (Stop demo.theTimer;; Stop demo.theTimer) demo.ticking = Blocks.
Proof.
  assert (H1 : quit demo.theTimer = Some 0%nat) by reflexivity.
  assert (H2 : now demo.ticking ≤ End_ demo.theTimer) by (vm_compute; discriminate).
  assert (H3 : timers demo.ticking !! 0%nat
     = Some {| onTick := Some (CbCooldownTick 0%nat "idfk");
               onNormalEnd := CbCooldownEnd 0%nat "idfk";
               firesAt := 5000001000; listening := true |})
    by (vm_compute; reflexivity).
  split; [exact (conj H1 (conj H2 (conj H3 eq_refl)))|].
  exact (second_Stop_blocks demo.theTimer 0%nat _ demo.ticking H1 H2 H3 eq_refl).
Defined.

(** ** Unrecognised messages *)

Lemma stripPrefix_Some (prefix s rest : string) :
  stripPrefix prefix s = Some rest ↔ s = prefix +:+ rest.
Proof.
  revert s. induction prefix as [|c prefix IH]; intros s; simpl.
  - split; [by intros [= ->] | by intros ->].
  - destruct s as [|d s]; [done|].
    destruct (decide (c = d)) as [->|Hne].
    + rewrite IH. split; [by intros -> | by intros [= ->]].
    + split; [done | intros [= ? _]; done].
Qed.

Lemma stripPrefix_None (prefix s : string) :
  stripPrefix prefix s = None ↔ ∀ rest, s ≠ prefix +:+ rest.
Proof.
  split.
  - intros H rest Hs%stripPrefix_Some. congruence.
  - intros H. destruct (stripPrefix prefix s) as [rest|] eqn:E; [|done].
    apply stripPrefix_Some in E. by destruct (H rest).
Qed.

Lemma append_length (a b : string) :
  String.length (a +:+ b) = (String.length a + String.length b)%nat.
Proof. induction a as [|c a IH]; simpl; [done | by rewrite IH]. Qed.

Lemma SendTo_eq (p : PlayerPtr) (pl : Player) (c : ClientPtr) (m : Message)
    (data : JSON) (s : State) :
  players s !! p = Some pl → Client pl = Some c → Encode m = Ok data →
  SendTo p m s = Returns None (set_out (out s ++ [{| C := c; M := data |}]) s).
Proof.
  intros Hp Hc He. unfold SendTo, getPlayer.
  unfold mbind, Op_bind, gets; simpl. rewrite Hp; simpl. rewrite Hc; simpl.
  unfold Send. by rewrite He.
Qed.

(** A message type with the position manager's prefix that is not
    [ship_mov_position_update] makes [Ship.HandleMessage] return an
    error; nothing is sent and nothing changes. *)
Lemma Ship_HandleMessage_bad_mov (ship : ShipPtr) (player : PlayerPtr)
    (message : Message) (rest : string) (s : State) :
  Typ message = "ship_mov_" +:+ rest → rest ≠ "position_update" →
  Ship_HandleMessage ship player message s = Returns (Some (ErrPMUnknown rest)) s.
Proof.
  intros Hty Hrest. unfold Ship_HandleMessage.
  rewrite !decide_False by (rewrite Hty; done).
  unfold PM_HandleMessage, TrimPrefix, shipMsgPrefix.
  rewrite (proj2 (stripPrefix_Some _ _ rest)) by done. simpl.
  rewrite decide_False.
  2:{ intros Heq. apply (f_equal String.length) in Heq.
      rewrite Hty, append_length in Heq. simpl in Heq. lia. }
  rewrite decide_True by done. reflexivity.
Qed.

(** C4 (as amended): the lobby activity answers every message type it
    does not recognise with a [lobby_unrecognised_message_type] reply
    and returns nil; the ship answers every message type that is neither
    one of its own nor prefixed with [ship_mov_] with a
    [ship_unknown_message_type_error] reply and returns nil; for a type
    [ship_mov_X] with [X] other than [position_update] the ship sends
    nothing and returns a non-nil error. *)
Theorem unrecognised_message_reply (ship : ShipPtr) (act : LobbyPtr)
    (player : PlayerPtr) (pl : Player) (c : ClientPtr) (message : Message)
    (s : State) :
  players s !! player = Some pl → Client pl = Some c →
  (Typ message ≠ "lobby_team_change" → Typ message ≠ "lobby_ready_change" →
   Typ message ≠ "lobby_bye" →
   ∃ data,
     LobbyActivity_HandleMessage act player message s
       = Returns None (set_out (out s ++ [{| C := c; M := data |}]) s) ∧
     ParseMessage data
       = Some (Add "bad_type" (VString (Typ message))
                 (NewMessage "lobby_unrecognised_message_type"))) ∧
  (Typ message ≠ "ship_flag_activate" → Typ message ≠ "lobby_bye" →
   (∀ rest, Typ message ≠ "ship_mov_" +:+ rest) →
   ∃ data,
     Ship_HandleMessage ship player message s
       = Returns None (set_out (out s ++ [{| C := c; M := data |}]) s) ∧
     ParseMessage data = Some (NewMessage "ship_unknown_message_type_error")) ∧
  (∀ rest, Typ message = "ship_mov_" +:+ rest → rest ≠ "position_update" →
   Ship_HandleMessage ship player message s
     = Returns (Some (ErrPMUnknown rest)) s).
Proof.
  intros Hp Hc. split; [|split].
  - intros H1 H2 H3. unfold LobbyActivity_HandleMessage.
    rewrite !decide_False by done.
    destruct (Encode_Parse_native
      (Add "bad_type" (VString (Typ message))
         (NewMessage "lobby_unrecognised_message_type"))) as (data & He & Hparse).
    { reflexivity. }
    { apply native_payload_Add; [done | apply native_payload_NewMessage]. }
    exists data. split; [by eapply SendTo_eq | done].
  - intros H1 H2 H3. unfold Ship_HandleMessage.
    rewrite !decide_False by done.
    unfold PM_HandleMessage, TrimPrefix, shipMsgPrefix.
    rewrite (proj2 (stripPrefix_None _ _)) by done. simpl.
    rewrite decide_True by done.
    destruct (Encode_Parse_native (NewMessage "ship_unknown_message_type_error"))
      as (data & He & Hparse).
    { reflexivity. }
    { apply native_payload_NewMessage. }
    exists data. split; [|done].
    unfold mbind at 1, Op_bind, mret, Op_ret. by eapply SendTo_eq.
  - intros rest. apply Ship_HandleMessage_bad_mov.
Qed.

Lemma demo_player1_inShip :
  players demo.inShip !! 1%nat =
    Some {| Team := Some (team1 0%nat); Client := Some 1%nat;
            Activity := Some (ActShip 0%nat); Name := "Cy" |}.
Proof. vm_compute. reflexivity. Qed.

Lemma unrecognised_message_reply_witness :
  players demo.inShip !! 1%nat =
    Some {| Team := Some (team1 0%nat); Client := Some 1%nat;
            Activity := Some (ActShip 0%nat); Name := "Cy" |} ∧
  ∃ data,
    Ship_HandleMessage 0%nat 1%nat (NewMessage "hello") demo.inShip
      = Returns None
          (set_out (out demo.inShip ++ [{| C := 1%nat; M := data |}]) demo.inShip) ∧
    ParseMessage data = Some (NewMessage "ship_unknown_message_type_error").
Proof.
  split; [exact demo_player1_inShip|].
  refine (proj1 (proj2 (unrecognised_message_reply 0%nat 0%nat 1%nat _ 1%nat
            (NewMessage "hello") demo.inShip demo_player1_inShip eq_refl)) _ _ _).
  - discriminate.
  - discriminate.
  - intros rest. discriminate.
Defined.

(** C4 as stated fails: player 1 of the demo ship sends a message of
    type [ship_mov_bogus]; [Ship.HandleMessage] returns a non-nil error
    and leaves the state as it was, so no reply is sent. *)
Lemma ship_mov_bogus_propagates_error :
  players demo.inShip !! 1%nat =
    Some {| Team := Some (team1 0%nat); Client := Some 1%nat;
            Activity := Some (ActShip 0%nat); Name := "Cy" |} ∧
  Ship_HandleMessage 0%nat 1%nat (NewMessage "ship_mov_bogus") demo.inShip
    = Returns (Some (ErrPMUnknown "bogus")) demo.inShip.
Proof.
  split; [exact demo_player1_inShip|].
  by apply Ship_HandleMessage_bad_mov.
Qed.

(** ** Frame lemmas for the whole call tree *)

Create HintDb pres.

Section frames.
Context (R : relation State) `{!PreOrder R}.
Context `{!AllowOut R} `{!AllowRng R} `{!AllowEvent R} `{!AllowTimers R}.
Context `{!AllowNewCtx R} `{!AllowInvalidate R} `{!AllowStores R} `{!AllowClients R}.
Context `{!AllowActivities R} `{!AllowActivity R} `{!AllowClient R}.
Context `{!AllowTeam R} `{!AllowNewPlayer R} `{!AllowTeamPlayers R}.
Context `{!AllowNewLobby R} `{!AllowReady R} `{!AllowFlagUpd R}.
Context `{!AllowShipUpd R} `{!AllowNewFlag R} `{!AllowNewShip R}.

Ltac allow :=
  first
    [ apply allow_out | apply allow_rng | apply allow_event | apply allow_timers
    | apply allow_new_ctx | apply allow_invalidate | apply allow_stores
    | apply allow_clients
    | apply allow_activities | apply allow_activity | apply allow_client
    | apply allow_team | apply allow_new_player | apply allow_new_lobby
    | apply allow_ready
    | apply allow_flag_upd; intros ?; done
    | apply allow_ship_upd; intros ?; done
    | apply allow_new_flag | apply allow_new_ship ].

Ltac pres_core :=
  repeat (intros; first
    [ solve [eauto 2 with pres nocore]
    | progress cbv zeta
    | pres_step
    | allow ]).

Lemma pres_getPlayer p : preserves R (getPlayer p).
Proof. unfold getPlayer. pres_core. Qed.
Lemma pres_getLobby l : preserves R (getLobby l).
Proof. unfold getLobby. pres_core. Qed.
Lemma pres_getShip ship : preserves R (getShip ship).
Proof. unfold getShip. pres_core. Qed.
Lemma pres_getCtx ctx : preserves R (getCtx ctx).
Proof. unfold getCtx. pres_core. Qed.
Lemma pres_getClient c : preserves R (getClient c).
Proof. unfold getClient. pres_core. Qed.
Local Hint Resolve pres_getPlayer pres_getLobby pres_getShip pres_getCtx
  pres_getClient : pres.

Lemma pres_allocPlayer pl : preserves R (allocPlayer pl).
Proof. intros s a s' [= _ <-]. apply allow_new_player. Qed.
Lemma pres_allocLobby lb : preserves R (allocLobby lb).
Proof. intros s a s' [= _ <-]. apply allow_new_lobby. Qed.
Lemma pres_allocShip sh : preserves R (allocShip sh).
Proof. intros s a s' [= _ <-]. apply allow_new_ship. Qed.
Lemma pres_allocCtx c : preserves R (allocCtx c).
Proof. intros s a s' [= _ <-]. apply allow_new_ctx. Qed.
Lemma pres_allocCell v : preserves R (allocCell v).
Proof. intros s a s' [= _ <-]. apply allow_stores. Qed.
Lemma pres_startTimerProc proc : preserves R (startTimerProc proc).
Proof. intros s a s' [= _ <-]. apply allow_timers. Qed.
Lemma pres_updTeamPlayers team f : preserves R (updTeamPlayers team f).
Proof.
  unfold updTeamPlayers, updLobby. apply (pres_modify R). intros s.
  apply allow_team_players.
Qed.
Local Hint Resolve pres_allocPlayer pres_allocLobby pres_allocShip pres_allocCtx
  pres_allocCell pres_startTimerProc pres_updTeamPlayers : pres.

Lemma pres_Send c m : preserves R (Send c m).
Proof. unfold Send. pres_core. Qed.
Local Hint Resolve pres_Send : pres.

Lemma pres_SendTo p m : preserves R (SendTo p m).
Proof. unfold SendTo. pres_core. Qed.
Local Hint Resolve pres_SendTo : pres.

Lemma pres_draw' : preserves R draw.
Proof. apply (pres_draw R). intros. apply allow_rng. Qed.
Local Hint Resolve pres_draw' : pres.

Lemma pres_ForAllMembers team fn :
  (∀ p, preserves R (fn p)) → preserves R (ForAllMembers team fn).
Proof. intros. unfold ForAllMembers, getTeamPlayers. pres_core. Qed.

Lemma pres_ForAllPlayers l fn :
  (∀ p, preserves R (fn p)) → preserves R (ForAllPlayers l fn).
Proof.
  intros. unfold ForAllPlayers.
  pres_core; apply pres_ForAllMembers; done.
Qed.

Lemma pres_PlayerLobby p : preserves R (PlayerLobby p).
Proof. unfold PlayerLobby. pres_core. Qed.
Local Hint Resolve pres_PlayerLobby : pres.

Lemma pres_ForAllLobbyPeers p fn :
  (∀ q, preserves R (fn q)) → preserves R (ForAllLobbyPeers p fn).
Proof.
  intros. unfold ForAllLobbyPeers. pres_core.
  apply pres_ForAllPlayers. pres_core.
Qed.

Lemma pres_ForAllActivityPeers p fn :
  (∀ q, preserves R (fn q)) → preserves R (ForAllActivityPeers p fn).
Proof.
  intros. unfold ForAllActivityPeers.
  apply pres_ForAllLobbyPeers. pres_core.
Qed.

Lemma pres_ForAllShipPeers p fn :
  (∀ q, preserves R (fn q)) → preserves R (ForAllShipPeers p fn).
Proof.
  intros. unfold ForAllShipPeers. pres_core.
  by apply pres_ForAllActivityPeers.
Qed.

Lemma pres_ForAllShipPlayers ship fn :
  (∀ q, preserves R (fn q)) → preserves R (ForAllShipPlayers ship fn).
Proof.
  intros. unfold ForAllShipPlayers. pres_core.
  apply pres_ForAllPlayers. pres_core.
Qed.

Ltac pres_go :=
  repeat (intros; first
    [ solve [eauto 2 with pres nocore]
    | progress cbv zeta
    | apply pres_ForAllPlayers
    | apply pres_ForAllMembers
    | apply pres_ForAllLobbyPeers
    | apply pres_ForAllActivityPeers
    | apply pres_ForAllShipPeers
    | apply pres_ForAllShipPlayers
    | pres_step
    | allow ]).


Lemma pres_SchedulerAdd fn : preserves R (SchedulerAdd fn).
Proof. unfold SchedulerAdd. pres_go. Qed.
Local Hint Resolve pres_SchedulerAdd : pres.

Lemma pres_ExpiredTimer  : preserves R (ExpiredTimer ).
Proof. unfold ExpiredTimer. pres_go. Qed.
Local Hint Resolve pres_ExpiredTimer : pres.

Lemma pres_TickingTimer e fn on : preserves R (TickingTimer e fn on).
Proof. unfold TickingTimer. pres_go. Qed.
Local Hint Resolve pres_TickingTimer : pres.

Lemma pres_SingleTimer e fn : preserves R (SingleTimer e fn).
Proof. unfold SingleTimer. pres_go. Qed.
Local Hint Resolve pres_SingleTimer : pres.

Lemma pres_HasEnded tm : preserves R (HasEnded tm).
Proof. unfold HasEnded. pres_go. Qed.
Local Hint Resolve pres_HasEnded : pres.

Lemma pres_TimeLeft tm : preserves R (TimeLeft tm).
Proof. unfold TimeLeft. pres_go. Qed.
Local Hint Resolve pres_TimeLeft : pres.

Lemma pres_sendQuit c fn : preserves R (sendQuit c fn).
Proof. unfold sendQuit. pres_go. Qed.
Local Hint Resolve pres_sendQuit : pres.

Lemma pres_StopWith tm fn : preserves R (StopWith tm fn).
Proof. unfold StopWith. pres_go. Qed.
Local Hint Resolve pres_StopWith : pres.

Lemma pres_Stop tm : preserves R (Stop tm).
Proof. unfold Stop. pres_go. Qed.
Local Hint Resolve pres_Stop : pres.

Lemma pres_setClientPlayer c p : preserves R (setClientPlayer c p).
Proof. unfold setClientPlayer. pres_go. Qed.
Local Hint Resolve pres_setClientPlayer : pres.

Lemma pres_getTeamPlayers t : preserves R (getTeamPlayers t).
Proof. unfold getTeamPlayers. pres_go. Qed.
Local Hint Resolve pres_getTeamPlayers : pres.

Lemma pres_Team_AddPlayer t p : preserves R (Team_AddPlayer t p).
Proof. unfold Team_AddPlayer, updPlayer. pres_go. Qed.
Local Hint Resolve pres_Team_AddPlayer : pres.

Lemma pres_Team_RemovePlayer t p : preserves R (Team_RemovePlayer t p).
Proof. unfold Team_RemovePlayer, updPlayer. pres_go. Qed.
Local Hint Resolve pres_Team_RemovePlayer : pres.

Lemma pres_PlayerCount_ l : preserves R (PlayerCount_ l).
Proof. unfold PlayerCount_. pres_go. Qed.
Local Hint Resolve pres_PlayerCount_ : pres.

Lemma pres_IsReady l : preserves R (IsReady l).
Proof. unfold IsReady. pres_go. Qed.
Local Hint Resolve pres_IsReady : pres.

Lemma pres_buildPlayerNameSet l : preserves R (buildPlayerNameSet l).
Proof. unfold buildPlayerNameSet. pres_go. Qed.
Local Hint Resolve pres_buildPlayerNameSet : pres.

Lemma pres_randomDigit  : preserves R (randomDigit ).
Proof. unfold randomDigit. pres_go. Qed.
Local Hint Resolve pres_randomDigit : pres.

Lemma pres_randomLobbyCode  : preserves R (randomLobbyCode ).
Proof. unfold randomLobbyCode. pres_go. Qed.
Local Hint Resolve pres_randomLobbyCode : pres.

Lemma pres_randomUsername  : preserves R (randomUsername ).
Proof. unfold randomUsername. pres_go. Qed.
Local Hint Resolve pres_randomUsername : pres.

Lemma pres_generatePlayerName_loop fuel taken :
  preserves R (generatePlayerName_loop fuel taken).
Proof.
  induction fuel as [|n IH]; simpl; [apply (pres_starves R)|]. pres_go.
Qed.
Local Hint Resolve pres_generatePlayerName_loop : pres.

Lemma pres_generatePlayerName l : preserves R (generatePlayerName l).
Proof. unfold generatePlayerName. pres_go. Qed.
Local Hint Resolve pres_generatePlayerName : pres.

Lemma pres_AddClient l c : preserves R (AddClient l c).
Proof. unfold AddClient. pres_go. Qed.
Local Hint Resolve pres_AddClient : pres.

Lemma pres_forget l : preserves R (forget l).
Proof. unfold forget. pres_go. Qed.
Local Hint Resolve pres_forget : pres.

Lemma pres_Lobby_RemovePlayer l p : preserves R (Lobby_RemovePlayer l p).
Proof. unfold Lobby_RemovePlayer, updPlayer. pres_go. Qed.
Local Hint Resolve pres_Lobby_RemovePlayer : pres.

Lemma pres_SwitchTeam p t : preserves R (SwitchTeam p t).
Proof. unfold SwitchTeam. pres_go. Qed.
Local Hint Resolve pres_SwitchTeam : pres.

Lemma pres_GetActivity id : preserves R (GetActivity id).
Proof. unfold GetActivity. pres_go. Qed.
Local Hint Resolve pres_GetActivity : pres.

Lemma pres_PlayerTeamIndex p : preserves R (PlayerTeamIndex p).
Proof. unfold PlayerTeamIndex. pres_go. Qed.
Local Hint Resolve pres_PlayerTeamIndex : pres.

Lemma pres_PlayerName p : preserves R (PlayerName p).
Proof. unfold PlayerName. pres_go. Qed.
Local Hint Resolve pres_PlayerName : pres.

Lemma pres_notifyJoineePeers p : preserves R (notifyJoineePeers p).
Proof. unfold notifyJoineePeers. pres_go. Qed.
Local Hint Resolve pres_notifyJoineePeers : pres.

Lemma pres_lobbyPeers p : preserves R (lobbyPeers p).
Proof. unfold lobbyPeers. pres_go. Qed.
Local Hint Resolve pres_lobbyPeers : pres.

Lemma pres_notifyJoinee a p : preserves R (notifyJoinee a p).
Proof. unfold notifyJoinee. pres_go. Qed.
Local Hint Resolve pres_notifyJoinee : pres.

Lemma pres_notifyPlayerJoin a p : preserves R (notifyPlayerJoin a p).
Proof. unfold notifyPlayerJoin. pres_go. Qed.
Local Hint Resolve pres_notifyPlayerJoin : pres.

Lemma pres_HandleJoinRequest a c : preserves R (HandleJoinRequest a c).
Proof. unfold HandleJoinRequest, updPlayer. pres_go. Qed.
Local Hint Resolve pres_HandleJoinRequest : pres.

Lemma pres_createLobby  : preserves R (createLobby ).
Proof. unfold createLobby. pres_go. Qed.
Local Hint Resolve pres_createLobby : pres.

Lemma pres_HandleLobbyCreate c : preserves R (HandleLobbyCreate c).
Proof. unfold HandleLobbyCreate. pres_go. Qed.
Local Hint Resolve pres_HandleLobbyCreate : pres.

Lemma pres_doLobbyCreate c : preserves R (doLobbyCreate c).
Proof. unfold doLobbyCreate. pres_go. Qed.
Local Hint Resolve pres_doLobbyCreate : pres.

Lemma pres_doLobbyJoin c m : preserves R (doLobbyJoin c m).
Proof. unfold doLobbyJoin. pres_go. Qed.
Local Hint Resolve pres_doLobbyJoin : pres.

Lemma pres_getFlag ship id : preserves R (getFlag ship id).
Proof. unfold getFlag. pres_go. Qed.
Local Hint Resolve pres_getFlag : pres.

Lemma pres_needsPlayer f p : preserves R (needsPlayer f p).
Proof. unfold needsPlayer. pres_go. Qed.
Local Hint Resolve pres_needsPlayer : pres.

Lemma pres_hasAllPlayers f : preserves R (hasAllPlayers f).
Proof. unfold hasAllPlayers. pres_go. Qed.
Local Hint Resolve pres_hasAllPlayers : pres.

Lemma pres_allocStore ctor : preserves R (allocStore ctor).
Proof. unfold allocStore. pres_go. Qed.
Local Hint Resolve pres_allocStore : pres.

Lemma pres_addMinigameFlag ship id proto at_ : preserves R (addMinigameFlag ship id proto at_).
Proof. unfold addMinigameFlag, updShip. pres_go. Qed.
Local Hint Resolve pres_addMinigameFlag : pres.

Lemma pres_flagForPlayer ship p : preserves R (flagForPlayer ship p).
Proof. unfold flagForPlayer. pres_go. Qed.
Local Hint Resolve pres_flagForPlayer : pres.

Lemma pres_oldestLoop fl p oldest : preserves R (oldestLoop fl p oldest).
Proof.
  revert oldest. induction fl as [|[id f] fl IH]; intros oldest; simpl; pres_go.
Qed.
Local Hint Resolve pres_oldestLoop : pres.

Lemma pres_oldestFlagNeedingPlayer ship p : preserves R (oldestFlagNeedingPlayer ship p).
Proof. unfold oldestFlagNeedingPlayer. pres_go. Qed.
Local Hint Resolve pres_oldestFlagNeedingPlayer : pres.

Lemma pres_idForFlag ship f : preserves R (idForFlag ship f).
Proof. unfold idForFlag. pres_go. Qed.
Local Hint Resolve pres_idForFlag : pres.

Lemma pres_flagForMinigame ship ctx : preserves R (flagForMinigame ship ctx).
Proof. unfold flagForMinigame. pres_go. Qed.
Local Hint Resolve pres_flagForMinigame : pres.

Lemma pres_clearForEndgame ship : preserves R (clearForEndgame ship).
Proof. unfold clearForEndgame, updFlag, updShip. pres_go. Qed.
Local Hint Resolve pres_clearForEndgame : pres.

Lemma pres_areAnyMinigamesOngoing ship : preserves R (areAnyMinigamesOngoing ship).
Proof. unfold areAnyMinigamesOngoing. pres_go. Qed.
Local Hint Resolve pres_areAnyMinigamesOngoing : pres.

Lemma pres_teamScores ship : preserves R (teamScores ship).
Proof. unfold teamScores. pres_go. Qed.
Local Hint Resolve pres_teamScores : pres.

Lemma pres_NewShip l : preserves R (NewShip l).
Proof. unfold NewShip. pres_go. Qed.
Local Hint Resolve pres_NewShip : pres.

Lemma pres_createInitialScores ship : preserves R (createInitialScores ship).
Proof. unfold createInitialScores, updShip. pres_go. Qed.
Local Hint Resolve pres_createInitialScores : pres.

Lemma pres_protoNamed n : preserves R (protoNamed n).
Proof. unfold protoNamed. pres_go. Qed.
Local Hint Resolve pres_protoNamed : pres.

Lemma pres_createFlags ship : preserves R (createFlags ship).
Proof. unfold createFlags. pres_go. Qed.
Local Hint Resolve pres_createFlags : pres.

Lemma pres_shuffleFrom {A} i (l : list A) : preserves R (shuffleFrom i l).
Proof. revert l. induction i as [|i IH]; intros l; simpl; pres_go. Qed.
Local Hint Resolve pres_shuffleFrom : pres.

Lemma pres_Shuffle {A} (l : list A) : preserves R (Shuffle l).
Proof. unfold Shuffle. pres_go. Qed.
Local Hint Resolve pres_Shuffle : pres.

Lemma pres_randomisedMembers t : preserves R (randomisedMembers t).
Proof. unfold randomisedMembers. pres_go. Qed.
Local Hint Resolve pres_randomisedMembers : pres.

Lemma pres_setPos ship p at_ : preserves R (setPos ship p at_).
Proof. unfold setPos, updShip. pres_go. Qed.
Local Hint Resolve pres_setPos : pres.

Lemma pres_index {A} (l : list A) i : preserves R (index l i).
Proof. unfold index. pres_go. Qed.
Local Hint Resolve pres_index : pres.

Lemma pres_spawnTeam ship slot a b c : preserves R (spawnTeam ship slot a b c).
Proof. unfold spawnTeam. pres_go. Qed.
Local Hint Resolve pres_spawnTeam : pres.

Lemma pres_setInitialPositions ship : preserves R (setInitialPositions ship).
Proof. unfold setInitialPositions. pres_go. Qed.
Local Hint Resolve pres_setInitialPositions : pres.

Lemma pres_shipPeers p : preserves R (shipPeers p).
Proof. unfold shipPeers. pres_go. Qed.
Local Hint Resolve pres_shipPeers : pres.

Lemma pres_peerPositions ship p : preserves R (peerPositions ship p).
Proof. unfold peerPositions. pres_go. Qed.
Local Hint Resolve pres_peerPositions : pres.

Lemma pres_welcomePlayer ship p : preserves R (welcomePlayer ship p).
Proof. unfold welcomePlayer. pres_go. Qed.
Local Hint Resolve pres_welcomePlayer : pres.

Lemma pres_welcomeAll ship : preserves R (welcomeAll ship).
Proof. unfold welcomeAll, updPlayer. pres_go. Qed.
Local Hint Resolve pres_welcomeAll : pres.

Lemma pres_tick ship : preserves R (tick ship).
Proof. unfold tick. pres_go. Qed.
Local Hint Resolve pres_tick : pres.

Lemma pres_startTimer ship : preserves R (startTimer ship).
Proof. unfold startTimer, updShip. pres_go. Qed.
Local Hint Resolve pres_startTimer : pres.

Lemma pres_Ship_Start ship : preserves R (Ship_Start ship).
Proof. unfold Ship_Start. pres_go. Qed.
Local Hint Resolve pres_Ship_Start : pres.

Lemma pres_ensureValid ctx : preserves R (ensureValid ctx).
Proof. unfold ensureValid. pres_go. Qed.
Local Hint Resolve pres_ensureValid : pres.

Lemma pres_ctxShipLobby ctx : preserves R (ctxShipLobby ctx).
Proof. unfold ctxShipLobby. pres_go. Qed.
Local Hint Resolve pres_ctxShipLobby : pres.

Lemma pres_Ctx_ForAllPlayers ctx fn :
  (∀ p, preserves R (fn p)) → preserves R (Ctx_ForAllPlayers ctx fn).
Proof. intros. unfold Ctx_ForAllPlayers. pres_go. Qed.

Lemma pres_ctxPlayers ctx : preserves R (ctxPlayers ctx).
Proof. unfold ctxPlayers. pres_go. Qed.
Local Hint Resolve pres_ctxPlayers : pres.

Lemma pres_namesOf l : preserves R (namesOf l).
Proof. unfold namesOf. pres_go. Qed.
Local Hint Resolve pres_namesOf : pres.

Lemma pres_flagState f : preserves R (flagState f).
Proof. unfold flagState. pres_go. Qed.
Local Hint Resolve pres_flagState : pres.

Lemma pres_welcomePlayerBack ship p : preserves R (welcomePlayerBack ship p).
Proof. unfold welcomePlayerBack. pres_go. Qed.
Local Hint Resolve pres_welcomePlayerBack : pres.

Lemma pres_addPlayerToFlag ship f p : preserves R (addPlayerToFlag ship f p).
Proof. unfold addPlayerToFlag, updFlag, updShip. pres_go. Qed.
Local Hint Resolve pres_addPlayerToFlag : pres.

Lemma pres_shipPlayers ship : preserves R (shipPlayers ship).
Proof. unfold shipPlayers. pres_go. Qed.
Local Hint Resolve pres_shipPlayers : pres.

Lemma pres_eligibleFlagFor ship p : preserves R (eligibleFlagFor ship p).
Proof. unfold eligibleFlagFor. pres_go. Qed.
Local Hint Resolve pres_eligibleFlagFor : pres.

Lemma pres_findEligiblePlayersForFlags ship : preserves R (findEligiblePlayersForFlags ship).
Proof. unfold findEligiblePlayersForFlags. pres_go. Qed.
Local Hint Resolve pres_findEligiblePlayersForFlags : pres.

Lemma pres_notifyMinigameStart ship f : preserves R (notifyMinigameStart ship f).
Proof. unfold notifyMinigameStart. pres_go. Qed.
Local Hint Resolve pres_notifyMinigameStart : pres.

Lemma pres_NewMinigameContext proto st ship : preserves R (NewMinigameContext proto st ship).
Proof. unfold NewMinigameContext. pres_go. Qed.
Local Hint Resolve pres_NewMinigameContext : pres.

Lemma pres_storeValue st : preserves R (storeValue st).
Proof. unfold storeValue. pres_go. Qed.
Local Hint Resolve pres_storeValue : pres.

Lemma pres_Ctx_Start ctx : preserves R (Ctx_Start ctx).
Proof. unfold Ctx_Start. pres_go. Qed.
Local Hint Resolve pres_Ctx_Start : pres.

Lemma pres_startMinigameForFlag ship f : preserves R (startMinigameForFlag ship f).
Proof. unfold startMinigameForFlag, updFlag, updShip, updPlayer. pres_go. Qed.
Local Hint Resolve pres_startMinigameForFlag : pres.

Lemma pres_dropUnneeded ship f p l : preserves R (dropUnneeded ship f p l).
Proof. induction l as [|pl l IH]; simpl; pres_go. Qed.
Local Hint Resolve pres_dropUnneeded : pres.

Lemma pres_fillFlag fuel ship f l : preserves R (fillFlag fuel ship f l).
Proof. revert l. induction fuel as [|n IH]; intros l; simpl; pres_go. Qed.
Local Hint Resolve pres_fillFlag : pres.

Lemma pres_fillAndStart ship e : preserves R (fillAndStart ship e).
Proof. destruct e as [f l]. unfold fillAndStart. pres_go. Qed.
Local Hint Resolve pres_fillAndStart : pres.

Lemma pres_addPlayersToFlags ship : preserves R (addPlayersToFlags ship).
Proof. unfold addPlayersToFlags. pres_go. Qed.
Local Hint Resolve pres_addPlayersToFlags : pres.

Lemma pres_sendCooldownTick p id left : preserves R (sendCooldownTick p id left).
Proof. unfold sendCooldownTick. pres_go. Qed.
Local Hint Resolve pres_sendCooldownTick : pres.

Lemma pres_notifyCooldownTick ship f : preserves R (notifyCooldownTick ship f).
Proof. unfold notifyCooldownTick. pres_go. Qed.
Local Hint Resolve pres_notifyCooldownTick : pres.

Lemma pres_notifyCooldownEnd ship f : preserves R (notifyCooldownEnd ship f).
Proof. unfold notifyCooldownEnd. pres_go. Qed.
Local Hint Resolve pres_notifyCooldownEnd : pres.

Lemma pres_startCooldown ship f : preserves R (startCooldown ship f).
Proof. unfold startCooldown, updFlag, updShip. pres_go. Qed.
Local Hint Resolve pres_startCooldown : pres.

Lemma pres_notifyMinigameResult ship id r : preserves R (notifyMinigameResult ship id r).
Proof. unfold notifyMinigameResult. pres_go. Qed.
Local Hint Resolve pres_notifyMinigameResult : pres.

Lemma pres_notifyPeerLeft ship n : preserves R (notifyPeerLeft ship n).
Proof. unfold notifyPeerLeft. pres_go. Qed.
Local Hint Resolve pres_notifyPeerLeft : pres.

Lemma pres_namedIndividualScores ship : preserves R (namedIndividualScores ship).
Proof. unfold namedIndividualScores. pres_go. Qed.
Local Hint Resolve pres_namedIndividualScores : pres.

Lemma pres_end_ ship : preserves R (end_ ship).
Proof. unfold end_, updPlayer. pres_go. Qed.
Local Hint Resolve pres_end_ : pres.

Lemma pres_tryEnd ship : preserves R (tryEnd ship).
Proof. unfold tryEnd. pres_go. Qed.
Local Hint Resolve pres_tryEnd : pres.

Lemma pres_enterEndgame ship : preserves R (enterEndgame ship).
Proof. unfold enterEndgame, updShip. pres_go. Qed.
Local Hint Resolve pres_enterEndgame : pres.

Lemma pres_tryEnterEndgame ship : preserves R (tryEnterEndgame ship).
Proof. unfold tryEnterEndgame. pres_go. Qed.
Local Hint Resolve pres_tryEnterEndgame : pres.

Lemma pres_triggerEndgame ship n : preserves R (triggerEndgame ship n).
Proof. unfold triggerEndgame. pres_go. Qed.
Local Hint Resolve pres_triggerEndgame : pres.

Lemma pres_removePlayer ship p : preserves R (removePlayer ship p).
Proof. unfold removePlayer, updShip, updPlayer. pres_go. Qed.
Local Hint Resolve pres_removePlayer : pres.

Lemma pres_spreadFrom ship around offset sp i l :
  preserves R (spreadFrom ship around offset sp i l).
Proof. revert i. induction l as [|p l IH]; intros i; simpl; pres_go. Qed.
Local Hint Resolve pres_spreadFrom : pres.

Lemma pres_spreadPlayers ship around dist l : preserves R (spreadPlayers ship around dist l).
Proof. unfold spreadPlayers. pres_go. Qed.
Local Hint Resolve pres_spreadPlayers : pres.

Lemma pres_invalidate ctx : preserves R (invalidate ctx).
Proof. unfold invalidate. pres_go. Qed.
Local Hint Resolve pres_invalidate : pres.

Lemma pres_addScore ship p w : preserves R (addScore ship p w).
Proof. unfold addScore, updShip. pres_go. Qed.
Local Hint Resolve pres_addScore : pres.

Lemma pres_endMinigame ship ctx r : preserves R (endMinigame ship ctx r).
Proof. unfold endMinigame, updFlag, updShip, updPlayer. pres_go. Qed.
Local Hint Resolve pres_endMinigame : pres.

Lemma pres_findNearestFlag ship p : preserves R (findNearestFlag ship p).
Proof. unfold findNearestFlag. pres_go. Qed.
Local Hint Resolve pres_findNearestFlag : pres.

Lemma pres_activateFlag ship p f : preserves R (activateFlag ship p f).
Proof. unfold activateFlag, updFlag, updShip. pres_go. Qed.
Local Hint Resolve pres_activateFlag : pres.

Lemma pres_reply p typ f : preserves R (reply p typ f).
Proof. unfold reply. pres_go. Qed.
Local Hint Resolve pres_reply : pres.

Lemma pres_tryActivateFlag ship p : preserves R (tryActivateFlag ship p).
Proof. unfold tryActivateFlag. pres_go. Qed.
Local Hint Resolve pres_tryActivateFlag : pres.

Lemma pres_notifyNewPosition ship p : preserves R (notifyNewPosition ship p).
Proof. unfold notifyNewPosition. pres_go. Qed.
Local Hint Resolve pres_notifyNewPosition : pres.

Lemma pres_doSetPosition ship p at_ : preserves R (doSetPosition ship p at_).
Proof. unfold doSetPosition. pres_go. Qed.
Local Hint Resolve pres_doSetPosition : pres.

Lemma pres_doPositionUpdate ship p m : preserves R (doPositionUpdate ship p m).
Proof. unfold doPositionUpdate. pres_go. Qed.
Local Hint Resolve pres_doPositionUpdate : pres.

Lemma pres_PM_HandleMessage ship p m : preserves R (PM_HandleMessage ship p m).
Proof. unfold PM_HandleMessage. pres_go. Qed.
Local Hint Resolve pres_PM_HandleMessage : pres.

Lemma pres_Ship_HandleMessage ship p m : preserves R (Ship_HandleMessage ship p m).
Proof. unfold Ship_HandleMessage. pres_go. Qed.
Local Hint Resolve pres_Ship_HandleMessage : pres.

Lemma pres_MultiplayerDisconnection p : preserves R (MultiplayerDisconnection p).
Proof. unfold MultiplayerDisconnection. pres_go. Qed.
Local Hint Resolve pres_MultiplayerDisconnection : pres.

Lemma pres_SinglePlayerWin p : preserves R (SinglePlayerWin p).
Proof. unfold SinglePlayerWin. pres_go. Qed.
Local Hint Resolve pres_SinglePlayerWin : pres.

Lemma pres_Ctx_End ctx r : preserves R (Ctx_End ctx r).
Proof. unfold Ctx_End. pres_go. Qed.
Local Hint Resolve pres_Ctx_End : pres.

Lemma pres_Ctx_PlayerCount ctx : preserves R (Ctx_PlayerCount ctx).
Proof. unfold Ctx_PlayerCount. pres_go. Qed.
Local Hint Resolve pres_Ctx_PlayerCount : pres.

Lemma pres_ExactlyOnePlayer ctx : preserves R (ExactlyOnePlayer ctx).
Proof. unfold ExactlyOnePlayer. pres_go. Qed.
Local Hint Resolve pres_ExactlyOnePlayer : pres.

Lemma pres_GetTeam ctx slot : preserves R (GetTeam ctx slot).
Proof. unfold GetTeam. pres_go. Qed.
Local Hint Resolve pres_GetTeam : pres.

Lemma pres_setReady a f : preserves R (setReady a f).
Proof. unfold setReady, updLobby. pres_go. Qed.
Local Hint Resolve pres_setReady : pres.

Lemma pres_notifyTeamChange p t : preserves R (notifyTeamChange p t).
Proof. unfold notifyTeamChange. pres_go. Qed.
Local Hint Resolve pres_notifyTeamChange : pres.

Lemma pres_doTeamChange a p m : preserves R (doTeamChange a p m).
Proof. unfold doTeamChange. pres_go. Qed.
Local Hint Resolve pres_doTeamChange : pres.

Lemma pres_notifyBye a p : preserves R (notifyBye a p).
Proof. unfold notifyBye. pres_go. Qed.
Local Hint Resolve pres_notifyBye : pres.

Lemma pres_doBye a p : preserves R (doBye a p).
Proof. unfold doBye. pres_go. Qed.
Local Hint Resolve pres_doBye : pres.

Lemma pres_notifyReadyChange p r : preserves R (notifyReadyChange p r).
Proof. unfold notifyReadyChange. pres_go. Qed.
Local Hint Resolve pres_notifyReadyChange : pres.

Lemma pres_doStartGame a : preserves R (doStartGame a).
Proof. unfold doStartGame. pres_go. Qed.
Local Hint Resolve pres_doStartGame : pres.

Lemma pres_doReadyUp a p : preserves R (doReadyUp a p).
Proof. unfold doReadyUp. pres_go. Qed.
Local Hint Resolve pres_doReadyUp : pres.

Lemma pres_doUnready a p : preserves R (doUnready a p).
Proof. unfold doUnready. pres_go. Qed.
Local Hint Resolve pres_doUnready : pres.

Lemma pres_doReadySet a p r : preserves R (doReadySet a p r).
Proof. unfold doReadySet. pres_go. Qed.
Local Hint Resolve pres_doReadySet : pres.

Lemma pres_doReadyChange a p m : preserves R (doReadyChange a p m).
Proof. unfold doReadyChange. pres_go. Qed.
Local Hint Resolve pres_doReadyChange : pres.

Lemma pres_LobbyActivity_HandleMessage a p m : preserves R (LobbyActivity_HandleMessage a p m).
Proof. unfold LobbyActivity_HandleMessage. pres_go. Qed.
Local Hint Resolve pres_LobbyActivity_HandleMessage : pres.

Lemma pres_click_race_thresholdOf ctx : preserves R (click_race.thresholdOf ctx).
Proof. unfold click_race.thresholdOf. pres_go. Qed.
Local Hint Resolve pres_click_race_thresholdOf : pres.

Lemma pres_click_race_readStore a : preserves R (click_race.readStore a).
Proof. unfold click_race.readStore. pres_go. Qed.
Local Hint Resolve pres_click_race_readStore : pres.

Lemma pres_click_race_writeStore a v : preserves R (click_race.writeStore a v).
Proof. unfold click_race.writeStore. pres_go. Qed.
Local Hint Resolve pres_click_race_writeStore : pres.

Lemma pres_click_race_endSp cs ctx : preserves R (click_race.endSp cs ctx).
Proof. unfold click_race.endSp. pres_go. Qed.
Local Hint Resolve pres_click_race_endSp : pres.

Lemma pres_click_race_endMp cs ctx : preserves R (click_race.endMp cs ctx).
Proof. unfold click_race.endMp. pres_go. Qed.
Local Hint Resolve pres_click_race_endMp : pres.

Lemma pres_click_race_tryEnd cs ctx : preserves R (click_race.tryEnd cs ctx).
Proof. unfold click_race.tryEnd. pres_go. Qed.
Local Hint Resolve pres_click_race_tryEnd : pres.

Lemma pres_click_race_Handle cs ctx p m : preserves R (click_race.Handle cs ctx p m).
Proof. unfold click_race.Handle. pres_go. Qed.
Local Hint Resolve pres_click_race_Handle : pres.

Lemma pres_click_race_HandleDisconnection cs ctx p : preserves R (click_race.HandleDisconnection cs ctx p).
Proof. unfold click_race.HandleDisconnection. pres_go. Qed.
Local Hint Resolve pres_click_race_HandleDisconnection : pres.

Lemma pres_click_race_onTimeout ctx : preserves R (click_race.onTimeout ctx).
Proof. unfold click_race.onTimeout. apply pres_Ctx_ForAllPlayers. pres_go. Qed.
Local Hint Resolve pres_click_race_onTimeout : pres.

Lemma pres_click_race_Start cs ctx : preserves R (click_race.Start cs ctx).
Proof.
  unfold click_race.Start, click_race.thresholdOf, click_race.readStore.
  cbv zeta. apply (pres_bind R); [pres_go|]. intros n.
  apply (pres_bind R); [pres_go|]. intros msg.
  apply (pres_bind R); [apply pres_Ctx_ForAllPlayers; pres_go | pres_go].
Qed.
Local Hint Resolve pres_click_race_Start : pres.

(** *** The hub *)

Lemma pres_Receive H c m :
  (∀ act p, preserves R (H act p m)) → preserves R (Receive H c m).
Proof. intros HH. unfold Receive, doLobbyCreate. pres_go. Qed.

Lemma pres_Ctx_HandleMessage cs ctx p m :
  preserves R (Ctx_HandleMessage clickRaceImpl cs ctx p m).
Proof. unfold Ctx_HandleMessage, clickRaceImpl. simpl. pres_go. Qed.
Local Hint Resolve pres_Ctx_HandleMessage : pres.

Lemma pres_Activity_HandleMessage cs act p m :
  preserves R (Activity_HandleMessage clickRaceImpl cs act p m).
Proof. unfold Activity_HandleMessage. pres_go. Qed.
Local Hint Resolve pres_Activity_HandleMessage : pres.

Lemma pres_handleIncoming cs c m :
  preserves R (handleIncoming (Activity_HandleMessage clickRaceImpl cs) c m).
Proof.
  unfold handleIncoming. apply (pres_bind R); [|pres_go].
  apply pres_Receive. pres_go.
Qed.

Lemma pres_killClient cs c :
  preserves R (killClient (Activity_HandleMessage clickRaceImpl cs) c).
Proof.
  unfold killClient. apply (pres_bind R); [pres_go|]. intros cl.
  destruct (ClientPlayer cl); [|pres_go].
  apply (pres_bind R); [apply pres_Receive; pres_go | pres_go].
Qed.

Lemma pres_runCallback fn : preserves R (runCallback fn).
Proof. unfold runCallback. pres_go. Qed.
Local Hint Resolve pres_runCallback : pres.

Lemma pres_handleEvent : preserves R handleEvent.
Proof. unfold handleEvent. pres_go. Qed.

Lemma pres_tickerFires c : preserves R (tickerFires c).
Proof. unfold tickerFires. pres_go. Qed.

Lemma pres_timerExpires c : preserves R (timerExpires c).
Proof. unfold timerExpires. pres_go. Qed.

Lemma pres_AddConnection : preserves R AddConnection.
Proof. intros s a s' [= _ <-]. apply allow_clients. Qed.

Lemma pres_clientListen c body : preserves R (clientListen c body).
Proof. unfold clientListen. pres_go. Qed.

(** Every step of the server with the click race as its minigame keeps
    a relation that tolerates each kind of change the code makes. *)
Lemma pres_serverStep `{!AllowNow R} (s s' : State) :
  serverStep clickRaceImpl s s' → R s s'.
Proof.
  destruct 1 as [cs c m s s' H | s s' H | cs c s s' H | c s s' H | c s s' H
                | c s s' H | c body r s s' H | d s s' Hd H].
  - by eapply pres_handleIncoming.
  - by eapply pres_handleEvent.
  - by eapply pres_killClient.
  - by eapply pres_tickerFires.
  - by eapply pres_timerExpires.
  - by eapply pres_AddConnection.
  - by eapply pres_clientListen.
  - injection H as <-. apply allow_now.
Qed.

End frames.

(** ** The click race's threshold store *)

Lemma lookupFlag_updateFlag (id id' : string) (g : flag → flag)
    (fl : list (string * flag)) :
  lookupFlag id (updateFlag id' g fl) =
    if decide (id' = id) then g <$> lookupFlag id fl else lookupFlag id fl.
Proof.
  induction fl as [|[k f] fl IH]; simpl.
  - by destruct (decide (id' = id)).
  - destruct (decide (k = id')) as [->|Hk]; simpl.
    + destruct (decide (id' = id)) as [->|Hne]; simpl; done.
    + destruct (decide (k = id)) as [->|Hk']; simpl; [|done].
      by rewrite decide_False by done.
Qed.

Lemma lookupFlag_app (id : string) (fl fl' : list (string * flag)) (f : flag) :
  lookupFlag id fl = Some f → lookupFlag id (fl ++ fl') = Some f.
Proof.
  induction fl as [|[k x] fl IH]; simpl; [done|].
  by destruct (decide (k = id)).
Qed.

Global Instance keeps_stores_preorder : PreOrder keeps_stores.
Proof.
  split.
  - by intros s.
  - intros s1 s2 s3 [H1 H1'] [H2 H2']. split; [congruence | eauto].
Qed.

Ltac keeps_trivial := intros; split; [reflexivity | done].

Global Instance keeps_stores_out : AllowOut keeps_stores.
Proof. keeps_trivial. Qed.
Global Instance keeps_stores_rng : AllowRng keeps_stores.
Proof. keeps_trivial. Qed.
Global Instance keeps_stores_event : AllowEvent keeps_stores.
Proof. keeps_trivial. Qed.
Global Instance keeps_stores_timers : AllowTimers keeps_stores.
Proof. keeps_trivial. Qed.
Global Instance keeps_stores_contexts : AllowContexts keeps_stores.
Proof. keeps_trivial. Qed.
Global Instance keeps_stores_clients : AllowClients keeps_stores.
Proof. keeps_trivial. Qed.
Global Instance keeps_stores_activities : AllowActivities keeps_stores.
Proof. keeps_trivial. Qed.
Global Instance keeps_stores_activity : AllowActivity keeps_stores.
Proof. keeps_trivial. Qed.
Global Instance keeps_stores_client : AllowClient keeps_stores.
Proof. keeps_trivial. Qed.
Global Instance keeps_stores_team : AllowTeam keeps_stores.
Proof. keeps_trivial. Qed.
Global Instance keeps_stores_team_players : AllowTeamPlayers keeps_stores.
Proof. keeps_trivial. Qed.

Global Instance keeps_stores_flag_upd : AllowFlagUpd keeps_stores.
Proof.
  intros s ship id g Hg. split; [reflexivity|].
  intros ship' id' st. unfold flagStore; simpl.
  rewrite lookup_alter.
  destruct (decide (ship = ship')) as [<-|]; [|done].
  destruct (ships s !! ship) as [sh|]; simpl; [|done].
  rewrite lookupFlag_updateFlag.
  destruct (decide (id = id')) as [<-|]; [|done].
  destruct (lookupFlag id (flags sh)) as [f|]; simpl; [|done].
  by rewrite (proj2 (proj2 (Hg f))).
Qed.

Global Instance keeps_stores_ship_upd : AllowShipUpd keeps_stores.
Proof.
  intros s ship g Hg. split; [reflexivity|].
  intros ship' id' st. unfold flagStore; simpl.
  rewrite lookup_alter.
  destruct (decide (ship = ship')) as [<-|]; [|done].
  destruct (ships s !! ship) as [sh|]; simpl; [|done].
  by rewrite (proj1 (Hg sh)).
Qed.

Lemma Ctx_End_keeps_stores (ctx : CtxPtr) (r : MinigameResult) :
  preserves keeps_stores (Ctx_End ctx r).
Proof. apply pres_Ctx_End; apply _. Qed.

Lemma Ship_HandleMessage_keeps_stores (ship : ShipPtr) (p : PlayerPtr)
    (m : Message) :
  preserves keeps_stores (Ship_HandleMessage ship p m).
Proof. apply pres_Ship_HandleMessage; apply _. Qed.

Lemma endSp_unfold (cs : click_race.state) (ctx : CtxPtr) (p : PlayerPtr)
    (pl : Player) (a : StorePtr) (t : Z) (s : State) :
  ExactlyOnePlayer ctx s = Returns p s →
  click_race.thresholdOf ctx s = Returns a s →
  stores s !! a = Some t →
  players s !! p = Some pl →
  click_race.endSp cs ctx s =
    if bool_decide (default 0 (click_race.reportedScores cs !! p) > t) then
      Ctx_End ctx {| winningTeam := Team pl; disconnected := None |}
        (set_stores (<[a := default 0 (click_race.reportedScores cs !! p)]>
                       (stores s)) s)
    else Ctx_End ctx SinglePlayerLoss s.
Proof.
  intros Hp Ha Ht Hpl. unfold click_race.endSp.
  rewrite (bind_eq _ _ _ _ _ Hp). cbv zeta.
  rewrite (bind_eq _ _ _ _ _ Ha).
  assert (Hr : click_race.readStore a s = Returns t s).
  { unfold click_race.readStore, mbind, Op_bind, gets. by rewrite Ht. }
  rewrite (bind_eq _ _ _ _ _ Hr).
  destruct (bool_decide _); [|done].
  unfold click_race.writeStore, SinglePlayerWin, getPlayer. run.
  rewrite Hpl. by run.
Qed.

(** C7: in the single-player click race, a reported score that does not
    exceed the stored threshold ends the game with a loss result and
    leaves the threshold as it is; a score above the threshold is
    written to the store and ends the game with a win result for the
    player's team.  However the call returns, the store then holds the
    larger of the two values, every other cell is untouched, and every
    flag still points at its store; handling a ship message or ending
    any minigame never writes a store. *)
Theorem endSp_threshold (cs : click_race.state) (ctx : CtxPtr) (p : PlayerPtr)
    (pl : Player) (a : StorePtr) (t : Z) (s : State) :
  ExactlyOnePlayer ctx s = Returns p s →
  click_race.thresholdOf ctx s = Returns a s →
  stores s !! a = Some t →
  players s !! p = Some pl →
  let score := default 0 (click_race.reportedScores cs !! p) in
  (score ≤ t → click_race.endSp cs ctx s = Ctx_End ctx SinglePlayerLoss s) ∧
  (t < score →
   click_race.endSp cs ctx s =
     Ctx_End ctx {| winningTeam := Team pl; disconnected := None |}
       (set_stores (<[a := score]> (stores s)) s)) ∧
  (∀ e s', click_race.endSp cs ctx s = Returns e s' →
     stores s' = <[a := Z.max t score]> (stores s) ∧
     ∀ ship id st, flagStore s ship id = Some st → flagStore s' ship id = Some st) ∧
  (∀ ship q m, preserves keeps_stores (Ship_HandleMessage ship q m)) ∧
  (∀ ctx' r, preserves keeps_stores (Ctx_End ctx' r)).
Proof.
  intros Hp Ha Ht Hpl score.
  pose proof (endSp_unfold cs ctx p pl a t s Hp Ha Ht Hpl) as Heq.
  fold score in Heq.
  split; [|split; [|split; [|split]]].
  - intros Hle. by rewrite Heq, bool_decide_eq_false_2 by lia.
  - intros Hlt. by rewrite Heq, bool_decide_eq_true_2 by lia.
  - intros e s'. rewrite Heq. case_bool_decide as Hcmp.
    + intros [Hst Hfl]%Ctx_End_keeps_stores. simpl in Hst.
      split; [by rewrite <- Hst, Z.max_r by lia | done].
    + intros [Hst Hfl]%Ctx_End_keeps_stores.
      split; [|done].
      by rewrite <- Hst, Z.max_l, insert_id by (done || lia).
  - apply Ship_HandleMessage_keeps_stores.
  - apply Ctx_End_keeps_stores.
Qed.

Lemma demo_inMinigame_facts :
  ExactlyOnePlayer 0%nat demo.inMinigame = Returns 0%nat demo.inMinigame ∧
  click_race.thresholdOf 0%nat demo.inMinigame = Returns 0%nat demo.inMinigame ∧
  stores demo.inMinigame !! 0%nat = Some 0 ∧
  players demo.inMinigame !! 0%nat =
    Some {| Team := Some (team0 0%nat); Client := Some 0%nat;
            Activity := Some (ActMinigame 0%nat); Name := "Fay" |}.
Proof. repeat split; vm_compute; reflexivity. Qed.

Lemma endSp_threshold_witness :
  (ExactlyOnePlayer 0%nat demo.inMinigame = Returns 0%nat demo.inMinigame ∧
   click_race.thresholdOf 0%nat demo.inMinigame = Returns 0%nat demo.inMinigame ∧
   stores demo.inMinigame !! 0%nat = Some 0 ∧
   players demo.inMinigame !! 0%nat =
     Some {| Team := Some (team0 0%nat); Client := Some 0%nat;
             Activity := Some (ActMinigame 0%nat); Name := "Fay" |}) ∧
  click_race.endSp demo.sevenClicks 0%nat demo.inMinigame =
    Ctx_End 0%nat {| winningTeam := Some (team0 0%nat); disconnected := None |}
      (set_stores (<[0%nat := 7]> (stores demo.inMinigame)) demo.inMinigame).
Proof.
  split; [exact demo_inMinigame_facts|].
  destruct demo_inMinigame_facts as (H1 & H2 & H3 & H4).
  exact (proj1 (proj2 (endSp_threshold demo.sevenClicks 0%nat 0%nat _ 0%nat 0
                         demo.inMinigame H1 H2 H3 H4)) eq_refl).
Defined.

(** The play of the witness returns, Fay is back in the ship, and the
    store holds her seven clicks. *)
Lemma demo_play_returns :
  ∃ e s', click_race.endSp demo.sevenClicks 0%nat demo.inMinigame = Returns e s' ∧
          stores s' !! 0%nat = Some 7 ∧
          (players s' !! 0%nat ≫= Activity) = Some (ActShip 0%nat).
Proof.
  destruct (after_returns (click_race.endSp demo.sevenClicks 0%nat) demo.inMinigame)
    as [e He]; [vm_compute; reflexivity|].
  exists e, (demo.after (click_race.endSp demo.sevenClicks 0%nat) demo.inMinigame).
  split; [exact He|]. split; vm_compute; reflexivity.
Qed.

(** ** Finalisation of the session *)

(** With a minigame running, [tryEnd] returns at once and changes
    nothing; with none running it goes on to the sanity check and
    [end]. *)
Lemma tryEnd_eq (ship : ShipPtr) (sh : Ship) (s : State) :
  ships s !! ship = Some sh →
  tryEnd ship s =
    if areAnyMinigamesOngoingIn (flags sh) then Returns None s
    else (ForAllPlayers (lobby sh) (λ p,
            pl ← getPlayer p;
            if decide (Activity pl = Some (ActShip ship)) then mret None
            else panic "found a player outside of the ship, but there are no minigames ongoing");;
          end_ ship) s.
Proof.
  intros Hsh. unfold tryEnd, areAnyMinigamesOngoing, getShip.
  run. rewrite Hsh. run.
  destruct (areAnyMinigamesOngoingIn (flags sh)); [done|].
  run. rewrite Hsh. by run.
Qed.

(** C1 (the code at the failing input): Cy leaves the ship while Fay is
    in a minigame, so the ship enters endgame and defers; when Fay's
    minigame then ends, [endMinigame] returns with the ship in endgame,
    no minigame running and Fay back in the ship, and the only frame it
    sent is her [ship_welcome_back]: finalisation was not attempted,
    although a [tryEnd] in that state would move her to the lobby. *)
Theorem endMinigame_in_endgame_skips_tryEnd :
  (isEndgame <$> ships demo.endgameWaiting !! 0%nat) = Some true ∧
  (∃ e, click_race.endSp demo.sevenClicks 0%nat demo.endgameWaiting
          = Returns e demo.afterMinigame) ∧
  (isEndgame <$> ships demo.afterMinigame !! 0%nat) = Some true ∧
  ((λ sh, areAnyMinigamesOngoingIn (flags sh))
     <$> ships demo.afterMinigame !! 0%nat) = Some false ∧
  (players demo.afterMinigame !! 0%nat ≫= Activity) = Some (ActShip 0%nat) ∧
  demo.sentSince demo.endgameWaiting demo.afterMinigame
    = [Some "ship_welcome_back"] ∧
  (players (demo.after (tryEnd 0%nat) demo.afterMinigame) !! 0%nat ≫= Activity)
    = Some (ActLobby 0%nat).
Proof.
  split; [vm_compute; reflexivity|].
  split.
  { apply returns_to; vm_compute; reflexivity. }
  repeat split; vm_compute; reflexivity.
Qed.

(** ** Lobbies *)

(** C8 (the code at the failing input): client 0 is in lobby 3141 and
    sends [lobby_create].  The manager registers a new lobby under code
    2653, the join is refused with [client_already_in_lobby_error], and
    the new lobby stays registered with no player in it. *)
Theorem lobby_create_leaves_empty_lobby :
  (clients demo.inLobby !! 0%nat) = Some {| ClientPlayer := Some 0%nat |} ∧
  (∃ e, Receive demo.dispatch 0%nat (NewMessage "lobby_create") demo.inLobby
          = Returns e demo.createdTwice) ∧
  demo.sentSince demo.inLobby demo.createdTwice
    = [Some "client_already_in_lobby_error"] ∧
  activities demo.createdTwice !! "2653" = Some 1%nat ∧
  demo.members demo.createdTwice 1%nat = Some [].
Proof.
  split; [vm_compute; reflexivity|].
  split.
  { apply returns_to; vm_compute; reflexivity. }
  repeat split; vm_compute; reflexivity.
Qed.

(** C9 (the code at the failing input): two lobbies drew the same code
    1234, so the manager's entry for the code is the second lobby, which
    has six players.  When the first lobby's game ends, [Ship.end] looks
    the lobby activity up by code and puts player 0 into the second
    lobby's activity; her [lobby_team_change] then adds her to a team of
    the second lobby, which holds seven players. *)
Theorem seventh_player_after_code_collision :
  demo.members demo.collision 1%nat
    = Some [2%nat; 4%nat; 6%nat; 3%nat; 5%nat; 7%nat] ∧
  (players demo.collision !! 0%nat ≫= Activity) = Some (ActLobby 1%nat) ∧
  (players demo.collision !! 0%nat ≫= Team) = Some (team0 0%nat) ∧
  (∃ e s', Receive demo.dispatch 0%nat demo.toTeam0 demo.collision = Returns e s' ∧
           demo.members s' 1%nat
             = Some [2%nat; 4%nat; 6%nat; 0%nat; 3%nat; 5%nat; 7%nat]).
Proof.
  split; [vm_compute; reflexivity|].
  split; [vm_compute; reflexivity|].
  split; [vm_compute; reflexivity|].
  destruct (after_returns (Receive demo.dispatch 0%nat demo.toTeam0) demo.collision)
    as [e He]; [vm_compute; reflexivity|].
  exists e, (demo.after (Receive demo.dispatch 0%nat demo.toTeam0) demo.collision).
  split; [exact He|]. vm_compute. reflexivity.
Qed.

(** ** Which flag a free player is put under *)

(** On an activated flag [needsPlayer] returns, with the state as it
    was. *)
Lemma needsPlayer_eq (f : flag) (a : Activation) (p : PlayerPtr) (s : State) :
  activation f = Some a →
  needsPlayer f p s = Returns (hasRoomFor (players s) f p) s.
Proof. intros Ha. unfold needsPlayer, hasRoomFor. by rewrite Ha. Qed.

Lemma recruits_snoc fl ps p idf f id t :
  recruits (fl ++ [(idf, f)]) ps p id t ↔
  recruits fl ps p id t ∨
  (id = idf ∧ ∃ a, activation f = Some a ∧ startTime a = t ∧ hasRoomFor ps f p = true).
Proof.
  unfold recruits. split.
  - intros (f' & a & Hin & Ha & Ht & Hr).
    apply elem_of_app in Hin as [Hin | Hin%list_elem_of_singleton].
    + left. eauto 10.
    + injection Hin as -> ->. right. eauto.
  - intros [(f' & a & Hin & H) | (-> & a & H)].
    + exists f', a. split; [apply elem_of_app; by left | done].
    + exists f, a. split; [apply elem_of_app; right; by apply list_elem_of_singleton | done].
Qed.

Lemma oldestLoop_spec (fl : list (string * flag)) (p : PlayerPtr) (s : State) :
  ∀ done oldest,
    oldestInv done (players s) p oldest →
    ∃ r, oldestLoop fl p oldest s = Returns r s
         ∧ oldestInv (done ++ fl) (players s) p r.
Proof.
  induction fl as [|[idf f] fl IH]; intros done oldest Hinv.
  - exists oldest. by rewrite app_nil_r.
  - assert (Hcons : done ++ (idf, f) :: fl = (done ++ [(idf, f)]) ++ fl)
      by by rewrite <- app_assoc.
    rewrite Hcons. simpl.
    destruct (activation f) as [a|] eqn:Ha.
    2:{ apply IH. destruct oldest as [[id t]|]; simpl in *.
        - destruct Hinv as [H1 H2]. split.
          + apply recruits_snoc. by left.
          + intros id' t' [H | (_ & a & Ha' & _)]%recruits_snoc; [eauto | congruence].
        - intros id t [H | (_ & a & Ha' & _)]%recruits_snoc; [by eapply Hinv | congruence]. }
    assert (Hkeep : ∀ id t, oldest = Some (id, t) →
              (t ≤ startTime a ∨ hasRoomFor (players s) f p = false) →
              oldestInv (done ++ [(idf, f)]) (players s) p oldest).
    { intros id t -> Hor. destruct Hinv as [H1 H2]. split.
      - apply recruits_snoc. by left.
      - intros id' t' [H | (_ & a' & Ha' & <- & Hr)]%recruits_snoc; [eauto|].
        destruct Hor as [Hle | Hno]; [congruence | congruence]. }
    assert (Hnew : (∀ id t, oldest = Some (id, t) → startTime a < t) →
              hasRoomFor (players s) f p = true →
              oldestInv (done ++ [(idf, f)]) (players s) p (Some (idf, startTime a))).
    { intros Hlt Hr. split.
      - apply recruits_snoc. right. eauto.
      - intros id' t' [H | (_ & a' & Ha' & <- & _)]%recruits_snoc.
        + destruct oldest as [[id t]|]; simpl in Hinv.
          * destruct Hinv as [_ H2]. specialize (H2 _ _ H).
            specialize (Hlt _ _ eq_refl). lia.
          * by destruct (Hinv _ _ H).
        + replace a' with a by congruence. lia. }
    assert (Hnone : oldest = None → hasRoomFor (players s) f p = false →
              oldestInv (done ++ [(idf, f)]) (players s) p None).
    { intros -> Hno id t [H | (_ & a' & _ & _ & Hr)]%recruits_snoc;
        [by eapply Hinv | congruence]. }
    destruct oldest as [[id t]|].
    + unfold After. case_bool_decide as Hlt.
      * rewrite (bind_eq _ _ _ _ _ (needsPlayer_eq f a p s Ha)).
        destruct (hasRoomFor (players s) f p) eqn:Hr.
        -- apply IH, Hnew; [|done]. by intros ? ? [= <- <-].
        -- apply IH. eapply Hkeep; eauto.
      * apply IH. eapply Hkeep; eauto. left. lia.
    + rewrite (bind_eq _ _ _ _ _ (needsPlayer_eq f a p s Ha)).
      destruct (hasRoomFor (players s) f p) eqn:Hr.
      * apply IH, Hnew; [|done]. by intros ? ? [=].
      * apply IH. by apply Hnone.
Qed.

(** [oldestFlagNeedingPlayer] returns a flag that needs the player and
    was activated earliest, or nil when no flag needs the player. *)
Lemma oldestFlagNeedingPlayer_spec (ship : ShipPtr) (sh : Ship) (p : PlayerPtr)
    (s : State) :
  ships s !! ship = Some sh →
  ∃ r, oldestFlagNeedingPlayer ship p s = Returns r s ∧
       match r with
       | Some id => earliestRecruiting (flags sh) (players s) p id
       | None => ∀ id t, ¬ recruits (flags sh) (players s) p id t
       end.
Proof.
  intros Hsh. unfold oldestFlagNeedingPlayer, getShip. run. rewrite Hsh. run.
  destruct (oldestLoop_spec (flags sh) p s [] None) as (r & Hr & Hinv).
  { intros id t (f & a & Hin & _). by apply elem_of_nil in Hin. }
  rewrite (bind_eq _ _ _ _ _ Hr). exists (fst <$> r). split; [done|].
  destruct r as [[id t]|]; simpl in *; [|done].
  exists t. done.
Qed.

Lemma mapOp_readonly {A B} (P : A → B → Prop) (fn : A → Op B) (s : State)
    (l : list A) :
  (∀ x, x ∈ l → ∃ y, fn x s = Returns y s ∧ P x y) →
  ∃ ys, mapOp l fn s = Returns ys s ∧ Forall2 P l ys.
Proof.
  induction l as [|x l IH]; intros H.
  - exists []. by split.
  - destruct (H x) as (y & Hy & HP); [left|].
    destruct IH as (ys & Hys & HF); [intros x' Hx'; apply H; by right|].
    exists (y :: ys). split; [|by constructor].
    simpl. rewrite (bind_eq _ _ _ _ _ Hy), (bind_eq _ _ _ _ _ Hys). done.
Qed.

Lemma addEligible_elem (f : string) (p : PlayerPtr)
    (m : list (string * list PlayerPtr)) (id : string) (q : PlayerPtr) :
  (∃ l, (id, l) ∈ addEligible f p m ∧ q ∈ l) ↔
  (∃ l, (id, l) ∈ m ∧ q ∈ l) ∨ (id = f ∧ q = p).
Proof.
  induction m as [|[k l0] m IH]; simpl.
  - split.
    + intros (l & Hin%list_elem_of_singleton & Hq). injection Hin as -> ->.
      apply list_elem_of_singleton in Hq. by right.
    + intros [(l & Hin & _) | [-> ->]]; [by apply elem_of_nil in Hin|].
      exists [p]. split; by apply list_elem_of_singleton.
  - destruct (decide (k = f)) as [->|Hk].
    + split.
      * intros (l & Hin & Hq). apply elem_of_cons in Hin as [Hin | Hin].
        -- injection Hin as -> ->.
           apply elem_of_app in Hq as [Hq | ->%list_elem_of_singleton]; [|by right].
           left. exists l0. split; [left | done].
        -- left. exists l. split; [by right | done].
      * intros [(l & Hin & Hq) | [-> ->]].
        -- apply elem_of_cons in Hin as [Hin | Hin].
           ++ injection Hin as -> ->. exists (l0 ++ [p]).
              split; [left | apply elem_of_app; by left].
           ++ exists l. split; [by right | done].
        -- exists (l0 ++ [p]). split; [left|].
           apply elem_of_app. right. by apply list_elem_of_singleton.
    + split.
      * intros (l & Hin & Hq). apply elem_of_cons in Hin as [Hin | Hin].
        -- injection Hin as -> ->. left. exists l0. split; [left | done].
        -- destruct (proj1 IH) as [(l' & Hin' & Hq') | H]; [eauto | | by right].
           left. exists l'. split; [by right | done].
      * intros [(l & Hin & Hq) | H].
        -- apply elem_of_cons in Hin as [Hin | Hin].
           ++ injection Hin as -> ->. exists l0. split; [left | done].
           ++ destruct (proj2 IH) as (l' & Hin' & Hq'); [left; eauto|].
              exists l'. split; [by right | done].
        -- destruct (proj2 IH) as (l' & Hin' & Hq'); [by right|].
           exists l'. split; [by right | done].
Qed.

Lemma fold_addEligible_elem (items : list (string * PlayerPtr))
    (m : list (string * list PlayerPtr)) (id : string) (q : PlayerPtr) :
  (∃ l, (id, l) ∈ fold_left (λ m fp, addEligible fp.1 fp.2 m) items m ∧ q ∈ l) ↔
  (∃ l, (id, l) ∈ m ∧ q ∈ l) ∨ (id, q) ∈ items.
Proof.
  revert m. induction items as [|[f p] items IH]; intros m; simpl.
  - split; [by left | intros [H | H]; [done | by apply elem_of_nil in H]].
  - rewrite IH, addEligible_elem. simpl. split.
    + intros [[H | [-> ->]] | H]; [by left | right; left | right; by right].
    + intros [H | H]; [left; by left|].
      apply elem_of_cons in H as [[= -> ->] | H]; [left; by right | by right].
Qed.

Lemma flagForPlayer_eq (ship : ShipPtr) (sh : Ship) (p : PlayerPtr) (s : State) :
  ships s !! ship = Some sh →
  flagForPlayer ship p s = Returns (flagForPlayerIn (flags sh) p) s.
Proof. intros Hsh. unfold flagForPlayer, getShip. run. rewrite Hsh. by run. Qed.

Lemma shipPlayers_eq (ship : ShipPtr) (sh : Ship) (lb : Lobby) (s : State) :
  ships s !! ship = Some sh → lobbies s !! lobby sh = Some lb →
  shipPlayers ship s =
    Returns (filter (λ p, (players s !! p ≫= Activity) = Some (ActShip ship))
               (Players0 lb ++ Players1 lb)) s.
Proof.
  intros Hsh Hlb. unfold shipPlayers, getShip, getLobby.
  run. rewrite Hsh. run. rewrite Hlb. by run.
Qed.

Lemma addEligible_keys (f : string) (p : PlayerPtr)
    (m : list (string * list PlayerPtr)) :
  (addEligible f p m).*1 = if decide (f ∈ m.*1) then m.*1 else m.*1 ++ [f].
Proof.
  induction m as [|[k l] m IH].
  - rewrite decide_False; [done|]. by intros ?%elem_of_nil.
  - cbn [addEligible]. destruct (decide (k = f)) as [->|Hk].
    + rewrite decide_True; [done | left].
    + rewrite !fmap_cons, IH. cbn [fst].
      destruct (decide (f ∈ m.*1)) as [Hin|Hnin].
      * rewrite decide_True; [done | by right].
      * rewrite decide_False; [done|].
        intros [?|?]%elem_of_cons; [congruence | done].
Qed.

Lemma addEligible_NoDup (f : string) (p : PlayerPtr)
    (m : list (string * list PlayerPtr)) :
  NoDup m.*1 → NoDup (addEligible f p m).*1.
Proof.
  intros H. rewrite addEligible_keys. destruct (decide (f ∈ m.*1)); [done|].
  apply NoDup_app. split; [done|]. split; [|apply NoDup_singleton].
  by intros x Hx ->%list_elem_of_singleton.
Qed.

Lemma addEligible_length (f : string) (p : PlayerPtr)
    (m : list (string * list PlayerPtr)) :
  length (concat (addEligible f p m).*2) = S (length (concat m.*2)).
Proof.
  induction m as [|[k l] m IH]; [done|].
  cbn [addEligible]. destruct (decide (k = f)).
  - rewrite !fmap_cons, !concat_cons, !length_app. cbn [snd].
    rewrite length_app. simpl. lia.
  - rewrite !fmap_cons, !concat_cons, !length_app, IH. lia.
Qed.

Lemma fold_addEligible_facts (items : list (string * PlayerPtr))
    (m : list (string * list PlayerPtr)) :
  NoDup m.*1 →
  NoDup (fold_left (λ m fp, addEligible fp.1 fp.2 m) items m).*1 ∧
  length (concat (fold_left (λ m fp, addEligible fp.1 fp.2 m) items m).*2)
    = (length items + length (concat m.*2))%nat.
Proof.
  revert m. induction items as [|[f p] items IH]; intros m Hnd; simpl; [done|].
  destruct (IH (addEligible f p m)) as [H1 H2]; [by apply addEligible_NoDup|].
  split; [done|]. rewrite H2, addEligible_length. lia.
Qed.

Lemma addEligible_nonempty (f : string) (p : PlayerPtr)
    (m : list (string * list PlayerPtr)) :
  (∀ id l, (id, l) ∈ m → l ≠ []) →
  ∀ id l, (id, l) ∈ addEligible f p m → l ≠ [].
Proof.
  induction m as [|[k l0] m IH]; intros Hm id l; cbn [addEligible].
  - intros [= _ ->]%list_elem_of_singleton. done.
  - destruct (decide (k = f)) as [->|Hk].
    + intros [[= _ ->] | Hin]%elem_of_cons.
      * by destruct l0.
      * eapply Hm. by right.
    + intros [[= -> ->] | Hin]%elem_of_cons.
      * eapply Hm. left.
      * eapply IH; [|done]. intros id' l' Hin'. eapply Hm. by right.
Qed.

Lemma fold_addEligible_nonempty (items : list (string * PlayerPtr))
    (m : list (string * list PlayerPtr)) :
  (∀ id l, (id, l) ∈ m → l ≠ []) →
  ∀ id l, (id, l) ∈ fold_left (λ m fp, addEligible fp.1 fp.2 m) items m → l ≠ [].
Proof.
  revert m. induction items as [|[f p] items IH]; intros m Hm; simpl; [done|].
  apply IH. by apply addEligible_nonempty.
Qed.

(** What [findEligiblePlayersForFlags] returns, in full. *)
Lemma findEligiblePlayersForFlags_spec (ship : ShipPtr) (sh : Ship)
    (lb : Lobby) (s : State) :
  ships s !! ship = Some sh → lobbies s !! lobby sh = Some lb →
  ∃ m, findEligiblePlayersForFlags ship s = Returns m s ∧
    NoDup m.*1 ∧
    (∀ id l, (id, l) ∈ m → l ≠ []) ∧
    (length (concat m.*2) ≤ length (Players0 lb ++ Players1 lb))%nat ∧
    (∀ id l p, (id, l) ∈ m → p ∈ l →
       p ∈ Players0 lb ++ Players1 lb ∧
       (players s !! p ≫= Activity) = Some (ActShip ship) ∧
       flagForPlayerIn (flags sh) p = None ∧
       earliestRecruiting (flags sh) (players s) p id ∧
       ∀ id' l', (id', l') ∈ m → p ∈ l' → id' = id) ∧
    (∀ p id t,
       p ∈ Players0 lb ++ Players1 lb →
       (players s !! p ≫= Activity) = Some (ActShip ship) →
       flagForPlayerIn (flags sh) p = None →
       recruits (flags sh) (players s) p id t →
       ∃ id' l, (id', l) ∈ m ∧ p ∈ l).
Proof.
  intros Hsh Hlb. unfold findEligiblePlayersForFlags.
  rewrite (bind_eq _ _ _ _ _ (shipPlayers_eq ship sh lb s Hsh Hlb)).
  set (ps := filter _ _).
  destruct (mapOp_readonly
    (λ p (r : option (string * PlayerPtr)),
       (f ← eligibleFlagFor ship p; mret ((λ id, (id, p)) <$> f)) s = Returns r s ∧
       ∃ f, r = (λ id, (id, p)) <$> f ∧
            match f with
            | Some id => flagForPlayerIn (flags sh) p = None
                         ∧ earliestRecruiting (flags sh) (players s) p id
            | None => flagForPlayerIn (flags sh) p = None →
                      ∀ id t, ¬ recruits (flags sh) (players s) p id t
            end)
    (λ p, f ← eligibleFlagFor ship p; mret ((λ id, (id, p)) <$> f)) s ps)
    as (found & Hfound & HF).
  { intros p _. unfold eligibleFlagFor. rewrite run_assoc.
    rewrite (bind_eq _ _ _ _ _ (flagForPlayer_eq ship sh p s Hsh)).
    destruct (flagForPlayerIn (flags sh) p) eqn:Hlock.
    - exists None. split; [done|]. split; [done|].
      exists None. split; [done | congruence].
    - destruct (oldestFlagNeedingPlayer_spec ship sh p s Hsh) as (r & Hr & Hspec).
      rewrite (bind_eq _ _ _ _ _ Hr). eexists. split; [done|]. split; [done|].
      exists r. split; [done|]. destruct r as [id|]; [done | by intros _]. }
  rewrite (bind_eq _ _ _ _ _ Hfound). eexists. split; [done|].
  set (items := omap Datatypes.id found).
  assert (Hitems : ∀ id p, (id, p) ∈ items →
            p ∈ ps ∧ flagForPlayerIn (flags sh) p = None
            ∧ earliestRecruiting (flags sh) (players s) p id).
  { intros id p H. apply list_elem_of_omap in H as (r & Hr & Hid).
    simpl in Hid. subst r. apply list_elem_of_lookup in Hr as (i & Hi).
    destruct (Forall2_lookup_r _ _ _ _ _ HF Hi) as (q & Hq & _ & f & Hf & Hspec).
    destruct f as [id'|]; [|done]. injection Hf as -> ->.
    split; [by eapply list_elem_of_lookup_2 | done]. }
  assert (Hlen : (length items ≤ length ps)%nat).
  { unfold items. rewrite (Forall2_length _ _ _ HF).
    clear. induction found as [|x found IH]; [done|].
    cbn [omap list_omap]. destruct (Datatypes.id x); simpl; lia. }
  destruct (fold_addEligible_facts items []) as [Hnd Hcount]; [constructor|].
  split; [done|]. split.
  { apply fold_addEligible_nonempty. by intros id l ?%elem_of_nil. }
  split.
  { rewrite Hcount. simpl. rewrite Nat.add_0_r.
    etrans; [exact Hlen|]. apply length_filter. }
  split.
  - intros id l p Hin Hp.
    assert (Hmem : ∀ id' l', (id', l') ∈ fold_left
              (λ m fp, addEligible fp.1 fp.2 m) items [] → p ∈ l' →
              (id', p) ∈ items).
    { intros id' l' Hin' Hp'.
      destruct (proj1 (fold_addEligible_elem items [] id' p))
        as [(l'' & H & _) | H]; [eauto | by apply elem_of_nil in H | done]. }
    destruct (Hitems id p (Hmem id l Hin Hp)) as (Hps & Hlock & Hear).
    unfold ps in Hps. apply list_elem_of_filter in Hps as [Hact HM].
    split; [done|]. split; [done|]. split; [done|]. split; [done|].
    intros id' l' Hin' Hp'.
    destruct (Hitems id' p (Hmem id' l' Hin' Hp')) as (_ & _ & (t' & Hrec' & Hmin')).
    destruct Hear as (t & Hrec & Hmin).
    (* both were returned for p by the same call *)
    pose proof (Hmem id l Hin Hp) as H1.
    pose proof (Hmem id' l' Hin' Hp') as H2.
    apply list_elem_of_omap in H1 as (r1 & Hr1 & Hid1).
    apply list_elem_of_omap in H2 as (r2 & Hr2 & Hid2).
    simpl in Hid1, Hid2. subst r1 r2.
    apply list_elem_of_lookup in Hr1 as (i1 & Hi1).
    apply list_elem_of_lookup in Hr2 as (i2 & Hi2).
    destruct (Forall2_lookup_r _ _ _ _ _ HF Hi1) as (q1 & Hq1 & Hc1 & f1 & Hf1 & _).
    destruct (Forall2_lookup_r _ _ _ _ _ HF Hi2) as (q2 & Hq2 & Hc2 & f2 & Hf2 & _).
    destruct f1 as [x1|], f2 as [x2|]; try done.
    injection Hf1 as -> ->. injection Hf2 as -> ->.
    rewrite Hc1 in Hc2. by injection Hc2 as ->.
  - intros p id t Hmem Hact Hlock Hrec.
    assert (Hp : p ∈ ps) by by apply list_elem_of_filter.
    apply list_elem_of_lookup in Hp as (i & Hi).
    destruct (Forall2_lookup_l _ _ _ _ _ HF Hi) as (r & Hr & _ & f & -> & HP).
    destruct f as [id'|]; [|by destruct (HP Hlock id t)].
    destruct (proj2 (fold_addEligible_elem items [] id' p)) as (l & Hl & Hpl).
    { right. apply list_elem_of_omap. exists (Some (id', p)). split; [|done].
      by eapply list_elem_of_lookup_2. }
    eauto.
Qed.

(** C6: in a ship whose lobby exists, [findEligiblePlayersForFlags]
    returns without changing the state, and every player it lists
    under a flag is a member of the lobby who is in the ship, is locked
    to no flag, and is needed by that flag, which was activated no later
    than any other flag that needs the player; and every free player in
    the ship whom some flag needs is listed. *)
Theorem findEligiblePlayersForFlags_earliest (ship : ShipPtr) (sh : Ship)
    (lb : Lobby) (s : State) :
  ships s !! ship = Some sh → lobbies s !! lobby sh = Some lb →
  ∃ m, findEligiblePlayersForFlags ship s = Returns m s ∧
    (∀ id l p, (id, l) ∈ m → p ∈ l →
       p ∈ Players0 lb ++ Players1 lb ∧
       (players s !! p ≫= Activity) = Some (ActShip ship) ∧
       flagForPlayerIn (flags sh) p = None ∧
       earliestRecruiting (flags sh) (players s) p id) ∧
    (∀ p id t,
       p ∈ Players0 lb ++ Players1 lb →
       (players s !! p ≫= Activity) = Some (ActShip ship) →
       flagForPlayerIn (flags sh) p = None →
       recruits (flags sh) (players s) p id t →
       ∃ id' l, (id', l) ∈ m ∧ p ∈ l).
Proof.
  intros Hsh Hlb.
  destruct (findEligiblePlayersForFlags_spec ship sh lb s Hsh Hlb)
    as (m & Hm & _ & _ & _ & Hsound & Hcomplete).
  exists m. split; [done|]. split; [|done].
  intros id l p Hin Hp.
  destruct (Hsound id l p Hin Hp) as (H1 & H2 & H3 & H4 & _). done.
Qed.

Lemma findEligiblePlayersForFlags_earliest_witness :
  ∃ sh lb,
    ships demo.deeBack !! 0%nat = Some sh ∧
    lobbies demo.deeBack !! lobby sh = Some lb ∧
    ∃ m, findEligiblePlayersForFlags 0%nat demo.deeBack = Returns m demo.deeBack ∧
      (∀ id l p, (id, l) ∈ m → p ∈ l →
         p ∈ Players0 lb ++ Players1 lb ∧
         (players demo.deeBack !! p ≫= Activity) = Some (ActShip 0%nat) ∧
         flagForPlayerIn (flags sh) p = None ∧
         earliestRecruiting (flags sh) (players demo.deeBack) p id) ∧
      (∀ p id t,
         p ∈ Players0 lb ++ Players1 lb →
         (players demo.deeBack !! p ≫= Activity) = Some (ActShip 0%nat) →
         flagForPlayerIn (flags sh) p = None →
         recruits (flags sh) (players demo.deeBack) p id t →
         ∃ id' l, (id', l) ∈ m ∧ p ∈ l).
Proof.
  assert (H : ∃ sh, ships demo.deeBack !! 0%nat = Some sh ∧
                    ∃ lb, lobbies demo.deeBack !! lobby sh = Some lb).
  { eexists. split; [vm_compute; reflexivity|].
    eexists. vm_compute. reflexivity. }
  destruct H as (sh & Hsh & lb & Hlb).
  exists sh, lb. split; [exact Hsh|]. split; [exact Hlb|].
  exact (findEligiblePlayersForFlags_earliest 0%nat sh lb demo.deeBack Hsh Hlb).
Defined.

(** In the state of the witness two flags need Dee, idfk_ since time
    1000 and blah since time 2000, and she is listed under idfk_. *)
Lemma demo_deeBack_eligible :
  demo.flagStates demo.deeBack 0%nat ≫= (λ l, Some (filter (λ x, x.1.2 ≠ None) l))
    = Some [("blah", Some {| startTime := 2000; lockedPlayers := [2%nat] |}, None);
            ("idfk_", Some {| startTime := 1000; lockedPlayers := [0%nat] |}, None)] ∧
  findEligiblePlayersForFlags 0%nat demo.deeBack
    = Returns [("idfk_", [3%nat])] demo.deeBack.
Proof. split; vm_compute; reflexivity. Qed.

(** The whole turn.  When Dee's click race ends, [endMinigame]
    locks her to idfk_, the flag that has waited longest, and its 1v1
    game starts; blah goes on waiting. *)
Lemma demo_Dee_joins_oldest_flag :
  demo.returns (click_race.endSp demo.deeClicks 1%nat) demo.twoRecruiting = true ∧
  filter (λ x, bool_decide (x.1.2 = Some "ship_player_lock_set"))
         (demo.framesSince demo.twoRecruiting demo.afterDee)
    = [(3%nat, Some "ship_player_lock_set", Some (VString "idfk_"))] ∧
  demo.flagStates demo.afterDee 0%nat ≫= (λ l, Some (filter (λ x, x.1.1 ∈ ["blah"; "idfk_"]) l))
    = Some [("blah", Some {| startTime := 2000; lockedPlayers := [2%nat] |}, None);
            ("idfk_", None, Some 2%nat)].
Proof. repeat split; vm_compute; reflexivity. Qed.
(** ** Activating a flag *)

(** *** The order of float64 *)

Lemma SFltb_irrefl (x : spec_float) : SpecFloat.SFltb x x = false.
Proof.
  unfold SpecFloat.SFltb.
  destruct x as [s|s| |s m e]; simpl; try reflexivity.
  - destruct s; reflexivity.
  - rewrite Z.compare_refl.
    change (PosDef.Pos.compare_cont Eq m m) with (Pos.compare m m).
    rewrite Pos.compare_refl. destruct s; reflexivity.
Qed.

Lemma SFltb_trans (x y z : spec_float) :
  SpecFloat.SFltb x y = true → SpecFloat.SFltb y z = true →
  SpecFloat.SFltb x z = true.
Proof.
  unfold SpecFloat.SFltb.
  destruct x as [sx|sx| |sx mx ex], y as [sy|sy| |sy my ey],
           z as [sz|sz| |sz mz ez]; simpl;
    try discriminate; try reflexivity;
    repeat match goal with s : bool |- _ => destruct s end; simpl;
    try discriminate; try reflexivity.
  - change (PosDef.Pos.compare_cont Eq) with Pos.compare.
    destruct (Z.compare_spec ex ey), (Z.compare_spec ey ez),
             (Z.compare_spec ex ez); try discriminate; try reflexivity;
      try lia; subst.
    destruct (Pos.compare_spec mx my), (Pos.compare_spec my mz),
             (Pos.compare_spec mx mz); simpl; try discriminate;
      try reflexivity; try lia.
  - change (PosDef.Pos.compare_cont Eq) with Pos.compare.
    destruct (Z.compare_spec ex ey), (Z.compare_spec ey ez),
             (Z.compare_spec ex ez); try discriminate; try reflexivity;
      try lia; subst.
    destruct (Pos.compare_spec mx my), (Pos.compare_spec my mz),
             (Pos.compare_spec mx mz); simpl; try discriminate;
      try reflexivity; try lia.
Qed.

Lemma ltb_irrefl (x : float) : (x <? x)%float = false.
Proof. rewrite ltb_spec. apply SFltb_irrefl. Qed.

Lemma ltb_trans (x y z : float) :
  (x <? y)%float = true → (y <? z)%float = true → (x <? z)%float = true.
Proof. rewrite !ltb_spec. apply SFltb_trans. Qed.

Lemma SFleb_ltb (x y : spec_float) :
  x ≠ S754_nan → y ≠ S754_nan →
  negb (SpecFloat.SFltb x y) = SpecFloat.SFleb y x.
Proof.
  unfold SpecFloat.SFltb, SpecFloat.SFleb.
  destruct x as [sx|sx| |sx mx ex], y as [sy|sy| |sy my ey]; simpl;
    try congruence; intros _ _;
    repeat match goal with s : bool |- _ => destruct s end; simpl;
    try reflexivity.
  - change (PosDef.Pos.compare_cont Eq) with Pos.compare.
    rewrite (Z.compare_antisym ex ey), (Pos.compare_antisym mx my).
    destruct (ex ?= ey)%Z; simpl; try reflexivity.
    destruct (mx ?= my)%positive; reflexivity.
  - change (PosDef.Pos.compare_cont Eq) with Pos.compare.
    rewrite (Z.compare_antisym ex ey), (Pos.compare_antisym mx my).
    destruct (ex ?= ey)%Z; simpl; try reflexivity.
    destruct (mx ?= my)%positive; reflexivity.
Qed.

Lemma is_nan_false (x : float) : PrimFloat.is_nan x = false → Prim2SF x ≠ S754_nan.
Proof.
  unfold PrimFloat.is_nan. rewrite FloatAxioms.eqb_spec. intros H Hn. rewrite Hn in H.
  discriminate H.
Qed.

(** For numbers, not below means at least. *)
Lemma negb_ltb_leb (x y : float) :
  PrimFloat.is_nan x = false → PrimFloat.is_nan y = false →
  negb (x <? y)%float = (y <=? x)%float.
Proof.
  intros Hx%is_nan_false Hy%is_nan_false.
  rewrite FloatAxioms.ltb_spec, FloatAxioms.leb_spec. apply SFleb_ltb; assumption.
Qed.

(** *** Calls that only send *)

Lemma set_out_id (s : State) : set_out (out s) s = s.
Proof. by destruct s. Qed.

Lemma sends_ret {A} (a : A) (s : State) : sends (mret (M:=Op) a) s.
Proof. exists a, (out s). by rewrite set_out_id. Qed.

Lemma sends_gets {A} (f : State → A) (s : State) : sends (gets f) s.
Proof. exists (f s), (out s). by rewrite set_out_id. Qed.

Lemma sends_bind {A B} (m : Op A) (k : A → Op B) (s : State) :
  sends m s →
  (∀ a o, m s = Returns a (set_out o s) → sends (k a) (set_out o s)) →
  sends (m ≫= k) s.
Proof.
  intros (a & o & Hm) Hk. destruct (Hk a o Hm) as (b & o' & Hb).
  exists b, o'. by rewrite (bind_eq _ _ _ _ _ Hm), Hb.
Qed.

Lemma sends_forEach {A} (l : list A) (fn : A → Op (option error)) (s : State) :
  (∀ x o, x ∈ l → sends (fn x) (set_out o s)) → sends (forEach l fn) s.
Proof.
  revert s. induction l as [|x l IH]; intros s H; simpl.
  - apply sends_ret.
  - apply sends_bind.
    { rewrite <- (set_out_id s). apply H. left. }
    intros e o _. apply sends_bind.
    { apply IH. intros y o' Hy. apply (H y o'). by right. }
    intros es o' _. apply sends_ret.
Qed.

Lemma sends_mapOp {A B} (l : list A) (fn : A → Op B) (s : State) :
  (∀ x o, x ∈ l → sends (fn x) (set_out o s)) → sends (mapOp l fn) s.
Proof.
  revert s. induction l as [|x l IH]; intros s H; simpl.
  - apply sends_ret.
  - apply sends_bind.
    { rewrite <- (set_out_id s). apply H. left. }
    intros e o _. apply sends_bind.
    { apply IH. intros y o' Hy. apply (H y o'). by right. }
    intros es o' _. apply sends_ret.
Qed.

(** A step that reads only. *)
Lemma sends_read {A B} (m : Op A) (k : A → Op B) (a : A) (s : State) :
  m s = Returns a s → sends (k a) s → sends (m ≫= k) s.
Proof.
  intros Hm (b & o & Hk). exists b, o. by rewrite (bind_eq _ _ _ _ _ Hm).
Qed.

Lemma getPlayer_eq (p : PlayerPtr) (pl : Player) (s : State) :
  players s !! p = Some pl → getPlayer p s = Returns pl s.
Proof. intros H. unfold getPlayer. run. rewrite H. by run. Qed.

Lemma getLobby_eq (l : LobbyPtr) (lb : Lobby) (s : State) :
  lobbies s !! l = Some lb → getLobby l s = Returns lb s.
Proof. intros H. unfold getLobby. run. rewrite H. by run. Qed.

Lemma getShip_eq (ship : ShipPtr) (sh : Ship) (s : State) :
  ships s !! ship = Some sh → getShip ship s = Returns sh s.
Proof. intros H. unfold getShip. run. rewrite H. by run. Qed.

Lemma getCtx_eq (ctx : CtxPtr) (c : MinigameContext) (s : State) :
  contexts s !! ctx = Some c → getCtx ctx s = Returns c s.
Proof. intros H. unfold getCtx. run. rewrite H. by run. Qed.

Lemma getFlag_eq (ship : ShipPtr) (sh : Ship) (id : string) (f : flag) (s : State) :
  ships s !! ship = Some sh → lookupFlag id (flags sh) = Some f →
  getFlag ship id s = Returns f s.
Proof.
  intros Hsh Hf. unfold getFlag.
  rewrite (bind_eq _ _ _ _ _ (getShip_eq ship sh s Hsh)), Hf. by run.
Qed.

Lemma idForFlag_eq (ship : ShipPtr) (sh : Ship) (id : string) (f : flag) (s : State) :
  ships s !! ship = Some sh → lookupFlag id (flags sh) = Some f →
  idForFlag ship id s = Returns id s.
Proof.
  intros Hsh Hf. unfold idForFlag.
  rewrite (bind_eq _ _ _ _ _ (getShip_eq ship sh s Hsh)), Hf. by run.
Qed.

Lemma PlayerName_eq (p : PlayerPtr) (pl : Player) (s : State) :
  players s !! p = Some pl → PlayerName p s = Returns (Name pl) s.
Proof.
  intros H. unfold PlayerName.
  by rewrite (bind_eq _ _ _ _ _ (getPlayer_eq p pl s H)).
Qed.

Lemma sends_SendTo (p : PlayerPtr) (pl : Player) (c : ClientPtr) (m : Message)
    (s : State) :
  players s !! p = Some pl → Client pl = Some c → sends (SendTo p m) s.
Proof.
  intros Hp Hc. unfold SendTo.
  eapply sends_read; [by apply getPlayer_eq|].
  rewrite Hc. eapply sends_read; [reflexivity|].
  unfold Send. destruct (Encode m).
  - exists None, (out s ++ [{| C := c; M := a |}]). reflexivity.
  - apply sends_ret.
Qed.

Lemma sends_ForAllMembers (team : TeamPtr) (lb : Lobby)
    (fn : PlayerPtr → Op (option error)) (s : State) :
  lobbies s !! teamLobby team = Some lb →
  (∀ p o, p ∈ Players0 lb ++ Players1 lb → sends (fn p) (set_out o s)) →
  sends (ForAllMembers team fn) s.
Proof.
  intros Hlb Hfn. unfold ForAllMembers, getTeamPlayers.
  eapply sends_read.
  { rewrite (bind_eq _ _ _ _ _ (getLobby_eq _ lb s Hlb)). reflexivity. }
  apply sends_bind; [|intros; apply sends_ret].
  apply sends_forEach. intros p o Hp. apply Hfn.
  apply elem_of_app. unfold TeamPlayers in Hp. destruct (teamSlot team); auto.
Qed.

Lemma sends_ForAllPlayers (l : LobbyPtr) (lb : Lobby)
    (fn : PlayerPtr → Op (option error)) (s : State) :
  lobbies s !! l = Some lb →
  (∀ p o, p ∈ Players0 lb ++ Players1 lb → sends (fn p) (set_out o s)) →
  sends (ForAllPlayers l fn) s.
Proof.
  intros Hlb Hfn. unfold ForAllPlayers.
  apply sends_bind; [by eapply sends_ForAllMembers|]. intros e0 o _.
  apply sends_bind; [|intros; apply sends_ret].
  eapply sends_ForAllMembers; [exact Hlb|]. intros p o' Hp. by apply Hfn.
Qed.

Lemma sends_ForAllShipPlayers (ship : ShipPtr) (sh : Ship) (lb : Lobby)
    (fn : PlayerPtr → Op (option error)) (s : State) :
  ships s !! ship = Some sh → membersOk (lobby sh) lb s →
  (∀ p o, p ∈ Players0 lb ++ Players1 lb → sends (fn p) (set_out o s)) →
  sends (ForAllShipPlayers ship fn) s.
Proof.
  intros Hsh [Hlb Hm] Hfn. unfold ForAllShipPlayers.
  eapply sends_read; [by apply getShip_eq|].
  eapply sends_ForAllPlayers; [exact Hlb|]. intros p o Hp.
  destruct (Hm p Hp) as (pl & c & t & Hpl & _).
  eapply sends_read; [by apply getPlayer_eq|].
  destruct (decide _); [by apply Hfn | apply sends_ret].
Qed.

Lemma sends_ForAllShipPeers (player : PlayerPtr) (l : LobbyPtr) (lb : Lobby)
    (ship : ShipPtr) (fn : PlayerPtr → Op (option error)) (s : State) :
  membersOk l lb s →
  player ∈ Players0 lb ++ Players1 lb →
  (players s !! player ≫= Activity) = Some (ActShip ship) →
  (∀ p o, p ∈ Players0 lb ++ Players1 lb → sends (fn p) (set_out o s)) →
  sends (ForAllShipPeers player fn) s.
Proof.
  intros [Hlb Hm] Hin Hact Hfn. unfold ForAllShipPeers.
  destruct (Hm player Hin) as (pl & c & t & Hpl & Hc & Ht & Htl).
  eapply sends_read; [by apply getPlayer_eq|].
  rewrite Hpl in Hact. simpl in Hact. unfold InShipActivity. rewrite Hact.
  unfold ForAllActivityPeers, ForAllLobbyPeers, PlayerLobby.
  eapply sends_read.
  { rewrite (bind_eq _ _ _ _ _ (getPlayer_eq _ _ _ Hpl)), Ht. by run. }
  rewrite Htl.
  eapply sends_ForAllPlayers; [exact Hlb|]. intros p o Hp.
  destruct (decide (p = player)); [apply sends_ret|].
  destruct (Hm p Hp) as (pl' & c' & t' & Hpl' & _).
  eapply sends_read; [by apply getPlayer_eq|].
  eapply sends_read; [by apply getPlayer_eq|].
  destruct (decide _); [by apply Hfn | apply sends_ret].
Qed.

(** *** Updating one ship *)

Lemma updShip_eq (ship : ShipPtr) (sh : Ship) (g : Ship → Ship) (s : State) :
  ships s !! ship = Some sh →
  updShip ship g s = Returns tt (set_ships (<[ship := g sh]> (ships s)) s).
Proof.
  intros Hsh. unfold updShip. rewrite run_modify0. do 2 f_equal.
  apply map_eq. intros k. destruct (decide (k = ship)) as [->|Hk].
  - by rewrite lookup_alter_eq, lookup_insert_eq, Hsh.
  - by rewrite lookup_alter_ne, lookup_insert_ne.
Qed.

Lemma updFlag_eq (ship : ShipPtr) (sh : Ship) (id : string) (g : flag → flag)
    (s : State) :
  ships s !! ship = Some sh →
  updFlag ship id g s =
    Returns tt (set_ships
      (<[ship := set_flags (updateFlag id g (flags sh)) sh]> (ships s)) s).
Proof. intros Hsh. unfold updFlag. by rewrite (updShip_eq ship sh). Qed.

Lemma map_fst_updateFlag (id : string) (g : flag → flag) (fl : list (string * flag)) :
  map fst (updateFlag id g fl) = map fst fl.
Proof.
  induction fl as [|[k f] fl IH]; simpl; [done|].
  destruct (decide (k = id)); simpl; by rewrite ?IH.
Qed.

Lemma lookupFlag_elem (id : string) (f : flag) (fl : list (string * flag)) :
  lookupFlag id fl = Some f → (id, f) ∈ fl.
Proof.
  induction fl as [|[k x] fl IH]; simpl; [done|].
  destruct (decide (k = id)) as [->|Hk].
  - intros [= ->]. left.
  - intros H. right. by apply IH.
Qed.

Lemma elem_lookupFlag (id : string) (f : flag) (fl : list (string * flag)) :
  NoDup (map fst fl) → (id, f) ∈ fl → lookupFlag id fl = Some f.
Proof.
  induction fl as [|[k x] fl IH]; simpl; intros Hnd Hin.
  - by apply elem_of_nil in Hin.
  - apply NoDup_cons in Hnd as [Hk Hnd].
    apply elem_of_cons in Hin as [[= <- <-] | Hin].
    + by rewrite decide_True.
    + destruct (decide (k = id)) as [->|Hne]; [|by apply IH].
      destruct Hk. apply (list_elem_of_fmap_2 fst _ _ Hin).
Qed.

Lemma sends_run {A} (m : Op A) (s : State) :
  sends m s → ∃ a o, m s = Returns a (set_out o s).
Proof. done. Qed.

Lemma addPlayerToFlag_eq (ship ship' : ShipPtr) (sh : Ship) (lb : Lobby)
    (f : string) (fl : flag) (a : Activation) (p : PlayerPtr) (s : State) :
  ships s !! ship = Some sh → membersOk (lobby sh) lb s →
  lookupFlag f (flags sh) = Some fl → activation fl = Some a →
  p ∈ Players0 lb ++ Players1 lb →
  (players s !! p ≫= Activity) = Some (ActShip ship') →
  ∃ e o, addPlayerToFlag ship f p s =
    Returns e (set_out o (set_ships
      (<[ship := set_flags (updateFlag f (set_activation (Some (lockTo p a)))
                              (flags sh)) sh]> (ships s)) s)).
Proof.
  intros Hsh Hm Hfl Ha Hp Hact. unfold addPlayerToFlag.
  rewrite (bind_eq _ _ _ _ _ (getFlag_eq ship sh f fl s Hsh Hfl)), Ha.
  rewrite (bind_eq _ _ _ _ _ (updFlag_eq ship sh f _ s Hsh)).
  fold (lockTo p a).
  set (sh1 := set_flags _ sh). set (s1 := set_ships _ s).
  assert (Hsh1 : ships s1 !! ship = Some sh1) by apply lookup_insert_eq.
  assert (Hfl1 : lookupFlag f (flags sh1)
                 = Some (set_activation (Some (lockTo p a)) fl)).
  { unfold sh1. simpl. by rewrite lookupFlag_updateFlag, decide_True, Hfl. }
  assert (Hm1 : membersOk (lobby sh1) lb s1) by exact Hm.
  apply sends_run.
  eapply sends_read; [by eapply idForFlag_eq|].
  destruct Hm as [Hlb Hmem].
  destruct (Hmem p Hp) as (pl & c & t & Hpl & Hc & _).
  apply sends_bind; [by eapply sends_SendTo|]. intros e0 o _.
  eapply sends_read; [by apply (PlayerName_eq p pl)|].
  apply sends_bind; [|intros; apply sends_ret].
  eapply sends_ForAllShipPeers; [exact Hm1 | exact Hp | exact Hact |].
  intros q o' Hq. destruct (Hmem q Hq) as (pl' & c' & t' & Hpl' & Hc' & _).
  by eapply sends_SendTo.
Qed.

(** *** Starting a minigame *)

Lemma sends_namesOf (l : list PlayerPtr) (lb : Lobby) (lo : LobbyPtr) (s : State) :
  membersOk lo lb s → (∀ p, p ∈ l → p ∈ Players0 lb ++ Players1 lb) →
  ∃ v, namesOf l s = Returns v s.
Proof.
  intros [_ Hmem] Hl. unfold namesOf.
  destruct (mapOp_readonly (λ _ _, True) PlayerName s l) as (ns & Hns & _).
  { intros p Hp. destruct (Hmem p (Hl p Hp)) as (pl & _ & _ & Hpl & _).
    exists (Name pl). split; [by apply PlayerName_eq | done]. }
  rewrite (bind_eq _ _ _ _ _ Hns). eauto.
Qed.

Lemma sends_notifyMinigameStart (ship : ShipPtr) (sh : Ship) (lb : Lobby)
    (f : string) (fl : flag) (a : Activation) (s : State) :
  ships s !! ship = Some sh → membersOk (lobby sh) lb s →
  lookupFlag f (flags sh) = Some fl → activation fl = Some a →
  (∀ p, p ∈ lockedPlayers a → p ∈ Players0 lb ++ Players1 lb) →
  sends (notifyMinigameStart ship f) s.
Proof.
  intros Hsh Hm Hfl Ha Hlock. unfold notifyMinigameStart.
  eapply sends_read; [by eapply idForFlag_eq|].
  eapply sends_read; [by eapply getFlag_eq|].
  rewrite Ha. eapply sends_read; [reflexivity|].
  pose proof Hm as [Hlb Hmem].
  apply sends_bind.
  { apply sends_forEach. intros p o Hp.
    destruct (sends_namesOf (filter (λ peer, peer ≠ p) (lockedPlayers a))
                lb (lobby sh) (set_out o s) Hm) as [v Hv].
    { intros q [_ Hq]%list_elem_of_filter. by apply Hlock. }
    eapply sends_read; [exact Hv|].
    destruct (Hmem p (Hlock p Hp)) as (pl & c & t & Hpl & Hc & _).
    by eapply sends_SendTo. }
  intros es o _. apply sends_bind; [|intros; apply sends_ret].
  eapply sends_ForAllShipPlayers; [exact Hsh | exact Hm |].
  intros q o' Hq. destruct (decide _); [apply sends_ret|].
  apply sends_bind; [|intros; apply sends_ret].
  apply sends_forEach. intros p o'' Hp.
  destruct (Hmem p (Hlock p Hp)) as (pl & c & t & Hpl & Hc & _).
  eapply sends_read; [by apply (PlayerName_eq p pl)|].
  destruct (Hmem q Hq) as (pl' & c' & t' & Hpl' & Hc' & _).
  by eapply sends_SendTo.
Qed.

Lemma ensureValid_eq (ctx : CtxPtr) (c : MinigameContext) (ship : ShipPtr)
    (proto : MinigamePrototype) (s : State) :
  contexts s !! ctx = Some c → ctxShip c = Some ship →
  ctxProto c = Some proto → ctxImpl c = true →
  ensureValid ctx s = Returns tt s.
Proof.
  intros Hc Hs Hp Hi. unfold ensureValid.
  rewrite (bind_eq _ _ _ _ _ (getCtx_eq ctx c s Hc)), Hs, Hp, Hi.
  by rewrite !bool_decide_eq_false_2 by done.
Qed.

Lemma ctxPlayers_eq (ctx : CtxPtr) (c : MinigameContext) (ship : ShipPtr)
    (sh : Ship) (lb : Lobby) (proto : MinigamePrototype) (s : State) :
  contexts s !! ctx = Some c → ctxShip c = Some ship →
  ctxProto c = Some proto → ctxImpl c = true →
  ships s !! ship = Some sh → lobbies s !! lobby sh = Some lb →
  ctxPlayers ctx s =
    Returns (filter (λ p, (players s !! p ≫= Activity) = Some (ActMinigame ctx))
               (Players0 lb ++ Players1 lb)) s.
Proof.
  intros Hc Hs Hp Hi Hsh Hlb. unfold ctxPlayers, ctxShipLobby.
  rewrite (bind_eq _ _ _ _ _ (ensureValid_eq ctx c ship proto s Hc Hs Hp Hi)).
  cbv beta.
  rewrite run_assoc, (bind_eq _ _ _ _ _ (getCtx_eq ctx c s Hc)), Hs. run.
  rewrite (bind_eq _ _ _ _ _ (getShip_eq ship sh s Hsh)). run.
  rewrite (bind_eq _ _ _ _ _ (getLobby_eq _ lb s Hlb)). by run.
Qed.

Lemma sends_Ctx_Start (ctx : CtxPtr) (c : MinigameContext) (ship : ShipPtr)
    (sh : Ship) (lb : Lobby) (proto : MinigamePrototype) (s : State) :
  contexts s !! ctx = Some c → ctxShip c = Some ship →
  ctxProto c = Some proto → ctxImpl c = true →
  ships s !! ship = Some sh → membersOk (lobby sh) lb s →
  sends (Ctx_Start ctx) s.
Proof.
  intros Hc Hs Hp Hi Hsh [Hlb Hmem]. unfold Ctx_Start.
  eapply sends_read; [by eapply ensureValid_eq|].
  eapply sends_read; [by eapply getCtx_eq|].
  rewrite Hp. eapply sends_read; [reflexivity|].
  eapply sends_read; [by eapply ctxPlayers_eq|].
  assert (Hv : ∃ v, storeValue (ctxStore c) s = Returns v s).
  { unfold storeValue. destruct (ctxStore c); eexists; reflexivity. }
  destruct Hv as [v Hv]. eapply sends_read; [exact Hv|].
  apply sends_bind; [|intros; apply sends_ret].
  apply sends_forEach. intros p o [_ Hp']%list_elem_of_filter.
  apply sends_bind; [|intros; apply sends_ret].
  apply sends_forEach. intros m o' _.
  destruct (Hmem p Hp') as (pl & c' & t & Hpl & Hc' & _).
  by eapply sends_SendTo.
Qed.

Lemma mapOp_updPlayer (act : ActivityPtr) (l : list PlayerPtr) (s : State) :
  ∃ us, mapOp l (λ p, updPlayer p (set_Activity (Some act))) s
        = Returns us (set_players (moveAll act l (players s)) s).
Proof.
  revert s. induction l as [|p l IH]; intros s; simpl.
  - exists []. unfold moveAll. simpl. f_equal. by destruct s.
  - destruct (IH (set_players (alter (set_Activity (Some act)) p (players s)) s))
      as [us Hus].
    exists (tt :: us).
    change ((mapOp l (λ p, updPlayer p (set_Activity (Some act)))
               ≫= λ ys, mret (tt :: ys))
              (set_players (alter (set_Activity (Some act)) p (players s)) s)
            = Returns (tt :: us)
                (set_players (moveAll act (p :: l) (players s)) s)).
    by rewrite (bind_eq _ _ _ _ _ Hus).
Qed.

Lemma moveAll_lookup (act : ActivityPtr) (l : list PlayerPtr)
    (ps : gmap PlayerPtr Player) (q : PlayerPtr) :
  moveAll act l ps !! q =
    if decide (q ∈ l) then set_Activity (Some act) <$> ps !! q else ps !! q.
Proof.
  unfold moveAll. revert ps. induction l as [|p l IH]; intros ps; simpl; [done|].
  rewrite IH. destruct (decide (q = p)) as [->|Hne].
  - rewrite lookup_alter_eq. rewrite (decide_True (P := p ∈ p :: l)) by left.
    destruct (decide (p ∈ l)); [|done]. by destruct (ps !! p).
  - rewrite lookup_alter_ne by done.
    destruct (decide (q ∈ l)) as [Hin|Hnin].
    + by rewrite decide_True by by right.
    + rewrite decide_False; [done|]. by intros [?|?]%elem_of_cons.
Qed.

Lemma membersOk_moveAll (lo : LobbyPtr) (lb : Lobby) (act : ActivityPtr)
    (l : list PlayerPtr) (s s' : State) :
  membersOk lo lb s → lobbies s' = lobbies s →
  players s' = moveAll act l (players s) → membersOk lo lb s'.
Proof.
  intros [Hlb Hmem] Hl Hp. split; [by rewrite Hl|]. intros p Hin.
  destruct (Hmem p Hin) as (pl & c & t & Hpl & Hc & Ht & Htl).
  rewrite Hp, moveAll_lookup, Hpl. destruct (decide (p ∈ l)); simpl; eauto 10.
Qed.

Lemma updateFlag_updateFlag (id : string) (g h : flag → flag)
    (fl : list (string * flag)) :
  updateFlag id h (updateFlag id g fl) = updateFlag id (λ x, h (g x)) fl.
Proof.
  induction fl as [|[k f] fl IH]; simpl; [done|].
  destruct (decide (k = id)) as [->|Hk]; simpl.
  - by rewrite decide_True.
  - by rewrite decide_False, IH.
Qed.

Lemma startMinigameForFlag_eq (ship : ShipPtr) (sh : Ship) (lb : Lobby)
    (f : string) (fl : flag) (a : Activation) (s : State) :
  ships s !! ship = Some sh → membersOk (lobby sh) lb s →
  lookupFlag f (flags sh) = Some fl → activation fl = Some a →
  (∀ p, p ∈ lockedPlayers a → p ∈ Players0 lb ++ Players1 lb) →
  ∃ e o, startMinigameForFlag ship f s =
           Returns e (set_out o (started ship sh f fl a s)).
Proof.
  intros Hsh Hm Hfl Ha Hlock. unfold startMinigameForFlag.
  destruct (sends_notifyMinigameStart ship sh lb f fl a s Hsh Hm Hfl Ha Hlock)
    as (e1 & o1 & H1).
  rewrite (bind_eq _ _ _ _ _ H1).
  rewrite (bind_eq _ _ _ _ _ (getFlag_eq ship sh f fl (set_out o1 s) Hsh Hfl)).
  unfold NewMinigameContext, allocCtx at 1.
  unfold mbind at 1, Op_bind at 1. fields.
  set (ctx := fresh (dom (contexts s))).
  set (s2 := set_contexts _ (set_out o1 s)).
  rewrite (bind_eq _ _ _ _ _ (updFlag_eq ship sh f _ s2 Hsh)).
  rewrite Ha. run.
  set (s3 := set_ships _ s2).
  destruct (mapOp_updPlayer (ActMinigame ctx) (lockedPlayers a) s3) as [us Hus].
  rewrite (bind_eq _ _ _ _ _ Hus).
  set (s4 := set_players _ s3).
  assert (Hsh4 : ships s4 !! ship
                 = Some (set_flags (updateFlag f (set_minigame (Some ctx)) (flags sh)) sh))
    by apply lookup_insert_eq.
  rewrite (bind_eq _ _ _ _ _ (updFlag_eq ship _ f _ s4 Hsh4)).
  set (s5 := set_ships _ s4).
  destruct (sends_Ctx_Start ctx
              {| ctxShip := Some ship; ctxStore := store fl;
                 ctxProto := Some (minigameProto fl); ctxImpl := true |}
              ship
              (set_flags (updateFlag f (set_activation None)
                 (flags (set_flags (updateFlag f (set_minigame (Some ctx)) (flags sh)) sh)))
                 (set_flags (updateFlag f (set_minigame (Some ctx)) (flags sh)) sh))
              lb (minigameProto fl) s5) as (e2 & o2 & H2);
    [apply lookup_insert_eq | done | done | done | apply lookup_insert_eq | |].
  { eapply (membersOk_moveAll _ _ (ActMinigame ctx) (lockedPlayers a) s);
      [exact Hm | done | done]. }
  rewrite (bind_eq _ _ _ _ _ H2).
  eexists _, o2. rewrite run_ret0. f_equal.
  unfold started, s5, s4, s3, s2. fold ctx.
  cbn [set_out set_ships set_players set_contexts env players clients lobbies
       activities minigames ships contexts stores timers event out now rng
       flags set_flags].
  rewrite insert_insert_eq, updateFlag_updateFlag. reflexivity.
Qed.

(** *** Filling a flag *)

Lemma dropUnneeded_eq (ship : ShipPtr) (sh : Ship) (f : string) (fl : flag)
    (a : Activation) (p : PlayerPtr) (l : list PlayerPtr) (s : State) :
  ships s !! ship = Some sh →
  lookupFlag f (flags sh) = Some fl → activation fl = Some a →
  ∃ l', dropUnneeded ship f p l s = Returns l' s ∧
        (∀ q, q ∈ l' → q ∈ l ∧ q ≠ p) ∧
        (length l' ≤ length l)%nat ∧
        (p ∈ l → (length l' < length l)%nat).
Proof.
  intros Hsh Hfl Ha. induction l as [|x l (l' & IH & Hsub & Hlen & Hlt)].
  - exists []. split; [done|]. split; [|split].
    + by intros q Hq%elem_of_nil.
    + done.
    + by intros Hq%elem_of_nil.
  - assert (Hdel : ∃ del : bool,
      (if decide (x = p) then mret true
       else fl ← getFlag ship f; n ← needsPlayer fl x; mret (negb n)) s
      = Returns del s ∧ (x = p → del = true)).
    { destruct (decide (x = p)) as [->|Hne].
      - exists true. done.
      - exists (negb (hasRoomFor (players s) fl x)). split; [|done].
        rewrite (bind_eq _ _ _ _ _ (getFlag_eq ship sh f fl s Hsh Hfl)).
        by rewrite (bind_eq _ _ _ _ _ (needsPlayer_eq fl a x s Ha)). }
    destruct Hdel as (del & Hdel & Hp).
    exists (if del then l' else x :: l').
    split; [|split; [|split]].
    + change (dropUnneeded ship f p (x :: l) s) with
        (((if decide (x = p) then mret true
           else fl ← getFlag ship f; n ← needsPlayer fl x; mret (negb n))
          ≫= λ del : bool, rest' ← dropUnneeded ship f p l;
                          mret (if del then rest' else x :: rest')) s).
      rewrite (bind_eq _ _ _ _ _ Hdel). cbv beta.
      by rewrite (bind_eq _ _ _ _ _ IH).
    + intros q Hq. destruct del.
      * destruct (Hsub q Hq). split; [by right | done].
      * apply elem_of_cons in Hq as [-> | Hq].
        -- split; [left|]. intros ->. by specialize (Hp eq_refl).
        -- destruct (Hsub q Hq). split; [by right | done].
    + destruct del; simpl; lia.
    + intros [<- | Hin]%elem_of_cons.
      * rewrite (Hp eq_refl). simpl. lia.
      * specialize (Hlt Hin). destruct del; simpl; lia.
Qed.

Lemma updateFlag_id (id : string) (g : flag → flag) (fl : list (string * flag)) :
  (∀ f, lookupFlag id fl = Some f → g f = f) → updateFlag id g fl = fl.
Proof.
  induction fl as [|[k f] fl IH]; simpl; [done|]. intros H.
  destruct (decide (k = id)) as [->|Hk].
  - by rewrite H.
  - by rewrite IH.
Qed.

Lemma relock_id (ship : ShipPtr) (sh : Ship) (g : string) (fl : flag)
    (a : Activation) (s : State) :
  ships s !! ship = Some sh →
  lookupFlag g (flags sh) = Some fl → activation fl = Some a →
  set_out (out s) (set_rng (rng s)
    (set_ships (<[ship := relock g a (lockedPlayers a) sh]> (ships s)) s)) = s.
Proof.
  intros Hsh Hfl Ha. unfold relock.
  rewrite updateFlag_id.
  - replace (set_flags (flags sh) sh) with sh by by destruct sh.
    rewrite insert_id by done. by destruct s.
  - intros f Hf. assert (f = fl) as -> by congruence.
    destruct fl as [? ? ? ? ? ? act]. simpl in *. subst act. by destruct a.
Qed.

Lemma set_add_elem (p q : PlayerPtr) (l : list PlayerPtr) :
  q ∈ set_add p l ↔ q ∈ l ∨ q = p.
Proof.
  unfold set_add. case_decide.
  - split; [intros ?; by left | by intros [?| ->]].
  - rewrite elem_of_app, list_elem_of_singleton. done.
Qed.

Lemma fillFlag_eq (ship : ShipPtr) (lb : Lobby) (g : string) (fuel : nat) :
  ∀ (l : list PlayerPtr) (sh : Ship) (fl : flag) (a : Activation) (s : State),
  ships s !! ship = Some sh → membersOk (lobby sh) lb s →
  lookupFlag g (flags sh) = Some fl → activation fl = Some a →
  (∀ q, q ∈ l → q ∈ Players0 lb ++ Players1 lb ∧
                (players s !! q ≫= Activity) = Some (ActShip ship)) →
  (length l ≤ fuel)%nat → (length l ≤ length (rng s))%nat →
  ∃ es o r locked',
    fillFlag fuel ship g l s =
      Returns es (set_out o (set_rng r
        (set_ships (<[ship := relock g a locked' sh]> (ships s)) s))) ∧
    (∀ q, q ∈ locked' → q ∈ lockedPlayers a ∨ q ∈ l) ∧
    (length (rng s) ≤ length r + length l)%nat.
Proof.
  induction fuel as [|fuel IH]; intros l sh fl a s Hsh Hm Hfl Ha Hl Hfuel Hrng.
  - destruct l; [|simpl in Hfuel; lia].
    exists [], (out s), (rng s), (lockedPlayers a).
    rewrite (relock_id ship sh g fl a s) by done.
    split; [done|]. split; [by left | simpl; lia].
  - simpl. destruct (decide (l = [])) as [->|Hne].
    { exists [], (out s), (rng s), (lockedPlayers a).
      rewrite (relock_id ship sh g fl a s) by done.
      split; [done|]. split; [by left | simpl; lia]. }
    destruct (rng s) as [|z rest] eqn:Hr.
    { destruct l; [done | simpl in Hrng; lia]. }
    unfold draw at 1. unfold mbind at 1, Op_bind at 1. rewrite Hr.
    set (s0 := set_rng rest s).
    set (i := Z.to_nat ((z `mod` 2 ^ 63) `mod` Z.of_nat (length l))).
    assert (Hi : (i < length l)%nat).
    { unfold i. destruct l; [done|].
      pose proof (Z.mod_pos_bound (z `mod` 2 ^ 63) (Z.of_nat (length (p :: l)))).
      simpl length in *. lia. }
    destruct (lookup_lt_is_Some_2 l i Hi) as [p Hp].
    unfold index at 1. rewrite Hp. rewrite run_ret.
    assert (Hpl : p ∈ l) by by eapply list_elem_of_lookup_2.
    destruct (Hl p Hpl) as [HpM Hpact].
    destruct (addPlayerToFlag_eq ship ship sh lb g fl a p s0 Hsh Hm Hfl Ha HpM Hpact)
      as (e & o & He).
    rewrite (bind_eq _ _ _ _ _ He). cbv beta.
    set (sh1 := set_flags _ sh) in *. set (s1 := set_out o _) in *.
    assert (Hsh1 : ships s1 !! ship = Some sh1) by apply lookup_insert_eq.
    assert (Hfl1 : lookupFlag g (flags sh1)
                   = Some (set_activation (Some (lockTo p a)) fl)).
    { unfold sh1. simpl. by rewrite lookupFlag_updateFlag, decide_True, Hfl. }
    destruct (dropUnneeded_eq ship sh1 g _ (lockTo p a) p l s1 Hsh1 Hfl1 eq_refl)
      as (l' & Hl' & Hsub & Hlen & Hlt).
    rewrite (bind_eq _ _ _ _ _ Hl'). cbv beta.
    specialize (Hlt Hpl).
    destruct (IH l' sh1 _ (lockTo p a) s1 Hsh1 Hm Hfl1 eq_refl)
      as (es & o' & r & locked' & Hes & Hlocked & Hr').
    { intros q Hq. destruct (Hsub q Hq) as [Hql _]. by apply Hl. }
    { lia. }
    { unfold s1, s0. simpl. simpl in Hrng. lia. }
    rewrite (bind_eq _ _ _ _ _ Hes). cbv beta.
    exists (e :: es), o', r, locked'. split; [|split].
    + rewrite run_ret0. f_equal. unfold s1, s0, sh1, relock.
      cbn [set_out set_ships set_rng env players clients lobbies
           activities minigames ships contexts stores timers event out now rng
           flags set_flags].
      rewrite insert_insert_eq, updateFlag_updateFlag. reflexivity.
    + intros q Hq. destruct (Hlocked q Hq) as [Hq' | Hq'].
      * simpl in Hq'. apply set_add_elem in Hq' as [? | ->]; [by left | by right].
      * right. by destruct (Hsub q Hq').
    + unfold s1, s0 in Hr'. simpl in Hr'. simpl. lia.
Qed.

Lemma eligibleOk_step (ship : ShipPtr) (sh sh' : Ship) (lb : Lobby)
    (g : string) (lg : list PlayerPtr) (rest : list (string * list PlayerPtr))
    (fl fl' : flag) (a : Activation) (act : ActivityPtr) (X : list PlayerPtr)
    (s s' : State) :
  eligibleOk ship sh lb ((g, lg) :: rest) s →
  lookupFlag g (flags sh) = Some fl → activation fl = Some a →
  ships s' !! ship = Some sh' →
  lobby sh' = lobby sh →
  map fst (flags sh') = map fst (flags sh) →
  (∀ id, id ≠ g → lookupFlag id (flags sh') = lookupFlag id (flags sh)) →
  lookupFlag g (flags sh') = Some fl' →
  (∀ a', activation fl' = Some a' →
         ∀ q, q ∈ lockedPlayers a' → q ∈ lockedPlayers a ∨ q ∈ lg) →
  lobbies s' = lobbies s →
  players s' = moveAll act X (players s) →
  (∀ q, q ∈ X → q ∈ lockedPlayers a ∨ q ∈ lg) →
  (length (rng s) ≤ length (rng s') + length lg)%nat →
  eligibleOk ship sh' lb rest s'.
Proof.
  intros ((Hsh & Hm & Hnd & Hlock) & Hkeys & Hrng & Hent) Hfl Ha
         Hsh' Hlob Hids Hother Hfl' Hlock' Hlobs Hpl HX Hrng'.
  apply NoDup_cons in Hkeys as [Hg Hkeys].
  assert (HlgM : ∀ q, q ∈ lg → q ∈ Players0 lb ++ Players1 lb).
  { intros q Hq. destruct (Hent g lg) as [_ H]; [left|]. by destruct (H q Hq). }
  assert (HaM : ∀ q, q ∈ lockedPlayers a → q ∈ Players0 lb ++ Players1 lb).
  { by eapply Hlock. }
  assert (Hfresh : ∀ g' l' q, (g', l') ∈ rest → q ∈ l' →
                     (q ∉ lockedPlayers a) ∧ (q ∉ lg)).
  { intros g' l' q Hin Hq.
    destruct (Hent g' l') as [_ H]; [by right|].
    destruct (H q Hq) as (_ & _ & Hun & Huniq). split.
    - by eapply Hun.
    - intros Hqlg. assert (g = g') as <-.
      { eapply Huniq; [left | done]. }
      apply Hg. apply (list_elem_of_fmap_2 fst _ _ Hin). }
  split; [split; [done | split; [|split]] | split; [done | split]].
  - rewrite Hlob. eapply membersOk_moveAll; eauto.
  - by rewrite Hids.
  - intros id f a' Hf Ha' p Hp. destruct (decide (id = g)) as [->|Hne].
    + assert (f = fl') as -> by congruence.
      destruct (Hlock' a' Ha' p Hp); eauto.
    + rewrite Hother in Hf by done. by eapply Hlock.
  - rewrite fmap_cons, concat_cons, length_app in Hrng. simpl in Hrng. lia.
  - intros g' l' Hin.
    destruct (Hent g' l') as [(f & a' & Hf & Ha') Hq]; [by right|].
    assert (Hne : g' ≠ g).
    { intros ->. apply Hg. apply (list_elem_of_fmap_2 fst _ _ Hin). }
    split.
    { exists f, a'. by rewrite Hother. }
    intros q Hql. destruct (Hq q Hql) as (HqM & Hact & Hun & Huniq).
    destruct (Hfresh g' l' q Hin Hql) as [Hna Hnlg].
    split; [done|]. split; [|split].
    + rewrite Hpl, moveAll_lookup, decide_False; [done|].
      intros HqX. destruct (HX q HqX); done.
    + intros id f' a'' Hf' Ha'' Hqa. destruct (decide (id = g)) as [->|Hne'].
      * assert (f' = fl') as -> by congruence.
        destruct (Hlock' a'' Ha'' q Hqa); done.
      * rewrite Hother in Hf' by done. by eapply Hun.
    + intros g'' l'' Hin' Hq''. eapply Huniq; [by right | done].
Qed.

Lemma flagLive_step (ship : ShipPtr) (sh sh' : Ship) (f0 g : string) (fl' : flag)
    (s s' : State) :
  flagLive ship f0 s → ships s !! ship = Some sh →
  ships s' !! ship = Some sh' →
  (∀ id, id ≠ g → lookupFlag id (flags sh') = lookupFlag id (flags sh)) →
  lookupFlag g (flags sh') = Some fl' →
  activation fl' ≠ None ∨ minigame fl' ≠ None →
  flagLive ship f0 s'.
Proof.
  intros (sh0 & fl0 & Hsh0 & Hfl0 & Hlive) Hsh Hsh' Hother Hfl' Hlive'.
  assert (sh0 = sh) as -> by congruence.
  destruct (decide (f0 = g)) as [->|Hne].
  - by exists sh', fl'.
  - exists sh', fl0. by rewrite Hother.
Qed.

Lemma hasAllPlayers_eq (fl : flag) (a : Activation) (s : State) :
  activation fl = Some a →
  hasAllPlayers fl s =
    Returns (bool_decide (Z.of_nat (length (lockedPlayers a))
                          = PlayerCount (minigameProto fl))) s.
Proof. intros Ha. unfold hasAllPlayers. by rewrite Ha. Qed.

Lemma fillAndStart_loop (ship : ShipPtr) (lb : Lobby) (f0 : string)
    (rest : list (string * list PlayerPtr)) :
  ∀ (sh : Ship) (s : State),
  eligibleOk ship sh lb rest s → flagLive ship f0 s →
  ∃ errs s', mapOp rest (fillAndStart ship) s = Returns errs s' ∧
             flagLive ship f0 s'.
Proof.
  induction rest as [|[g lg] rest IH]; intros sh s Hok Hlive.
  - exists [], s. done.
  - pose proof Hok as ((Hsh & Hm & Hnd & Hlock) & Hkeys & Hrng & Hent).
    destruct (Hent g lg) as [(fl & a & Hfl & Ha) Hlg]; [left|].
    destruct (fillFlag_eq ship lb g (length lg) lg sh fl a s Hsh Hm Hfl Ha)
      as (es & o & r & locked' & Hes & Hlocked & Hr).
    { intros q Hq. destruct (Hlg q Hq) as (? & ? & _). done. }
    { done. }
    { rewrite fmap_cons, concat_cons, length_app in Hrng. simpl in Hrng. lia. }
    set (sh1 := relock g a locked' sh) in *.
    set (s1 := set_out o _) in *.
    set (a1 := {| startTime := startTime a; lockedPlayers := locked' |}).
    set (fl1 := set_activation (Some a1) fl).
    assert (Hsh1 : ships s1 !! ship = Some sh1) by apply lookup_insert_eq.
    assert (Hfl1 : lookupFlag g (flags sh1) = Some fl1).
    { unfold sh1, relock. simpl. by rewrite lookupFlag_updateFlag, decide_True, Hfl. }
    assert (Hother1 : ∀ id, id ≠ g →
              lookupFlag id (flags sh1) = lookupFlag id (flags sh)).
    { intros id Hne. unfold sh1, relock. simpl.
      by rewrite lookupFlag_updateFlag, decide_False. }
    assert (Hlocked1 : ∀ q, q ∈ locked' → q ∈ Players0 lb ++ Players1 lb).
    { intros q Hq. destruct (Hlocked q Hq) as [H | H].
      - by eapply Hlock.
      - by destruct (Hlg q H). }
    assert (Hstep : ∃ errs s2 sh2,
      fillAndStart ship (g, lg) s = Returns errs s2 ∧
      eligibleOk ship sh2 lb rest s2 ∧ flagLive ship f0 s2).
    { unfold fillAndStart.
      rewrite (bind_eq _ _ _ _ _ Hes). cbv beta.
      rewrite (bind_eq _ _ _ _ _ (getFlag_eq ship sh1 g fl1 s1 Hsh1 Hfl1)).
      cbv beta.
      rewrite (bind_eq _ _ _ _ _ (hasAllPlayers_eq fl1 a1 s1 eq_refl)). cbv beta.
      destruct (bool_decide _).
      - destruct (startMinigameForFlag_eq ship sh1 lb g fl1 a1 s1 Hsh1 Hm Hfl1
                    eq_refl Hlocked1) as (e & o2 & He).
        rewrite (bind_eq _ _ _ _ _ He). cbv beta.
        set (ctx := fresh (dom (contexts s1))).
        set (fl2 := set_activation None (set_minigame (Some ctx) fl1)).
        set (sh2 := set_flags
          (updateFlag g (λ x, set_activation None (set_minigame (Some ctx) x))
             (flags sh1)) sh1).
        eexists _, _, sh2.
        split; [reflexivity|].
        assert (Hfl2 : lookupFlag g
          (updateFlag g (λ x, set_activation None (set_minigame (Some ctx) x))
             (flags sh1)) = Some fl2).
        { by rewrite lookupFlag_updateFlag, decide_True, Hfl1. }
        assert (Hother2 : ∀ id, id ≠ g →
          lookupFlag id
            (updateFlag g (λ x, set_activation None (set_minigame (Some ctx) x))
               (flags sh1)) = lookupFlag id (flags sh)).
        { intros id Hne. by rewrite lookupFlag_updateFlag, decide_False, Hother1. }
        split.
        + eapply (eligibleOk_step ship sh sh2 lb g lg rest fl fl2 a
                    (ActMinigame ctx) locked' s); try done.
          * apply lookup_insert_eq.
          * simpl. unfold sh1, relock. simpl. by rewrite !map_fst_updateFlag.
        + eapply (flagLive_step ship sh sh2 f0 g fl2 s); try done.
          * apply lookup_insert_eq.
          * by right.
      - eexists _, _, sh1. split; [reflexivity|]. split.
        + eapply (eligibleOk_step ship sh sh1 lb g lg rest fl fl1 a
                    (ActShip ship) [] s); try done.
          * unfold sh1, relock. simpl. by rewrite map_fst_updateFlag.
          * intros a' [= <-]. done.
          * by intros q Hq%elem_of_nil.
        + eapply (flagLive_step ship sh sh1 f0 g fl1 s); try done. by left. }
    destruct Hstep as (errs & s2 & sh2 & Hbody & Hok2 & Hlive2).
    destruct (IH sh2 s2 Hok2 Hlive2) as (errs' & s' & Hrest & Hlive').
    exists (errs :: errs'), s'. split; [|done].
    change (mapOp ((g, lg) :: rest) (fillAndStart ship) s) with
      ((fillAndStart ship (g, lg) ≫= λ y, ys ← mapOp rest (fillAndStart ship);
                                          mret (y :: ys)) s).
    rewrite (bind_eq _ _ _ _ _ Hbody). cbv beta.
    by rewrite (bind_eq _ _ _ _ _ Hrest).
Qed.

Lemma flagForPlayerIn_None (fl : list (string * flag)) (p : PlayerPtr) :
  flagForPlayerIn fl p = None →
  ∀ id f a, lookupFlag id fl = Some f → activation f = Some a →
            p ∉ lockedPlayers a.
Proof.
  induction fl as [|[k x] fl IH]; simpl; [done|].
  destruct (isLockedTo p x) eqn:Hl; [done|]. intros Hrest id f a.
  destruct (decide (k = id)) as [->|Hk].
  - intros [= ->] Ha. unfold isLockedTo in Hl. rewrite Ha in Hl.
    by apply bool_decide_eq_false in Hl.
  - by apply IH.
Qed.

Lemma addPlayersToFlags_live (ship : ShipPtr) (sh : Ship) (lb : Lobby)
    (f0 : string) (s : State) :
  shipOk ship sh lb s →
  (length (Players0 lb ++ Players1 lb) ≤ length (rng s))%nat →
  flagLive ship f0 s →
  ∃ e s', addPlayersToFlags ship s = Returns e s' ∧ flagLive ship f0 s'.
Proof.
  intros Hok Hrng Hlive. pose proof Hok as (Hsh & [Hlb Hmem] & Hnd & Hlock).
  unfold addPlayersToFlags.
  rewrite (bind_eq _ _ _ _ _ (getShip_eq ship sh s Hsh)). cbv beta.
  destruct (isEndgame sh); [by eexists _, _|].
  destruct (findEligiblePlayersForFlags_spec ship sh lb s Hsh Hlb)
    as (m & Hm & Hkeys & Hne & Hlen & Hsound & _).
  rewrite (bind_eq _ _ _ _ _ Hm). cbv beta.
  destruct (fillAndStart_loop ship lb f0 m sh s) as (errs & s' & Hloop & Hlive');
    [|done|].
  { split; [done|]. split; [done|]. split; [lia|].
    intros g l Hin. split.
    - destruct l as [|q l]; [by destruct (Hne g [] Hin)|].
      destruct (Hsound g (q :: l) q Hin) as (_ & _ & _ & (t & Hrec & _) & _); [left|].
      destruct Hrec as (f & a & Hf & Ha & _).
      exists f, a. split; [by apply elem_lookupFlag | done].
    - intros q Hq.
      destruct (Hsound g l q Hin Hq) as (HM & Hact & Hun & _ & Huniq).
      split; [done|]. split; [done|]. split; [|done].
      exact (flagForPlayerIn_None _ _ Hun). }
  unfold fillAndStart in Hloop.
  rewrite (bind_eq _ _ _ _ _ Hloop). by eexists _, _.
Qed.

Lemma shipOk_relocked (ship : ShipPtr) (sh : Ship) (lb : Lobby) (f : string)
    (a : Activation) (o : list ClientMessageOut) (s : State) :
  shipOk ship sh lb s →
  (∀ p, p ∈ lockedPlayers a → p ∈ Players0 lb ++ Players1 lb) →
  shipOk ship (set_flags (updateFlag f (set_activation (Some a)) (flags sh)) sh) lb
    (set_out o (set_ships
      (<[ship := set_flags (updateFlag f (set_activation (Some a)) (flags sh)) sh]>
         (ships s)) s)).
Proof.
  intros (Hsh & Hm & Hnd & Hlock) Ha.
  split; [apply lookup_insert_eq|]. split; [exact Hm|]. split.
  - simpl. by rewrite map_fst_updateFlag.
  - intros id fl a'. simpl. rewrite lookupFlag_updateFlag.
    destruct (decide (f = id)) as [->|Hne].
    + destruct (lookupFlag id (flags sh)); [|done].
      intros [= <-] [= <-]. done.
    + apply Hlock.
Qed.

(** [activateFlag] returns, and the flag is then activated or running. *)
Lemma activateFlag_live (ship : ShipPtr) (sh : Ship) (lb : Lobby)
    (player : PlayerPtr) (f : string) (fl : flag) (s : State) :
  shipOk ship sh lb s →
  (length (Players0 lb ++ Players1 lb) ≤ length (rng s))%nat →
  lookupFlag f (flags sh) = Some fl →
  player ∈ Players0 lb ++ Players1 lb →
  (players s !! player ≫= Activity) = Some (ActShip ship) →
  ∃ e s', activateFlag ship player f s = Returns e s' ∧ flagLive ship f s' ∧
          (PlayerCount (minigameProto fl) = 1 → flagRunsFor ship f player s').
Proof.
  intros Hok Hrng Hfl HpM Hact.
  pose proof Hok as (Hsh & Hm & Hnd & Hlock).
  pose proof Hm as [Hlb Hmem].
  destruct (Hmem player HpM) as (pl & c & t & Hpl & Hc & _).
  unfold activateFlag.
  rewrite (bind_eq _ _ _ _ _ (idForFlag_eq ship sh f fl s Hsh Hfl)). cbv beta.
  rewrite (bind_eq _ _ _ _ _ (PlayerName_eq player pl s Hpl)). cbv beta.
  rewrite (bind_eq _ _ _ _ _ (getFlag_eq ship sh f fl s Hsh Hfl)). cbv beta.
  rewrite run_gets.
  destruct (decide (PlayerCount (minigameProto fl) = 1)) as [Hsp|Hmp].
  - rewrite (bind_eq _ _ _ _ _ (updFlag_eq ship sh f _ s Hsh)). cbv beta.
    set (a1 := {| startTime := now s; lockedPlayers := [player] |}).
    set (sh1 := set_flags _ sh). set (s1 := set_ships _ s).
    assert (Hsh1 : ships s1 !! ship = Some sh1) by apply lookup_insert_eq.
    assert (Hfl1 : lookupFlag f (flags sh1) = Some (set_activation (Some a1) fl)).
    { unfold sh1. simpl. by rewrite lookupFlag_updateFlag, decide_True, Hfl. }
    destruct (startMinigameForFlag_eq ship sh1 lb f _ a1 s1 Hsh1 Hm Hfl1 eq_refl)
      as (e & o & He).
    { by intros p ->%list_elem_of_singleton. }
    exists e, (set_out o (started ship sh1 f (set_activation (Some a1) fl) a1 s1)).
    split; [done|].
    set (ctx := fresh (dom (contexts s1))).
    assert (Hlook : ships (set_out o (started ship sh1 f
                       (set_activation (Some a1) fl) a1 s1)) !! ship
              = Some (set_flags (updateFlag f
                   (λ x, set_activation None (set_minigame (Some ctx) x))
                   (flags sh1)) sh1)) by apply lookup_insert_eq.
    assert (Hfl2 : lookupFlag f (updateFlag f
                   (λ x, set_activation None (set_minigame (Some ctx) x))
                   (flags sh1))
              = Some (set_activation None (set_minigame (Some ctx)
                        (set_activation (Some a1) fl)))).
    { by rewrite lookupFlag_updateFlag, decide_True, Hfl1. }
    split.
    + eexists _, _. split; [exact Hlook|]. split; [exact Hfl2|]. by right.
    + intros _. eexists _, _, ctx. split; [exact Hlook|]. split; [exact Hfl2|].
      split; [done|]. split; [done|].
      change (players (set_out o (started ship sh1 f
                (set_activation (Some a1) fl) a1 s1)))
        with (moveAll (ActMinigame ctx) [player] (players s)).
      rewrite moveAll_lookup, decide_True by left. by rewrite Hpl.
  - rewrite (bind_eq _ _ _ _ _ (updFlag_eq ship sh f _ s Hsh)). cbv beta.
    set (a0 := {| startTime := now s; lockedPlayers := [] |}).
    set (sh1 := set_flags _ sh). set (s1 := set_ships _ s).
    assert (Hsh1 : ships s1 !! ship = Some sh1) by apply lookup_insert_eq.
    assert (Hfl1 : lookupFlag f (flags sh1) = Some (set_activation (Some a0) fl)).
    { unfold sh1. simpl. by rewrite lookupFlag_updateFlag, decide_True, Hfl. }
    destruct (addPlayerToFlag_eq ship ship sh1 lb f _ a0 player s1
                Hsh1 Hm Hfl1 eq_refl HpM Hact) as (e1 & o1 & He1).
    rewrite (bind_eq _ _ _ _ _ He1). cbv beta.
    set (sh2 := set_flags _ sh1) in *. set (s2 := set_out o1 _) in *.
    assert (Hok2 : shipOk ship sh2 lb s2).
    { unfold s2, sh2.
      apply shipOk_relocked.
      - apply (shipOk_relocked ship sh lb f a0 (out s) s Hok).
        by intros p ?%elem_of_nil.
      - simpl. intros p Hp%set_add_elem.
        destruct Hp as [?%elem_of_nil | ->]; done. }
    assert (Hsh2 : ships s2 !! ship = Some sh2) by apply lookup_insert_eq.
    assert (Hfl2 : lookupFlag f (flags sh2)
              = Some (set_activation (Some (lockTo player a0))
                        (set_activation (Some a0) fl))).
    { change (flags sh2) with
        (updateFlag f (set_activation (Some (lockTo player a0))) (flags sh1)).
      by rewrite lookupFlag_updateFlag, decide_True, Hfl1. }
    destruct (addPlayersToFlags_live ship sh2 lb f s2 Hok2) as (e2 & s' & He2 & Hlive).
    { exact Hrng. }
    { eexists _, _. split; [exact Hsh2|]. split; [exact Hfl2|]. by left. }
    rewrite (bind_eq _ _ _ _ _ He2). cbv beta.
    eexists _, s'. split; [done|]. split; [done|]. done.
Qed.

Lemma reply_eq (p : PlayerPtr) (pl : Player) (c : ClientPtr) (typ : string)
    (f : option string) (s : State) :
  players s !! p = Some pl → Client pl = Some c →
  ∃ data, reply p typ f s
            = Returns None (set_out (out s ++ [{| C := c; M := data |}]) s) ∧
          ParseMessage data = Some (replyMsg typ f).
Proof.
  intros Hp Hc.
  destruct (Encode_Parse_native (replyMsg typ f)) as (data & He & Hparse).
  { destruct f; [|done]. unfold replyMsg, Add, NewMessage. simpl.
    by rewrite lookup_insert_ne. }
  { destruct f; [|apply native_payload_NewMessage].
    apply native_payload_Add; [done | apply native_payload_NewMessage]. }
  exists data. split; [|done].
  unfold reply. destruct f; by apply (SendTo_eq p pl c).
Qed.

Lemma nearestLoop_id (from : Position) (fl : list (string * flag))
    (nearest : option (string * float)) (id : string) (d : float) :
  nearestLoop from fl nearest = Some (id, d) →
  nearest = Some (id, d) ∨ id ∈ map fst fl.
Proof.
  revert nearest. induction fl as [|[k f] fl IH]; intros nearest; simpl.
  - by left.
  - destruct (flagReachSq <? DistSq from (pos f))%float.
    + intros [H | H]%IH; [by left | right; by right].
    + destruct (match nearest with
                | Some (_, nd) => (DistSq from (pos f) <? nd)%float
                | None => true
                end).
      * intros [[= <- <-] | H]%IH; right; [left | by right].
      * intros [H | H]%IH; [by left | right; by right].
Qed.

Lemma lookupFlag_is_Some (id : string) (fl : list (string * flag)) :
  id ∈ map fst fl → ∃ f, lookupFlag id fl = Some f.
Proof.
  induction fl as [|[k x] fl IH]; simpl.
  - by intros ?%elem_of_nil.
  - destruct (decide (k = id)); [eauto|].
    intros [? | H]%elem_of_cons; [congruence | by apply IH].
Qed.

Lemma findNearestFlagIn_flag (sh : Ship) (p : PlayerPtr) (f : string) :
  findNearestFlagIn sh p = Some f → ∃ fl, lookupFlag f (flags sh) = Some fl.
Proof.
  unfold findNearestFlagIn.
  destruct (nearestLoop _ _ _) as [[id d]|] eqn:E; [|done].
  intros [= <-]. apply nearestLoop_id in E as [? | H]; [done|].
  by apply lookupFlag_is_Some.
Qed.

(** The decision of [tryActivateFlag], branch by branch. *)
Lemma tryActivateFlag_eq (ship : ShipPtr) (sh : Ship) (player : PlayerPtr)
    (pl : Player) (s : State) :
  ships s !! ship = Some sh → players s !! player = Some pl →
  tryActivateFlag ship player s =
    if isEndgame sh then reply player "ship_no_flags_in_endgame" None s
    else match findNearestFlagIn sh player with
         | None => reply player "ship_no_flags_in_reach" None s
         | Some f =>
             match flagForPlayerIn (flags sh) player with
             | Some _ => reply player "ship_player_locked" None s
             | None =>
                 match lookupFlag f (flags sh) with
                 | None => Panics "no such flag"
                 | Some fl =>
                     if decide (owner fl = Team pl) then
                       reply player "ship_flag_already_captured" (Some f) s
                     else if bool_decide (minigame fl ≠ None) then
                       reply player "ship_flag_in_use" (Some f) s
                     else if coolingDown fl (now s) then
                       reply player "ship_flag_cooling_down" (Some f) s
                     else if isActivated fl then
                       reply player "ship_flag_already_activated" (Some f) s
                     else activateFlag ship player f s
                 end
             end
         end.
Proof.
  intros Hsh Hpl. unfold tryActivateFlag.
  rewrite (bind_eq _ _ _ _ _ (getShip_eq ship sh s Hsh)). cbv beta.
  destruct (isEndgame sh); [done|].
  unfold findNearestFlag.
  rewrite run_assoc, (bind_eq _ _ _ _ _ (getShip_eq ship sh s Hsh)). cbv beta.
  rewrite run_ret.
  destruct (findNearestFlagIn sh player) as [f|]; [|done].
  rewrite (bind_eq _ _ _ _ _ (flagForPlayer_eq ship sh player s Hsh)). cbv beta.
  destruct (flagForPlayerIn (flags sh) player); [done|].
  destruct (lookupFlag f (flags sh)) as [fl|] eqn:Hfl.
  - rewrite (bind_eq _ _ _ _ _ (idForFlag_eq ship sh f fl s Hsh Hfl)). cbv beta.
    rewrite (bind_eq _ _ _ _ _ (getFlag_eq ship sh f fl s Hsh Hfl)). cbv beta.
    rewrite (bind_eq _ _ _ _ _ (getPlayer_eq player pl s Hpl)). cbv beta.
    destruct (decide (owner fl = Team pl)); [done|].
    destruct (bool_decide (minigame fl ≠ None)); [done|].
    rewrite (bind_eq _ _ _ _ _ (HasEnded_eq (cooldown fl) s)). cbv beta.
    unfold coolingDown. destruct (negb _); [done|]. by destruct (isActivated fl).
  - unfold idForFlag.
    rewrite run_assoc, (bind_eq _ _ _ _ _ (getShip_eq ship sh s Hsh)). cbv beta.
    by rewrite Hfl.
Qed.

Ltac in_list := solve [repeat first [left | right]].

Lemma tryActivateFlag_decision (ship : ShipPtr) (sh : Ship) (lb : Lobby)
    (player : PlayerPtr) (pl : Player) (c : ClientPtr) (s : State) :
  shipOk ship sh lb s →
  player ∈ Players0 lb ++ Players1 lb →
  players s !! player = Some pl → Client pl = Some c →
  Activity pl = Some (ActShip ship) →
  (length (Players0 lb ++ Players1 lb) ≤ length (rng s))%nat →
  (∀ f, mayActivate sh pl player (now s) f →
     ∃ e s', tryActivateFlag ship player s = Returns e s' ∧
             flagLive ship f s' ∧
             ∀ fl, lookupFlag f (flags sh) = Some fl →
                   PlayerCount (minigameProto fl) = 1 →
                   flagRunsFor ship f player s') ∧
  ((∀ f, ¬ mayActivate sh pl player (now s) f) →
     ∃ typ fid data,
       typ ∈ rejections ∧
       tryActivateFlag ship player s
         = Returns None (set_out (out s ++ [{| C := c; M := data |}]) s) ∧
       ParseMessage data = Some (replyMsg typ fid)).
Proof.
  intros Hok HpM Hpl Hc Hact Hrng.
  pose proof Hok as (Hsh & _).
  rewrite (tryActivateFlag_eq ship sh player pl s Hsh Hpl).
  split.
  - intros f (Hend & Hnear & Hfree & fl & Hfl & Hown & Hrun & Hcool & Hactv).
    rewrite Hend, Hnear, Hfree, Hfl, Hcool.
    rewrite decide_False by done.
    rewrite bool_decide_eq_false_2 by (by rewrite Hrun; intros []).
    unfold isActivated. rewrite Hactv.
    destruct (activateFlag_live ship sh lb player f fl s Hok Hrng Hfl HpM)
      as (e & s' & He & Hlive & Hsp); [by rewrite Hpl|].
    exists e, s'. split; [done|]. split; [done|].
    intros fl' Hfl' Hone. apply Hsp. congruence.
  - intros Hno.
    assert (Hreply : ∀ typ fid, typ ∈ rejections →
      ∃ typ' fid' data, typ' ∈ rejections ∧
        reply player typ fid s
          = Returns None (set_out (out s ++ [{| C := c; M := data |}]) s) ∧
        ParseMessage data = Some (replyMsg typ' fid')).
    { intros typ fid Hty.
      destruct (reply_eq player pl c typ fid s Hpl Hc) as (data & H1 & H2).
      by exists typ, fid, data. }
    unfold rejections in Hreply.
    destruct (isEndgame sh) eqn:Hend; [apply Hreply; in_list|].
    destruct (findNearestFlagIn sh player) as [f|] eqn:Hnear;
      [|apply Hreply; in_list].
    destruct (flagForPlayerIn (flags sh) player) eqn:Hfree;
      [apply Hreply; in_list|].
    destruct (findNearestFlagIn_flag sh player f Hnear) as [fl Hfl].
    rewrite Hfl.
    destruct (decide (owner fl = Team pl)); [apply Hreply; in_list|].
    case_bool_decide as Hrun; [apply Hreply; in_list|].
    destruct (coolingDown fl (now s)) eqn:Hcool; [apply Hreply; in_list|].
    destruct (isActivated fl) eqn:Hactv; [apply Hreply; in_list|].
    destruct (Hno f). split; [done|]. split; [done|]. split; [done|].
    exists fl. split; [done|]. split; [done|]. split.
    { destruct (minigame fl); [by destruct Hrun | done]. }
    split; [done|]. unfold isActivated in Hactv. by destruct (activation fl).
Qed.

Lemma nearestLoop_spec (from : Position) (fl : list (string * flag)) :
  ∀ done nearest,
    nearestInv from done nearest →
    nearestInv from (done ++ fl) (nearestLoop from fl nearest).
Proof.
  induction fl as [|[k f] fl IH]; intros done nearest Hinv.
  - by rewrite app_nil_r.
  - replace (done ++ (k, f) :: fl) with ((done ++ [(k, f)]) ++ fl)
      by by rewrite <- app_assoc.
    simpl. destruct (flagReachSq <? DistSq from (pos f))%float eqn:Hreach.
    { apply IH. destruct nearest as [[id d]|]; simpl in *.
      - destruct Hinv as [(f0 & Hin & H0) Hmin]. split.
        + exists f0. split; [apply elem_of_app; by left | done].
        + intros id' f' [Hin' | [= -> ->]%list_elem_of_singleton]%elem_of_app.
          * by apply (Hmin id').
          * unfold inReach. by rewrite Hreach.
      - intros id f' [Hin' | [= -> ->]%list_elem_of_singleton]%elem_of_app.
        + by eapply Hinv.
        + unfold inReach. by rewrite Hreach. }
    assert (Hin : inReach from f = true) by (unfold inReach; by rewrite Hreach).
    destruct nearest as [[id d]|]; simpl in *.
    + destruct (DistSq from (pos f) <? d)%float eqn:Hlt; apply IH; simpl.
      * split.
        { exists f. split; [|done]. apply elem_of_app. right. left. }
        intros id' f' [Hin' | [= -> ->]%list_elem_of_singleton]%elem_of_app Hr.
        -- destruct Hinv as [_ Hmin]. specialize (Hmin id' f' Hin' Hr).
           destruct (DistSq from (pos f') <? DistSq from (pos f))%float eqn:E;
             [|done].
           by rewrite (ltb_trans _ _ _ E Hlt) in Hmin.
        -- apply ltb_irrefl.
      * destruct Hinv as [(f0 & Hin0 & H0) Hmin]. split.
        { exists f0. split; [apply elem_of_app; by left | done]. }
        intros id' f' [Hin' | [= -> ->]%list_elem_of_singleton]%elem_of_app Hr.
        -- by apply (Hmin id').
        -- done.
    + apply IH. simpl. split.
      { exists f. split; [|done]. apply elem_of_app. right. left. }
      intros id' f' [Hin' | [= -> ->]%list_elem_of_singleton]%elem_of_app Hr.
      * by rewrite (Hinv id' f' Hin') in Hr.
      * apply ltb_irrefl.
Qed.

(** [findNearestFlag] returns a flag within reach such that no flag
    within reach is nearer, and nil exactly when no flag is within
    reach. *)
Lemma findNearestFlagIn_spec (sh : Ship) (player : PlayerPtr) :
  match findNearestFlagIn sh player with
  | Some id =>
      ∃ f, (id, f) ∈ flags sh ∧ inReach (posOf sh player) f = true ∧
           ∀ id' f', (id', f') ∈ flags sh → inReach (posOf sh player) f' = true →
             (DistSq (posOf sh player) (pos f')
                <? DistSq (posOf sh player) (pos f))%float = false
  | None => ∀ id f, (id, f) ∈ flags sh → inReach (posOf sh player) f = false
  end.
Proof.
  unfold findNearestFlagIn.
  pose proof (nearestLoop_spec (posOf sh player) (flags sh) [] None) as H.
  simpl in H. specialize (H ltac:(by intros ? ? ?%elem_of_nil)).
  destruct (nearestLoop _ _ _) as [[id d]|]; simpl in *; [|done].
  destruct H as [(f & Hin & Hr & ->) Hmin]. eauto.
Qed.

(** When the squared distance is a number, within reach means at most
    the squared reach. *)
Lemma inReach_leb (from : Position) (f : flag) :
  PrimFloat.is_nan (DistSq from (pos f)) = false →
  inReach from f = (DistSq from (pos f) <=? flagReachSq)%float.
Proof. intros H. unfold inReach. by apply negb_ltb_leb. Qed.

Lemma shipOkb_shipOk (ship : ShipPtr) (sh : Ship) (lb : Lobby) (s : State) :
  ships s !! ship = Some sh → lobbies s !! lobby sh = Some lb →
  shipOkb sh lb (players s) = true → shipOk ship sh lb s.
Proof.
  intros Hsh Hlb [[Hmem Hnd%bool_decide_eq_true]%andb_prop Hlock]%andb_prop.
  rewrite forallb_forall in Hmem, Hlock.
  split; [done|]. split; [split; [done|]|split; [done|]].
  - intros p Hp%list_elem_of_In. specialize (Hmem p Hp).
    destruct (players s !! p) as [pl|]; [|done].
    apply andb_prop in Hmem as [Hc%bool_decide_eq_true Ht%bool_decide_eq_true].
    destruct (Client pl) as [c|] eqn:Ec; [|done].
    destruct (Team pl) as [t|] eqn:Et; [|done]. injection Ht as Ht.
    by exists pl, c, t.
  - intros id f a Hf%lookupFlag_elem%list_elem_of_In Ha p Hp%list_elem_of_In.
    specialize (Hlock _ Hf). simpl in Hlock. rewrite Ha in Hlock.
    rewrite forallb_forall in Hlock.
    eapply bool_decide_eq_true_1, Hlock, Hp.
Qed.
(** C3: a player of a well-formed ship who is in the ship asks to
    activate.  When the ship is not in endgame, the nearest flag within
    reach exists and is not owned by the player's team, not running, not
    cooling down and not activated, and the player is locked to no flag,
    the call returns with that flag activated or running, and running
    with the player in its minigame when the minigame is for one
    player.  When these conditions do not all hold, the call returns nil
    after sending the player one of the seven rejecting replies, and
    nothing but the outbound frames has changed.  The flag the call
    looks at is within reach and no flag within reach is nearer. *)
Theorem tryActivateFlag_accepts_iff (ship : ShipPtr) (sh : Ship) (lb : Lobby)
    (player : PlayerPtr) (pl : Player) (c : ClientPtr) (s : State) :
  ships s !! ship = Some sh → lobbies s !! lobby sh = Some lb →
  shipOkb sh lb (players s) = true →
  player ∈ Players0 lb ++ Players1 lb →
  players s !! player = Some pl → Client pl = Some c →
  Activity pl = Some (ActShip ship) →
  (length (Players0 lb ++ Players1 lb) ≤ length (rng s))%nat →
  (∀ f, mayActivate sh pl player (now s) f →
     ∃ e s', tryActivateFlag ship player s = Returns e s' ∧
             flagLive ship f s' ∧
             ∀ fl, lookupFlag f (flags sh) = Some fl →
                   PlayerCount (minigameProto fl) = 1 →
                   flagRunsFor ship f player s') ∧
  ((∀ f, ¬ mayActivate sh pl player (now s) f) →
     ∃ typ fid data,
       typ ∈ rejections ∧
       tryActivateFlag ship player s
         = Returns None (set_out (out s ++ [{| C := c; M := data |}]) s) ∧
       ParseMessage data = Some (replyMsg typ fid)) ∧
  match findNearestFlagIn sh player with
  | Some id =>
      ∃ f, (id, f) ∈ flags sh ∧ inReach (posOf sh player) f = true ∧
           ∀ id' f', (id', f') ∈ flags sh → inReach (posOf sh player) f' = true →
             (DistSq (posOf sh player) (pos f')
                <? DistSq (posOf sh player) (pos f))%float = false
  | None => ∀ id f, (id, f) ∈ flags sh → inReach (posOf sh player) f = false
  end.
Proof.
  intros Hsh Hlb Hok HpM Hpl Hc Hact Hrng.
  apply (shipOkb_shipOk ship) in Hok; [|done..].
  destruct (tryActivateFlag_decision ship sh lb player pl c s
              Hok HpM Hpl Hc Hact Hrng) as [Hacc Hrej].
  split; [done|]. split; [done|]. apply findNearestFlagIn_spec.
Qed.

Lemma tryActivateFlag_accepts_iff_witness :
  ∃ sh lb pl c,
    (ships demo.atClickRace !! 0%nat = Some sh ∧
     lobbies demo.atClickRace !! lobby sh = Some lb ∧
     shipOkb sh lb (players demo.atClickRace) = true ∧
     0%nat ∈ Players0 lb ++ Players1 lb ∧
     players demo.atClickRace !! 0%nat = Some pl ∧
     Client pl = Some c ∧
     Activity pl = Some (ActShip 0%nat) ∧
     (length (Players0 lb ++ Players1 lb) ≤ length (rng demo.atClickRace))%nat ∧
     mayActivate sh pl 0%nat (now demo.atClickRace) "idfk") ∧
    ∃ e s', tryActivateFlag 0%nat 0%nat demo.atClickRace = Returns e s' ∧
            flagLive 0%nat "idfk" s'.
Proof.
  assert (H : ∃ sh lb pl c,
    ships demo.atClickRace !! 0%nat = Some sh ∧
    lobbies demo.atClickRace !! lobby sh = Some lb ∧
    shipOkb sh lb (players demo.atClickRace) = true ∧
    0%nat ∈ Players0 lb ++ Players1 lb ∧
    players demo.atClickRace !! 0%nat = Some pl ∧
    Client pl = Some c ∧
    Activity pl = Some (ActShip 0%nat) ∧
    (length (Players0 lb ++ Players1 lb) ≤ length (rng demo.atClickRace))%nat ∧
    mayActivate sh pl 0%nat (now demo.atClickRace) "idfk").
  { eexists _, _, _, _.
    split; [vm_compute; reflexivity|].
    split; [vm_compute; reflexivity|].
    split; [vm_compute; reflexivity|].
    split; [vm_compute; left|].
    split; [vm_compute; reflexivity|].
    split; [vm_compute; reflexivity|].
    split; [vm_compute; reflexivity|].
    split; [vm_compute; lia|].
    split; [vm_compute; reflexivity|].
    split; [vm_compute; reflexivity|].
    split; [vm_compute; reflexivity|].
    eexists. split; [vm_compute; reflexivity|].
    split; [vm_compute; discriminate|].
    repeat split; vm_compute; reflexivity. }
  destruct H as (sh & lb & pl & c & H1 & H2 & H3 & H4 & H5 & H6 & H7 & H8 & H9).
  exists sh, lb, pl, c.
  split; [exact (conj H1 (conj H2 (conj H3 (conj H4 (conj H5
            (conj H6 (conj H7 (conj H8 H9))))))))|].
  destruct (tryActivateFlag_accepts_iff 0%nat sh lb 0%nat pl c demo.atClickRace
              H1 H2 H3 H4 H5 H6 H7 H8) as (Hacc & _ & _).
  destruct (Hacc "idfk" H9) as (e & s' & He & Hlive & _).
  exists e, s'. split; [exact He | exact Hlive].
Defined.

(** The run of the witness: Fay's request at the click race flag
    returns with her in its minigame; her next request, from inside the
    ship of a state where she stands at no flag, is rejected. *)
Lemma demo_activate_runs :
  demo.returns (tryActivateFlag 0%nat 0%nat) demo.atClickRace = true ∧
  demo.flagStates demo.inMinigame 0%nat
    ≫= (λ l, Some (filter (λ x, x.1.1 = "idfk") l))
    = Some [("idfk", None, Some 0%nat)] ∧
  demo.sentSince demo.inShip
    (demo.after (tryActivateFlag 0%nat 0%nat) demo.inShip)
    = [Some "ship_no_flags_in_reach"].
Proof. repeat split; vm_compute; reflexivity. Qed.
(** ** Further properties of lobbies, timers and the end of the game *)

Global Instance only_rng_preorder : PreOrder only_rng.
Proof.
  split.
  - intros s. unfold only_rng. by destruct s.
  - intros s1 s2 s3 H12 H23. unfold only_rng in *. rewrite H23, H12. done.
Qed.

Global Instance only_rng_rng : AllowRng only_rng.
Proof. intros s v. reflexivity. Qed.

Lemma getClient_eq (c : ClientPtr) (cl : ClientObj) (s : State) :
  clients s !! c = Some cl → getClient c s = Returns cl s.
Proof. intros H. unfold getClient. run. rewrite H. by run. Qed.

(** X4: a join request for a lobby that has six players (or more) is
    answered with [lobby_full], and nothing else changes. *)
Theorem HandleJoinRequest_full (act : LobbyPtr) (client : ClientPtr)
    (cl : ClientObj) (lb : Lobby) (s : State) :
  clients s !! client = Some cl → ClientPlayer cl = None →
  lobbies s !! act = Some lb → 5 < PlayerCountOf lb →
  ∃ data,
    HandleJoinRequest act client s
      = Returns None (set_out (out s ++ [{| C := client; M := data |}]) s) ∧
    ParseMessage data = Some (NewMessage "lobby_full").
Proof.
  intros Hc Hnone Hlb Hn.
  destruct (Encode_Parse_native (NewMessage "lobby_full")) as (data & He & Hp);
    [done | apply native_payload_NewMessage|].
  exists data. split; [|done]. unfold HandleJoinRequest.
  rewrite (bind_eq _ _ _ _ _ (getClient_eq client cl s Hc)). cbv beta.
  rewrite Hnone. unfold PlayerCount_.
  rewrite run_assoc, (bind_eq _ _ _ _ _ (getLobby_eq act lb s Hlb)). cbv beta.
  rewrite run_ret, bool_decide_eq_true_2 by lia.
  unfold Send. by rewrite He.
Qed.

(** X5: once a name is found for it, an accepted client becomes a new
    player, linked with its client, on team 0 when team 0 has at most
    as many members as team 1, and on team 1 otherwise. *)
Theorem AddClient_balances (l : LobbyPtr) (client : ClientPtr) (cl : ClientObj)
    (lb : Lobby) (name : string) (p : PlayerPtr) (slot : TeamIndex)
    (s s1 : State) :
  clients s !! client = Some cl → ClientPlayer cl = None →
  lobbies s !! l = Some lb →
  generatePlayerName l s = Returns name s1 →
  p = fresh (dom (players s)) →
  slot = (if bool_decide (length (Players0 lb) ≤ length (Players1 lb))%nat
          then Team0 else Team1) →
  ∃ s', AddClient l client s = Returns tt s' ∧
    players s' !! p = Some {| Team := Some {| teamLobby := l; teamSlot := slot |};
                              Client := Some client; Activity := None;
                              Name := name |} ∧
    clients s' !! client = Some {| ClientPlayer := Some p |} ∧
    lobbies s' !! l = Some (match slot with
                            | Team0 => set_Players0 (set_add p (Players0 lb)) lb
                            | Team1 => set_Players1 (set_add p (Players1 lb)) lb
                            end).
Proof.
  intros Hc Hnone Hlb Hname -> ->. set (p := fresh (dom (players s))).
  pose proof (pres_generatePlayerName only_rng l s name s1 Hname) as Hs1.
  unfold only_rng in Hs1. set (r := rng s1) in Hs1.
  unfold AddClient.
  rewrite (bind_eq _ _ _ _ _ (getClient_eq client cl s Hc)). cbv beta.
  rewrite Hnone, (bind_eq _ _ _ _ _ Hname). cbv beta. rewrite Hs1.
  unfold allocPlayer at 1, mbind at 1, Op_bind at 1. fields. fold p.
  unfold setClientPlayer. rewrite run_modify. fields.
  unfold getLobby at 1. rewrite run_assoc, run_gets. fields.
  rewrite Hlb, run_deref.
  assert (Hteam : ∀ t : TeamPtr, teamLobby t = l →
    ∀ s0, players s0 !! p = Some {| Team := None; Client := Some client;
                                    Activity := None; Name := name |} →
          lobbies s0 !! l = Some lb →
    Team_AddPlayer t p s0 =
      Returns tt (set_players (alter (set_Team (Some t)) p (players
        (set_lobbies (alter (λ x, match teamSlot t with
                                  | Team0 => set_Players0 (set_add p (Players0 x)) x
                                  | Team1 => set_Players1 (set_add p (Players1 x)) x
                                  end) (teamLobby t) (lobbies s0)) s0)))
        (set_lobbies (alter (λ x, match teamSlot t with
                                  | Team0 => set_Players0 (set_add p (Players0 x)) x
                                  | Team1 => set_Players1 (set_add p (Players1 x)) x
                                  end) (teamLobby t) (lobbies s0)) s0))).
  { intros t Ht s0 Hp0 Hl0. unfold Team_AddPlayer.
    rewrite (bind_eq _ _ _ _ _ (getPlayer_eq p _ s0 Hp0)). cbv beta.
    cbn [Team]. unfold updTeamPlayers, updLobby, updPlayer.
    by rewrite run_modify, run_modify0. }
  destruct (bool_decide _) eqn:Hb.
  - eexists. split.
    { rewrite Hteam; [reflexivity | reflexivity | apply lookup_insert_eq | exact Hlb]. }
    fields. simpl. by rewrite !lookup_alter_eq, !lookup_insert_eq, Hlb.
  - eexists. split.
    { rewrite Hteam; [reflexivity | reflexivity | apply lookup_insert_eq | exact Hlb]. }
    fields. simpl. by rewrite !lookup_alter_eq, !lookup_insert_eq, Hlb.
Qed.

(** X6: [Lobby.RemovePlayer] takes the player off the team, unlinks player
    and client, and, when that leaves the lobby with no player, deletes
    the lobby's code from the manager in the same call; otherwise the
    manager's table is as it was. *)
Theorem RemovePlayer_forgets_empty_lobby (l : LobbyPtr) (player : PlayerPtr)
    (pl : Player) (t : TeamPtr) (c : ClientPtr) (lb : Lobby) (s : State) :
  players s !! player = Some pl → Team pl = Some t → teamLobby t = l →
  Client pl = Some c → lobbies s !! l = Some lb →
  ∃ s', Lobby_RemovePlayer l player s = Returns tt s' ∧
    lobbies s' !! l = Some (without t player lb) ∧
    clients s' !! c = Some {| ClientPlayer := None |} ∧
    (players s' !! player ≫= Client) = None ∧
    activities s' = if decide (PlayerCountOf (without t player lb) = 0)
                    then delete (ID lb) (activities s)
                    else activities s.
Proof.
  intros Hpl Ht Htl Hc Hlb. unfold Lobby_RemovePlayer, PlayerLobby.
  rewrite run_assoc, (bind_eq _ _ _ _ _ (getPlayer_eq player pl s Hpl)). cbv beta.
  rewrite Ht. run. rewrite Htl, decide_True by done.
  rewrite (bind_eq _ _ _ _ _ (getPlayer_eq player pl s Hpl)). cbv beta.
  rewrite Ht. run. unfold Team_RemovePlayer.
  rewrite run_assoc, (bind_eq _ _ _ _ _ (getPlayer_eq player pl s Hpl)). cbv beta.
  rewrite Ht, decide_True by done.
  unfold updTeamPlayers, updLobby, updPlayer. run.
  rewrite Hc. run. unfold setClientPlayer. run.
  unfold PlayerCount_, getLobby. run.
  rewrite Htl, lookup_alter_eq, Hlb. simpl. run.
  fold (without t player lb).
  assert (Hid : ID (without t player lb) = ID lb).
  { unfold without. by destruct (teamSlot t). }
  case_bool_decide as Hn.
  - unfold when, forget, getLobby. run.
    rewrite lookup_alter_eq, Hlb. simpl. run.
    fold (without t player lb). rewrite Hid.
    eexists. split; [reflexivity|]. fields.
    rewrite lookup_alter_eq, Hlb, lookup_insert_eq, decide_True by done.
    rewrite !lookup_alter_eq, Hpl. done.
  - unfold when. run.
    eexists. split; [reflexivity|]. fields.
    rewrite lookup_alter_eq, Hlb, lookup_insert_eq, decide_False by done.
    rewrite !lookup_alter_eq, Hpl. done.
Qed.

Lemma HandleJoinRequest_full_witness :
  ∃ lb,
    (clients demo.collision !! 1%nat = Some {| ClientPlayer := None |} ∧
     lobbies demo.collision !! 1%nat = Some lb ∧ 5 < PlayerCountOf lb) ∧
    ∃ data,
      HandleJoinRequest 1%nat 1%nat demo.collision
        = Returns None (set_out (out demo.collision ++ [{| C := 1%nat; M := data |}])
                          demo.collision) ∧
      ParseMessage data = Some (NewMessage "lobby_full").
Proof.
  assert (H : ∃ lb, clients demo.collision !! 1%nat = Some {| ClientPlayer := None |} ∧
     lobbies demo.collision !! 1%nat = Some lb ∧ 5 < PlayerCountOf lb).
  { eexists. split; [vm_compute; reflexivity|].
    split; [vm_compute; reflexivity|]. vm_compute. reflexivity. }
  destruct H as (lb & H1 & H2 & H3). exists lb.
  split; [exact (conj H1 (conj H2 H3))|].
  exact (HandleJoinRequest_full 1%nat 1%nat _ lb demo.collision H1 eq_refl H2 H3).
Defined.

Lemma AddClient_balances_witness :
  ∃ lb name s1 s',
    (clients demo.oneIn !! 1%nat = Some {| ClientPlayer := None |} ∧
     lobbies demo.oneIn !! 0%nat = Some lb ∧
     generatePlayerName 0%nat demo.oneIn = Returns name s1 ∧
     1%nat = fresh (dom (players demo.oneIn)) ∧
     Team1 = (if bool_decide (length (Players0 lb) ≤ length (Players1 lb))%nat
              then Team0 else Team1)) ∧
    AddClient 0%nat 1%nat demo.oneIn = Returns tt s' ∧
    players s' !! 1%nat
      = Some {| Team := Some (team1 0%nat); Client := Some 1%nat;
                Activity := None; Name := name |} ∧
    name = "Cy".
Proof.
  assert (H : ∃ lb name s1,
     clients demo.oneIn !! 1%nat = Some {| ClientPlayer := None |} ∧
     lobbies demo.oneIn !! 0%nat = Some lb ∧
     generatePlayerName 0%nat demo.oneIn = Returns name s1 ∧
     1%nat = fresh (dom (players demo.oneIn)) ∧
     Team1 = (if bool_decide (length (Players0 lb) ≤ length (Players1 lb))%nat
              then Team0 else Team1) ∧
     name = "Cy").
  { eexists _, _, _. split; [vm_compute; reflexivity|].
    split; [vm_compute; reflexivity|]. split; [vm_compute; reflexivity|].
    split; [vm_compute; reflexivity|]. split; vm_compute; reflexivity. }
  destruct H as (lb & name & s1 & H1 & H2 & H3 & H4 & H5 & H6).
  destruct (AddClient_balances 0%nat 1%nat _ lb name 1%nat Team1 demo.oneIn s1
              H1 eq_refl H2 H3 H4 H5) as (s' & Hs' & Hp & _).
  exists lb, name, s1, s'.
  split; [exact (conj H1 (conj H2 (conj H3 (conj H4 H5))))|].
  split; [exact Hs'|]. split; [exact Hp | exact H6].
Defined.

Lemma RemovePlayer_forgets_empty_lobby_witness :
  ∃ pl lb s',
    (players demo.oneIn !! 0%nat = Some pl ∧ Team pl = Some (team0 0%nat) ∧
     Client pl = Some 0%nat ∧ lobbies demo.oneIn !! 0%nat = Some lb) ∧
    Lobby_RemovePlayer 0%nat 0%nat demo.oneIn = Returns tt s' ∧
    activities demo.oneIn !! "3141" = Some 0%nat ∧
    activities s' = delete "3141" (activities demo.oneIn).
Proof.
  assert (H : ∃ pl lb,
     players demo.oneIn !! 0%nat = Some pl ∧ Team pl = Some (team0 0%nat) ∧
     Client pl = Some 0%nat ∧ lobbies demo.oneIn !! 0%nat = Some lb ∧
     PlayerCountOf (without (team0 0%nat) 0%nat lb) = 0 ∧ ID lb = "3141" ∧
     activities demo.oneIn !! "3141" = Some 0%nat).
  { eexists _, _. split; [vm_compute; reflexivity|].
    split; [vm_compute; reflexivity|]. split; [vm_compute; reflexivity|].
    split; [vm_compute; reflexivity|]. split; [vm_compute; reflexivity|].
    split; vm_compute; reflexivity. }
  destruct H as (pl & lb & H1 & H2 & H3 & H4 & H5 & H6 & H7).
  destruct (RemovePlayer_forgets_empty_lobby 0%nat 0%nat pl (team0 0%nat) 0%nat lb
              demo.oneIn H1 H2 eq_refl H3 H4) as (s' & Hs' & _ & _ & _ & Hact).
  exists pl, lb, s'. split; [exact (conj H1 (conj H2 (conj H3 H4)))|].
  split; [exact Hs'|]. split; [exact H7|].
  rewrite decide_True in Hact by exact H5. rewrite H6 in Hact. exact Hact.
Defined.

Lemma Stop_after_expiry_witness :
  (End_ {| End_ := 1000; quit := None |} < now demo.hub0
   ∨ quit {| End_ := 1000; quit := None |} = None) ∧
  Stop {| End_ := 1000; quit := None |} demo.hub0 = Returns tt demo.hub0.
Proof.
  assert (H : End_ {| End_ := 1000; quit := None |} < now demo.hub0
              ∨ quit {| End_ := 1000; quit := None |} = None) by (right; reflexivity).
  split; [exact H|].
  exact (Stop_after_expiry {| End_ := 1000; quit := None |} demo.hub0 H).
Defined.

Lemma tryEnd_eq_witness :
  ∃ sh, ships demo.endgameWaiting !! 0%nat = Some sh ∧
        areAnyMinigamesOngoingIn (flags sh) = true ∧
        tryEnd 0%nat demo.endgameWaiting = Returns None demo.endgameWaiting.
Proof.
  assert (H : ∃ sh, ships demo.endgameWaiting !! 0%nat = Some sh ∧
                    areAnyMinigamesOngoingIn (flags sh) = true).
  { eexists. split; vm_compute; reflexivity. }
  destruct H as (sh & H1 & H2). exists sh. split; [exact H1|]. split; [exact H2|].
  pose proof (tryEnd_eq 0%nat sh demo.endgameWaiting H1) as H.
  rewrite H2 in H. exact H.
Defined.

(** Entering endgame a second time only tries to end the game
    again. *)
Theorem tryEnterEndgame_again (ship : ShipPtr) (sh : Ship) (s : State) :
  ships s !! ship = Some sh → isEndgame sh = true →
  tryEnterEndgame ship s = tryEnd ship s.
Proof.
  intros Hsh Hend. unfold tryEnterEndgame.
  rewrite (bind_eq _ _ _ _ _ (getShip_eq ship sh s Hsh)). cbv beta.
  by rewrite Hend.
Qed.

Lemma tryEnterEndgame_again_witness :
  ∃ sh, (ships demo.endgameWaiting !! 0%nat = Some sh ∧ isEndgame sh = true) ∧
        tryEnterEndgame 0%nat demo.endgameWaiting
          = tryEnd 0%nat demo.endgameWaiting.
Proof.
  assert (H : ∃ sh, ships demo.endgameWaiting !! 0%nat = Some sh ∧
                    isEndgame sh = true).
  { eexists. split; vm_compute; reflexivity. }
  destruct H as (sh & H1 & H2). exists sh. split; [exact (conj H1 H2)|].
  exact (tryEnterEndgame_again 0%nat sh demo.endgameWaiting H1 H2).
Defined.

(** *** The click race's [Start] and its prototype *)


Lemma Join_None (es : list (option error)) :
  Join es = None ↔ Forall (λ e, e = None) es.
Proof.
  unfold Join. induction es as [|[e|] es IH]; simpl.
  - split; [constructor | done].
  - split; [done|]. intros H. by apply Forall_cons_1 in H as [? _].
  - rewrite IH. split; [by constructor|]. intros H. by apply Forall_cons_1 in H as [_ ?].
Qed.

Lemma forEach_ext {A} (l : list A) (f g : A → Op (option error)) :
  (∀ x, f x = g x) → forEach l f = forEach l g.
Proof. intros H. induction l as [|x l IH]; simpl; [done|]. by rewrite H, IH. Qed.

Lemma forEach_app {A} (l1 l2 : list A) (fn : A → Op (option error)) (s : State) :
  forEach (l1 ++ l2) fn s
  = (es1 ← forEach l1 fn; es2 ← forEach l2 fn; mret (es1 ++ es2)) s.
Proof.
  revert s. induction l1 as [|x l1 IH]; intros s; simpl.
  - rewrite run_ret. unfold mbind, Op_bind. by destruct (forEach l2 fn s).
  - unfold mbind, Op_bind in *. destruct (fn x s) as [e s1| | |]; try done.
    rewrite IH. destruct (forEach l1 fn s1) as [es1 s2| | |]; try done.
    destruct (forEach l2 fn s2) eqn:E; simpl; rewrite ?E; done.
Qed.

(** Sending to the members in the activity one after the other, as
    [ForAllPlayers] with the test of the activity does, posts what sending
    to the participants does. *)
Lemma welcome_agree (act : ActivityPtr) (msg : Message) (lo : LobbyPtr)
    (lb : Lobby) (s : State) (l : list PlayerPtr) :
  membersOk lo lb s → (∀ p, p ∈ l → p ∈ Players0 lb ++ Players1 lb) →
  ∀ o, ∃ es es' o',
    forEach l (λ p, pl ← getPlayer p;
                    if decide (Activity pl = Some act) then SendTo p msg
                    else mret None) (set_out o s)
      = Returns es (set_out o' s) ∧
    forEach (filter (λ p, (players s !! p ≫= Activity) = Some act) l)
            (λ p, es ← forEach [msg] (SendTo p); mret (Join es)) (set_out o s)
      = Returns es' (set_out o' s) ∧
    (Forall (λ e, e = None) es ↔ Forall (λ e, e = None) es').
Proof.
  intros [_ Hmem].
  set (f1 := λ p, pl ← getPlayer p;
                  if decide (Activity pl = Some act) then SendTo p msg
                  else mret None).
  set (f2 := λ p, es ← forEach [msg] (SendTo p); mret (Join es)).
  induction l as [|p l IH]; intros Hl o.
  - exists [], [], o. by split.
  - destruct (Hmem p (Hl p ltac:(left))) as (pl & c & t & Hpl & Hc & _).
    assert (Hl' : ∀ q, q ∈ l → q ∈ Players0 lb ++ Players1 lb).
    { intros q Hq. apply Hl. by right. }
    assert (Hf1 : f1 p (set_out o s)
                  = (if decide (Activity pl = Some act) then SendTo p msg
                     else mret None) (set_out o s)).
    { unfold f1. by rewrite (bind_eq _ _ _ _ _ (getPlayer_eq p pl (set_out o s) Hpl)). }
    rewrite filter_cons, Hpl. cbn [mbind option_bind].
    destruct (decide (Activity pl = Some act)) as [Ha|Ha].
    + destruct (sends_SendTo p pl c msg (set_out o s) Hpl Hc) as (e & o1 & He).
      change (set_out o1 (set_out o s)) with (set_out o1 s) in He.
      rewrite <- Hf1 in He.
      assert (Hf2 : f2 p (set_out o s) = Returns (Join [e]) (set_out o1 s)).
      { unfold f2. cbn [forEach]. rewrite Hf1 in He.
        rewrite !run_assoc, (bind_eq _ _ _ _ _ He). by run. }
      destruct (IH Hl' o1) as (es & es' & o' & H1 & H2 & H3).
      exists (e :: es), (Join [e] :: es'), o'.
      cbn [forEach]. rewrite (bind_eq _ _ _ _ _ He). cbv beta.
      rewrite (bind_eq _ _ _ _ _ H1), (bind_eq _ _ _ _ _ Hf2). cbv beta.
      rewrite (bind_eq _ _ _ _ _ H2).
      split; [done|]. split; [done|].
      rewrite !Forall_cons, H3. destruct e; split; intros [? ?]; by split.
    + destruct (IH Hl' o) as (es & es' & o' & H1 & H2 & H3).
      exists (None :: es), es', o'.
      cbn [forEach]. rewrite (bind_eq _ _ _ _ _ Hf1). cbv beta.
      rewrite (bind_eq _ _ _ _ _ H1).
      split; [done|]. split; [done|].
      rewrite Forall_cons, H3. split; [by intros [_ ?] | by split].
Qed.

Lemma ForAllMembers_eq (team : TeamPtr) (lb : Lobby)
    (fn : PlayerPtr → Op (option error)) (es : list (option error)) (s s' : State) :
  lobbies s !! teamLobby team = Some lb →
  forEach (TeamPlayers lb (teamSlot team)) fn s = Returns es s' →
  ForAllMembers team fn s = Returns (Join es) s'.
Proof.
  intros Hlb Hes. unfold ForAllMembers, getTeamPlayers.
  rewrite run_assoc, (bind_eq _ _ _ _ _ (getLobby_eq _ lb s Hlb)). cbv beta.
  rewrite run_ret, (bind_eq _ _ _ _ _ Hes). reflexivity.
Qed.

(** [MinigameContext.ForAllPlayers] with a send posts what sending to
    the participants in turn does. *)
Lemma Ctx_ForAllPlayers_agree (ctx : CtxPtr) (c : MinigameContext)
    (ship : ShipPtr) (sh : Ship) (lb : Lobby) (proto : MinigamePrototype)
    (msg : Message) (s : State) :
  contexts s !! ctx = Some c → ctxShip c = Some ship →
  ctxProto c = Some proto → ctxImpl c = true →
  ships s !! ship = Some sh → membersOk (lobby sh) lb s →
  ∃ e es' o,
    Ctx_ForAllPlayers ctx (λ p, SendTo p msg) s = Returns e (set_out o s) ∧
    forEach (filter (λ p, (players s !! p ≫= Activity) = Some (ActMinigame ctx))
               (Players0 lb ++ Players1 lb))
            (λ p, es ← forEach [msg] (SendTo p); mret (Join es)) s
      = Returns es' (set_out o s) ∧
    (e = None ↔ Join es' = None).
Proof.
  intros Hc Hs Hp Hi Hsh Hm. pose proof Hm as [Hlb Hmem].
  destruct (welcome_agree (ActMinigame ctx) msg (lobby sh) lb s (Players0 lb) Hm
              ltac:(intros p ?; apply elem_of_app; by left) (out s))
    as (es0 & es0' & o0 & H0 & H0' & Hn0).
  destruct (welcome_agree (ActMinigame ctx) msg (lobby sh) lb s (Players1 lb) Hm
              ltac:(intros p ?; apply elem_of_app; by right) o0)
    as (es1 & es1' & o1 & H1 & H1' & Hn1).
  rewrite set_out_id in H0, H0'.
  exists (Join [Join es0; Join es1]), (es0' ++ es1'), o1.
  split; [|split].
  - unfold Ctx_ForAllPlayers, ctxShipLobby.
    rewrite (bind_eq _ _ _ _ _ (ensureValid_eq ctx c ship proto s Hc Hs Hp Hi)).
    cbv beta.
    rewrite !run_assoc, (bind_eq _ _ _ _ _ (getCtx_eq ctx c s Hc)), Hs. run.
    rewrite (bind_eq _ _ _ _ _ (getShip_eq ship sh s Hsh)). run.
    unfold ForAllPlayers.
    rewrite (bind_eq _ _ _ _ _
               (ForAllMembers_eq (team0 (lobby sh)) lb _ es0 s (set_out o0 s) Hlb H0)).
    cbv beta.
    rewrite (bind_eq _ _ _ _ _
               (ForAllMembers_eq (team1 (lobby sh)) lb _ es1 (set_out o0 s)
                  (set_out o1 s) Hlb H1)).
    reflexivity.
  - rewrite filter_app, forEach_app, (bind_eq _ _ _ _ _ H0'). cbv beta.
    rewrite (bind_eq _ _ _ _ _ H1'). reflexivity.
  - rewrite !Join_None, Forall_app, <- Hn0, <- Hn1, !Forall_cons, !Join_None.
    split; [intros (? & ? & _); by split | intros [? ?]; by repeat split].
Qed.

(** X9: for a context of a click race prototype, [Start] of the click
    race sends what [MinigameContext.Start] sends through the
    prototype's [implStart], reports an error exactly when it does, and
    besides only starts the timer of the game: a new listening timer
    process that ends [duration] from now with the timeout callback. *)
Theorem click_race_Start_as_prototype (st : click_race.state) (ctx : CtxPtr)
    (c : MinigameContext) (ship : ShipPtr) (sh : Ship) (lb : Lobby)
    (proto : MinigamePrototype) (s : State) :
  contexts s !! ctx = Some c → ctxShip c = Some ship →
  ctxProto c = Some proto → ctxImpl c = true →
  ships s !! ship = Some sh → lobbies s !! lobby sh = Some lb →
  shipOkb sh lb (players s) = true →
  (proto = click_race.ProtoSp ∧ is_Some (ctxStore c ≫= λ a, stores s !! a))
    ∨ proto = click_race.Proto1v1 →
  ∃ e e' o,
    Ctx_Start ctx s = Returns e (set_out o s) ∧
    click_race.Start st ctx s
      = Returns
          ({| click_race.reportedScores := click_race.reportedScores st;
              click_race.timer :=
                {| End_ := now s + click_race.duration;
                   quit := Some (fresh (dom (timers s))) |} |}, e')
          (set_timers
             (<[fresh (dom (timers s)) :=
                  {| onTick := None; onNormalEnd := CbClickRaceTimeout ctx;
                     firesAt := now s + click_race.duration;
                     listening := true |}]> (timers s))
             (set_out o s)) ∧
    (e = None ↔ e' = None).
Proof.
  intros Hc Hs Hp Hi Hsh Hlb Hok Hproto.
  destruct (shipOkb_shipOk ship sh lb s Hsh Hlb Hok) as (_ & Hm & _).
  assert (Hmsg : ∃ msg v,
    storeValue (ctxStore c) s = Returns v s ∧
    (∀ ps p, implStart proto ps v p = [msg]) ∧
    ∀ B (k : Message → Op B),
      (n ← Ctx_PlayerCount ctx;
       msg ← (if decide (n = 1) then
                threshold ← click_race.thresholdOf ctx;
                v ← click_race.readStore threshold;
                mret (Add "score_to_beat" (VInt v)
                        (Add "duration"
                           (VFloat64 (Seconds click_race.duration))
                           (NewMessage "cps_welcome")))
              else mret (Add "duration"
                           (VFloat64 (Seconds click_race.duration))
                           (NewMessage "cps_welcome")));
       k msg) s = k msg s).
  { destruct Hproto as [[-> Hst] | ->].
    - destruct (ctxStore c) as [a|] eqn:Ha; [|by destruct Hst].
      destruct Hst as [v Hv]. simpl in Hv.
      exists (click_race.welcomeMsg 1 (Some v)), (Some v).
      split; [|split; [done|]].
      + unfold storeValue. run. by rewrite Hv.
      + intros B k. unfold Ctx_PlayerCount, click_race.thresholdOf,
          click_race.readStore.
        rewrite !run_assoc, (bind_eq _ _ _ _ _ (getCtx_eq ctx c s Hc)), Hp. run.
        cbn [PlayerCount click_race.ProtoSp]. rewrite decide_True by done.
        rewrite !run_assoc, (bind_eq _ _ _ _ _ (getCtx_eq ctx c s Hc)), Ha. run.
        rewrite Hv. by run.
    - assert (Hv : ∃ v, storeValue (ctxStore c) s = Returns v s).
      { unfold storeValue. destruct (ctxStore c); eexists; reflexivity. }
      destruct Hv as [v Hv].
      exists (click_race.welcomeMsg 2 v), v.
      split; [done|]. split; [done|].
      intros B k. unfold Ctx_PlayerCount.
      rewrite !run_assoc, (bind_eq _ _ _ _ _ (getCtx_eq ctx c s Hc)), Hp. run.
      cbn [PlayerCount click_race.Proto1v1]. rewrite decide_False by done.
      by run. }
  destruct Hmsg as (msg & v & Hv & Himpl & Hstart).
  destruct (Ctx_ForAllPlayers_agree ctx c ship sh lb proto msg s Hc Hs Hp Hi Hsh Hm)
    as (e' & es & o & Hall & Heach & Hnone).
  exists (Join es), e', o. split; [|split; [|done]].
  - unfold Ctx_Start.
    rewrite (bind_eq _ _ _ _ _ (ensureValid_eq ctx c ship proto s Hc Hs Hp Hi)).
    cbv beta.
    rewrite (bind_eq _ _ _ _ _ (getCtx_eq ctx c s Hc)), Hp. run.
    destruct Hm as [_ Hmem].
    rewrite (bind_eq _ _ _ _ _ (ctxPlayers_eq ctx c ship sh lb proto s Hc Hs Hp Hi Hsh Hlb)).
    cbv beta. rewrite (bind_eq _ _ _ _ _ Hv). cbv beta.
    erewrite bind_eq; [reflexivity|].
    rewrite <- Heach. apply (f_equal (λ m : Op _, m s)).
    apply forEach_ext. intros p. by rewrite Himpl.
  - unfold click_race.Start. cbv zeta. rewrite Hstart.
    rewrite (bind_eq _ _ _ _ _ Hall). cbv beta. unfold SingleTimer, startTimerProc.
    run. reflexivity.
Qed.

Lemma click_race_Start_as_prototype_witness :
  ∃ c sh lb,
    (contexts demo.inMinigame !! 0%nat = Some c ∧ ctxShip c = Some 0%nat ∧
     ctxProto c = Some click_race.ProtoSp ∧ ctxImpl c = true ∧
     ships demo.inMinigame !! 0%nat = Some sh ∧
     lobbies demo.inMinigame !! lobby sh = Some lb ∧
     shipOkb sh lb (players demo.inMinigame) = true ∧
     is_Some (ctxStore c ≫= λ a, stores demo.inMinigame !! a)) ∧
    ∃ e e' o,
      Ctx_Start 0%nat demo.inMinigame = Returns e (set_out o demo.inMinigame) ∧
      click_race.Start demo.sevenClicks 0%nat demo.inMinigame
        = Returns
            ({| click_race.reportedScores := click_race.reportedScores demo.sevenClicks;
                click_race.timer :=
                  {| End_ := now demo.inMinigame + click_race.duration;
                     quit := Some (fresh (dom (timers demo.inMinigame))) |} |}, e')
            (set_timers
               (<[fresh (dom (timers demo.inMinigame)) :=
                    {| onTick := None; onNormalEnd := CbClickRaceTimeout 0%nat;
                       firesAt := now demo.inMinigame + click_race.duration;
                       listening := true |}]> (timers demo.inMinigame))
               (set_out o demo.inMinigame)) ∧
      (e = None ↔ e' = None).
Proof.
  assert (H : ∃ c sh lb,
    contexts demo.inMinigame !! 0%nat = Some c ∧ ctxShip c = Some 0%nat ∧
    ctxProto c = Some click_race.ProtoSp ∧ ctxImpl c = true ∧
    ships demo.inMinigame !! 0%nat = Some sh ∧
    lobbies demo.inMinigame !! lobby sh = Some lb ∧
    shipOkb sh lb (players demo.inMinigame) = true ∧
    is_Some (ctxStore c ≫= λ a, stores demo.inMinigame !! a)).
  { eexists _, _, _. split; [vm_compute; reflexivity|].
    split; [vm_compute; reflexivity|]. split; [vm_compute; reflexivity|].
    split; [vm_compute; reflexivity|]. split; [vm_compute; reflexivity|].
    split; [vm_compute; reflexivity|]. split; [vm_compute; reflexivity|].
    vm_compute. eexists. reflexivity. }
  destruct H as (c & sh & lb & H1 & H2 & H3 & H4 & H5 & H6 & H7 & H8).
  exists c, sh, lb.
  split; [exact (conj H1 (conj H2 (conj H3 (conj H4 (conj H5 (conj H6 (conj H7 H8)))))))|].
  exact (click_race_Start_as_prototype demo.sevenClicks 0%nat c 0%nat sh lb
           click_race.ProtoSp demo.inMinigame H1 H2 H3 H4 H5 H6 H7
           (or_introl (conj eq_refl H8))).
Defined.

(** ** Frames that parse *)

Lemma jsize_arr_elem (l : list JSON) (x : JSON) :
  x ∈ l → (jsize x < jsize (JArr l))%nat.
Proof. simpl. induction 1 as [x l|x y l _ IH]; simpl; lia. Qed.

Lemma jsize_obj_elem (m : gmap string JSON) (k : string) (x : JSON) :
  m !! k = Some x → (jsize x < jsize (JObj m))%nat.
Proof.
  intros Hk. simpl.
  rewrite (map_fold_delete_L _ _ k x m); [lia | | done].
  intros. lia.
Qed.

Lemma fromJSON_native (j : JSON) :
  finiteJSON j = true → native (fromJSON j) = true.
Proof.
  remember (jsize j) as n eqn:Hn. revert j Hn.
  induction n as [n IH] using lt_wf_ind. intros j -> Hfin.
  destruct j as [| b | num | s | l | m]; simpl in *; try done.
  - apply forallb_forall. intros v Hv%list_elem_of_In.
    apply list_elem_of_fmap in Hv as (x & -> & Hx).
    eapply IH; [by apply jsize_arr_elem | reflexivity |].
    rewrite forallb_forall in Hfin. apply Hfin. by apply list_elem_of_In.
  - rewrite map_fold_andb_true in Hfin. apply map_fold_andb_true.
    intros k v Hk. rewrite lookup_fmap in Hk.
    destruct (m !! k) as [x|] eqn:Hx; [|done]. injection Hk as <-.
    eapply IH; [by eapply jsize_obj_elem | reflexivity | by apply (Hfin k)].
Qed.

Lemma ParseMessage_Some (data : JSON) (m : Message) :
  ParseMessage data = Some m ↔
  ∃ om, data = JObj om ∧ finiteJSON data = true ∧
        om !! "type" = Some (JStr (Typ m)) ∧
        payload m = fromJSON <$> delete "type" om.
Proof.
  unfold ParseMessage, UnmarshalMap. split.
  - destruct data as [| b | num | s | l | om]; try done.
    destruct (finiteJSON (JObj om)) eqn:Hfin; [|done].
    rewrite lookup_fmap.
    destruct (om !! "type") as [j|] eqn:Hty; [|done].
    destruct j; simpl; try done.
    intros [= <-]. exists om. simpl. by rewrite fmap_delete.
  - intros (om & -> & Hfin & Hty & Hp). rewrite Hfin, lookup_fmap, Hty. simpl.
    destruct m as [ty pl]; simpl in *. by rewrite Hp, fmap_delete.
Qed.


(** X11: a message that ParseMessage took from a frame whose numbers
    are in float64 range can be sent on as it is: its payload has no
    "type" key, Encode succeeds on it, and ParseMessage of the new frame
    gives the same message. *)
Theorem parsed_message_resend (data : JSON) (m : Message) :
  ParseMessage data = Some m → finiteJSON data = true →
  payload m !! "type" = None ∧
  ∃ data', Encode m = Ok data' ∧ ParseMessage data' = Some m.
Proof.
  intros (om & -> & _ & Hty & Hp)%ParseMessage_Some Hfin.
  assert (Hno : payload m !! "type" = None).
  { by rewrite Hp, lookup_fmap, lookup_delete_eq. }
  split; [done|]. apply Encode_Parse_native; [done|].
  intros k v Hk. rewrite Hp, lookup_fmap in Hk.
  destruct (delete "type" om !! k) as [x|] eqn:Hx; [|done]. injection Hk as <-.
  apply fromJSON_native. simpl in Hfin. rewrite map_fold_andb_true in Hfin.
  apply lookup_delete_Some in Hx as [_ Hx]. by apply (Hfin k).
Qed.

Lemma parsed_message_resend_witness :
  ∃ m, (ParseMessage demo.readyFrame = Some m ∧ finiteJSON demo.readyFrame = true) ∧
       payload m !! "type" = None ∧
       ∃ data', Encode m = Ok data' ∧ ParseMessage data' = Some m.
Proof.
  assert (H : ∃ m, ParseMessage demo.readyFrame = Some m ∧ finiteJSON demo.readyFrame = true).
  { eexists. split; vm_compute; reflexivity. }
  destruct H as (m & H1 & H2). exists m. split; [exact (conj H1 H2)|].
  exact (parsed_message_resend demo.readyFrame m H1 H2).
Defined.

(** ** Timers stopped and asked for the time left *)

Lemma StopWith_live (tm : FunctionTimer) (c : Chan) (proc : TimerProc)
    (f : option Callback) (s : State) :
  quit tm = Some c → now s ≤ End_ tm → timers s !! c = Some proc →
  listening proc = true →
  StopWith tm f s
  = Returns tt (set_event (event s ++ scheduled f)
                  (set_timers (<[c := heard proc]> (timers s)) s)).
Proof.
  intros Hq Hnow Hc Hl. unfold StopWith, HasEnded. run.
  rewrite Hq. rewrite bool_decide_eq_false_2 by done.
  rewrite bool_decide_eq_false_2 by lia. cbn [orb].
  unfold sendQuit. run. rewrite Hc, Hl. run.
  destruct f as [g|]; unfold scheduled, SchedulerAdd; run.
  - done.
  - by rewrite app_nil_r.
Qed.

(** X12: a timer made by SingleTimer or TickingTimer for an end that
    has not passed can be stopped at once: StopWith returns, the
    function it was given (if not nil) is the one thing that joins the
    event queue, and the timer's goroutine no longer listens.  When the
    end has already passed, StopWith changes nothing: the goroutine goes
    on listening. *)
Theorem new_timer_StopWith (e : Z) (tick : option Callback) (fn : Callback)
    (f : option Callback) (s : State) :
  let mk := match tick with
            | Some t => TickingTimer e t fn
            | None => SingleTimer e fn
            end in
  let c := fresh (dom (timers s)) in
  let proc := {| onTick := tick; onNormalEnd := fn; firesAt := e;
                 listening := true |} in
  (tm ← mk; StopWith tm f;; mret tm) s
  = Returns {| End_ := e; quit := Some c |}
      (if bool_decide (e < now s)
       then set_timers (<[c := proc]> (timers s)) s
       else set_event (event s ++ scheduled f)
              (set_timers (<[c := heard proc]> (timers s)) s)).
Proof.
  intros mk c proc.
  assert (Hmk : mk s = Returns {| End_ := e; quit := Some c |}
                         (set_timers (<[c := proc]> (timers s)) s)).
  { unfold mk. destruct tick; reflexivity. }
  rewrite (bind_eq _ _ _ _ _ Hmk). cbv beta.
  case_bool_decide as Hpast.
  - unfold StopWith, HasEnded. run. cbn [quit End_].
    rewrite (bool_decide_eq_true_2 (e < _)) by done.
    by rewrite orb_true_r.
  - assert (Hnow : now (set_timers (<[c := proc]> (timers s)) s) ≤ e)
      by (simpl; lia).
    rewrite (bind_eq _ _ _ _ _
      (StopWith_live {| End_ := e; quit := Some c |} c proc f _ eq_refl
         Hnow (lookup_insert_eq _ _ _) eq_refl)).
    run. by rewrite insert_insert_eq.
Qed.

(** X13: TimeLeft never returns a negative duration: it is zero for a
    timer that HasEnded reports as ended, and the time until the end
    otherwise.  Neither call changes anything. *)
Theorem TimeLeft_HasEnded (tm : FunctionTimer) (s : State) :
  ∃ d b, TimeLeft tm s = Returns d s ∧ HasEnded tm s = Returns b s ∧ 0 ≤ d ∧
         d = (if b then 0 else End_ tm - now s).
Proof.
  unfold TimeLeft, HasEnded. destruct (quit tm) as [c|].
  - run. case_bool_decide as Hlt.
    + exists 0, true. by rewrite bool_decide_eq_false_2.
    + exists (End_ tm - now s), false.
      rewrite bool_decide_eq_false_2 by done. repeat split; lia.
  - exists 0, true. by run.
Qed.

(** ** What a broadcast sends *)

(** *** Broadcasts *)

Lemma frames_app (l1 l2 : list ClientPtr) (data : JSON) :
  frames (l1 ++ l2) data = frames l1 data ++ frames l2 data.
Proof. apply map_app. Qed.

Lemma clientsOf_app (s : State) (l1 l2 : list PlayerPtr) :
  clientsOf s (l1 ++ l2) = clientsOf s l1 ++ clientsOf s l2.
Proof. apply omap_app. Qed.

Lemma clientsOf_cons (s : State) (p : PlayerPtr) (l : list PlayerPtr) :
  clientsOf s (p :: l)
  = match players s !! p ≫= Client with
    | Some c => c :: clientsOf s l
    | None => clientsOf s l
    end.
Proof. reflexivity. Qed.

Lemma connected_app (s : State) (l1 l2 : list PlayerPtr) :
  connected s (l1 ++ l2) ↔ connected s l1 ∧ connected s l2.
Proof.
  unfold connected. split.
  - intros H. split; intros p Hp; apply H, elem_of_app; [by left | by right].
  - intros [H1 H2] p [Hp|Hp]%elem_of_app; [by apply H1 | by apply H2].
Qed.

(** A loop that sends [msg] to the selected players of [l] and does
    nothing for the others posts one frame per selected player, in
    order, and collects no error. *)
Lemma forEach_selective (sel : PlayerPtr → Prop) `{!∀ p, Decision (sel p)}
    (l : list PlayerPtr) (fn : PlayerPtr → Op (option error)) (msg : Message)
    (data : JSON) (s : State) :
  Encode msg = Ok data → connected s l →
  (∀ p o, p ∈ l →
     fn p (set_out o s)
     = if decide (sel p) then SendTo p msg (set_out o s)
       else Returns None (set_out o s)) →
  ∀ o, ∃ es,
    forEach l fn (set_out o s)
    = Returns es (set_out (o ++ frames (clientsOf s (filter sel l)) data) s) ∧
    Join es = None.
Proof.
  intros He. induction l as [|p l IH]; intros Hconn Hfn o.
  - exists []. simpl. by rewrite app_nil_r.
  - destruct (Hconn p ltac:(left)) as (pl & c & Hpl & Hc).
    assert (Hconn' : connected s l) by (intros q Hq; apply Hconn; by right).
    assert (Hfn' : ∀ q o, q ∈ l →
      fn q (set_out o s)
      = if decide (sel q) then SendTo q msg (set_out o s)
        else Returns None (set_out o s))
      by (intros q o' Hq; apply Hfn; by right).
    cbn [forEach]. rewrite filter_cons.
    specialize (Hfn p o ltac:(left)).
    destruct (decide (sel p)) as [Hsel|Hsel].
    + rewrite (SendTo_eq p pl c msg data (set_out o s) Hpl Hc He) in Hfn.
      cbn [out set_out] in Hfn.
      destruct (IH Hconn' Hfn' (o ++ [{| C := c; M := data |}])) as (es & Hes & Hj).
      exists (None :: es).
      rewrite (bind_eq _ _ _ _ _ Hfn). cbv beta.
      rewrite (bind_eq _ _ _ _ _ Hes). split.
      * rewrite clientsOf_cons, Hpl. cbn [mbind option_bind].
        rewrite Hc. cbn [frames map]. by rewrite <- app_assoc.
      * apply Join_None. constructor; [done | by apply Join_None].
    + destruct (IH Hconn' Hfn' o) as (es & Hes & Hj).
      exists (None :: es).
      rewrite (bind_eq _ _ _ _ _ Hfn). cbv beta.
      rewrite (bind_eq _ _ _ _ _ Hes). split; [done|].
      apply Join_None. constructor; [done | by apply Join_None].
Qed.

Lemma ForAllPlayers_selective (sel : PlayerPtr → Prop) `{!∀ p, Decision (sel p)}
    (l : LobbyPtr) (lb : Lobby) (fn : PlayerPtr → Op (option error))
    (msg : Message) (data : JSON) (s : State) :
  lobbies s !! l = Some lb →
  Encode msg = Ok data → connected s (Players0 lb ++ Players1 lb) →
  (∀ p o, p ∈ Players0 lb ++ Players1 lb →
     fn p (set_out o s)
     = if decide (sel p) then SendTo p msg (set_out o s)
       else Returns None (set_out o s)) →
  ∀ o, ForAllPlayers l fn (set_out o s)
       = Returns None
           (set_out (o ++ frames (clientsOf s
                            (filter sel (Players0 lb ++ Players1 lb))) data) s).
Proof.
  intros Hlb He [Hc0 Hc1]%connected_app Hfn o.
  destruct (forEach_selective sel (Players0 lb) fn msg data s He Hc0
              ltac:(intros p o' Hp; apply Hfn, elem_of_app; by left) o)
    as (es0 & H0 & Hj0).
  destruct (forEach_selective sel (Players1 lb) fn msg data s He Hc1
              ltac:(intros p o' Hp; apply Hfn, elem_of_app; by right)
              (o ++ frames (clientsOf s (filter sel (Players0 lb))) data))
    as (es1 & H1 & Hj1).
  unfold ForAllPlayers.
  rewrite (bind_eq _ _ _ _ _
             (ForAllMembers_eq (team0 l) lb fn es0 (set_out o s) _ Hlb H0)).
  cbv beta.
  rewrite (bind_eq _ _ _ _ _
             (ForAllMembers_eq (team1 l) lb fn es1
                (set_out (o ++ frames (clientsOf s (filter sel (Players0 lb))) data) s)
                _ Hlb H1)).
  rewrite Hj0, Hj1, filter_app, clientsOf_app, frames_app, app_assoc.
  reflexivity.
Qed.

(** [ForAllLobbyPeers] with a send: every other member of the lobby
    gets the frame. *)
Lemma ForAllLobbyPeers_send (player : PlayerPtr) (pl : Player) (t : TeamPtr)
    (lb : Lobby) (msg : Message) (data : JSON) (s : State) :
  players s !! player = Some pl → Team pl = Some t →
  lobbies s !! teamLobby t = Some lb →
  Encode msg = Ok data → connected s (Players0 lb ++ Players1 lb) →
  ForAllLobbyPeers player (λ peer, SendTo peer msg) s
  = Returns None
      (set_out (out s ++ frames (clientsOf s
                  (filter (λ p, p ≠ player) (Players0 lb ++ Players1 lb))) data) s).
Proof.
  intros Hpl Ht Hlb He Hconn. unfold ForAllLobbyPeers, PlayerLobby.
  rewrite run_assoc, (bind_eq _ _ _ _ _ (getPlayer_eq player pl s Hpl)), Ht.
  run.
  rewrite <- (set_out_id s) at 1.
  rewrite (ForAllPlayers_selective (λ p, p ≠ player) (teamLobby t) lb _ msg data s
             Hlb He Hconn); [done|].
  intros p o _. destruct (decide (p = player)) as [->|Hne].
  - by rewrite decide_False by (intros H; by apply H).
  - by rewrite decide_True.
Qed.

Lemma filter_all {A} (P : A → Prop) `{!∀ x, Decision (P x)} (l : list A) :
  (∀ x, x ∈ l → P x) → filter P l = l.
Proof.
  induction l as [|x l IH]; intros Hall; [done|].
  rewrite filter_cons_True by (apply Hall; left).
  f_equal. apply IH. intros y Hy. apply Hall. by right.
Qed.

(** [Lobby.ForAllPlayers] with a send: every member gets the frame. *)
Lemma ForAllPlayers_send (l : LobbyPtr) (lb : Lobby) (msg : Message)
    (data : JSON) (s : State) :
  lobbies s !! l = Some lb → Encode msg = Ok data →
  connected s (Players0 lb ++ Players1 lb) →
  ForAllPlayers l (λ p, SendTo p msg) s
  = Returns None
      (set_out (out s ++ frames (clientsOf s (Players0 lb ++ Players1 lb)) data) s).
Proof.
  intros Hlb He Hconn.
  rewrite <- (set_out_id s) at 1.
  rewrite (ForAllPlayers_selective (λ _, True) l lb _ msg data s Hlb He Hconn).
  - by rewrite filter_all.
  - intros p o _. by rewrite decide_True.
Qed.

Lemma connectedb_connected (s : State) (l : list PlayerPtr) :
  connectedb s l = true → connected s l.
Proof.
  unfold connectedb. rewrite forallb_forall. intros Hall p Hp%list_elem_of_In.
  specialize (Hall p Hp). apply bool_decide_eq_true in Hall as [c Hc].
  destruct (players s !! p) as [pl|]; [|done]. by exists pl, c.
Qed.

Lemma clientsOf_ext (s s' : State) (l : list PlayerPtr) :
  (∀ p, p ∈ l → players s' !! p = players s !! p) →
  clientsOf s' l = clientsOf s l.
Proof.
  induction l as [|p l IH]; intros Hl; [done|].
  rewrite !clientsOf_cons, (Hl p) by left.
  rewrite IH; [done|]. intros q Hq. apply Hl. by right.
Qed.

Lemma connected_ext (s s' : State) (l : list PlayerPtr) :
  (∀ p, p ∈ l → players s' !! p = players s !! p) →
  connected s l → connected s' l.
Proof. intros Hl Hc p Hp. rewrite (Hl p Hp). by apply Hc. Qed.

(** ** Messages that encode *)

(** *** Frames of the messages the server builds *)

Lemma Encode_sendable (m : Message) : sendable m → Encode m = Ok (wire m).
Proof.
  intros [Hty Hall]. unfold Encode, Marshal, wire. rewrite Hty.
  cbn [marshalable toJSON].
  replace (map_fold _ _ _) with true; [done|].
  symmetry. apply map_fold_andb_true. intros k x Hk.
  apply lookup_union_Some_raw in Hk as [Hk | [_ Hk]].
  - by apply (Hall k).
  - apply lookup_singleton_Some in Hk as [_ <-]. done.
Qed.

Lemma sendable_NewMessage (typ : string) : sendable (NewMessage typ).
Proof. split; [done|]. intros k v. unfold NewMessage; simpl. by rewrite lookup_empty. Qed.

Lemma sendable_Add (key : string) (v : GoVal) (m : Message) :
  key ≠ "type" → marshalable v = true → sendable m → sendable (Add key v m).
Proof.
  intros Hk Hv [Hty Hall]. split.
  - unfold Add; simpl. by rewrite lookup_insert_ne.
  - intros k x. unfold Add; simpl.
    intros [[_ <-] | [_ Hx]]%lookup_insert_Some; [done | by apply (Hall k)].
Qed.

Ltac sendable :=
  repeat first [ apply sendable_NewMessage
               | apply sendable_Add; [done | done |] ].

(** The frame of a message parses back to the message when the payload
    holds only values of the kinds JSON has. *)
Lemma ParseMessage_wire (m : Message) :
  payload m !! "type" = None → native_payload m →
  ParseMessage (wire m) = Some m.
Proof.
  intros Hty Hnat.
  destruct (Encode_Parse_native m Hty Hnat) as (data & He & Hp).
  rewrite Encode_native in He by done. by injection He as <-.
Qed.

Lemma SendTo_wire (p : PlayerPtr) (pl : Player) (c : ClientPtr) (m : Message)
    (s : State) :
  players s !! p = Some pl → Client pl = Some c → sendable m →
  SendTo p m s = Returns None (set_out (out s ++ [{| C := c; M := wire m |}]) s).
Proof. intros Hp Hc Hm. apply (SendTo_eq p pl c); [done | done | by apply Encode_sendable]. Qed.

Lemma alter_Some `{Countable K} {A} (f : A → A) (k : K) (x : A) (m : gmap K A) :
  m !! k = Some x → alter f k m = <[k := f x]> m.
Proof.
  intros Hk. apply map_eq. intros j. destruct (decide (j = k)) as [->|Hj].
  - by rewrite lookup_alter_eq, lookup_insert_eq, Hk.
  - by rewrite lookup_alter_ne, lookup_insert_ne.
Qed.

(** ** The lobby activity, request by request *)

(** ** The lobby activity *)

Lemma IsReady_eq (act : LobbyPtr) (lb : Lobby) (s : State) :
  lobbies s !! act = Some lb → IsReady act s = Returns (teamsReady lb) s.
Proof.
  intros Hlb. unfold IsReady.
  rewrite (bind_eq _ _ _ _ _ (getLobby_eq act lb s Hlb)). cbv beta.
  unfold AllowSmallerLobbies, teamsReady. rewrite run_ret0. do 2 f_equal.
  - apply bool_decide_ext. lia.
  - apply bool_decide_ext. lia.
Qed.

(** X14: the lobby activity refuses a malformed or premature request
    with a typed reply to the sender, returns nil and changes nothing: a
    team change whose "team" is not the number 0 or 1, a ready change
    whose "ready" is not a boolean, and a ready-up while the teams are
    empty or uneven. *)
Theorem LobbyActivity_refuses (act : LobbyPtr) (lb : Lobby) (p : PlayerPtr)
    (pl : Player) (c : ClientPtr) (m : Message) (s : State) :
  players s !! p = Some pl → Client pl = Some c → lobbies s !! act = Some lb →
  (Typ m = "lobby_team_change" →
   (∀ z, GetInt "team" m = Ok z → z ≠ 0 ∧ z ≠ 1) →
   LobbyActivity_HandleMessage act p m s
   = refusedWith c "lobby_team_change_format_error" s) ∧
  (Typ m = "lobby_ready_change" →
   (∀ b, TryGet "ready" m ≠ Some (VBool b)) →
   LobbyActivity_HandleMessage act p m s
   = refusedWith c "lobby_ready_change_format_error" s) ∧
  (Typ m = "lobby_ready_change" →
   TryGet "ready" m = Some (VBool true) → teamsReady lb = false →
   LobbyActivity_HandleMessage act p m s
   = refusedWith c "lobby_ready_change_teams_not_ready_error" s).
Proof.
  intros Hpl Hc Hlb. unfold LobbyActivity_HandleMessage, refusedWith.
  split; [|split].
  - intros Hty Hbad. rewrite decide_True by done. unfold doTeamChange.
    destruct (GetInt "team" m) as [z|e].
    + destruct (Hbad z eq_refl) as [H0 H1].
      rewrite !bool_decide_eq_true_2 by done. cbn [andb].
      apply (SendTo_wire p pl c); [done | done | sendable].
    + apply (SendTo_wire p pl c); [done | done | sendable].
  - intros Hty Hbad. rewrite decide_False by (rewrite Hty; done).
    rewrite decide_True by done. unfold doReadyChange.
    destruct (TryGet "ready" m) as [v|].
    + destruct v; try (apply (SendTo_wire p pl c); [done | done | sendable]).
      by destruct (Hbad b).
    + apply (SendTo_wire p pl c); [done | done | sendable].
  - intros Hty Hready Hnot. rewrite decide_False by (rewrite Hty; done).
    rewrite decide_True by done. unfold doReadyChange. rewrite Hready.
    unfold doReadySet, doReadyUp.
    rewrite (bind_eq _ _ _ _ _ (IsReady_eq act lb s Hlb)). cbv beta.
    rewrite Hnot. cbn [negb].
    apply (SendTo_wire p pl c); [done | done | sendable].
Qed.

Lemma Team_RemovePlayer_eq (t : TeamPtr) (p : PlayerPtr) (pl : Player)
    (lb : Lobby) (s : State) :
  players s !! p = Some pl → Team pl = Some t →
  lobbies s !! teamLobby t = Some lb →
  Team_RemovePlayer t p s
  = Returns tt (set_players (<[p := set_Team None pl]> (players s))
                  (set_lobbies (<[teamLobby t := without t p lb]> (lobbies s)) s)).
Proof.
  intros Hpl Ht Hlb. unfold Team_RemovePlayer.
  rewrite (bind_eq _ _ _ _ _ (getPlayer_eq p pl s Hpl)). cbv beta.
  rewrite Ht, decide_True by done.
  unfold updTeamPlayers, updLobby, updPlayer. run.
  rewrite (alter_Some _ _ _ _ Hlb), (alter_Some _ _ _ _ Hpl). reflexivity.
Qed.

Lemma Team_AddPlayer_eq (t : TeamPtr) (p : PlayerPtr) (pl : Player)
    (lb : Lobby) (s : State) :
  players s !! p = Some pl → Team pl = None →
  lobbies s !! teamLobby t = Some lb →
  Team_AddPlayer t p s
  = Returns tt (set_players (<[p := set_Team (Some t) pl]> (players s))
                  (set_lobbies (<[teamLobby t := joined t p lb]> (lobbies s)) s)).
Proof.
  intros Hpl Ht Hlb. unfold Team_AddPlayer.
  rewrite (bind_eq _ _ _ _ _ (getPlayer_eq p pl s Hpl)). cbv beta.
  rewrite Ht. unfold updTeamPlayers, updLobby, updPlayer. run.
  rewrite (alter_Some _ _ _ _ Hlb), (alter_Some _ _ _ _ Hpl). reflexivity.
Qed.

Lemma SwitchTeam_eq (t t' : TeamPtr) (p : PlayerPtr) (pl : Player)
    (lb : Lobby) (s : State) :
  players s !! p = Some pl → Team pl = Some t → InLobbyActivity pl = true →
  teamLobby t' = teamLobby t → lobbies s !! teamLobby t = Some lb →
  SwitchTeam p t' s
  = Returns tt (set_players (<[p := set_Team (Some t') pl]> (players s))
                  (set_lobbies (<[teamLobby t := joined t' p (without t p lb)]>
                                  (lobbies s)) s)).
Proof.
  intros Hpl Ht Hin Htt Hlb. unfold SwitchTeam.
  rewrite (bind_eq _ _ _ _ _ (getPlayer_eq p pl s Hpl)). cbv beta.
  rewrite Hin, Ht. run.
  rewrite (bind_eq _ _ _ _ _ (Team_RemovePlayer_eq t p pl lb s Hpl Ht Hlb)).
  cbv beta.
  rewrite (Team_AddPlayer_eq t' p (set_Team None pl) (without t p lb)).
  - fields. rewrite Htt, !insert_insert_eq. reflexivity.
  - apply lookup_insert_eq.
  - done.
  - fields. rewrite Htt. apply lookup_insert_eq.
Qed.

Lemma membersOf_joined_without (t t' : TeamPtr) (p q : PlayerPtr) (lb : Lobby) :
  q ∈ membersOf (joined t' p (without t p lb)) → q = p ∨ q ∈ membersOf lb.
Proof.
  unfold membersOf, joined, without.
  destruct (teamSlot t), (teamSlot t'); simpl;
    rewrite !elem_of_app, ?set_add_elem; unfold set_del;
    rewrite ?list_elem_of_filter; tauto.
Qed.

(** X15: a team change to team 0 or 1 takes the player off their team
    and puts them at the end of the chosen team, even when that is the
    team they were on; no size limit is checked.  Every player of the
    lobby becomes unready, and every other member is sent
    lobby_peer_team_change with the player's name and the team. *)
Theorem doTeamChange_switches (act : LobbyPtr) (lb : Lobby) (p : PlayerPtr)
    (pl : Player) (t : TeamPtr) (m : Message) (z : Z) (s : State) :
  lobbies s !! act = Some lb → players s !! p = Some pl →
  Team pl = Some t → teamLobby t = act → InLobbyActivity pl = true →
  connectedb s (p :: membersOf lb) = true →
  GetInt "team" m = Ok z → z = 0 ∨ z = 1 →
  let t' := {| teamLobby := act;
               teamSlot := if decide (z = 0) then Team0 else Team1 |} in
  let lb' := set_readyPlayers [] (joined t' p (without t p lb)) in
  let msg := Add "team" (VInt z)
               (Add "their_name" (VString (Name pl))
                  (NewMessage "lobby_peer_team_change")) in
  doTeamChange act p m s
  = Returns None
      (set_out (out s ++ frames (clientsOf s (filter (λ q, q ≠ p) (membersOf lb')))
                           (wire msg))
         (set_lobbies (<[act := lb']> (lobbies s))
            (set_players (<[p := set_Team (Some t') pl]> (players s)) s))).
Proof.
  intros Hlb Hpl Ht <- Hin Hconn%connectedb_connected Hz Hz01 t' lb' msg.
  unfold doTeamChange. rewrite Hz.
  replace (bool_decide (z ≠ 0) && bool_decide (z ≠ 1)) with false
    by (destruct Hz01 as [-> | ->]; done).
  fold t'.
  rewrite (bind_eq _ _ _ _ _
             (SwitchTeam_eq t t' p pl lb s Hpl Ht Hin eq_refl Hlb)).
  cbv beta. unfold setReady, updLobby. run.
  rewrite (alter_Some _ _ _ _ (lookup_insert_eq _ _ _)), insert_insert_eq.
  fold lb'. unfold notifyTeamChange.
  set (s3 := set_lobbies _ _).
  assert (Hp3 : players s3 !! p = Some (set_Team (Some t') pl))
    by apply lookup_insert_eq.
  rewrite (bind_eq _ _ _ _ _ (PlayerName_eq p _ s3 Hp3)). cbv beta.
  cbn [Name set_Team]. fold msg.
  rewrite (ForAllLobbyPeers_send p _ t' lb' msg (wire msg) s3 Hp3 eq_refl).
  - rewrite (clientsOf_ext s s3); [reflexivity|].
    intros q [Hq _]%list_elem_of_filter. unfold s3. fields.
    by rewrite lookup_insert_ne.
  - unfold s3. fields. apply lookup_insert_eq.
  - apply Encode_sendable. unfold msg. sendable.
  - intros q Hq. destruct (decide (q = p)) as [->|Hne].
    + rewrite Hp3. destruct (Hconn p ltac:(left)) as (pl0 & c & Hpl0 & Hc).
      rewrite Hpl in Hpl0. injection Hpl0 as <-. by exists (set_Team (Some t') pl), c.
    + unfold s3. fields. rewrite lookup_insert_ne by done.
      apply Hconn. right.
      change (q ∈ membersOf (joined t' p (without t p lb))) in Hq.
      by apply membersOf_joined_without in Hq as [->|Hq].
Qed.

Lemma Lobby_RemovePlayer_eq (l : LobbyPtr) (p : PlayerPtr) (pl : Player)
    (t : TeamPtr) (c : ClientPtr) (lb : Lobby) (s : State) :
  players s !! p = Some pl → Team pl = Some t → teamLobby t = l →
  Client pl = Some c → lobbies s !! l = Some lb →
  Lobby_RemovePlayer l p s
  = Returns tt
      (set_activities
         (if decide (PlayerCountOf (without t p lb) = 0)
          then delete (ID lb) (activities s) else activities s)
         (set_clients (<[c := {| ClientPlayer := None |}]> (clients s))
            (set_players (<[p := set_Client None (set_Team None pl)]> (players s))
               (set_lobbies (<[l := without t p lb]> (lobbies s)) s)))).
Proof.
  intros Hpl Ht <- Hc Hlb. unfold Lobby_RemovePlayer, PlayerLobby.
  rewrite run_assoc, (bind_eq _ _ _ _ _ (getPlayer_eq p pl s Hpl)). cbv beta.
  rewrite Ht. run. rewrite decide_True by done.
  rewrite (bind_eq _ _ _ _ _ (getPlayer_eq p pl s Hpl)). cbv beta.
  rewrite Ht. run.
  rewrite (bind_eq _ _ _ _ _ (Team_RemovePlayer_eq t p pl lb s Hpl Ht Hlb)).
  cbv beta. rewrite Hc. run. unfold setClientPlayer, updPlayer. run.
  rewrite (alter_Some _ _ _ _ (lookup_insert_eq _ _ _)), insert_insert_eq.
  unfold PlayerCount_, getLobby. run. rewrite lookup_insert_eq. run.
  assert (Hid : ID (without t p lb) = ID lb).
  { unfold without. by destruct (teamSlot t). }
  case_bool_decide as Hn.
  - rewrite decide_True by done. unfold when, forget, getLobby. run.
    rewrite lookup_insert_eq. run. by rewrite Hid.
  - rewrite decide_False by done. unfold when. by run.
Qed.

Lemma membersOf_without (t : TeamPtr) (p q : PlayerPtr) (lb : Lobby) :
  q ∈ membersOf (without t p lb) → q ∈ membersOf lb.
Proof.
  unfold membersOf, without.
  destruct (teamSlot t); simpl; rewrite !elem_of_app; unfold set_del;
    rewrite ?list_elem_of_filter; tauto.
Qed.

Lemma membersOf_without_self (t : TeamPtr) (p : PlayerPtr) (lb : Lobby) :
  NoDup (membersOf lb) → p ∈ TeamPlayers lb (teamSlot t) →
  p ∉ membersOf (without t p lb).
Proof.
  unfold membersOf, without. intros [_ [Hdis _]]%NoDup_app Hp.
  destruct (teamSlot t); simpl in *; rewrite elem_of_app; unfold set_del;
    rewrite list_elem_of_filter.
  - intros [[Hne _] | H1]; [done | by apply (Hdis p)].
  - intros [H0 | [Hne _]]; [by apply (Hdis p) | done].
Qed.

Lemma doBye_eq (act : LobbyPtr) (lb : Lobby) (p : PlayerPtr) (pl : Player)
    (t : TeamPtr) (c : ClientPtr) (s : State) :
  lobbies s !! act = Some lb → players s !! p = Some pl →
  Team pl = Some t → teamLobby t = act → Client pl = Some c →
  NoDup (membersOf lb) → p ∈ TeamPlayers lb (teamSlot t) →
  connectedb s (membersOf lb) = true →
  let lb' := set_readyPlayers (set_del p (readyPlayers lb)) (without t p lb) in
  let msg := Add "their_name" (VString (Name pl))
               (NewMessage "lobby_peer_left") in
  doBye act p s
  = Returns None
      (set_out (out s ++ frames (clientsOf s (membersOf lb')) (wire msg))
         (set_activities
            (if decide (PlayerCountOf lb' = 0)
             then delete (ID lb) (activities s) else activities s)
            (set_clients (<[c := {| ClientPlayer := None |}]> (clients s))
               (set_players (<[p := set_Client None (set_Team None pl)]> (players s))
                  (set_lobbies (<[act := lb']> (lobbies s)) s))))) ∧
  p ∉ membersOf lb'.
Proof.
  intros Hlb Hpl Ht Htl Hc Hnd Hin Hconn%connectedb_connected lb' msg.
  assert (Hnotin : p ∉ membersOf lb') by by apply membersOf_without_self.
  split; [|done]. unfold doBye.
  rewrite (bind_eq _ _ _ _ _
             (Lobby_RemovePlayer_eq act p pl t c lb s Hpl Ht Htl Hc Hlb)).
  cbv beta. unfold setReady, updLobby. run.
  rewrite (alter_Some _ _ _ _ (lookup_insert_eq _ _ _)), insert_insert_eq.
  assert (Hr : readyPlayers (without t p lb) = readyPlayers lb).
  { unfold without. by destruct (teamSlot t). }
  cbv beta. rewrite Hr. fold lb'.
  change (PlayerCountOf (without t p lb)) with (PlayerCountOf lb').
  unfold notifyBye. set (s3 := set_lobbies _ _).
  assert (Hp3 : players s3 !! p = Some (set_Client None (set_Team None pl)))
    by apply lookup_insert_eq.
  rewrite (bind_eq _ _ _ _ _ (PlayerName_eq p _ s3 Hp3)). cbv beta.
  cbn [Name set_Team set_Client]. fold msg.
  assert (Hsame : ∀ q, q ∈ membersOf lb' → players s3 !! q = players s !! q).
  { intros q Hq. unfold s3. fields. apply lookup_insert_ne. by intros ->. }
  rewrite (ForAllPlayers_send act lb' msg (wire msg) s3).
  - rewrite (clientsOf_ext s s3) by done. reflexivity.
  - unfold s3. fields. apply lookup_insert_eq.
  - apply Encode_sendable. unfold msg. sendable.
  - apply (connected_ext s); [done|]. intros q Hq. apply Hconn.
    by apply (membersOf_without t p).
Qed.

(** X16: a player who says lobby_bye is taken off their team and out of
    the ready set and is unlinked from their client; every member who
    stays is sent lobby_peer_left with the leaver's name, the leaver is
    sent nothing, and when nobody stays the lobby's code is deleted from
    the manager. *)
Theorem doBye_leaves (act : LobbyPtr) (lb : Lobby) (p : PlayerPtr) (pl : Player)
    (t : TeamPtr) (c : ClientPtr) (s : State) :
  lobbies s !! act = Some lb → players s !! p = Some pl →
  Team pl = Some t → teamLobby t = act → Client pl = Some c →
  NoDup (membersOf lb) → p ∈ TeamPlayers lb (teamSlot t) →
  connectedb s (membersOf lb) = true →
  let lb' := set_readyPlayers (set_del p (readyPlayers lb)) (without t p lb) in
  let msg := Add "their_name" (VString (Name pl))
               (NewMessage "lobby_peer_left") in
  doBye act p s
  = Returns None
      (set_out (out s ++ frames (clientsOf s (membersOf lb')) (wire msg))
         (set_activities
            (if decide (PlayerCountOf lb' = 0)
             then delete (ID lb) (activities s) else activities s)
            (set_clients (<[c := {| ClientPlayer := None |}]> (clients s))
               (set_players (<[p := set_Client None (set_Team None pl)]> (players s))
                  (set_lobbies (<[act := lb']> (lobbies s)) s))))) ∧
  p ∉ membersOf lb'.
Proof. apply doBye_eq. Qed.

(** X17: a ready change with a boolean marks or unmarks the player and
    tells every other member of the lobby; unmarking never starts the
    game, and marking (which needs ready teams) starts it, from the
    state so reached, exactly when the ready set then has six players
    or as many as the lobby has. *)
Theorem doReadySet_marks (act : LobbyPtr) (lb : Lobby) (p : PlayerPtr)
    (pl : Player) (t : TeamPtr) (ready : bool) (s : State) :
  lobbies s !! act = Some lb → players s !! p = Some pl →
  Team pl = Some t → teamLobby t = act →
  connectedb s (membersOf lb) = true →
  (ready = true → teamsReady lb = true) →
  let msg := Add "ready" (VBool ready)
               (Add "their_name" (VString (Name pl))
                  (NewMessage "lobby_peer_ready_change")) in
  let r := if ready then set_add p (readyPlayers lb)
           else set_del p (readyPlayers lb) in
  let s1 := set_out (out s ++ frames (clientsOf s
                       (filter (λ q, q ≠ p) (membersOf lb))) (wire msg))
              (set_lobbies (<[act := set_readyPlayers r lb]> (lobbies s)) s) in
  doReadySet act p ready s
  = if ready && (bool_decide (length r = 6%nat)
                 || bool_decide (Z.of_nat (length r) = PlayerCountOf lb))
    then (startErr ← doStartGame act; mret (Join [None; startErr])) s1
    else Returns None s1.
Proof.
  intros Hlb Hpl Ht Htl Hconn%connectedb_connected Hteams msg r s1.
  assert (Hnotify : ∀ lb2, Players0 lb2 = Players0 lb → Players1 lb2 = Players1 lb →
    notifyReadyChange p ready (set_lobbies (<[act := lb2]> (lobbies s)) s)
    = Returns None
        (set_out (out s ++ frames (clientsOf s
                    (filter (λ q, q ≠ p) (membersOf lb))) (wire msg))
           (set_lobbies (<[act := lb2]> (lobbies s)) s))).
  { intros lb2 H0 H1. unfold notifyReadyChange.
    set (s2 := set_lobbies _ s).
    rewrite (bind_eq _ _ _ _ _ (PlayerName_eq p pl s2 Hpl)). cbv beta. fold msg.
    rewrite (ForAllLobbyPeers_send p pl t lb2 msg (wire msg) s2 Hpl Ht).
    - unfold membersOf. by rewrite H0, H1.
    - unfold s2. fields. rewrite Htl. apply lookup_insert_eq.
    - apply Encode_sendable. unfold msg. sendable.
    - by rewrite H0, H1. }
  unfold doReadySet. destruct ready.
  - unfold doReadyUp.
    rewrite (bind_eq _ _ _ _ _ (IsReady_eq act lb s Hlb)). cbv beta.
    rewrite (Hteams eq_refl). cbn [negb andb].
    unfold setReady, updLobby. run. rewrite (alter_Some _ _ _ _ Hlb).
    rewrite (bind_eq _ _ _ _ _
               (Hnotify (set_readyPlayers (set_add p (readyPlayers lb)) lb)
                  eq_refl eq_refl)).
    cbv beta.
    unfold getLobby. run. rewrite lookup_insert_eq. run.
    cbn [readyPlayers set_readyPlayers]. fold r.
    unfold AllowSmallerLobbies. cbn [andb].
    replace (bool_decide (Z.of_nat (length r) = 6))
      with (bool_decide (length r = 6%nat)) by (apply bool_decide_ext; lia).
    change (PlayerCountOf (set_readyPlayers r lb)) with (PlayerCountOf lb).
    destruct (_ || _); reflexivity.
  - unfold doUnready, setReady, updLobby. run. rewrite (alter_Some _ _ _ _ Hlb).
    apply (Hnotify (set_readyPlayers (set_del p (readyPlayers lb)) lb)
             eq_refl eq_refl).
Qed.

(** ** Receive, and the names of players *)

(** ** Clients, names and codes *)

(** X18: what Client.Receive refuses itself.  A client without a player
    that sends anything but lobby_create or lobby_join is answered
    client_unknown_non_lobby_message.  A lobby_join without a string
    "lobby_id" makes Receive return the error of GetString and send
    nothing; one for a code that no lobby has is answered
    lobby_not_found; one from a client that has a player already is
    answered client_already_in_lobby_error.  Nothing else changes. *)
Theorem Receive_refuses
    (H : ActivityPtr → PlayerPtr → Message → Op (option error))
    (c : ClientPtr) (cl : ClientObj) (m : Message) (s : State) :
  clients s !! c = Some cl →
  (Typ m ≠ "lobby_create" → Typ m ≠ "lobby_join" → ClientPlayer cl = None →
   Receive H c m s = refusedWith c "client_unknown_non_lobby_message" s) ∧
  (Typ m = "lobby_join" → ∀ e, GetString "lobby_id" m = Err e →
   Receive H c m s = Returns (Some e) s) ∧
  (Typ m = "lobby_join" → ∀ id, GetString "lobby_id" m = Ok id →
   activities s !! id = None →
   Receive H c m s = refusedWith c "lobby_not_found" s) ∧
  (Typ m = "lobby_join" → ∀ id act p, GetString "lobby_id" m = Ok id →
   activities s !! id = Some act → ClientPlayer cl = Some p →
   Receive H c m s = refusedWith c "client_already_in_lobby_error" s).
Proof.
  intros Hc. unfold Receive, refusedWith.
  assert (Hsend : ∀ typ, Send c (NewMessage typ) s
    = Returns None (set_out (out s ++ [{| C := c; M := wire (NewMessage typ) |}]) s)).
  { intros typ. unfold Send.
    by rewrite (Encode_sendable _ (sendable_NewMessage typ)). }
  split; [|split; [|split]].
  - intros H1 H2 Hnone. rewrite !decide_False by done.
    rewrite (bind_eq _ _ _ _ _ (getClient_eq c cl s Hc)). cbv beta.
    rewrite Hnone. apply Hsend.
  - intros Hty e He. rewrite decide_False by (rewrite Hty; done).
    rewrite decide_True by done. unfold doLobbyJoin. by rewrite He.
  - intros Hty id Hid Hact. rewrite decide_False by (rewrite Hty; done).
    rewrite decide_True by done. unfold doLobbyJoin, GetActivity.
    rewrite Hid. run. rewrite Hact. apply Hsend.
  - intros Hty id act p Hid Hact Hp. rewrite decide_False by (rewrite Hty; done).
    rewrite decide_True by done. unfold doLobbyJoin, GetActivity.
    rewrite Hid. run. rewrite Hact. unfold HandleJoinRequest.
    rewrite (bind_eq _ _ _ _ _ (getClient_eq c cl s Hc)). cbv beta.
    rewrite Hp. apply Hsend.
Qed.

Lemma randomUsername_Returns (s s' : State) (name : string) :
  randomUsername s = Returns name s' →
  ∃ z rest, rng s = z :: rest ∧ pickName s z = Some name ∧ s' = set_rng rest s.
Proof.
  unfold randomUsername, draw, pickName. run.
  unfold mbind, Op_bind. destruct (rng s) as [|z rest]; [done|].
  destruct (decide (usernames (env s) = [])); [done|].
  fields. destruct (usernames (env s) !! _) as [nm|] eqn:Hn; [|done].
  intros [= <- <-]. by exists z, rest.
Qed.

Lemma randomUsername_run (s : State) (z : Z) (rest : list Z) (name : string) :
  rng s = z :: rest → pickName s z = Some name →
  randomUsername s = Returns name (set_rng rest s).
Proof.
  intros Hr Hp. unfold randomUsername, draw. run.
  unfold mbind, Op_bind. rewrite Hr. fields.
  unfold pickName in Hp.
  destruct (decide (usernames (env s) = [])) as [He|_].
  { by rewrite He in Hp. }
  by rewrite Hp.
Qed.

Lemma pickName_elem (s : State) (z : Z) (name : string) :
  pickName s z = Some name → name ∈ usernames (env s).
Proof. apply list_elem_of_lookup_2. Qed.

Lemma generatePlayerName_loop_Returns (fuel : nat) (taken : list string) :
  ∀ s name s', generatePlayerName_loop fuel taken s = Returns name s' →
    name ∈ usernames (env s) ∧ (name ∉ taken) ∧ s' = set_rng (rng s') s.
Proof.
  induction fuel as [|n IH]; intros s name s'; simpl; [done|].
  intros (n0 & s1 & H1 & H2)%bind_Returns.
  apply randomUsername_Returns in H1 as (z & rest & Hr & Hp & ->).
  destruct (decide (n0 ∈ taken)).
  - apply IH in H2 as (Hin & Hnot & Hs'). fields.
    repeat split; [done | done |]. by rewrite Hs'.
  - injection H2 as <- <-. repeat split; [by eapply pickName_elem | done].
Qed.

Lemma generatePlayerName_loop_run (taken : list string) (name : string)
    (z : Z) (rest : list Z) :
  ∀ (zs : list Z) (fuel : nat) (s : State),
    rng s = zs ++ z :: rest → (length zs < fuel)%nat →
    Forall (λ z', ∃ n, pickName s z' = Some n ∧ n ∈ taken) zs →
    pickName s z = Some name → name ∉ taken →
    generatePlayerName_loop fuel taken s = Returns name (set_rng rest s).
Proof.
  induction zs as [|z0 zs IH]; intros fuel s Hr Hfuel Hall Hp Hfree.
  - destruct fuel as [|n]; [simpl in Hfuel; lia|]. simpl.
    rewrite (bind_eq _ _ _ _ _ (randomUsername_run s z rest name Hr Hp)).
    by rewrite decide_False.
  - destruct fuel as [|n]; [simpl in Hfuel; lia|]. simpl.
    apply Forall_cons in Hall as [(n0 & Hp0 & Hin0) Hall].
    rewrite (bind_eq _ _ _ _ _
               (randomUsername_run s z0 (zs ++ z :: rest) n0 Hr Hp0)).
    rewrite decide_True by done.
    rewrite (IH n (set_rng (zs ++ z :: rest) s)); [done | done | | done | done | done].
    simpl in Hfuel. lia.
Qed.

(** X19: the name generatePlayerName returns is one of the usernames and
    is not the name of any member of the lobby, and the call changes
    only the random numbers left; it returns the first drawn name that
    is free.  When every username is taken by a member, it never
    returns. *)
Theorem generatePlayerName_fresh (l : LobbyPtr) (lb : Lobby) (s : State) :
  lobbies s !! l = Some lb →
  (∀ name s', generatePlayerName l s = Returns name s' →
     name ∈ usernames (env s) ∧ (name ∉ namesIn s lb) ∧ only_rng s s') ∧
  (∀ zs z rest name,
     rng s = zs ++ z :: rest →
     Forall (λ z', ∃ n, pickName s z' = Some n ∧ n ∈ namesIn s lb) zs →
     pickName s z = Some name → name ∉ namesIn s lb →
     generatePlayerName l s = Returns name (set_rng rest s)) ∧
  ((∀ n, n ∈ usernames (env s) → n ∈ namesIn s lb) →
   ∀ name s', generatePlayerName l s ≠ Returns name s').
Proof.
  intros Hlb.
  assert (Hgen : generatePlayerName l s
                 = generatePlayerName_loop (S (length (rng s))) (namesIn s lb) s).
  { unfold generatePlayerName, buildPlayerNameSet.
    rewrite run_assoc, (bind_eq _ _ _ _ _ (getLobby_eq l lb s Hlb)). by run. }
  rewrite Hgen. split; [|split].
  - intros name s' Hret.
    by apply generatePlayerName_loop_Returns in Hret as (? & ? & ?).
  - intros zs z rest name Hr Hall Hp Hfree.
    apply (generatePlayerName_loop_run _ _ z rest zs); try done.
    rewrite Hr, length_app. simpl. lia.
  - intros Hall name s' Hret.
    apply generatePlayerName_loop_Returns in Hret as (Hin & Hnot & _).
    by apply Hnot, Hall.
Qed.

(** ** Lobby codes, teams and spawn points *)

Lemma randomDigit_run (s : State) (z : Z) (rest : list Z) :
  rng s = z :: rest → randomDigit s = Returns (digitOf z) (set_rng rest s).
Proof.
  intros Hr. unfold randomDigit, draw, mbind, Op_bind. by rewrite Hr.
Qed.

Lemma isDigit_digitOf (z : Z) : isDigit (digitOf z) = true.
Proof.
  unfold isDigit, digitOf.
  pose proof (Z.mod_pos_bound (z `mod` 2 ^ 32) 10 ltac:(lia)) as Hb.
  rewrite nat_ascii_embedding by lia.
  apply andb_true_intro. split; [apply Nat.leb_le | apply Nat.leb_le]; lia.
Qed.

(** X20: createLobby takes four random numbers and registers a new,
    empty lobby under the four decimal digits they give; the manager's
    entry for that code is set whether or not the code was in use. *)
Theorem createLobby_code (s : State) (z1 z2 z3 z4 : Z) (rest : list Z) :
  rng s = z1 :: z2 :: z3 :: z4 :: rest →
  let code := String (digitOf z1) (String (digitOf z2)
                (String (digitOf z3) (String (digitOf z4) EmptyString))) in
  let l := fresh (dom (lobbies s)) in
  createLobby s
  = Returns l
      (set_activities (<[code := l]> (activities s))
         (set_lobbies (<[l := {| Players0 := []; Players1 := []; ID := code;
                                 readyPlayers := [] |}]> (lobbies s))
            (set_rng rest s))) ∧
  lobbies s !! l = None ∧
  String.length code = 4%nat ∧
  Forall (λ a, isDigit a = true) (list_ascii_of_string code).
Proof.
  intros Hr code l. split; [|split; [|split]].
  - unfold createLobby, generateLobbyID, randomLobbyCode.
    rewrite !run_assoc, (bind_eq _ _ _ _ _ (randomDigit_run s z1 _ Hr)). cbv beta.
    rewrite !run_assoc, (bind_eq _ _ _ _ _
      (randomDigit_run (set_rng (z2 :: z3 :: z4 :: rest) s) z2 _ eq_refl)).
    cbv beta.
    rewrite !run_assoc, (bind_eq _ _ _ _ _
      (randomDigit_run (set_rng (z3 :: z4 :: rest) (set_rng (z2 :: z3 :: z4 :: rest) s))
         z3 _ eq_refl)).
    cbv beta.
    rewrite !run_assoc, (bind_eq _ _ _ _ _
      (randomDigit_run (set_rng (z4 :: rest) (set_rng (z3 :: z4 :: rest)
                          (set_rng (z2 :: z3 :: z4 :: rest) s))) z4 _ eq_refl)).
    cbv beta. run. reflexivity.
  - apply not_elem_of_dom, is_fresh.
  - reflexivity.
  - unfold code. cbn [list_ascii_of_string].
    repeat (constructor; [apply isDigit_digitOf|]). constructor.
Qed.

Lemma swap_Permutation {A} (l : list A) (i j : nat) : swap l i j ≡ₚ l.
Proof.
  unfold swap. destruct (l !! i) as [a|] eqn:Hi; [|done].
  destruct (l !! j) as [b|] eqn:Hj; [|done].
  by apply Permutation_insert_swap.
Qed.

Lemma set_rng_id (s : State) : set_rng (rng s) s = s.
Proof. by destruct s. Qed.

Lemma shuffleFrom_spec {A} (i : nat) :
  ∀ (l : list A) (s : State), (i ≤ length (rng s))%nat →
    ∃ l', shuffleFrom i l s = Returns l' (set_rng (drop i (rng s)) s) ∧ l' ≡ₚ l.
Proof.
  induction i as [|i IH]; intros l s Hlen; simpl.
  - exists l. by rewrite drop_0, set_rng_id.
  - destruct (rng s) as [|z rest] eqn:Hr; [simpl in Hlen; lia|].
    set (l1 := swap l (S i) (Z.to_nat (z `mod` Z.of_nat (S (S i))))).
    destruct (IH l1 (set_rng rest s)) as (l' & Hrun & Hperm).
    { simpl in *. lia. }
    exists l'. split.
    + unfold mbind, Op_bind, draw. rewrite Hr. exact Hrun.
    + rewrite Hperm. apply swap_Permutation.
Qed.

Lemma randomisedMembers_spec (t : TeamPtr) (lb : Lobby) (s : State) :
  lobbies s !! teamLobby t = Some lb →
  (length (TeamPlayers lb (teamSlot t)) - 1 ≤ length (rng s))%nat →
  ∃ l', randomisedMembers t s
        = Returns l' (set_rng (drop (length (TeamPlayers lb (teamSlot t)) - 1)
                                 (rng s)) s) ∧
        l' ≡ₚ TeamPlayers lb (teamSlot t).
Proof.
  intros Hlb Hlen. unfold randomisedMembers, getTeamPlayers.
  rewrite run_assoc, (bind_eq _ _ _ _ _ (getLobby_eq _ lb s Hlb)). run.
  unfold Shuffle. by apply shuffleFrom_spec.
Qed.

(** X21: randomisedMembers returns the members of the team in some
    order, each exactly as often as the team has it, and changes
    nothing but the random numbers, of which it takes one less than the
    team has members. *)
Theorem randomisedMembers_permutes (t : TeamPtr) (lb : Lobby) (s : State) :
  lobbies s !! teamLobby t = Some lb →
  (length (TeamPlayers lb (teamSlot t)) - 1 ≤ length (rng s))%nat →
  ∃ l', randomisedMembers t s
        = Returns l' (set_rng (drop (length (TeamPlayers lb (teamSlot t)) - 1)
                                 (rng s)) s) ∧
        l' ≡ₚ TeamPlayers lb (teamSlot t) ∧
        (∀ p, p ∈ l' ↔ p ∈ TeamPlayers lb (teamSlot t)) ∧
        (NoDup (TeamPlayers lb (teamSlot t)) → NoDup l').
Proof.
  intros Hlb Hlen.
  destruct (randomisedMembers_spec t lb s Hlb Hlen) as (l' & Hrun & Hperm).
  exists l'. split; [done|]. split; [done|]. split.
  - intros p. by rewrite Hperm.
  - intros Hnd. by rewrite Hperm.
Qed.

Lemma setPos_eq (ship : ShipPtr) (sh : Ship) (p : PlayerPtr) (at_ : Position)
    (s : State) :
  ships s !! ship = Some sh →
  setPos ship p at_ s
  = Returns tt (set_ships (<[ship := set_pmMap (<[p := at_]> (pmMap sh)) sh]>
                             (ships s)) s).
Proof. intros Hsh. unfold setPos. by rewrite (updShip_eq ship sh). Qed.

(** X22: spawnTeam puts the members of a team, in a random order, on
    its spawn points: a single member in the middle; otherwise the
    first on the left and the second on the right, and the third in the
    middle when there are exactly three.  Members beyond the second of
    a team of more than three get no position, and on a team without
    members the call panics (index out of range). *)
Theorem spawnTeam_places (ship : ShipPtr) (sh : Ship) (lb : Lobby)
    (slot : TeamIndex) (left middle right : Position) (s : State) :
  ships s !! ship = Some sh → lobbies s !! lobby sh = Some lb →
  let members := TeamPlayers lb slot in
  (length members - 1 ≤ length (rng s))%nat →
  (members = [] →
   spawnTeam ship slot left middle right s = Panics "index out of range") ∧
  (members ≠ [] →
   ∃ l', l' ≡ₚ members ∧
     spawnTeam ship slot left middle right s
     = Returns tt
         (set_ships (<[ship := set_pmMap (placed l' left middle right (pmMap sh)) sh]>
                       (ships s))
            (set_rng (drop (length members - 1) (rng s)) s))).
Proof.
  intros Hsh Hlb members Hlen.
  destruct (randomisedMembers_spec {| teamLobby := lobby sh; teamSlot := slot |}
              lb s Hlb Hlen) as (l' & Hrun & Hperm).
  cbn [teamSlot] in Hrun, Hperm. fold members in Hrun, Hperm.
  set (s1 := set_rng _ s) in *.
  assert (Hsh1 : ships s1 !! ship = Some sh) by exact Hsh.
  assert (Hspawn : spawnTeam ship slot left middle right s
    = (if decide (length l' = 1%nat) then
         m0 ← index l' 0; setPos ship m0 middle
       else
         m0 ← index l' 0; setPos ship m0 left;;
         m1 ← index l' 1; setPos ship m1 right;;
         if decide (length l' = 3%nat) then
           m2 ← index l' 2; setPos ship m2 middle
         else mret tt) s1).
  { unfold spawnTeam.
    rewrite (bind_eq _ _ _ _ _ (getShip_eq ship sh s Hsh)). cbv beta.
    by rewrite (bind_eq _ _ _ _ _ Hrun). }
  rewrite Hspawn. split.
  - intros Hnil. rewrite Hnil in Hperm. apply Permutation_nil_r in Hperm as ->.
    reflexivity.
  - intros Hne. exists l'. split; [done|].
    destruct l' as [|a [|b rest]].
    + apply Permutation_nil_l in Hperm. by destruct Hne.
    + simpl. unfold index. simpl. rewrite run_ret.
      by rewrite (setPos_eq ship sh a middle s1 Hsh1).
    + rewrite decide_False by (simpl; lia).
      unfold index. cbn [lookup list_lookup]. rewrite !run_ret.
      rewrite (bind_eq _ _ _ _ _ (setPos_eq ship sh a left s1 Hsh1)). cbv beta.
      rewrite run_ret.
      rewrite (bind_eq _ _ _ _ _
        (setPos_eq ship _ b right _ (lookup_insert_eq _ _ _))). cbv beta.
      fields. rewrite insert_insert_eq. cbn [pmMap set_pmMap].
      destruct rest as [|c [|d rest]].
      * rewrite decide_False by (simpl; lia). reflexivity.
      * rewrite decide_True by done. cbn [lookup list_lookup]. rewrite run_ret.
        rewrite (setPos_eq ship _ c middle _ (lookup_insert_eq _ _ _)).
        fields. by rewrite insert_insert_eq.
      * rewrite decide_False by (simpl; lia). reflexivity.
Qed.

Lemma set_del_set_add (p : PlayerPtr) (l : list PlayerPtr) :
  p ∉ l → set_del p (set_add p l) = l.
Proof.
  intros Hp. unfold set_del, set_add. rewrite decide_False by done.
  rewrite filter_app, filter_cons_False, filter_nil, app_nil_r
    by (intros H; by apply H).
  apply filter_all. by intros q Hq ->.
Qed.

(** X23: adding a player who is on no team to a team and removing them
    again leaves everything as it was.  AddPlayer panics for a player
    who is on a team, and RemovePlayer for a player who is not on the
    team they are removed from. *)
Theorem Team_AddPlayer_RemovePlayer (t : TeamPtr) (p : PlayerPtr) (pl : Player)
    (lb : Lobby) (s : State) :
  players s !! p = Some pl → lobbies s !! teamLobby t = Some lb →
  (Team pl = None → p ∉ TeamPlayers lb (teamSlot t) →
   (Team_AddPlayer t p;; Team_RemovePlayer t p) s = Returns tt s) ∧
  (Team pl ≠ None →
   Team_AddPlayer t p s = Panics "player is already in a team") ∧
  (Team pl ≠ Some t →
   Team_RemovePlayer t p s
   = Panics "cannot remove a player from a team they are not a member of").
Proof.
  intros Hpl Hlb. split; [|split].
  - intros Hnone Hnotin.
    rewrite (bind_eq _ _ _ _ _ (Team_AddPlayer_eq t p pl lb s Hpl Hnone Hlb)).
    cbv beta.
    rewrite (Team_RemovePlayer_eq t p (set_Team (Some t) pl) (joined t p lb)).
    + fields. rewrite !insert_insert_eq.
      assert (Hback : without t p (joined t p lb) = lb).
      { unfold without, joined. destruct lb as [l0 l1 id r].
        destruct (teamSlot t); simpl in *; by rewrite set_del_set_add. }
      rewrite Hback.
      replace (set_Team None (set_Team (Some t) pl)) with pl
        by (destruct pl; simpl in *; by subst).
      rewrite (insert_id (lobbies s)), (insert_id (players s)) by done.
      f_equal. by destruct s.
    + apply lookup_insert_eq.
    + done.
    + apply lookup_insert_eq.
  - intros Hsome. unfold Team_AddPlayer.
    rewrite (bind_eq _ _ _ _ _ (getPlayer_eq p pl s Hpl)). cbv beta.
    by destruct (Team pl).
  - intros Hne. unfold Team_RemovePlayer.
    rewrite (bind_eq _ _ _ _ _ (getPlayer_eq p pl s Hpl)). cbv beta.
    by rewrite decide_False.
Qed.

(** ** What no step of the server changes *)

Global Instance namesKept_preorder : PreOrder namesKept.
Proof.
  split.
  - intros s p pl Hp. by exists pl.
  - intros s1 s2 s3 H12 H23 p pl Hp.
    destruct (H12 p pl Hp) as (pl2 & Hp2 & Hn2).
    destruct (H23 p pl2 Hp2) as (pl3 & Hp3 & Hn3).
    exists pl3. split; [done | congruence].
Qed.

Ltac names_same := repeat intro; by eexists.

Ltac names_alter :=
  intros s q v p pl Hp; cbn [players set_players];
  destruct (decide (p = q)) as [->|Hne];
  [ rewrite lookup_alter_eq, Hp; by eexists
  | rewrite lookup_alter_ne by done; by exists pl ].

Global Instance namesKept_out : AllowOut namesKept.
Proof. names_same. Qed.
Global Instance namesKept_rng : AllowRng namesKept.
Proof. names_same. Qed.
Global Instance namesKept_event : AllowEvent namesKept.
Proof. names_same. Qed.
Global Instance namesKept_timers : AllowTimers namesKept.
Proof. names_same. Qed.
Global Instance namesKept_now : AllowNow namesKept.
Proof. names_same. Qed.
Global Instance namesKept_contexts : AllowContexts namesKept.
Proof. names_same. Qed.
Global Instance namesKept_stores : AllowStores namesKept.
Proof. names_same. Qed.
Global Instance namesKept_clients : AllowClients namesKept.
Proof. names_same. Qed.
Global Instance namesKept_activities : AllowActivities namesKept.
Proof. names_same. Qed.
Global Instance namesKept_team_players : AllowTeamPlayers namesKept.
Proof. names_same. Qed.
Global Instance namesKept_new_lobby : AllowNewLobby namesKept.
Proof. names_same. Qed.
Global Instance namesKept_ready : AllowReady namesKept.
Proof. names_same. Qed.
Global Instance namesKept_flag_upd : AllowFlagUpd namesKept.
Proof. names_same. Qed.
Global Instance namesKept_ship_upd : AllowShipUpd namesKept.
Proof. names_same. Qed.
Global Instance namesKept_new_flag : AllowNewFlag namesKept.
Proof. names_same. Qed.
Global Instance namesKept_new_ship : AllowNewShip namesKept.
Proof. names_same. Qed.
Global Instance namesKept_activity : AllowActivity namesKept.
Proof. names_alter. Qed.
Global Instance namesKept_client : AllowClient namesKept.
Proof. names_alter. Qed.
Global Instance namesKept_team : AllowTeam namesKept.
Proof. names_alter. Qed.
Global Instance namesKept_new_player : AllowNewPlayer namesKept.
Proof.
  intros s pl0 p pl Hp. cbn [players set_players].
  exists pl. split; [|done]. rewrite lookup_insert_ne; [done|].
  intros <-. by rewrite (not_elem_of_dom_1 _ _ (is_fresh (dom (players s)))) in Hp.
Qed.

(** X24: a player keeps the name they were given on joining: whatever
    the server does (handling a message from any client, running a
    scheduled event, killing a client, a timer firing, time passing),
    every player object that existed before still exists and has the
    same name. *)
Theorem names_never_change (s s' : State) :
  rtc (serverStep clickRaceImpl) s s' → namesKept s s'.
Proof.
  induction 1 as [s|s1 s2 s3 Hstep _ IH]; [reflexivity|].
  etrans; [|exact IH]. by eapply (pres_serverStep namesKept).
Qed.

Global Instance layoutKept_preorder : PreOrder layoutKept.
Proof.
  split.
  - intros s ship sh Hsh. by exists sh.
  - intros s1 s2 s3 H12 H23 ship sh Hsh.
    destruct (H12 ship sh Hsh) as (sh2 & Hsh2 & Hl2 & Hp2).
    destruct (H23 ship sh2 Hsh2) as (sh3 & Hsh3 & Hl3 & Hp3).
    exists sh3. split; [done|]. split; [congruence | by etrans].
Qed.

Ltac layout_same := repeat intro; by eexists.

Lemma placement_updateFlag (id : string) (g : flag → flag)
    (fl : list (string * flag)) :
  (∀ f, pos (g f) = pos f ∧ minigameProto (g f) = minigameProto f
        ∧ store (g f) = store f) →
  placement (updateFlag id g fl) = placement fl.
Proof.
  intros Hg. induction fl as [|[k f] fl IH]; simpl; [done|].
  destruct (decide (k = id)); simpl.
  - destruct (Hg f) as (-> & -> & ->). done.
  - by rewrite IH.
Qed.

Lemma layoutKept_alter (s : State) (ship : ShipPtr) (g : Ship → Ship) :
  (∀ sh, lobby (g sh) = lobby sh ∧
         placement (flags sh) `prefix_of` placement (flags (g sh))) →
  layoutKept s (set_ships (alter g ship (ships s)) s).
Proof.
  intros Hg ship' sh Hsh. cbn [ships set_ships].
  destruct (decide (ship' = ship)) as [->|Hne].
  - rewrite lookup_alter_eq, Hsh. exists (g sh). split; [done|]. apply Hg.
  - rewrite lookup_alter_ne by done. by exists sh.
Qed.

Global Instance layoutKept_out : AllowOut layoutKept.
Proof. layout_same. Qed.
Global Instance layoutKept_rng : AllowRng layoutKept.
Proof. layout_same. Qed.
Global Instance layoutKept_event : AllowEvent layoutKept.
Proof. layout_same. Qed.
Global Instance layoutKept_timers : AllowTimers layoutKept.
Proof. layout_same. Qed.
Global Instance layoutKept_now : AllowNow layoutKept.
Proof. layout_same. Qed.
Global Instance layoutKept_contexts : AllowContexts layoutKept.
Proof. layout_same. Qed.
Global Instance layoutKept_stores : AllowStores layoutKept.
Proof. layout_same. Qed.
Global Instance layoutKept_clients : AllowClients layoutKept.
Proof. layout_same. Qed.
Global Instance layoutKept_activities : AllowActivities layoutKept.
Proof. layout_same. Qed.
Global Instance layoutKept_team_players : AllowTeamPlayers layoutKept.
Proof. layout_same. Qed.
Global Instance layoutKept_new_lobby : AllowNewLobby layoutKept.
Proof. layout_same. Qed.
Global Instance layoutKept_ready : AllowReady layoutKept.
Proof. layout_same. Qed.
Global Instance layoutKept_activity : AllowActivity layoutKept.
Proof. layout_same. Qed.
Global Instance layoutKept_client : AllowClient layoutKept.
Proof. layout_same. Qed.
Global Instance layoutKept_team : AllowTeam layoutKept.
Proof. layout_same. Qed.
Global Instance layoutKept_new_player : AllowNewPlayer layoutKept.
Proof. layout_same. Qed.
Global Instance layoutKept_flag_upd : AllowFlagUpd layoutKept.
Proof.
  intros s ship id g Hg. apply layoutKept_alter. intros sh.
  split; [done|]. cbn [flags set_flags]. by rewrite placement_updateFlag.
Qed.
Global Instance layoutKept_ship_upd : AllowShipUpd layoutKept.
Proof.
  intros s ship g Hg. apply layoutKept_alter. intros sh.
  destruct (Hg sh) as [-> ->]. done.
Qed.
Global Instance layoutKept_new_flag : AllowNewFlag layoutKept.
Proof.
  intros s ship id f. apply layoutKept_alter. intros sh.
  split; [done|]. cbn [flags set_flags]. unfold placement.
  rewrite map_app. by apply prefix_app_r.
Qed.
Global Instance layoutKept_new_ship : AllowNewShip layoutKept.
Proof.
  intros s sh0 ship sh Hsh. cbn [ships set_ships].
  exists sh. split; [|done]. rewrite lookup_insert_ne; [done|].
  intros <-. by rewrite (not_elem_of_dom_1 _ _ (is_fresh (dom (ships s)))) in Hsh.
Qed.

(** X25: the layout of a ship is fixed: whatever the server does, a ship
    stays with its lobby and every flag it has keeps its id, position,
    minigame prototype and store, in the same order; flags are never
    removed, only added behind the ones there are. *)
Theorem flags_stay_in_place (s s' : State) :
  rtc (serverStep clickRaceImpl) s s' → layoutKept s s'.
Proof.
  induction 1 as [s|s1 s2 s3 Hstep _ IH]; [reflexivity|].
  etrans; [|exact IH]. by eapply (pres_serverStep layoutKept).
Qed.

Global Instance ctxMono_preorder : PreOrder ctxMono.
Proof.
  split.
  - intros s ctx c Hc. exists c. by split; [|left].
  - intros s1 s2 s3 H12 H23 ctx c Hc.
    destruct (H12 ctx c Hc) as (c2 & Hc2 & Hor2).
    destruct (H23 ctx c2 Hc2) as (c3 & Hc3 & Hor3).
    exists c3. split; [done|].
    destruct Hor3 as [Heq|Heq]; subst c3; [done | by right].
Qed.

Ltac ctx_same := repeat intro; eexists; split; [eassumption | by left].

Global Instance ctxMono_out : AllowOut ctxMono.
Proof. ctx_same. Qed.
Global Instance ctxMono_rng : AllowRng ctxMono.
Proof. ctx_same. Qed.
Global Instance ctxMono_event : AllowEvent ctxMono.
Proof. ctx_same. Qed.
Global Instance ctxMono_timers : AllowTimers ctxMono.
Proof. ctx_same. Qed.
Global Instance ctxMono_now : AllowNow ctxMono.
Proof. ctx_same. Qed.
Global Instance ctxMono_stores : AllowStores ctxMono.
Proof. ctx_same. Qed.
Global Instance ctxMono_clients : AllowClients ctxMono.
Proof. ctx_same. Qed.
Global Instance ctxMono_activities : AllowActivities ctxMono.
Proof. ctx_same. Qed.
Global Instance ctxMono_team_players : AllowTeamPlayers ctxMono.
Proof. ctx_same. Qed.
Global Instance ctxMono_new_lobby : AllowNewLobby ctxMono.
Proof. ctx_same. Qed.
Global Instance ctxMono_ready : AllowReady ctxMono.
Proof. ctx_same. Qed.
Global Instance ctxMono_activity : AllowActivity ctxMono.
Proof. ctx_same. Qed.
Global Instance ctxMono_client : AllowClient ctxMono.
Proof. ctx_same. Qed.
Global Instance ctxMono_team : AllowTeam ctxMono.
Proof. ctx_same. Qed.
Global Instance ctxMono_new_player : AllowNewPlayer ctxMono.
Proof. ctx_same. Qed.
Global Instance ctxMono_flag_upd : AllowFlagUpd ctxMono.
Proof. ctx_same. Qed.
Global Instance ctxMono_ship_upd : AllowShipUpd ctxMono.
Proof. ctx_same. Qed.
Global Instance ctxMono_new_flag : AllowNewFlag ctxMono.
Proof. ctx_same. Qed.
Global Instance ctxMono_new_ship : AllowNewShip ctxMono.
Proof. ctx_same. Qed.
Global Instance ctxMono_new_ctx : AllowNewCtx ctxMono.
Proof.
  intros s c0 ctx c Hc. cbn [contexts set_contexts].
  exists c. split; [|by left]. rewrite lookup_insert_ne; [done|].
  intros <-. by rewrite (not_elem_of_dom_1 _ _ (is_fresh (dom (contexts s)))) in Hc.
Qed.
Global Instance ctxMono_invalidate : AllowInvalidate ctxMono.
Proof.
  intros s ctx0 ctx c Hc. cbn [contexts set_contexts].
  destruct (decide (ctx = ctx0)) as [->|Hne].
  - rewrite lookup_insert_eq. eexists. split; [done | by right].
  - rewrite lookup_insert_ne by done. exists c. by split; [|left].
Qed.

(** ** Contexts that have ended *)

(** ** Contexts that have ended *)

Lemma ensureValid_invalid {A} (ctx : CtxPtr) (k : unit → Op A) (s : State) :
  contexts s !! ctx = Some invalidCtx →
  (ensureValid ctx ≫= k) s = Panics invalidContextPanic.
Proof.
  intros Hc. unfold ensureValid.
  rewrite run_assoc, (bind_eq _ _ _ _ _ (getCtx_eq ctx _ s Hc)). reflexivity.
Qed.

Lemma endMinigame_invalidates (ship : ShipPtr) (ctx : CtxPtr)
    (r : MinigameResult) (s s' : State) (e : option error) :
  endMinigame ship ctx r s = Returns e s' →
  contexts s' !! ctx = Some invalidCtx.
Proof.
  unfold endMinigame. intros H.
  do 13 (cbv zeta in H; apply bind_Returns in H as (? & ? & _ & H)).
  cbv zeta in H. apply bind_Returns in H as ([] & s1 & Hinv & H).
  injection Hinv as <-.
  match type of H with
  | ?m ?s0 = Returns _ _ =>
      assert (Hp : preserves ctxMono m);
      [|pose proof (Hp s0 _ _ H) as Hpres]
  end.
  { apply (pres_bind ctxMono); [apply (pres_getShip ctxMono)|]. intros sh.
    apply (pres_bind ctxMono); [apply (pres_HasEnded ctxMono)|]. intros ended.
    apply (pres_bind ctxMono).
    { destruct ended; [apply (pres_triggerEndgame ctxMono) | apply (pres_ret ctxMono)]. }
    intros endErr. destruct (disconnected r).
    - apply (pres_bind ctxMono).
      { apply (pres_modify ctxMono). intros s0. apply allow_activity. }
      intros _. apply (pres_bind ctxMono); [apply (pres_removePlayer ctxMono)|].
      intros rmErr. apply (pres_ret ctxMono).
    - apply (pres_bind ctxMono); [apply (pres_addPlayersToFlags ctxMono)|].
      intros gameErr. apply (pres_ret ctxMono). }
  destruct (Hpres ctx invalidCtx) as (c' & Hc' & Hor).
  { cbn [contexts set_contexts]. apply lookup_insert_eq. }
  by destruct Hor as [-> | ->].
Qed.

Lemma Ctx_End_invalidates (ctx : CtxPtr) (r : MinigameResult) (s s' : State)
    (e : option error) :
  Ctx_End ctx r s = Returns e s' → contexts s' !! ctx = Some invalidCtx.
Proof.
  unfold Ctx_End. intros H.
  do 3 apply bind_Returns in H as (? & ? & _ & H).
  by eapply endMinigame_invalidates.
Qed.

Lemma contexts_stay_invalid (s s' : State) :
  rtc (serverStep clickRaceImpl) s s' → ctxMono s s'.
Proof.
  induction 1 as [s|s1 s2 s3 Hstep _ IH]; [reflexivity|].
  etrans; [|exact IH]. by eapply (pres_serverStep ctxMono).
Qed.

(** X26: once a minigame context has ended it stays invalid, and the
    timeout of a click race that is taken from the event queue after
    the race has ended panics: onTimeout goes through
    MinigameContext.ForAllPlayers, whose ensureValid refuses the
    invalidated context.  (A race can end with its timeout still
    queued: Handle takes reports as soon as the end time has passed.) *)
Theorem timeout_after_end_panics (ctx : CtxPtr) (r : MinigameResult)
    (e : option error) (rest : list Callback) (s s1 s2 : State) :
  Ctx_End ctx r s = Returns e s1 →
  rtc (serverStep clickRaceImpl) s1 s2 →
  event s2 = CbClickRaceTimeout ctx :: rest →
  handleEvent s2 = Panics invalidContextPanic.
Proof.
  intros Hend Hsteps Hev.
  assert (Hinv : contexts s2 !! ctx = Some invalidCtx).
  { pose proof (contexts_stay_invalid s1 s2 Hsteps) as Hmono.
    destruct (Hmono ctx invalidCtx (Ctx_End_invalidates ctx r s s1 e Hend))
      as (c' & Hc' & Hor).
    by destruct Hor as [-> | ->]. }
  unfold handleEvent. rewrite run_gets, Hev, run_modify.
  unfold runCallback, click_race.onTimeout, Ctx_ForAllPlayers.
  rewrite !run_assoc. by apply ensureValid_invalid.
Qed.

(** ** The ship's notifications *)

Lemma ForAllShipPlayers_send (ship : ShipPtr) (sh : Ship) (lb : Lobby)
    (msg : Message) (s : State) :
  ships s !! ship = Some sh → lobbies s !! lobby sh = Some lb →
  sendable msg → connected s (membersOf lb) →
  ForAllShipPlayers ship (λ p, SendTo p msg) s
  = Returns None
      (set_out (out s ++ frames (clientsOf s (aboard s ship lb)) (wire msg)) s).
Proof.
  intros Hsh Hlb Hmsg Hconn. unfold ForAllShipPlayers.
  rewrite (bind_eq _ _ _ _ _ (getShip_eq ship sh s Hsh)). cbv beta.
  rewrite <- (set_out_id s) at 1.
  rewrite (ForAllPlayers_selective (λ p, activityOf s p = Some (ActShip ship))
             (lobby sh) lb _ msg (wire msg) s Hlb (Encode_sendable _ Hmsg) Hconn);
    [done|].
  intros p o Hp. destruct (Hconn p Hp) as (pl & c & Hpl & Hc).
  rewrite (bind_eq _ _ _ _ _ (getPlayer_eq p pl (set_out o s) Hpl)). cbv beta.
  unfold activityOf. rewrite Hpl. cbn [mbind option_bind].
  by destruct (decide (Activity pl = Some (ActShip ship))).
Qed.

Lemma ForAllActivityPeers_send (p : PlayerPtr) (pl : Player) (t : TeamPtr)
    (lb : Lobby) (msg : Message) (s : State) :
  players s !! p = Some pl → Team pl = Some t →
  lobbies s !! teamLobby t = Some lb →
  sendable msg → connected s (membersOf lb) →
  ForAllActivityPeers p (λ peer, SendTo peer msg) s
  = Returns None
      (set_out (out s ++ frames (clientsOf s (activityPeers s p (Activity pl) lb))
                           (wire msg)) s).
Proof.
  intros Hpl Ht Hlb Hmsg Hconn. unfold ForAllActivityPeers, ForAllLobbyPeers, PlayerLobby.
  rewrite run_assoc, (bind_eq _ _ _ _ _ (getPlayer_eq p pl s Hpl)), Ht. run.
  rewrite <- (set_out_id s) at 1.
  rewrite (ForAllPlayers_selective (λ q, q ≠ p ∧ activityOf s q = Activity pl)
             (teamLobby t) lb _ msg (wire msg) s Hlb (Encode_sendable _ Hmsg) Hconn);
    [done|].
  intros q o Hq. destruct (decide (q = p)) as [->|Hne].
  - rewrite decide_False; [done | by intros [? _]].
  - destruct (Hconn q Hq) as (ql & c & Hql & Hc).
    rewrite (bind_eq _ _ _ _ _ (getPlayer_eq q ql (set_out o s) Hql)). cbv beta.
    rewrite (bind_eq _ _ _ _ _ (getPlayer_eq p pl (set_out o s) Hpl)). cbv beta.
    unfold activityOf. rewrite Hql. cbn [mbind option_bind].
    destruct (decide (Activity ql = Activity pl));
      [by rewrite decide_True | rewrite decide_False; [done | by intros [_ ?]]].
Qed.

(** X27: tick tells the players who are in the ship, and not those in a
    minigame, how many seconds are left, and sends nothing once the end
    of the ship's timer has passed.  Stopping the timer does not stop
    the ticks that are still to be handled: Stop cannot clear the
    timer's quit channel, so until the end time tick sends as before. *)
Theorem tick_sends (ship : ShipPtr) (sh : Ship) (lb : Lobby) (c : Chan)
    (s : State) :
  ships s !! ship = Some sh → lobbies s !! lobby sh = Some lb →
  connectedb s (membersOf lb) = true →
  quit (timer sh) = Some c →
  PrimFloat.is_finite (Seconds (End_ (timer sh) - now s)) = true →
  let msg := Add "seconds_left" (VFloat64 (Seconds (End_ (timer sh) - now s)))
               (NewMessage "ship_tick") in
  let posted := frames (clientsOf s (aboard s ship lb)) (wire msg) in
  (End_ (timer sh) < now s → tick ship s = Returns None s) ∧
  (now s ≤ End_ (timer sh) →
   tick ship s = Returns None (set_out (out s ++ posted) s) ∧
   ∀ proc, timers s !! c = Some proc → listening proc = true →
     (Stop (timer sh);; tick ship) s
     = Returns None
         (set_out (out s ++ posted)
            (set_timers (<[c := heard proc]> (timers s)) s))).
Proof.
  intros Hsh Hlb Hconn%connectedb_connected Hq Hfin msg posted.
  assert (Htick : ∀ s0, ships s0 !! ship = Some sh → now s0 = now s →
    tick ship s0
    = if bool_decide (End_ (timer sh) < now s) then Returns None s0
      else ForAllShipPlayers ship (λ p, SendTo p msg) s0).
  { intros s0 Hsh0 Hnow. unfold tick, HasEnded, TimeLeft.
    rewrite (bind_eq _ _ _ _ _ (getShip_eq ship sh s0 Hsh0)). cbv beta.
    run. rewrite Hq, Hnow. rewrite (bool_decide_eq_false_2 (Some c = None)) by done.
    cbn [orb]. case_bool_decide; [done|]. run.
    rewrite Hnow, bool_decide_eq_false_2 by done. by run. }
  split.
  - intros Hpast. rewrite (Htick s Hsh eq_refl).
    by rewrite bool_decide_eq_true_2.
  - intros Hlive.
    assert (Hmsg : sendable msg).
    { unfold msg. apply sendable_Add; [done | exact Hfin | apply sendable_NewMessage]. }
    split.
    + rewrite (Htick s Hsh eq_refl), bool_decide_eq_false_2 by lia.
      by apply (ForAllShipPlayers_send ship sh lb).
    + intros proc Hproc Hl. unfold Stop.
      rewrite (bind_eq _ _ _ _ _
                 (StopWith_live (timer sh) c proc None s Hq Hlive Hproc Hl)).
      cbv beta. unfold scheduled. rewrite app_nil_r.
      set (s1 := set_event _ _).
      rewrite (Htick s1 Hsh eq_refl), bool_decide_eq_false_2 by lia.
      rewrite (ForAllShipPlayers_send ship sh lb msg s1 Hsh Hlb Hmsg Hconn).
      reflexivity.
Qed.

(** X28: a position update is taken as it comes: the two numbers become
    the player's position, whatever they are, and every other member of
    the lobby who is in the same activity is sent
    ship_mov_peer_position_update with the player's name and the new
    position; the player is sent nothing.  An update without a number
    under "x" or "y" is refused with a typed reply and changes
    nothing. *)
Theorem doPositionUpdate_moves (ship : ShipPtr) (sh : Ship) (p : PlayerPtr)
    (pl : Player) (t : TeamPtr) (c : ClientPtr) (lb : Lobby) (m : Message)
    (s : State) :
  ships s !! ship = Some sh → players s !! p = Some pl →
  Team pl = Some t → Client pl = Some c →
  lobbies s !! teamLobby t = Some lb →
  connectedb s (membersOf lb) = true →
  ((∀ x, GetNumber "x" m ≠ Ok x) →
   doPositionUpdate ship p m s
   = refusedWith c "ship_mov_position_update_bad_x_error" s) ∧
  (∀ x, GetNumber "x" m = Ok x → (∀ y, GetNumber "y" m ≠ Ok y) →
   doPositionUpdate ship p m s
   = refusedWith c "ship_mov_position_update_bad_y_error" s) ∧
  (∀ x y, GetNumber "x" m = Ok x → GetNumber "y" m = Ok y →
   PrimFloat.is_finite x = true → PrimFloat.is_finite y = true →
   let msg := Add "y" (VFloat64 y)
                (Add "x" (VFloat64 x)
                   (Add "their_name" (VString (Name pl))
                      (NewMessage "ship_mov_peer_position_update"))) in
   doPositionUpdate ship p m s
   = Returns None
       (set_out (out s ++ frames (clientsOf s (activityPeers s p (Activity pl) lb))
                            (wire msg))
          (set_ships (<[ship := set_pmMap (<[p := {| X := x; Y := y |}]> (pmMap sh)) sh]>
                        (ships s)) s))).
Proof.
  intros Hsh Hpl Ht Hc Hlb Hconn%connectedb_connected.
  split; [|split].
  - intros Hbad. unfold doPositionUpdate, refusedWith.
    destruct (GetNumber "x" m) as [x|e]; [by destruct (Hbad x)|].
    apply (SendTo_wire p pl c); [done | done | apply sendable_NewMessage].
  - intros x Hx Hbad. unfold doPositionUpdate, refusedWith. rewrite Hx.
    destruct (GetNumber "y" m) as [y|e]; [by destruct (Hbad y)|].
    apply (SendTo_wire p pl c); [done | done | apply sendable_NewMessage].
  - intros x y Hx Hy Hfx Hfy msg. unfold doPositionUpdate.
    rewrite Hx, Hy. unfold doSetPosition.
    rewrite (bind_eq _ _ _ _ _ (setPos_eq ship sh p {| X := x; Y := y |} s Hsh)).
    cbv beta. unfold notifyNewPosition. set (s1 := set_ships _ s).
    rewrite (bind_eq _ _ _ _ _
               (getShip_eq ship _ s1 (lookup_insert_eq _ _ _))). cbv beta.
    rewrite (bind_eq _ _ _ _ _ (PlayerName_eq p pl s1 Hpl)). cbv beta.
    unfold posOf. cbn [pmMap set_pmMap]. rewrite lookup_insert_eq.
    match goal with
    | |- _ = ?r => change (ForAllActivityPeers p (λ peer, SendTo peer msg) s1 = r)
    end.
    rewrite (ForAllActivityPeers_send p pl t lb msg s1 Hpl Ht Hlb); [done| |done].
    unfold msg. repeat (apply sendable_Add; [done | done |]).
    apply sendable_NewMessage.
Qed.

(** ** The click race *)

(** X2: what the click race refuses, each with a typed reply to the
    sender and without changing the race or anything else: a message
    that is not cps_report, a report before the end time of the race's
    timer has passed, a second report by the same player, and a report
    whose "clicks" is not a whole number.  A report it takes is kept
    without a reply or any other change while reports are missing. *)
Theorem click_race_Handle_refuses (cs : click_race.state) (ctx : CtxPtr)
    (cx : MinigameContext) (proto : MinigamePrototype) (p : PlayerPtr)
    (pl : Player) (c : ClientPtr) (m : Message) (s : State) :
  players s !! p = Some pl → Client pl = Some c →
  contexts s !! ctx = Some cx → ctxProto cx = Some proto →
  let ended := bool_decide (quit (click_race.timer cs) = None)
               || bool_decide (End_ (click_race.timer cs) < now s) in
  (Typ m ≠ "cps_report" →
   click_race.Handle cs ctx p m s
   = refusedKeeping cs c "cps_unknown_message_type_error" s) ∧
  (Typ m = "cps_report" → ended = false →
   click_race.Handle cs ctx p m s
   = refusedKeeping cs c "cps_game_not_over_error" s) ∧
  (Typ m = "cps_report" → ended = true →
   is_Some (click_race.reportedScores cs !! p) →
   click_race.Handle cs ctx p m s
   = refusedKeeping cs c "cps_report_player_has_score_error" s) ∧
  (Typ m = "cps_report" → ended = true →
   click_race.reportedScores cs !! p = None →
   (∀ z, GetInt "clicks" m ≠ Ok z) →
   click_race.Handle cs ctx p m s
   = refusedKeeping cs c "cps_report_bad_clicks_value_error" s) ∧
  (Typ m = "cps_report" → ended = true →
   click_race.reportedScores cs !! p = None →
   ∀ z, GetInt "clicks" m = Ok z →
   Z.of_nat (size (click_race.reportedScores cs)) + 1 < PlayerCount proto →
   click_race.Handle cs ctx p m s
   = Returns ({| click_race.reportedScores :=
                   <[p := z]> (click_race.reportedScores cs);
                 click_race.timer := click_race.timer cs |}, None) s).
Proof.
  intros Hpl Hc Hctx Hproto ended.
  assert (Hreply : ∀ typ,
    (e ← SendTo p (NewMessage typ); mret (cs, e)) s = refusedKeeping cs c typ s).
  { intros typ.
    by rewrite (bind_eq _ _ _ _ _
      (SendTo_wire p pl c (NewMessage typ) s Hpl Hc (sendable_NewMessage typ))). }
  assert (Hended : HasEnded (click_race.timer cs) s = Returns ended s) by done.
  unfold click_race.Handle.
  split; [|split; [|split; [|split]]].
  - intros Hty. rewrite decide_True by done. apply Hreply.
  - intros Hty Hnot. rewrite decide_False by (intros H; by apply H).
    rewrite (bind_eq _ _ _ _ _ Hended). cbv beta. rewrite Hnot. apply Hreply.
  - intros Hty Hyes Hhas. rewrite decide_False by (intros H; by apply H).
    rewrite (bind_eq _ _ _ _ _ Hended). cbv beta. rewrite Hyes. cbn [negb].
    rewrite bool_decide_eq_true_2 by done. apply Hreply.
  - intros Hty Hyes Hnone Hbad. rewrite decide_False by (intros H; by apply H).
    rewrite (bind_eq _ _ _ _ _ Hended). cbv beta. rewrite Hyes. cbn [negb].
    rewrite bool_decide_eq_false_2 by (rewrite Hnone; by intros [? ?]).
    destruct (GetInt "clicks" m) as [z|e]; [by destruct (Hbad z)|]. apply Hreply.
  - intros Hty Hyes Hnone z Hz Hfew. rewrite decide_False by (intros H; by apply H).
    rewrite (bind_eq _ _ _ _ _ Hended). cbv beta. rewrite Hyes. cbn [negb].
    rewrite bool_decide_eq_false_2 by (rewrite Hnone; by intros [? ?]).
    rewrite Hz. unfold click_race.tryEnd, Ctx_PlayerCount.
    rewrite !run_assoc, (bind_eq _ _ _ _ _ (getCtx_eq ctx cx s Hctx)). cbv beta.
    rewrite Hproto. run. cbn [click_race.reportedScores].
    rewrite map_size_insert_None by done.
    rewrite bool_decide_eq_true_2 by lia. by run.
Qed.

(** ** Killing a client *)

(** X3: killClient does nothing for a client without a player; for a
    client whose player is in a lobby it has the effect of that
    player's lobby_bye; and whenever it returns, the client is left
    without a player, so that killing the client again (the reading
    and the writing goroutine may both ask for it) changes nothing. *)
Theorem killClient_once
    (H : ActivityPtr → PlayerPtr → Message → Op (option error))
    (c : ClientPtr) (cl : ClientObj) (s : State) :
  clients s !! c = Some cl →
  (ClientPlayer cl = None → killClient H c s = Returns tt s) ∧
  (∀ s', killClient H c s = Returns tt s' →
     clients s' !! c = Some {| ClientPlayer := None |} ∧
     killClient H c s' = Returns tt s') ∧
  (∀ p pl t act lb,
     ClientPlayer cl = Some p → players s !! p = Some pl →
     Activity pl = Some (ActLobby act) →
     H (ActLobby act) p (NewMessage "lobby_bye")
       = LobbyActivity_HandleMessage act p (NewMessage "lobby_bye") →
     lobbies s !! act = Some lb → Team pl = Some t → teamLobby t = act →
     Client pl = Some c → NoDup (membersOf lb) →
     p ∈ TeamPlayers lb (teamSlot t) → connectedb s (membersOf lb) = true →
     ∃ s', doBye act p s = Returns None s' ∧ killClient H c s = Returns tt s').
Proof.
  intros Hc.
  assert (Hnone : ∀ s0, clients s0 !! c = Some {| ClientPlayer := None |} →
                        killClient H c s0 = Returns tt s0).
  { intros s0 Hc0. unfold killClient.
    by rewrite (bind_eq _ _ _ _ _ (getClient_eq c _ s0 Hc0)). }
  split; [|split].
  - intros Hno. apply Hnone. rewrite Hc. by destruct cl as [[?|]].
  - intros s' Hkill.
    assert (Hc' : clients s' !! c = Some {| ClientPlayer := None |}).
    { unfold killClient in Hkill.
      rewrite (bind_eq _ _ _ _ _ (getClient_eq c cl s Hc)) in Hkill.
      cbv beta in Hkill. destruct (ClientPlayer cl) as [p|] eqn:Hp.
      - apply bind_Returns in Hkill as (e & s1 & _ & Hkill).
        unfold getClient in Hkill. rewrite run_assoc, run_gets in Hkill.
        destruct (clients s1 !! c) as [[[q|]]|] eqn:Hc1; try done.
        by injection Hkill as <-.
      - injection Hkill as <-. rewrite Hc. by destruct cl as [[?|]]. }
    split; [done | by apply Hnone].
  - intros p pl t act lb Hp Hpl Hact HH Hlb Ht Htl Hcl Hnd Hin Hconn.
    destruct (doBye_eq act lb p pl t c s Hlb Hpl Ht Htl Hcl Hnd Hin Hconn)
      as [Hbye _].
    eexists. split; [exact Hbye|].
    unfold killClient.
    rewrite (bind_eq _ _ _ _ _ (getClient_eq c cl s Hc)). cbv beta.
    rewrite Hp. unfold Receive.
    rewrite !decide_False by done.
    rewrite !run_assoc, (bind_eq _ _ _ _ _ (getClient_eq c cl s Hc)). cbv beta.
    rewrite Hp.
    rewrite !run_assoc, (bind_eq _ _ _ _ _ (getPlayer_eq p pl s Hpl)). cbv beta.
    rewrite Hact. run. rewrite HH. unfold LobbyActivity_HandleMessage.
    rewrite !decide_False by done. rewrite decide_True by done.
    rewrite (bind_eq _ _ _ _ _ Hbye). cbv beta.
    unfold getClient. run. rewrite lookup_insert_eq. by run.
Qed.

(** ** The flag a free player is wanted at *)

(** X8: oldestFlagNeedingPlayer changes nothing and returns, of the
    activated flags that still have room for a player of the player's
    team, one that was activated earliest, and nil exactly when there
    is no such flag. *)
Theorem oldestFlagNeedingPlayer_earliest (ship : ShipPtr) (sh : Ship)
    (p : PlayerPtr) (s : State) :
  ships s !! ship = Some sh →
  ∃ r, oldestFlagNeedingPlayer ship p s = Returns r s ∧
       match r with
       | Some id => earliestRecruiting (flags sh) (players s) p id
       | None => ∀ id t, ¬ recruits (flags sh) (players s) p id t
       end.
Proof. apply oldestFlagNeedingPlayer_spec. Qed.

(** ** The statements above at work on the concrete server *)

Ltac computed := vm_compute; reflexivity.
Ltac conjs := repeat (refine (conj _ _); [computed|]).

Lemma LobbyActivity_refuses_witness :
  ∃ lb pl,
    (players demo.oneIn !! 0%nat = Some pl ∧ Client pl = Some 0%nat ∧
     lobbies demo.oneIn !! 0%nat = Some lb ∧
     TryGet "ready" demo.readyMsg = Some (VBool true) ∧
     teamsReady lb = false) ∧
    LobbyActivity_HandleMessage 0%nat 0%nat demo.readyMsg demo.oneIn
    = refusedWith 0%nat "lobby_ready_change_teams_not_ready_error" demo.oneIn.
Proof.
  assert (H : ∃ lb pl,
     players demo.oneIn !! 0%nat = Some pl ∧ Client pl = Some 0%nat ∧
     lobbies demo.oneIn !! 0%nat = Some lb ∧
     TryGet "ready" demo.readyMsg = Some (VBool true) ∧
     teamsReady lb = false).
  { eexists _, _. conjs. computed. }
  destruct H as (lb & pl & H1 & H2 & H3 & H4 & H5).
  exists lb, pl. split; [exact (conj H1 (conj H2 (conj H3 (conj H4 H5))))|].
  exact (proj2 (proj2 (LobbyActivity_refuses 0%nat lb 0%nat pl 0%nat
                         demo.readyMsg demo.oneIn H1 H2 H3)) eq_refl H4 H5).
Defined.

Lemma doTeamChange_switches_witness :
  ∃ lb pl s',
    (lobbies demo.inLobby !! 0%nat = Some lb ∧
     players demo.inLobby !! 0%nat = Some pl ∧
     Team pl = Some (team0 0%nat) ∧ InLobbyActivity pl = true ∧
     connectedb demo.inLobby (0%nat :: membersOf lb) = true ∧
     GetInt "team" demo.toTeam1 = Ok 1) ∧
    doTeamChange 0%nat 0%nat demo.toTeam1 demo.inLobby = Returns None s' ∧
    demo.members s' 0%nat = Some [1%nat; 0%nat].
Proof.
  assert (H : ∃ lb pl,
     lobbies demo.inLobby !! 0%nat = Some lb ∧
     players demo.inLobby !! 0%nat = Some pl ∧
     Team pl = Some (team0 0%nat) ∧ InLobbyActivity pl = true ∧
     connectedb demo.inLobby (0%nat :: membersOf lb) = true ∧
     GetInt "team" demo.toTeam1 = Ok 1).
  { eexists _, _. conjs. computed. }
  destruct H as (lb & pl & H1 & H2 & H3 & H4 & H5 & H6).
  pose proof (doTeamChange_switches 0%nat lb 0%nat pl (team0 0%nat)
                demo.toTeam1 1 demo.inLobby H1 H2 H3 eq_refl H4 H5 H6
                (or_intror eq_refl)) as HT.
  cbv zeta in HT.
  exists lb, pl. eexists.
  split; [exact (conj H1 (conj H2 (conj H3 (conj H4 (conj H5 H6)))))|].
  split; [exact HT|].
  vm_compute in H1. injection H1 as <-. vm_compute in H2. injection H2 as <-.
  computed.
Defined.

Lemma doBye_leaves_witness :
  ∃ lb pl s',
    (lobbies demo.inLobby !! 0%nat = Some lb ∧
     players demo.inLobby !! 1%nat = Some pl ∧
     Team pl = Some (team1 0%nat) ∧ Client pl = Some 1%nat ∧
     NoDup (membersOf lb) ∧ 1%nat ∈ TeamPlayers lb Team1 ∧
     connectedb demo.inLobby (membersOf lb) = true) ∧
    doBye 0%nat 1%nat demo.inLobby = Returns None s' ∧
    demo.members s' 0%nat = Some [0%nat] ∧
    clients s' !! 1%nat = Some {| ClientPlayer := None |}.
Proof.
  assert (H : ∃ lb pl,
     lobbies demo.inLobby !! 0%nat = Some lb ∧
     players demo.inLobby !! 1%nat = Some pl ∧
     Team pl = Some (team1 0%nat) ∧ Client pl = Some 1%nat ∧
     bool_decide (NoDup (membersOf lb)) = true ∧
     bool_decide (1%nat ∈ TeamPlayers lb Team1) = true ∧
     connectedb demo.inLobby (membersOf lb) = true).
  { eexists _, _. conjs. computed. }
  destruct H as (lb & pl & H1 & H2 & H3 & H4 & H5 & H6 & H7).
  apply bool_decide_eq_true_1 in H5, H6.
  pose proof (proj1 (doBye_leaves 0%nat lb 1%nat pl (team1 0%nat) 1%nat
                demo.inLobby H1 H2 H3 eq_refl H4 H5 H6 H7)) as HT.
  exists lb, pl. eexists.
  split; [exact (conj H1 (conj H2 (conj H3 (conj H4 (conj H5 (conj H6 H7))))))|].
  split; [exact HT|].
  vm_compute in H1. injection H1 as <-. vm_compute in H2. injection H2 as <-.
  split; computed.
Defined.

Lemma doReadySet_marks_witness :
  ∃ lb pl s',
    (lobbies demo.inLobby !! 0%nat = Some lb ∧
     players demo.inLobby !! 0%nat = Some pl ∧
     Team pl = Some (team0 0%nat) ∧
     connectedb demo.inLobby (membersOf lb) = true ∧
     teamsReady lb = true) ∧
    doReadySet 0%nat 0%nat true demo.inLobby = Returns None s' ∧
    readyPlayers <$> lobbies s' !! 0%nat = Some [0%nat].
Proof.
  assert (H : ∃ lb pl,
     lobbies demo.inLobby !! 0%nat = Some lb ∧
     players demo.inLobby !! 0%nat = Some pl ∧
     Team pl = Some (team0 0%nat) ∧
     connectedb demo.inLobby (membersOf lb) = true ∧
     teamsReady lb = true).
  { eexists _, _. conjs. computed. }
  destruct H as (lb & pl & H1 & H2 & H3 & H4 & H5).
  pose proof (doReadySet_marks 0%nat lb 0%nat pl (team0 0%nat) true
                demo.inLobby H1 H2 H3 eq_refl H4 (λ _, H5)) as HT.
  exists lb, pl. eexists.
  split; [exact (conj H1 (conj H2 (conj H3 (conj H4 H5))))|].
  vm_compute in H1. injection H1 as <-. vm_compute in H2. injection H2 as <-.
  split; [exact HT|]. computed.
Defined.

Lemma Receive_refuses_witness :
  ∃ cl,
    (clients demo.hub0 !! 0%nat = Some cl ∧ ClientPlayer cl = None) ∧
    Receive demo.dispatch 0%nat demo.readyMsg demo.hub0
    = refusedWith 0%nat "client_unknown_non_lobby_message" demo.hub0 ∧
    Receive demo.dispatch 0%nat (NewMessage "lobby_join") demo.hub0
    = Returns (Some (ErrKeyMissing "lobby_id")) demo.hub0.
Proof.
  assert (H : ∃ cl,
     clients demo.hub0 !! 0%nat = Some cl ∧ ClientPlayer cl = None).
  { eexists. conjs. computed. }
  destruct H as (cl & H1 & H2).
  exists cl. split; [exact (conj H1 H2)|].
  split.
  - exact (proj1 (Receive_refuses demo.dispatch 0%nat cl demo.readyMsg
                    demo.hub0 H1)
             ltac:(discriminate) ltac:(discriminate) H2).
  - exact (proj1 (proj2 (Receive_refuses demo.dispatch 0%nat cl
                           (NewMessage "lobby_join") demo.hub0 H1))
             eq_refl (ErrKeyMissing "lobby_id") eq_refl).
Defined.

Lemma generatePlayerName_fresh_witness :
  ∃ lb name s',
    lobbies demo.inLobby !! 0%nat = Some lb ∧
    generatePlayerName 0%nat demo.inLobby = Returns name s' ∧
    name ∈ usernames (env demo.inLobby) ∧ (name ∉ namesIn demo.inLobby lb) ∧
    only_rng demo.inLobby s'.
Proof.
  assert (H : ∃ lb, lobbies demo.inLobby !! 0%nat = Some lb).
  { eexists. computed. }
  destruct H as (lb & H1).
  destruct (after_returns (generatePlayerName 0%nat) demo.inLobby)
    as (name & Hs'); [computed|].
  exists lb, name, (demo.after (generatePlayerName 0%nat) demo.inLobby).
  split; [exact H1|]. split; [exact Hs'|].
  exact (proj1 (generatePlayerName_fresh 0%nat lb demo.inLobby H1) name _ Hs').
Defined.

Lemma createLobby_code_witness :
  rng demo.hub0 = 3 :: 1 :: 4 :: 1 :: [5; 9; 2; 6; 5; 3; 5; 8; 9; 7; 9; 3] ∧
  ∃ s', createLobby demo.hub0 = Returns 0%nat s' ∧
        activities s' !! "3141" = Some 0%nat.
Proof.
  split; [reflexivity|].
  pose proof (proj1 (createLobby_code demo.hub0 3 1 4 1
                       [5; 9; 2; 6; 5; 3; 5; 8; 9; 7; 9; 3] eq_refl)) as HT.
  eexists. split; [exact HT|]. computed.
Defined.

Lemma randomisedMembers_permutes_witness :
  ∃ lb l',
    (lobbies demo.twoRecruiting !! 0%nat = Some lb ∧
     TeamPlayers lb Team0 = [0%nat; 2%nat] ∧
     (length (TeamPlayers lb Team0) - 1 ≤ length (rng demo.twoRecruiting))%nat) ∧
    randomisedMembers (team0 0%nat) demo.twoRecruiting
    = Returns l' (set_rng (drop (length (TeamPlayers lb Team0) - 1)
                             (rng demo.twoRecruiting)) demo.twoRecruiting) ∧
    l' = [2%nat; 0%nat] ∧
    l' ≡ₚ TeamPlayers lb Team0.
Proof.
  assert (H : ∃ lb,
     lobbies demo.twoRecruiting !! 0%nat = Some lb ∧
     TeamPlayers lb Team0 = [0%nat; 2%nat] ∧
     (length (TeamPlayers lb Team0) - 1 <=? length (rng demo.twoRecruiting))%nat
     = true).
  { eexists. conjs. computed. }
  destruct H as (lb & H1 & H2 & H3). apply Nat.leb_le in H3.
  destruct (randomisedMembers_permutes (team0 0%nat) lb demo.twoRecruiting H1 H3)
    as (l' & Hr & Hp & _ & _).
  exists lb, l'. split; [exact (conj H1 (conj H2 H3))|].
  split; [exact Hr|]. split; [|exact Hp].
  assert (Hl : ∃ l s', randomisedMembers (team0 0%nat) demo.twoRecruiting
                       = Returns l s' ∧ l = [2%nat; 0%nat]).
  { eexists _, _. split; computed. }
  destruct Hl as (l & s' & Hl & ->).
  rewrite Hr in Hl. injection Hl as -> _. exact eq_refl.
Defined.

Lemma spawnTeam_places_witness :
  ∃ sh lb l',
    (ships demo.inShip !! 0%nat = Some sh ∧
     lobbies demo.inShip !! lobby sh = Some lb ∧
     (length (TeamPlayers lb Team1) - 1 ≤ length (rng demo.inShip))%nat ∧
     TeamPlayers lb Team1 ≠ []) ∧
    l' ≡ₚ TeamPlayers lb Team1 ∧
    spawnTeam 0%nat Team1 {| X := 1; Y := 0 |} {| X := 2; Y := 0 |}
      {| X := 3; Y := 0 |} demo.inShip
    = Returns tt
        (set_ships
           (<[0%nat := set_pmMap (placed l' {| X := 1; Y := 0 |}
                                    {| X := 2; Y := 0 |} {| X := 3; Y := 0 |}
                                    (pmMap sh)) sh]> (ships demo.inShip))
           (set_rng (drop (length (TeamPlayers lb Team1) - 1) (rng demo.inShip))
              demo.inShip)).
Proof.
  assert (H : ∃ sh lb,
     ships demo.inShip !! 0%nat = Some sh ∧
     lobbies demo.inShip !! lobby sh = Some lb ∧
     (length (TeamPlayers lb Team1) - 1 <=? length (rng demo.inShip))%nat = true ∧
     bool_decide (TeamPlayers lb Team1 ≠ []) = true).
  { eexists _, _. conjs. computed. }
  destruct H as (sh & lb & H1 & H2 & H3 & H4).
  apply Nat.leb_le in H3. apply bool_decide_eq_true_1 in H4.
  destruct (proj2 (spawnTeam_places 0%nat sh lb Team1 {| X := 1; Y := 0 |}
                     {| X := 2; Y := 0 |} {| X := 3; Y := 0 |} demo.inShip
                     H1 H2 H3) H4) as (l' & Hp & Hr).
  exists sh, lb, l'. split; [exact (conj H1 (conj H2 (conj H3 H4)))|].
  exact (conj Hp Hr).
Defined.

Lemma Team_AddPlayer_RemovePlayer_witness :
  ∃ pl lb,
    (players demo.offTeam !! 0%nat = Some pl ∧
     lobbies demo.offTeam !! 0%nat = Some lb ∧ Team pl = None ∧
     0%nat ∉ TeamPlayers lb Team1) ∧
    (Team_AddPlayer (team1 0%nat) 0%nat;; Team_RemovePlayer (team1 0%nat) 0%nat)
      demo.offTeam = Returns tt demo.offTeam.
Proof.
  assert (H : ∃ pl lb,
     players demo.offTeam !! 0%nat = Some pl ∧
     lobbies demo.offTeam !! 0%nat = Some lb ∧ Team pl = None ∧
     bool_decide (0%nat ∉ TeamPlayers lb Team1) = true).
  { eexists _, _. conjs. computed. }
  destruct H as (pl & lb & H1 & H2 & H3 & H4).
  apply bool_decide_eq_true_1 in H4.
  exists pl, lb. split; [exact (conj H1 (conj H2 (conj H3 H4)))|].
  exact (proj1 (Team_AddPlayer_RemovePlayer (team1 0%nat) 0%nat pl lb
                  demo.offTeam H1 H2) H3 H4).
Defined.

Lemma names_never_change_witness :
  ∃ s', rtc (serverStep clickRaceImpl) demo.inLobby s' ∧
        demo.members s' 0%nat = Some [0%nat] ∧
        namesKept demo.inLobby s'.
Proof.
  destruct (after_returns
              (handleIncoming (Activity_HandleMessage clickRaceImpl demo.newRace)
                 1%nat (NewMessage "lobby_bye")) demo.inLobby)
    as ([] & Hs'); [computed|].
  eexists. split; [exact (rtc_once _ _ (step_incoming _ _ _ _ _ _ Hs'))|].
  split; [computed|].
  exact (names_never_change _ _ (rtc_once _ _ (step_incoming _ _ _ _ _ _ Hs'))).
Defined.

Lemma flags_stay_in_place_witness :
  ∃ s', rtc (serverStep clickRaceImpl) demo.atClickRace s' ∧
        now s' = now demo.atClickRace + 5 ∧
        layoutKept demo.atClickRace s'.
Proof.
  destruct (after_returns
              (handleIncoming (Activity_HandleMessage clickRaceImpl demo.newRace)
                 0%nat (NewMessage "ship_flag_activate")) demo.atClickRace)
    as ([] & Hs').
  { computed. }
  assert (Hsteps : rtc (serverStep clickRaceImpl) demo.atClickRace
            (set_now (now (demo.after
                        (handleIncoming (Activity_HandleMessage clickRaceImpl demo.newRace)
                           0%nat (NewMessage "ship_flag_activate")) demo.atClickRace) + 5)
               (demo.after
                  (handleIncoming (Activity_HandleMessage clickRaceImpl demo.newRace)
                     0%nat (NewMessage "ship_flag_activate")) demo.atClickRace))).
  { eapply rtc_l; [exact (step_incoming _ _ _ _ _ _ Hs')|].
    apply rtc_once. apply (step_sleep _ 5); [lia | apply eq_refl]. }
  eexists. split; [exact Hsteps|]. split; [computed|].
  exact (flags_stay_in_place _ _ Hsteps).
Defined.

Lemma timeout_after_end_panics_witness :
  ∃ e,
    (Ctx_End 0%nat SinglePlayerLoss demo.raceTimedOut
       = Returns e demo.raceEnded ∧
     rtc (serverStep clickRaceImpl) demo.raceEnded demo.raceEnded ∧
     event demo.raceEnded = [CbClickRaceTimeout 0%nat]) ∧
    handleEvent demo.raceEnded = Panics invalidContextPanic.
Proof.
  destruct (returns_to (Ctx_End 0%nat SinglePlayerLoss) demo.raceTimedOut
              demo.raceEnded) as (e & He); [computed | computed |].
  assert (Hev : event demo.raceEnded = [CbClickRaceTimeout 0%nat]) by computed.
  exists e. split; [exact (conj He (conj (rtc_refl _ _) Hev))|].
  exact (timeout_after_end_panics 0%nat SinglePlayerLoss e [] demo.raceTimedOut
           demo.raceEnded demo.raceEnded He (rtc_refl _ _) Hev).
Defined.

Lemma tick_sends_witness :
  ∃ sh lb s',
    (ships demo.inShip !! 0%nat = Some sh ∧
     lobbies demo.inShip !! lobby sh = Some lb ∧
     connectedb demo.inShip (membersOf lb) = true ∧
     quit (timer sh) = Some 0%nat ∧
     PrimFloat.is_finite (Seconds (End_ (timer sh) - now demo.inShip)) = true ∧
     now demo.inShip ≤ End_ (timer sh)) ∧
    tick 0%nat demo.inShip = Returns None s' ∧
    demo.sentSince demo.inShip s' = [Some "ship_tick"; Some "ship_tick"].
Proof.
  assert (H : ∃ sh lb,
     ships demo.inShip !! 0%nat = Some sh ∧
     lobbies demo.inShip !! lobby sh = Some lb ∧
     connectedb demo.inShip (membersOf lb) = true ∧
     quit (timer sh) = Some 0%nat ∧
     PrimFloat.is_finite (Seconds (End_ (timer sh) - now demo.inShip)) = true ∧
     (now demo.inShip <=? End_ (timer sh)) = true).
  { eexists _, _. conjs. computed. }
  destruct H as (sh & lb & H1 & H2 & H3 & H4 & H5 & H6).
  apply Z.leb_le in H6.
  pose proof (proj1 (proj2 (tick_sends 0%nat sh lb 0%nat demo.inShip
                              H1 H2 H3 H4 H5) H6)) as HT.
  exists sh, lb. eexists.
  split; [exact (conj H1 (conj H2 (conj H3 (conj H4 (conj H5 H6)))))|].
  split; [exact HT|].
  vm_compute in H1. injection H1 as <-. vm_compute in H2. injection H2 as <-.
  computed.
Defined.

Lemma doPositionUpdate_moves_witness :
  ∃ sh pl lb s',
    (ships demo.inShip !! 0%nat = Some sh ∧
     players demo.inShip !! 0%nat = Some pl ∧
     Team pl = Some (team0 0%nat) ∧ Client pl = Some 0%nat ∧
     lobbies demo.inShip !! 0%nat = Some lb ∧
     connectedb demo.inShip (membersOf lb) = true ∧
     GetNumber "x" (demo.moveTo 192 (-208)) = Ok 192%float ∧
     GetNumber "y" (demo.moveTo 192 (-208)) = Ok (-208)%float ∧
     PrimFloat.is_finite 192 = true ∧ PrimFloat.is_finite (-208) = true) ∧
    doPositionUpdate 0%nat 0%nat (demo.moveTo 192 (-208)) demo.inShip
    = Returns None s' ∧
    (ships s' !! 0%nat ≫= λ sh', pmMap sh' !! 0%nat)
    = Some {| X := 192; Y := -208 |} ∧
    demo.sentSince demo.inShip s' = [Some "ship_mov_peer_position_update"].
Proof.
  assert (H : ∃ sh pl lb,
     ships demo.inShip !! 0%nat = Some sh ∧
     players demo.inShip !! 0%nat = Some pl ∧
     Team pl = Some (team0 0%nat) ∧ Client pl = Some 0%nat ∧
     lobbies demo.inShip !! 0%nat = Some lb ∧
     connectedb demo.inShip (membersOf lb) = true ∧
     GetNumber "x" (demo.moveTo 192 (-208)) = Ok 192%float ∧
     GetNumber "y" (demo.moveTo 192 (-208)) = Ok (-208)%float ∧
     PrimFloat.is_finite 192 = true ∧ PrimFloat.is_finite (-208) = true).
  { eexists _, _, _. conjs. computed. }
  destruct H as (sh & pl & lb & H1 & H2 & H3 & H4 & H5 & H6 & H7 & H8 & H9 & H10).
  pose proof (proj2 (proj2 (doPositionUpdate_moves 0%nat sh 0%nat pl
                 (team0 0%nat) 0%nat lb (demo.moveTo 192 (-208)) demo.inShip
                 H1 H2 H3 H4 H5 H6)) _ _ H7 H8 H9 H10) as HT.
  cbv zeta in HT.
  exists sh, pl, lb. eexists.
  split; [exact (conj H1 (conj H2 (conj H3 (conj H4 (conj H5 (conj H6
                   (conj H7 (conj H8 (conj H9 H10)))))))))|].
  split; [exact HT|].
  vm_compute in H1. injection H1 as <-. vm_compute in H2. injection H2 as <-.
  vm_compute in H5. injection H5 as <-.
  split; computed.
Defined.

Lemma click_race_Handle_refuses_witness :
  ∃ pl cx proto,
    (players demo.inMinigame !! 0%nat = Some pl ∧ Client pl = Some 0%nat ∧
     contexts demo.inMinigame !! 0%nat = Some cx ∧ ctxProto cx = Some proto ∧
     bool_decide (quit (click_race.timer demo.sevenClicks) = None)
     || bool_decide (End_ (click_race.timer demo.sevenClicks)
                     < now demo.inMinigame) = true ∧
     is_Some (click_race.reportedScores demo.sevenClicks !! 0%nat)) ∧
    click_race.Handle demo.sevenClicks 0%nat 0%nat (NewMessage "cps_report")
      demo.inMinigame
    = refusedKeeping demo.sevenClicks 0%nat "cps_report_player_has_score_error"
        demo.inMinigame.
Proof.
  assert (H : ∃ pl cx proto,
     players demo.inMinigame !! 0%nat = Some pl ∧ Client pl = Some 0%nat ∧
     contexts demo.inMinigame !! 0%nat = Some cx ∧ ctxProto cx = Some proto ∧
     bool_decide (quit (click_race.timer demo.sevenClicks) = None)
     || bool_decide (End_ (click_race.timer demo.sevenClicks)
                     < now demo.inMinigame) = true ∧
     is_Some (click_race.reportedScores demo.sevenClicks !! 0%nat)).
  { eexists _, _, _. conjs. vm_compute. eexists. reflexivity. }
  destruct H as (pl & cx & proto & H1 & H2 & H3 & H4 & H5 & H6).
  pose proof (click_race_Handle_refuses demo.sevenClicks 0%nat cx proto 0%nat
                pl 0%nat (NewMessage "cps_report") demo.inMinigame
                H1 H2 H3 H4) as HT.
  cbv zeta in HT.
  exists pl, cx, proto.
  split; [exact (conj H1 (conj H2 (conj H3 (conj H4 (conj H5 H6)))))|].
  exact (proj1 (proj2 (proj2 HT)) eq_refl H5 H6).
Defined.

Lemma killClient_once_witness :
  ∃ cl pl lb s',
    (clients demo.inLobby !! 1%nat = Some cl ∧ ClientPlayer cl = Some 1%nat ∧
     players demo.inLobby !! 1%nat = Some pl ∧
     Activity pl = Some (ActLobby 0%nat) ∧
     lobbies demo.inLobby !! 0%nat = Some lb ∧
     Team pl = Some (team1 0%nat) ∧ Client pl = Some 1%nat ∧
     NoDup (membersOf lb) ∧ 1%nat ∈ TeamPlayers lb Team1 ∧
     connectedb demo.inLobby (membersOf lb) = true) ∧
    doBye 0%nat 1%nat demo.inLobby = Returns None s' ∧
    killClient demo.dispatch 1%nat demo.inLobby = Returns tt s' ∧
    clients s' !! 1%nat = Some {| ClientPlayer := None |} ∧
    killClient demo.dispatch 1%nat s' = Returns tt s'.
Proof.
  assert (H : ∃ cl pl lb,
     clients demo.inLobby !! 1%nat = Some cl ∧ ClientPlayer cl = Some 1%nat ∧
     players demo.inLobby !! 1%nat = Some pl ∧
     Activity pl = Some (ActLobby 0%nat) ∧
     lobbies demo.inLobby !! 0%nat = Some lb ∧
     Team pl = Some (team1 0%nat) ∧ Client pl = Some 1%nat ∧
     bool_decide (NoDup (membersOf lb)) = true ∧
     bool_decide (1%nat ∈ TeamPlayers lb Team1) = true ∧
     connectedb demo.inLobby (membersOf lb) = true).
  { eexists _, _, _. conjs. computed. }
  destruct H as (cl & pl & lb & H1 & H2 & H3 & H4 & H5 & H6 & H7 & H8 & H9 & H10).
  apply bool_decide_eq_true_1 in H8, H9.
  destruct (proj2 (proj2 (killClient_once demo.dispatch 1%nat cl demo.inLobby H1))
              1%nat pl (team1 0%nat) 0%nat lb H2 H3 H4 eq_refl H5 H6 eq_refl
              H7 H8 H9 H10) as (s' & Hbye & Hkill).
  exists cl, pl, lb, s'.
  split; [exact (conj H1 (conj H2 (conj H3 (conj H4 (conj H5 (conj H6
                   (conj H7 (conj H8 (conj H9 H10)))))))))|].
  split; [exact Hbye|]. split; [exact Hkill|].
  exact (proj1 (proj2 (killClient_once demo.dispatch 1%nat cl demo.inLobby H1))
           s' Hkill).
Defined.

Lemma oldestFlagNeedingPlayer_earliest_witness :
  ∃ sh r,
    ships demo.deeBack !! 0%nat = Some sh ∧
    oldestFlagNeedingPlayer 0%nat 3%nat demo.deeBack = Returns r demo.deeBack ∧
    match r with
    | Some id => earliestRecruiting (flags sh) (players demo.deeBack) 3%nat id
    | None => ∀ id t, ¬ recruits (flags sh) (players demo.deeBack) 3%nat id t
    end.
Proof.
  assert (H : ∃ sh, ships demo.deeBack !! 0%nat = Some sh).
  { eexists. computed. }
  destruct H as (sh & H1).
  destruct (oldestFlagNeedingPlayer_earliest 0%nat sh 3%nat demo.deeBack H1)
    as (r & Hr & Hm).
  exists sh, r. exact (conj H1 (conj Hr Hm)).
Defined.
